(** * WalB userspace tools: log-to-diff conversion, diff merge and log redo

A shallow embedding of the parts of walb-tools that carry the record
formats and the three algorithms (wlog -> wdiff conversion, wdiff merge,
wlog redo), followed by the properties established about them.

Conventions of the embedding.
- A [w]-bit unsigned field is a [Z] kept in [0, 2^w); every assignment
  that can leave the range is written with its wrap-around ([u8], [u16],
  [u32], [u64]); [off_t] values are reinterpreted with [s64].
- A C++ exception is the [Throw] outcome of the [result] monad; a
  function that returns normally yields [Ok].
- [assert]s are not part of the behaviour and are left out unless the
  statement that follows them would be undefined (front of an empty
  queue, null pointer), which is modelled as a [Throw]. *)

From Stdlib Require Import ZArith Lia List Bool String Sorted.
From stdpp Require Import base list.
Import ListNotations.
Local Open Scope Z_scope.

(** ** Machine integers *)

Definition wrap (w : Z) (x : Z) : Z := x mod 2 ^ w.
Definition u8 : Z -> Z := wrap 8.
Definition u16 : Z -> Z := wrap 16.
Definition u32 : Z -> Z := wrap 32.
Definition u64 : Z -> Z := wrap 64.

(** Two's-complement reading of a 64-bit pattern ([off_t]). *)
Definition s64 (x : Z) : Z :=
  let y := u64 x in if y <? 2 ^ 63 then y else y - 2 ^ 64.

Definition UINT64_MAX : Z := 2 ^ 64 - 1.

Definition in_range (w : Z) (x : Z) : Prop := 0 <= x < 2 ^ w.

(** ** Exceptions *)

Inductive result (A : Type) : Type :=
| Ok (a : A)
| Throw (msg : string).
Arguments Ok {A} a.
Arguments Throw {A} msg.

Definition bind {A B : Type} (m : result A) (k : A -> result B) : result B :=
  match m with
  | Ok a => k a
  | Throw e => Throw e
  end.

Notation "'do' x <- m ; k" := (bind m (fun x => k))
  (at level 10, x name, m at level 100, k at level 200).
Notation "'do' ' p <- m ; k" := (bind m (fun p => k))
  (at level 10, p pattern, m at level 100, k at level 200).

(** ** Block arithmetic (walb/block_size.h) *)

Definition LOGICAL_BLOCK_SIZE : Z := 512.

(** Modelled from the spec: walb/block_size.h is not among the sources.
    [capacity_pb(pbs, lb) = ceil(lb * 512 / pbs)] (spec section 3), returned
    as an unsigned int. *)
Definition capacity_pb (pbs lb : Z) : Z :=
  u32 ((lb * LOGICAL_BLOCK_SIZE + pbs - 1) / pbs).

(** Modelled from the spec: the number of logical blocks of one physical
    block, a PB being a multiple of an LB. *)
Definition n_lb_in_pb (pbs : Z) : Z := pbs / LOGICAL_BLOCK_SIZE.

(** ** Bytes and checksums (checksum.hpp, util.hpp) *)

Module Util.

Definition byte_val (b : Byte.byte) : Z := Z.of_N (Byte.to_N b).

Definition is_zero_byte (b : Byte.byte) : bool := byte_val b =? 0.

(** Modelled from the spec: cybozu::util::calcIsAllZero is byte-wise equality
    to zero over the first [size] bytes of the buffer (spec section 4.A). *)
Definition calcIsAllZero (data : list Byte.byte) (size : Z) : bool :=
  forallb is_zero_byte (take (Z.to_nat size) data).

(** Little-endian 32-bit words of a buffer, the tail padded with zeros. *)
Fixpoint le_words (fuel : nat) (data : list Byte.byte) : list Z :=
  match fuel with
  | O => []
  | S fuel' =>
      match data with
      | [] => []
      | b0 :: r0 =>
          let '(b1, r1) := match r0 with [] => (Byte.x00, []) | b :: r => (b, r) end in
          let '(b2, r2) := match r1 with [] => (Byte.x00, []) | b :: r => (b, r) end in
          let '(b3, r3) := match r2 with [] => (Byte.x00, []) | b :: r => (b, r) end in
          (byte_val b0 + 2 ^ 8 * byte_val b1 + 2 ^ 16 * byte_val b2
           + 2 ^ 24 * byte_val b3) :: le_words fuel' r3
      end
  end.

(** Modelled from the spec: checksum.hpp is not among the sources. The sum
    of the 32-bit words seeded with the salt, modulo 2^32 (spec section 4.A). *)
Definition checksumPartial (data : list Byte.byte) (csum : Z) : Z :=
  fold_left (fun acc w => u32 (acc + w)) (le_words (length data) data) csum.

(** Modelled from the spec: finalisation by two's-complement negation,
    [~acc + 1]. *)
Definition checksumFinish (csum : Z) : Z := u32 (2 ^ 32 - csum).

Definition calcChecksum (data : list Byte.byte) (salt : Z) : Z :=
  checksumFinish (checksumPartial data salt).

End Util.

(** ** Diff records and diff IOs (walb_diff_base.hpp) *)

Module DiffBase.

(** Modelled from the spec: walb_diff.h is not among the sources. The flag
    bits are numbered in the order in which section 3.3 lists them, and
    [WALB_DIFF_CMPR_NONE] is the first compression type. *)
Definition WALB_DIFF_FLAG_EXIST_SHIFT : Z := 0.
Definition WALB_DIFF_FLAG_ALLZERO_SHIFT : Z := 1.
Definition WALB_DIFF_FLAG_DISCARD_SHIFT : Z := 2.
Definition WALB_DIFF_FLAG (shift : Z) : Z := Z.shiftl 1 shift.
Definition EXIST : Z := WALB_DIFF_FLAG WALB_DIFF_FLAG_EXIST_SHIFT.
Definition ALLZERO : Z := WALB_DIFF_FLAG WALB_DIFF_FLAG_ALLZERO_SHIFT.
Definition DISCARD : Z := WALB_DIFF_FLAG WALB_DIFF_FLAG_DISCARD_SHIFT.
Definition WALB_DIFF_CMPR_NONE : Z := 0.

(** struct walb_diff_record. *)
Record walb_diff_record : Type := mkDiffRecord {
  io_address : Z;        (* u64, logical blocks *)
  io_blocks : Z;         (* u16, logical blocks *)
  flags : Z;             (* u8 *)
  compression_type : Z;  (* u8 *)
  data_offset : Z;       (* u32 *)
  data_size : Z;         (* u32, bytes *)
  checksum : Z           (* u32 *)
}.

Definition set_flags (f : Z) (r : walb_diff_record) : walb_diff_record :=
  mkDiffRecord (io_address r) (io_blocks r) f (compression_type r)
               (data_offset r) (data_size r) (checksum r).

(** Record::init: memset to zero, then setExists. *)
Definition setExists (r : walb_diff_record) : walb_diff_record :=
  set_flags (u8 (Z.lor (flags r) EXIST)) r.
Definition init : walb_diff_record :=
  setExists (mkDiffRecord 0 0 0 0 0 0 0).

Definition ioAddress (r : walb_diff_record) : Z := io_address r.
Definition ioBlocks (r : walb_diff_record) : Z := io_blocks r.
Definition endIoAddress (r : walb_diff_record) : Z :=
  u64 (ioAddress r + ioBlocks r).
Definition compressionType (r : walb_diff_record) : Z := compression_type r.
Definition isCompressed (r : walb_diff_record) : bool :=
  negb (compressionType r =? WALB_DIFF_CMPR_NONE).
Definition dataSize (r : walb_diff_record) : Z := data_size r.

Definition exists_ (r : walb_diff_record) : bool :=
  negb (Z.land (flags r) EXIST =? 0).
Definition isAllZero (r : walb_diff_record) : bool :=
  negb (Z.land (flags r) ALLZERO =? 0).
Definition isDiscard (r : walb_diff_record) : bool :=
  negb (Z.land (flags r) DISCARD =? 0).
Definition isNormal (r : walb_diff_record) : bool :=
  negb (isAllZero r) && negb (isDiscard r).

(** Record::isValid. [WALB_DIFF_CMPR_MAX] is a constant of the missing
    walb_diff.h and is taken as a parameter. In the branch of a non-normal
    record the test [dataSize() != 0] only writes a debug line. *)
Definition isValid (WALB_DIFF_CMPR_MAX : Z) (r : walb_diff_record) : bool :=
  if negb (exists_ r) then false
  else if negb (isNormal r) then
    if isAllZero r && isDiscard r then false
    else
      let _ := negb (dataSize r =? 0) (* LOGd only *) in
      true
  else if WALB_DIFF_CMPR_MAX <=? compressionType r then false
  else if ioBlocks r =? 0 then false
  else true.

Definition setNormal (r : walb_diff_record) : walb_diff_record :=
  let f1 := u8 (Z.land (flags r) (Z.lnot ALLZERO)) in
  set_flags (u8 (Z.land f1 (Z.lnot DISCARD))) r.
Definition setAllZero (r : walb_diff_record) : walb_diff_record :=
  let f1 := u8 (Z.lor (flags r) ALLZERO) in
  set_flags (u8 (Z.land f1 (Z.lnot DISCARD))) r.
Definition setDiscard (r : walb_diff_record) : walb_diff_record :=
  let f1 := u8 (Z.land (flags r) (Z.lnot ALLZERO)) in
  set_flags (u8 (Z.lor f1 DISCARD)) r.

Definition setIoAddress (a : Z) (r : walb_diff_record) : walb_diff_record :=
  mkDiffRecord a (io_blocks r) (flags r) (compression_type r)
               (data_offset r) (data_size r) (checksum r).
Definition setIoBlocks (b : Z) (r : walb_diff_record) : walb_diff_record :=
  mkDiffRecord (io_address r) b (flags r) (compression_type r)
               (data_offset r) (data_size r) (checksum r).
Definition setCompressionType (t : Z) (r : walb_diff_record) : walb_diff_record :=
  mkDiffRecord (io_address r) (io_blocks r) (flags r) t
               (data_offset r) (data_size r) (checksum r).
Definition setDataOffset (o : Z) (r : walb_diff_record) : walb_diff_record :=
  mkDiffRecord (io_address r) (io_blocks r) (flags r) (compression_type r)
               o (data_size r) (checksum r).
Definition setDataSize (sz : Z) (r : walb_diff_record) : walb_diff_record :=
  mkDiffRecord (io_address r) (io_blocks r) (flags r) (compression_type r)
               (data_offset r) sz (checksum r).
Definition setChecksum (c : Z) (r : walb_diff_record) : walb_diff_record :=
  mkDiffRecord (io_address r) (io_blocks r) (flags r) (compression_type r)
               (data_offset r) (data_size r) c.

(** IoData: the block count, the compression type and the owned bytes
    ([data] and [size] of IoWrap always mirror the vector). *)
Record IoData : Type := mkIoData {
  ioBlocks_ : Z;        (* u16 *)
  compressionType_ : Z; (* int *)
  data_ : list Byte.byte
}.

Definition empty (io : IoData) : bool := ioBlocks_ io =? 0.

(** IoData::set(rec0): IoWrap::set0, then the vector is resized to
    [rec0.data_size] (new bytes are zero). *)
Definition resize (n : Z) (d : list Byte.byte) : list Byte.byte :=
  take (Z.to_nat n) d ++ repeat Byte.x00 (Z.to_nat n - length d)%nat.

Definition set (rec0 : walb_diff_record) (io : IoData) : IoData :=
  let '(blks, cmpr) :=
    if isNormal rec0 then (ioBlocks rec0, compressionType rec0)
    else (0, WALB_DIFF_CMPR_NONE) in
  mkIoData blks cmpr (resize (data_size rec0) (data_ io)).

(** std::vector::swap with a local buffer: the IO takes the buffer. *)
Definition swap_data (buf : list Byte.byte) (io : IoData) : IoData :=
  mkIoData (ioBlocks_ io) (compressionType_ io) buf.

(** IoWrap::calcChecksum. *)
Definition calcChecksum (io : IoData) : Z :=
  if empty io then 0 else Util.calcChecksum (data_ io) 0.

End DiffBase.

(** ** Log records, log-pack headers and log blocks (walb_log_base.hpp) *)

Module LogBase.

(** Modelled from the spec: walb/log_record.h is not among the sources. The
    flag bits are numbered in the order in which section 3.1 lists them;
    the fields have the widths of sections 3.1, 3.2 and 6.1. *)
Definition LOG_RECORD_EXIST : Z := 0.
Definition LOG_RECORD_PADDING : Z := 1.
Definition LOG_RECORD_DISCARD : Z := 2.
Definition SECTOR_TYPE_LOGPACK : Z := 1.

Definition test_bit_u32 (nr bits : Z) : bool := Z.testbit bits nr.
Definition set_bit_u32 (nr bits : Z) : Z := u32 (Z.lor bits (Z.shiftl 1 nr)).

(** struct walb_log_record. *)
Record walb_log_record : Type := mkLogRecord {
  checksum : Z;    (* u32 *)
  lsid : Z;        (* u64 *)
  lsid_local : Z;  (* u32 *)
  flags : Z;       (* u32 *)
  offset : Z;      (* u64, logical blocks *)
  io_size : Z      (* u32, logical blocks *)
}.

Definition zero_record : walb_log_record := mkLogRecord 0 0 0 0 0 0.

Definition isExist (r : walb_log_record) : bool :=
  test_bit_u32 LOG_RECORD_EXIST (flags r).
Definition isPadding (r : walb_log_record) : bool :=
  test_bit_u32 LOG_RECORD_PADDING (flags r).
Definition isDiscard (r : walb_log_record) : bool :=
  test_bit_u32 LOG_RECORD_DISCARD (flags r).
Definition hasData (r : walb_log_record) : bool :=
  isExist r && negb (isDiscard r).
Definition ioSizePb (r : walb_log_record) (pbs : Z) : Z :=
  capacity_pb pbs (io_size r).
Definition ioSizeLb (r : walb_log_record) : Z := io_size r.

(** struct walb_logpack_header with its inline record array. *)
Record walb_logpack_header : Type := mkLogpackHeader {
  hdr_checksum : Z;   (* u32 *)
  sector_type : Z;    (* u16 *)
  total_io_size : Z;  (* u32, physical blocks *)
  logpack_lsid : Z;   (* u64 *)
  n_records : Z;      (* u16 *)
  n_padding : Z;      (* u16 *)
  record : list walb_log_record
}.

(** class LogPackHeader: the header block with the block size and salt. *)
Record LogPackHeader : Type := mkLogPackHeader {
  header_ : walb_logpack_header;
  pbs_ : Z;
  salt_ : Z
}.

Definition pbs (h : LogPackHeader) : Z := pbs_ h.
(** The accessor returns uint16_t. *)
Definition totalIoSize (h : LogPackHeader) : Z := u16 (total_io_size (header_ h)).
Definition logpackLsid (h : LogPackHeader) : Z := logpack_lsid (header_ h).
Definition nRecords (h : LogPackHeader) : Z := n_records (header_ h).
Definition nPadding (h : LogPackHeader) : Z := n_padding (header_ h).

Section Header.

(** Constants of the missing walb/log_device.h, taken as parameters:
    the largest total IO size of a pack and the number of records that
    fit in one sector. *)
Variable MAX_TOTAL_IO_SIZE_IN_LOGPACK_HEADER : Z.
Variable max_n_log_record_in_sector : Z -> Z.

(** LogPackHeader::init(lsid): the block is cleared. *)
Definition init (h : LogPackHeader) (lsid0 : Z) : LogPackHeader :=
  mkLogPackHeader
    (mkLogpackHeader 0 SECTOR_TYPE_LOGPACK 0 lsid0 0 0
       (repeat zero_record (Z.to_nat (max_n_log_record_in_sector (pbs h)))))
    (pbs_ h) (salt_ h).

Definition setEnd (h : LogPackHeader) : LogPackHeader := init h UINT64_MAX.

(** The three adders write [header_->record[nRecords()]] and bump the
    counters; [padding] tells whether [n_padding] is incremented and
    [cap] what is added to [total_io_size]. *)
Definition store_record (h : LogPackHeader) (rec : walb_log_record)
           (cap : Z) (padding : bool) : LogPackHeader :=
  let hd := header_ h in
  mkLogPackHeader
    (mkLogpackHeader (hdr_checksum hd) (sector_type hd)
       (u32 (total_io_size hd + cap)) (logpack_lsid hd)
       (u16 (n_records hd + 1))
       (if padding then u16 (n_padding hd + 1) else n_padding hd)
       (<[Z.to_nat (nRecords h) := rec]> (record hd)))
    (pbs_ h) (salt_ h).

Definition new_record (h : LogPackHeader) (flags0 offset0 size : Z)
  : walb_log_record :=
  let hd := header_ h in
  let lsid_local0 := u32 (total_io_size hd + 1) in
  mkLogRecord 0 (u64 (logpack_lsid hd + lsid_local0)) lsid_local0
              flags0 offset0 size.

Definition addNormalIo (h : LogPackHeader) (offset0 size : Z)
  : result (bool * LogPackHeader) :=
  if max_n_log_record_in_sector (pbs h) <=? nRecords h then Ok (false, h)
  else if MAX_TOTAL_IO_SIZE_IN_LOGPACK_HEADER
          <? u32 (totalIoSize h + capacity_pb (pbs h) size) then Ok (false, h)
  else if size =? 0 then Throw "Normal IO can not be zero-sized."
  else
    let fl := set_bit_u32 LOG_RECORD_EXIST 0 in
    Ok (true, store_record h (new_record h fl offset0 size)
                (capacity_pb (pbs h) size) false).

Definition addDiscardIo (h : LogPackHeader) (offset0 size : Z)
  : result (bool * LogPackHeader) :=
  if max_n_log_record_in_sector (pbs h) <=? nRecords h then Ok (false, h)
  else if size =? 0 then Throw "Discard IO can not be zero-sized."
  else
    let fl := set_bit_u32 LOG_RECORD_DISCARD (set_bit_u32 LOG_RECORD_EXIST 0) in
    (* total_io_size is not updated. *)
    Ok (true, store_record h (new_record h fl offset0 size) 0 false).

(** In addPadding the remainder by [n_lb_in_pb(pbs)] traps when the block
    size is below one logical block. *)
Definition addPadding (h : LogPackHeader) (size : Z)
  : result (bool * LogPackHeader) :=
  if max_n_log_record_in_sector (pbs h) <=? nRecords h then Ok (false, h)
  else if MAX_TOTAL_IO_SIZE_IN_LOGPACK_HEADER
          <? u32 (totalIoSize h + capacity_pb (pbs h) size) then Ok (false, h)
  else if 0 <? nPadding h then Ok (false, h)
  else if n_lb_in_pb (pbs h) =? 0 then Throw "division by zero"
  else if negb (size mod n_lb_in_pb (pbs h) =? 0)
       then Throw "Padding size must be pbs-aligned."
  else
    let fl := set_bit_u32 LOG_RECORD_PADDING (set_bit_u32 LOG_RECORD_EXIST 0) in
    Ok (true, store_record h (new_record h fl 0 size)
                (capacity_pb (pbs h) size) true).

(** The three adders behind one name. *)
Inductive add_kind : Type := AddNormal | AddDiscard | AddPadding.

Definition add_io (k : add_kind) (h : LogPackHeader) (offset0 size : Z)
  : result (bool * LogPackHeader) :=
  match k with
  | AddNormal => addNormalIo h offset0 size
  | AddDiscard => addDiscardIo h offset0 size
  | AddPadding => addPadding h size
  end.

(** What an add contributes to [total_io_size]. *)
Definition added_pb (k : add_kind) (h : LogPackHeader) (size : Z) : Z :=
  match k with
  | AddDiscard => 0
  | _ => capacity_pb (pbs h) size
  end.

(** The two ways in which a pack is full. *)
Definition records_full (h : LogPackHeader) : Prop :=
  max_n_log_record_in_sector (pbs h) <= nRecords h.
Definition io_size_full (h : LogPackHeader) (size : Z) : Prop :=
  MAX_TOTAL_IO_SIZE_IN_LOGPACK_HEADER < u32 (totalIoSize h + capacity_pb (pbs h) size).

(** The record array of the header has one slot per record of a sector,
    and the counters and LSIDs stay clear of their wrap-around: the total
    fits the sixteen bits that [totalIoSize] returns. *)
Record header_ok (h : LogPackHeader) : Prop := {
  ok_pbs : 0 < pbs h;
  ok_nrec : 0 <= nRecords h;
  ok_slots : Z.of_nat (length (record (header_ h))) = max_n_log_record_in_sector (pbs h);
  ok_total : 0 <= total_io_size (header_ h) < 2 ^ 16;
  ok_lsid : 0 <= logpack_lsid (header_ h)
            /\ logpack_lsid (header_ h) + total_io_size (header_ h) + 1 < 2 ^ 64
}.

End Header.

(** class LogBlockShared: physical blocks of [pbs_] bytes each. *)
Record LogBlockShared : Type := mkLogBlockShared {
  lbs_pbs : Z;
  data_ : list (list Byte.byte)
}.

Definition nBlocks (b : LogBlockShared) : Z := Z.of_nat (length (data_ b)).

Definition checkPbs (b : LogBlockShared) : result unit :=
  if lbs_pbs b =? 0 then Throw "LogBlockShared:pbs is zero" else Ok tt.

Definition checkSizeLb (b : LogBlockShared) (ioSizeLb0 : Z) : result unit :=
  if u64 (nBlocks b * lbs_pbs b) <? u64 (ioSizeLb0 * LOGICAL_BLOCK_SIZE)
  then Throw "LogBlockShared:checkSizeLb:ioSizeLb too large"
  else Ok tt.

Definition get (b : LogBlockShared) (idx : nat) : result (list Byte.byte) :=
  do _ <- checkPbs b;
  match data_ b !! idx with
  | Some blk => Ok blk
  | None => Throw "LogBlockShared:index out of range"
  end.

(** The loop of calcIsAllZero; [rest] is [data_] from index [i] on, so that
    its head is [get(i)] and an empty [rest] is the range error of [get]. *)
Fixpoint calcIsAllZero_loop (pbs0 : Z) (rest : list (list Byte.byte))
         (remaining : Z) : result bool :=
  if 0 <? remaining then
    match rest with
    | [] => Throw "LogBlockShared:index out of range"
    | blk :: rest' =>
        let s := Z.min pbs0 remaining in
        if negb (Util.calcIsAllZero blk s) then Ok false
        else calcIsAllZero_loop pbs0 rest' (remaining - s)
    end
  else Ok true.

Definition calcIsAllZero (b : LogBlockShared) (ioSizeLb0 : Z) : result bool :=
  do _ <- checkPbs b;
  do _ <- checkSizeLb b ioSizeLb0;
  calcIsAllZero_loop (lbs_pbs b) (data_ b) (u64 (ioSizeLb0 * LOGICAL_BLOCK_SIZE)).

End LogBase.

(** ** The converter from wlog to wdiff (walb_diff_converter.hpp) *)

Module Converter.

(** The converter of this revision names the record and IO types
    DiffRecord and DiffIo; they are the record and the IO data of
    walb_diff_base.hpp. *)
Abbreviation DiffRecord := DiffBase.walb_diff_record.
Abbreviation DiffIo := DiffBase.IoData.
Abbreviation LogRecord := LogBase.walb_log_record.

(** memcpy(&buf[off], src, n). *)
Definition memcpy (buf : list Byte.byte) (off : Z) (src : list Byte.byte) (n : Z)
  : list Byte.byte :=
  take (Z.to_nat off) buf ++ take (Z.to_nat n) src
    ++ drop (Z.to_nat (off + n)) buf.

(** The copy loop of convertLogToDiff: [cnt] iterations are left and [i]
    is the loop index. *)
Fixpoint copy_loop (pbs : Z) (blockS : LogBase.LogBlockShared) (cnt i : nat)
         (buf : list Byte.byte) (off remaining : Z) : result (list Byte.byte) :=
  match cnt with
  | O => Ok buf
  | S cnt' =>
      let copySize := Z.min pbs remaining in
      do blk <- LogBase.get blockS i;
      copy_loop pbs blockS cnt' (S i) (memcpy buf off blk copySize)
                (off + copySize) (remaining - copySize)
  end.

(** convertLogToDiff; the two output parameters come back with the flag. *)
Definition convertLogToDiff (pbs : Z) (rec : LogRecord)
           (blockS : LogBase.LogBlockShared) (mrec : DiffRecord) (diffIo : DiffIo)
  : result (bool * DiffRecord * DiffIo) :=
  (* Padding *)
  if LogBase.isPadding rec then Ok (false, mrec, diffIo)
  else
    let mrec := DiffBase.init in
    let mrec := DiffBase.setIoAddress (LogBase.offset rec) mrec in
    let mrec := DiffBase.setIoBlocks (u16 (LogBase.io_size rec)) mrec in
    (* Discard *)
    if LogBase.isDiscard rec then
      let mrec := DiffBase.setDiscard mrec in
      let mrec := DiffBase.setDataSize 0 mrec in
      Ok (true, mrec, DiffBase.set mrec diffIo)
    else
      (* AllZero *)
      do allzero <- LogBase.calcIsAllZero blockS (LogBase.ioSizeLb rec);
      if (allzero : bool) then
        let mrec := DiffBase.setAllZero mrec in
        let mrec := DiffBase.setDataSize 0 mrec in
        Ok (true, mrec, DiffBase.set mrec diffIo)
      else
        (* Copy data from logpack data to diff io data. *)
        let ioSizeB := u32 (LogBase.ioSizeLb rec * LOGICAL_BLOCK_SIZE) in
        let buf := repeat Byte.x00 (Z.to_nat ioSizeB) in
        let ioSizePb := LogBase.ioSizePb rec pbs in
        do buf <- copy_loop pbs blockS (Z.to_nat ioSizePb) 0 buf 0 ioSizeB;
        let diffIo := DiffBase.swap_data buf (DiffBase.set mrec diffIo) in
        (* Compression. (currently NONE). *)
        let mrec := DiffBase.setCompressionType DiffBase.WALB_DIFF_CMPR_NONE mrec in
        let mrec := DiffBase.setDataOffset 0 mrec in
        let mrec := DiffBase.setDataSize ioSizeB mrec in
        (* Checksum. *)
        let mrec := DiffBase.setChecksum (DiffBase.calcChecksum diffIo) mrec in
        Ok (true, mrec, diffIo).

(** The payload of a record: its first [io_size] logical blocks in the
    sequence of its physical blocks. *)
Definition payload (rec : LogRecord) (blockS : LogBase.LogBlockShared)
  : list Byte.byte :=
  take (Z.to_nat (LogBase.io_size rec * LOGICAL_BLOCK_SIZE))
       (concat (LogBase.data_ blockS)).

(** The blocks read for a record: blocks of [pbs] bytes each, of the block
    size the converter was given, enough of them for the record. *)
Record blocks_ok (pbs : Z) (rec : LogRecord) (blockS : LogBase.LogBlockShared)
  : Prop := {
  bo_pbs : LogBase.lbs_pbs blockS = pbs;
  bo_pos : 0 < pbs;
  bo_len : Forall (fun b => Z.of_nat (length b) = pbs) (LogBase.data_ blockS);
  bo_fit : LogBase.io_size rec * LOGICAL_BLOCK_SIZE <= LogBase.nBlocks blockS * pbs;
  bo_mem : LogBase.nBlocks blockS * pbs < 2 ^ 64
}.

(** memcmp(a, b, UUID_SIZE) == 0. *)
Fixpoint uuid_eqb (a b : list Byte.byte) : bool :=
  match a, b with
  | [], [] => true
  | x :: a', y :: b' => Byte.eqb x y && uuid_eqb a' b'
  | _, _ => false
  end.

(** Modelled from the spec: walb_diff_mem.hpp is not among the sources. The
    in-memory diff is represented by the UUID of its header and by the
    sequence of [add] calls it has received, oldest first. *)
Record MemoryData : Type := mkMemoryData {
  md_uuid : list Byte.byte;
  md_added : list (DiffRecord * DiffIo)
}.

Definition setUuid (u : list Byte.byte) (m : MemoryData) : MemoryData :=
  mkMemoryData u (md_added m).
Definition add (rec : DiffRecord) (io : DiffIo) (m : MemoryData) : MemoryData :=
  mkMemoryData (md_uuid m) (md_added m ++ [(rec, io)]).

(** Modelled from the spec: walb_log_file.hpp is not among the sources. One
    wlog file as log::Reader delivers it: the fields of the file header
    (section 4.B), the records with their blocks in stream order, and the
    LSID the reader stands at when it has reached the end marker. *)
Record WlogFile : Type := mkWlogFile {
  wl_pbs : Z;
  wl_uuid : list Byte.byte;
  wl_beginLsid : Z;
  wl_endLsid : Z;
  wl_logs : list (LogRecord * LogBase.LogBlockShared)
}.

(** The variables that Converter::convert threads through convertWlog. *)
Record ConvState : Type := mkConvState {
  cs_lsid : Z;           (* uint64_t lsid *)
  cs_writtenBlocks : Z;  (* uint64_t writtenBlocks *)
  cs_walbDiff : MemoryData
}.

(** The loop "Convert each log" of convertWlog. *)
Fixpoint convert_logs (pbs : Z) (logs : list (LogRecord * LogBase.LogBlockShared))
         (written : Z) (walbDiff : MemoryData) : result (Z * MemoryData) :=
  match logs with
  | [] => Ok (written, walbDiff)
  | (lrec, blockS) :: logs' =>
      do '(ok, diffRec, diffIo) <-
         convertLogToDiff pbs lrec blockS DiffBase.init
                          (DiffBase.mkIoData 0 DiffBase.WALB_DIFF_CMPR_NONE []);
      if (ok : bool) then
        convert_logs pbs logs'
                     (u64 (written + DiffBase.io_blocks diffRec))
                     (add diffRec diffIo walbDiff)
      else convert_logs pbs logs' written walbDiff
  end.

(** The block "Initialize walb diff db" of convertWlog: the LSID and the
    diff with which the conversion of the file starts. *)
Definition beginWlog (st : ConvState) (wl : WlogFile) : result (Z * MemoryData) :=
  if cs_lsid st =? UINT64_MAX then
    (* First time: initialize uuid. *)
    Ok (wl_beginLsid wl, setUuid (wl_uuid wl) (cs_walbDiff st))
  else
    (* Second or more. *)
    if negb (cs_lsid st =? wl_beginLsid wl) then Throw "lsid mismatch."
    else if negb (uuid_eqb (md_uuid (cs_walbDiff st)) (wl_uuid wl))
         then Throw "Uuid mismatch."
    else Ok (cs_lsid st, cs_walbDiff st).

(** convertWlog once the header of a further file has been read. *)
Definition convertWlog_file (st : ConvState) (wl : WlogFile) : result ConvState :=
  do '(lsid0, walbDiff0) <- beginWlog st wl;
  do '(written, walbDiff1) <-
     convert_logs (wl_pbs wl) (wl_logs wl) (cs_writtenBlocks st) walbDiff0;
  Ok (mkConvState (wl_endLsid wl) written walbDiff1).

(** convertWlog on the input stream: false at the end of the input (the
    EofError of readHeader), true after one file has been converted. *)
Definition convertWlog (st : ConvState) (input : list WlogFile)
  : result (bool * ConvState * list WlogFile) :=
  match input with
  | [] => Ok (false, st, [])
  | wl :: rest => do st' <- convertWlog_file st wl; Ok (true, st', rest)
  end.

(** The loop [while (convertWlog(...)) {}] of Converter::convert. *)
Fixpoint convert_loop (st : ConvState) (input : list WlogFile) : result ConvState :=
  match input with
  | [] => Ok st
  | wl :: rest => do st' <- convertWlog_file st wl; convert_loop st' rest
  end.

Definition UUID_SIZE : nat := 16.

(** The state in which Converter::convert enters its loop. *)
Definition convert_init : ConvState :=
  mkConvState UINT64_MAX 0 (mkMemoryData (repeat Byte.x00 UUID_SIZE) []).

(** Converter::convert up to the serialisation of the diff. *)
Definition convert (input : list WlogFile) : result ConvState :=
  convert_loop convert_init input.

End Converter.

(** ** The diff merger (walb_diff_merge.hpp) *)

Module Merger.

Abbreviation DiffRecord := DiffBase.walb_diff_record.
Abbreviation DiffIo := DiffBase.IoData.
Definition DiffRecIo : Type := DiffRecord * DiffIo.

(** DiffMerger::Wdiff. [fill] and [getAndRemoveIo] are only declared in the
    header; the stream is represented by the records it has not handed
    out yet, the front record first (uncompressed, as mergeIo requires). *)
Record Wdiff : Type := mkWdiff { w_recs : list DiffRecIo }.

Definition isEnd (w : Wdiff) : bool :=
  match w_recs w with [] => true | _ => false end.

Definition currentAddress (w : Wdiff) : Z :=
  match w_recs w with
  | [] => UINT64_MAX
  | (rec, _) :: _ => DiffBase.io_address rec
  end.

(** Modelled from the spec: walb_diff_mem.hpp is not among the sources. The
    scratch diff map is represented by the records added to it, oldest
    first. *)
Record DiffMerger : Type := mkDiffMerger {
  wdiffs_ : list Wdiff;
  diffMem_ : list DiffRecIo;
  doneAddr_ : Z;   (* uint64_t *)
  searchLen_ : Z   (* size_t *)
}.

(** DiffMerger::shouldMerge. *)
Definition shouldMerge (m : DiffMerger) (rec : DiffRecord) (minAddr : Z) : bool :=
  (DiffBase.io_address rec <? u64 (doneAddr_ m + searchLen_ m))
  && (DiffBase.endIoAddress rec <=? minAddr).

(** DiffMerger::mergeIo. *)
Definition mergeIo (rec : DiffRecord) (io : DiffIo) (mem : list DiffRecIo)
  : list DiffRecIo := mem ++ [(rec, io)].

(** Modelled from the spec: getMinimumAddr is only declared in the header.
    The minimum front address over the open streams, or u64::MAX
    (section 4.E, step 1a). *)
Definition getMinimumAddr (ws : list Wdiff) : Z :=
  fold_right (fun w acc => Z.min (currentAddress w) acc) UINT64_MAX ws.

(** Modelled from the spec: the inner loop of step 1b of section 4.E for
    one stream: while the stream is not at its end and shouldMerge accepts
    its front record, the record is popped and added to the map. *)
Fixpoint moveStream (m : DiffMerger) (minAddr : Z) (recs : list DiffRecIo)
         (mem : list DiffRecIo) : list DiffRecIo * list DiffRecIo :=
  match recs with
  | [] => ([], mem)
  | (rec, io) :: recs' =>
      if shouldMerge m rec minAddr
      then moveStream m minAddr recs' (mergeIo rec io mem)
      else (recs, mem)
  end.

(** Modelled from the spec: step 1b over the open streams, oldest first. *)
Fixpoint moveStreams (m : DiffMerger) (minAddr : Z) (ws : list Wdiff)
         (mem : list DiffRecIo) : list Wdiff * list DiffRecIo :=
  match ws with
  | [] => ([], mem)
  | w :: ws' =>
      let '(rest, mem1) := moveStream m minAddr (w_recs w) mem in
      let '(ws1, mem2) := moveStreams m minAddr ws' mem1 in
      (mkWdiff rest :: ws1, mem2)
  end.

(** Modelled from the spec: tryMoveToDiffMemory is only declared in the
    header. Steps 1a to 1c of section 4.E. *)
Definition tryMoveToDiffMemory (m : DiffMerger) : DiffMerger :=
  let minAddr := getMinimumAddr (wdiffs_ m) in
  let '(ws, mem) := moveStreams m minAddr (wdiffs_ m) (diffMem_ m) in
  mkDiffMerger ws mem minAddr (searchLen_ m).

(** A stream whose front record, if it has one, has at least one block and
    lies in the address space. *)
Definition front_has_blocks (w : Wdiff) : Prop :=
  match w_recs w with
  | [] => True
  | (rec, _) :: _ =>
      0 < DiffBase.io_blocks rec
      /\ 0 <= DiffBase.io_address rec
      /\ DiffBase.io_address rec + DiffBase.io_blocks rec < 2 ^ 64
  end.

End Merger.

(** ** The redo engine (wlog-redo.cpp) *)

Module Redo.

Abbreviation LogRecord := LogBase.walb_log_record.

(** AlignedArray: the address [data()] of the buffer and its bytes. *)
Record AlignedArray : Type := mkAlignedArray {
  aa_data : Z;
  aa_bytes : list Byte.byte
}.

(** class Io. *)
Record Io : Type := mkIo {
  offset_ : Z;           (* off_t, bytes *)
  size_ : Z;             (* size_t, bytes *)
  aioKey_ : Z;           (* uint32_t *)
  isSubmitted_ : bool;
  isCompleted_ : bool;
  isOverwritten_ : bool;
  blocks_ : list AlignedArray;
  nOverlapped_ : Z;      (* uint32_t *)
  sequenceId_ : Z        (* u64 *)
}.

Definition set_offset_ (v : Z) (r : Io) : Io :=
  mkIo v (size_ r) (aioKey_ r) (isSubmitted_ r) (isCompleted_ r) (isOverwritten_ r) (blocks_ r) (nOverlapped_ r) (sequenceId_ r).

Definition set_size_ (v : Z) (r : Io) : Io :=
  mkIo (offset_ r) v (aioKey_ r) (isSubmitted_ r) (isCompleted_ r) (isOverwritten_ r) (blocks_ r) (nOverlapped_ r) (sequenceId_ r).

Definition set_aioKey_ (v : Z) (r : Io) : Io :=
  mkIo (offset_ r) (size_ r) v (isSubmitted_ r) (isCompleted_ r) (isOverwritten_ r) (blocks_ r) (nOverlapped_ r) (sequenceId_ r).

Definition set_isSubmitted_ (v : bool) (r : Io) : Io :=
  mkIo (offset_ r) (size_ r) (aioKey_ r) v (isCompleted_ r) (isOverwritten_ r) (blocks_ r) (nOverlapped_ r) (sequenceId_ r).

Definition set_isCompleted_ (v : bool) (r : Io) : Io :=
  mkIo (offset_ r) (size_ r) (aioKey_ r) (isSubmitted_ r) v (isOverwritten_ r) (blocks_ r) (nOverlapped_ r) (sequenceId_ r).

Definition set_isOverwritten_ (v : bool) (r : Io) : Io :=
  mkIo (offset_ r) (size_ r) (aioKey_ r) (isSubmitted_ r) (isCompleted_ r) v (blocks_ r) (nOverlapped_ r) (sequenceId_ r).

Definition set_blocks_ (v : list AlignedArray) (r : Io) : Io :=
  mkIo (offset_ r) (size_ r) (aioKey_ r) (isSubmitted_ r) (isCompleted_ r) (isOverwritten_ r) v (nOverlapped_ r) (sequenceId_ r).

Definition set_nOverlapped_ (v : Z) (r : Io) : Io :=
  mkIo (offset_ r) (size_ r) (aioKey_ r) (isSubmitted_ r) (isCompleted_ r) (isOverwritten_ r) (blocks_ r) v (sequenceId_ r).

Definition set_sequenceId_ (v : Z) (r : Io) : Io :=
  mkIo (offset_ r) (size_ r) (aioKey_ r) (isSubmitted_ r) (isCompleted_ r) (isOverwritten_ r) (blocks_ r) (nOverlapped_ r) v.

(** Io(offset, size, block) with the id the sequence generator hands out. *)
Definition newIo (offset size : Z) (block : AlignedArray) (seq : Z) : Io :=
  mkIo offset size 0 false false false [block] 0 seq.

Definition empty (io : Io) : bool :=
  match blocks_ io with [] => true | _ => false end.

(** Io::overwritten. *)
Definition overwritten (io : Io) : Io :=
  if isOverwritten_ io then io
  else
    let io1 := set_isOverwritten_ true io in
    if isSubmitted_ io1 then io1 else set_blocks_ [] io1 (* No more required. *).

Definition markSubmitted (io : Io) : Io := set_isSubmitted_ true io.
Definition markCompleted (io : Io) : Io := set_isCompleted_ true io.

(** Io::canMerge. *)
Definition canMerge (lhs rhs : Io) : bool :=
  match blocks_ lhs, blocks_ rhs with
  | b0 :: _, b1 :: _ =>
      (* Check Io targets and buffers are adjacent. *)
      if negb (s64 (offset_ lhs + size_ lhs) =? offset_ rhs) then false
      else
        (* Check buffers are contiguous. *)
        aa_data b0 + size_ lhs =? aa_data b1
  | _, _ => false (* They must have data buffers. *)
  end.

(** Io::tryMerge: the flag, this IO and the argument after the call. *)
Definition tryMerge (lhs rhs : Io) : bool * Io * Io :=
  if negb (canMerge lhs rhs) then (false, lhs, rhs)
  else
    (true,
     set_blocks_ (blocks_ lhs ++ blocks_ rhs)
                 (set_size_ (u64 (size_ lhs + size_ rhs)) lhs),
     set_blocks_ [] rhs).

(** Io::isOverlapped and Io::isOverwrittenBy. *)
Definition isOverlapped (lhs rhs : Io) : bool :=
  (offset_ lhs <? offset_ rhs + size_ rhs)
  && (offset_ rhs <? offset_ lhs + size_ lhs).

Definition isOverwrittenBy (lhs rhs : Io) : bool :=
  (offset_ rhs <=? offset_ lhs)
  && (offset_ lhs + size_ lhs <=? offset_ rhs + size_ rhs).

(** *** class IoQueue

    The staging queue of redoNormalIo holds the only reference to its IOs,
    so it is a list of IO values, the front first. *)

Definition maxIoSize_ : Z := 1024 * 1024.

(** IoQueue::tryMerge. *)
Definition IoQueue_tryMerge (io0 io1 : Io) : bool * Io * Io :=
  (* Check max io size. *)
  if maxIoSize_ <? u64 (size_ io0 + size_ io1) then (false, io0, io1)
  else tryMerge io0 io1.

(** IoQueue::add. *)
Definition IoQueue_add (ioQ : list Io) (iop : Io) : list Io :=
  match rev ioQ with
  | [] => [iop]
  | back :: rfront =>
      let '(merged, back', _) := IoQueue_tryMerge back iop in
      if (merged : bool) then rev (back' :: rfront) else ioQ ++ [iop]
  end.

(** *** The store of the shared IOs

    Once an IO has left the staging queue it is shared between the queues
    and the overlap set. A shared pointer is the index of its IO in the
    store; the store only grows, so a pointer that was handed out always
    has its IO. [deref] of an index outside the store is a blank IO. *)

Abbreviation IoPtr := nat.

Definition blank_io : Io := mkIo 0 0 0 false false false [] 0 0.

Definition deref (h : list Io) (p : IoPtr) : Io := default blank_io (h !! p).

Definition upd (h : list Io) (p : IoPtr) (f : Io -> Io) : list Io := alter f p h.

(** *** class OverlappedData

    The set of (offset, pointer) pairs in its order: by offset, then by
    pointer (here the order of the pointers is that of their creation). *)

Record OverlappedData : Type := mkOverlappedData {
  set_ : list (Z * IoPtr);
  maxSize_ : Z   (* size_t *)
}.

Definition pair_lt (a b : Z * IoPtr) : bool :=
  (fst a <? fst b) || ((fst a =? fst b) && (snd a <? snd b)%nat).

(** std::set::emplace. *)
Fixpoint set_emplace (k : Z * IoPtr) (s : list (Z * IoPtr)) : list (Z * IoPtr) :=
  match s with
  | [] => [k]
  | e :: s' =>
      if pair_lt k e then k :: e :: s'
      else if pair_lt e k then e :: set_emplace k s'
      else e :: s'
  end.

(** std::set::erase of a key. *)
Fixpoint set_erase (k : Z * IoPtr) (s : list (Z * IoPtr)) : list (Z * IoPtr) :=
  match s with
  | [] => []
  | e :: s' =>
      if (fst e =? fst k) && (snd e =? snd k)%nat then s'
      else e :: set_erase k s'
  end.

(** std::set::lower_bound of the pair (key0, null): the null pointer is
    below every pointer, so the elements skipped are those of a smaller
    offset. *)
Fixpoint lower_bound (key0 : Z) (s : list (Z * IoPtr)) : list (Z * IoPtr) :=
  match s with
  | [] => []
  | e :: s' => if fst e <? key0 then lower_bound key0 s' else s
  end.

(** The loop "Count overlapped IOs" of OverlappedData::ins, from the
    iterator [it] on. *)
Fixpoint ins_scan (iop : IoPtr) (key1 : Z) (it : list (Z * IoPtr)) (h : list Io)
  : list Io :=
  match it with
  | [] => h
  | (k, p) :: it' =>
      if k <? key1 then
        let h1 :=
          if isOverlapped (deref h p) (deref h iop) then
            let h2 := upd h iop (fun io => set_nOverlapped_ (u32 (nOverlapped_ io + 1)) io) in
            if isOverwrittenBy (deref h2 p) (deref h2 iop)
            then upd h2 p overwritten
            else h2
          else h in
        ins_scan iop key1 it' h1
      else h
  end.

(** OverlappedData::ins. *)
Definition ins (h : list Io) (ol : OverlappedData) (iop : IoPtr)
  : list Io * OverlappedData :=
  let io := deref h iop in
  (* Get search range. *)
  let key0 := if maxSize_ ol <? offset_ io then offset_ io - maxSize_ ol else 0 in
  let key1 := s64 (offset_ io + size_ io) in
  (* Count overlapped IOs. *)
  let h1 := upd h iop (set_nOverlapped_ 0) in
  let h2 := ins_scan iop key1 (lower_bound key0 (set_ ol)) h1 in
  (* Insert iop and update maxSize_. *)
  (h2, mkOverlappedData (set_emplace (offset_ io, iop) (set_ ol))
                        (if maxSize_ ol <? size_ io then size_ io else maxSize_ ol)).

(** The loop "Decrement nOverlapped of overlapped IOs" of
    OverlappedData::del. *)
Fixpoint del_scan (iop : IoPtr) (key1 : Z) (it : list (Z * IoPtr)) (h : list Io)
         (ioQ : list IoPtr) : list Io * list IoPtr :=
  match it with
  | [] => (h, ioQ)
  | (k, p) :: it' =>
      if k <? key1 then
        if isOverlapped (deref h p) (deref h iop) then
          let h1 := upd h p (fun io => set_nOverlapped_ (u32 (nOverlapped_ io - 1)) io) in
          if nOverlapped_ (deref h1 p) =? 0
          then del_scan iop key1 it' h1 (ioQ ++ [p])
          else del_scan iop key1 it' h1 ioQ
        else del_scan iop key1 it' h ioQ
      else (h, ioQ)
  end.

(** OverlappedData::del; the last component is the queue [ioQ]. *)
Definition del (h : list Io) (ol : OverlappedData) (iop : IoPtr) (ioQ : list IoPtr)
  : list Io * OverlappedData * list IoPtr :=
  let io := deref h iop in
  (* Delete iop. *)
  let s1 := set_erase (offset_ io, iop) (set_ ol) in
  (* Reset maxSize_ if empty. *)
  let maxSize1 := match s1 with [] => 0 | _ => maxSize_ ol end in
  (* Get search range. *)
  let key0 := if maxSize1 <? offset_ io then offset_ io - maxSize1 else 0 in
  let key1 := s64 (offset_ io + size_ io) in
  let '(h1, ioQ1) := del_scan iop key1 (lower_bound key0 s1) h ioQ in
  (h1, mkOverlappedData s1 maxSize1, ioQ1).

(** The elements that the loops of ins and del visit from the iterator
    [it] on: those before the first key that is not below [key1]. *)
Fixpoint scan_window (key1 : Z) (it : list (Z * IoPtr)) : list (Z * IoPtr) :=
  match it with
  | [] => []
  | e :: it' => if fst e <? key1 then e :: scan_window key1 it' else []
  end.

(** The byte ranges of two IOs have a byte in common. *)
Definition ranges_intersect (a b : Io) : Prop :=
  exists x, offset_ a <= x < offset_ a + size_ a
            /\ offset_ b <= x < offset_ b + size_ b.

Definition intersectb (a b : Io) : bool :=
  Z.max (offset_ a) (offset_ b)
  <? Z.min (offset_ a + size_ a) (offset_ b + size_ b).

(** An IO that is overwritten and was not submitted before. *)
Definition dead (io : Io) : Prop :=
  isOverwritten_ io = true /\ isSubmitted_ io = false.

(** What the overlap set relies on: the elements are in the order of their
    offsets, every element is keyed on the offset of its IO, and [maxSize_]
    bounds the sizes of the live IOs, which have at least one byte. *)
Definition keys_sorted (s : list (Z * IoPtr)) : Prop :=
  StronglySorted (fun a b => fst a <= fst b) s.

Record ol_inv (h : list Io) (ol : OverlappedData) : Prop := {
  oi_sorted : keys_sorted (set_ ol);
  oi_elem : forall k p,
      In (k, p) (set_ ol) ->
      (p < length h)%nat
      /\ offset_ (deref h p) = k
      /\ 0 <= k
      /\ 0 < size_ (deref h p) <= maxSize_ ol;
  oi_count : Z.of_nat (length (set_ ol)) < 2 ^ 32
}.

(** An IO that was overwritten before its submission has given up its
    blocks. *)
Definition released (h : list Io) : Prop :=
  forall p, dead (deref h p) -> blocks_ (deref h p) = [].

(** The relations that the mutators of an IO respect. *)
Record io_rel_ok (R : Io -> Io -> Prop) : Prop := {
  r_refl : forall io, R io io;
  r_trans : forall a b c, R a b -> R b c -> R a c;
  r_nov : forall io v, R io (set_nOverlapped_ v io);
  r_ow : forall io, R io (overwritten io);
  r_sub : forall io k,
      isOverwritten_ io = false -> R io (markSubmitted (set_aioKey_ k io));
  r_comp : forall io, isSubmitted_ io = true -> R io (markCompleted io)
}.

(** Three such relations: the geometry of an IO does not change; an
    overwritten IO stays overwritten; an IO that died stays dead. *)
Definition same_geom (a b : Io) : Prop :=
  offset_ a = offset_ b /\ size_ a = size_ b.

Definition stays_overwritten (a b : Io) : Prop :=
  isOverwritten_ a = true -> isOverwritten_ b = true.

Definition stays_dead (a b : Io) : Prop := dead a -> dead b.

Definition stays_released (a b : Io) : Prop :=
  (dead a -> blocks_ a = []) -> (dead b -> blocks_ b = []).

Definition same_submitted (a b : Io) : Prop :=
  isSubmitted_ a = isSubmitted_ b.

(** *** Asynchronous IO

    Modelled from the spec: aio_util.hpp is not among the sources. A prepared
    write gets a fresh positive key and is queued; [submit] issues the
    queued writes to the device in their order; [waitFor] completes an
    issued write (section 4.G, submission batch and completion wait). A
    write carries the bytes of the buffers of its IO, which are contiguous
    from the address it was prepared with. *)

Record AioWrite : Type := mkAioWrite {
  w_key : Z;
  w_offset : Z;
  w_size : Z;
  w_buf : Z;
  w_bytes : list Byte.byte
}.

Record Aio : Type := mkAio {
  aio_nextKey : Z;
  aio_prepared : list AioWrite;
  aio_issued : list AioWrite;
  aio_completed : list Z
}.

Definition aio_init : Aio := mkAio 1 [] [] [].

Definition prepareWrite (a : Aio) (off size buf : Z) (bytes : list Byte.byte)
  : Z * Aio :=
  (aio_nextKey a,
   mkAio (aio_nextKey a + 1)
         (aio_prepared a ++ [mkAioWrite (aio_nextKey a) off size buf bytes])
         (aio_issued a) (aio_completed a)).

Definition submit (a : Aio) : Aio :=
  mkAio (aio_nextKey a) [] (aio_issued a ++ aio_prepared a) (aio_completed a).

Definition waitFor (a : Aio) (key : Z) : result Aio :=
  if existsb (fun w => w_key w =? key) (aio_issued a)
     && negb (existsb (Z.eqb key) (aio_completed a))
  then Ok (mkAio (aio_nextKey a) (aio_prepared a) (aio_issued a)
                 (aio_completed a ++ [key]))
  else Throw "aio: waitFor failed.".

(** The device as its bytes; the writes issued so far applied in order. *)
Definition apply_write (dev : list Byte.byte) (w : AioWrite) : list Byte.byte :=
  take (Z.to_nat (w_offset w)) dev
    ++ take (Z.to_nat (w_size w)) (w_bytes w)
    ++ drop (Z.to_nat (w_offset w + w_size w)) dev.


(** *** class WalbLogApplyer *)

(** What does not change during a run: the two options of Config that the
    engine reads, the device, the block size of the device, the queue
    size, the block size of the wlog header, and the addresses at which
    the zero blocks of a zero-discard are allocated. *)
Record Env : Type := mkEnv {
  cfg_isDiscard : bool;
  cfg_isZeroDiscard : bool;
  bd_deviceSize : Z;      (* bd_.getDeviceSize(), bytes *)
  blockSize_ : Z;
  queueSize_ : Z;
  wh_pbs : Z;
  alloc_addr : nat -> Z
}.

(** The members that change, the store of the IOs, the generator of
    sequence ids, the number of zero blocks allocated and the discards
    issued to the device. The statistics are counters of IOs and are kept
    unbounded. *)
Record Applyer : Type := mkApplyer {
  heap : list Io;
  seqgen : Z;
  nalloc : nat;
  aio_ : Aio;
  discards : list (Z * Z);
  ioQ_ : list IoPtr;       (* serialized by lsid. *)
  readyIoQ_ : list IoPtr;  (* ready to submit. *)
  submitIoQ_ : list IoPtr; (* submitted, but not completed. *)
  nPendingBlocks_ : Z;
  olData_ : OverlappedData;
  nWritten_ : Z;
  nOverwritten_ : Z;
  nClipped_ : Z;
  nDiscard_ : Z;
  nPadding_ : Z
}.

Definition set_heap (v : list Io) (r : Applyer) : Applyer :=
  mkApplyer v (seqgen r) (nalloc r) (aio_ r) (discards r) (ioQ_ r) (readyIoQ_ r) (submitIoQ_ r) (nPendingBlocks_ r) (olData_ r) (nWritten_ r) (nOverwritten_ r) (nClipped_ r) (nDiscard_ r) (nPadding_ r).

Definition set_seqgen (v : Z) (r : Applyer) : Applyer :=
  mkApplyer (heap r) v (nalloc r) (aio_ r) (discards r) (ioQ_ r) (readyIoQ_ r) (submitIoQ_ r) (nPendingBlocks_ r) (olData_ r) (nWritten_ r) (nOverwritten_ r) (nClipped_ r) (nDiscard_ r) (nPadding_ r).

Definition set_nalloc (v : nat) (r : Applyer) : Applyer :=
  mkApplyer (heap r) (seqgen r) v (aio_ r) (discards r) (ioQ_ r) (readyIoQ_ r) (submitIoQ_ r) (nPendingBlocks_ r) (olData_ r) (nWritten_ r) (nOverwritten_ r) (nClipped_ r) (nDiscard_ r) (nPadding_ r).

Definition set_aio_ (v : Aio) (r : Applyer) : Applyer :=
  mkApplyer (heap r) (seqgen r) (nalloc r) v (discards r) (ioQ_ r) (readyIoQ_ r) (submitIoQ_ r) (nPendingBlocks_ r) (olData_ r) (nWritten_ r) (nOverwritten_ r) (nClipped_ r) (nDiscard_ r) (nPadding_ r).

Definition set_discards (v : list (Z * Z)) (r : Applyer) : Applyer :=
  mkApplyer (heap r) (seqgen r) (nalloc r) (aio_ r) v (ioQ_ r) (readyIoQ_ r) (submitIoQ_ r) (nPendingBlocks_ r) (olData_ r) (nWritten_ r) (nOverwritten_ r) (nClipped_ r) (nDiscard_ r) (nPadding_ r).

Definition set_ioQ_ (v : list IoPtr) (r : Applyer) : Applyer :=
  mkApplyer (heap r) (seqgen r) (nalloc r) (aio_ r) (discards r) v (readyIoQ_ r) (submitIoQ_ r) (nPendingBlocks_ r) (olData_ r) (nWritten_ r) (nOverwritten_ r) (nClipped_ r) (nDiscard_ r) (nPadding_ r).

Definition set_readyIoQ_ (v : list IoPtr) (r : Applyer) : Applyer :=
  mkApplyer (heap r) (seqgen r) (nalloc r) (aio_ r) (discards r) (ioQ_ r) v (submitIoQ_ r) (nPendingBlocks_ r) (olData_ r) (nWritten_ r) (nOverwritten_ r) (nClipped_ r) (nDiscard_ r) (nPadding_ r).

Definition set_submitIoQ_ (v : list IoPtr) (r : Applyer) : Applyer :=
  mkApplyer (heap r) (seqgen r) (nalloc r) (aio_ r) (discards r) (ioQ_ r) (readyIoQ_ r) v (nPendingBlocks_ r) (olData_ r) (nWritten_ r) (nOverwritten_ r) (nClipped_ r) (nDiscard_ r) (nPadding_ r).

Definition set_nPendingBlocks_ (v : Z) (r : Applyer) : Applyer :=
  mkApplyer (heap r) (seqgen r) (nalloc r) (aio_ r) (discards r) (ioQ_ r) (readyIoQ_ r) (submitIoQ_ r) v (olData_ r) (nWritten_ r) (nOverwritten_ r) (nClipped_ r) (nDiscard_ r) (nPadding_ r).

Definition set_olData_ (v : OverlappedData) (r : Applyer) : Applyer :=
  mkApplyer (heap r) (seqgen r) (nalloc r) (aio_ r) (discards r) (ioQ_ r) (readyIoQ_ r) (submitIoQ_ r) (nPendingBlocks_ r) v (nWritten_ r) (nOverwritten_ r) (nClipped_ r) (nDiscard_ r) (nPadding_ r).

Definition set_nWritten_ (v : Z) (r : Applyer) : Applyer :=
  mkApplyer (heap r) (seqgen r) (nalloc r) (aio_ r) (discards r) (ioQ_ r) (readyIoQ_ r) (submitIoQ_ r) (nPendingBlocks_ r) (olData_ r) v (nOverwritten_ r) (nClipped_ r) (nDiscard_ r) (nPadding_ r).

Definition set_nOverwritten_ (v : Z) (r : Applyer) : Applyer :=
  mkApplyer (heap r) (seqgen r) (nalloc r) (aio_ r) (discards r) (ioQ_ r) (readyIoQ_ r) (submitIoQ_ r) (nPendingBlocks_ r) (olData_ r) (nWritten_ r) v (nClipped_ r) (nDiscard_ r) (nPadding_ r).

Definition set_nClipped_ (v : Z) (r : Applyer) : Applyer :=
  mkApplyer (heap r) (seqgen r) (nalloc r) (aio_ r) (discards r) (ioQ_ r) (readyIoQ_ r) (submitIoQ_ r) (nPendingBlocks_ r) (olData_ r) (nWritten_ r) (nOverwritten_ r) v (nDiscard_ r) (nPadding_ r).

Definition set_nDiscard_ (v : Z) (r : Applyer) : Applyer :=
  mkApplyer (heap r) (seqgen r) (nalloc r) (aio_ r) (discards r) (ioQ_ r) (readyIoQ_ r) (submitIoQ_ r) (nPendingBlocks_ r) (olData_ r) (nWritten_ r) (nOverwritten_ r) (nClipped_ r) v (nPadding_ r).

Definition set_nPadding_ (v : Z) (r : Applyer) : Applyer :=
  mkApplyer (heap r) (seqgen r) (nalloc r) (aio_ r) (discards r) (ioQ_ r) (readyIoQ_ r) (submitIoQ_ r) (nPendingBlocks_ r) (olData_ r) (nWritten_ r) (nOverwritten_ r) (nClipped_ r) (nDiscard_ r) v.

Definition applyer_init : Applyer :=
  mkApplyer [] 0 0 aio_init [] [] [] [] 0 (mkOverlappedData [] 0) 0 0 0 0 0.

(** getQueueSizeStatic. *)
Definition getQueueSizeStatic (bufferSize blockSize : Z) : result Z :=
  if bufferSize <=? blockSize then Throw "Buffer size must be > blockSize."
  else
    let qs := bufferSize / blockSize in
    if qs =? 0 then Throw "Queue size is must be positive." else Ok qs.

Section Applyer.

Variable env : Env.

Definition canApply : bool :=
  (blockSize_ env <=? wh_pbs env) && (wh_pbs env mod blockSize_ env =? 0).

Definition bytesToPb (bytes : Z) : Z :=
  let lb := u32 bytes / LOGICAL_BLOCK_SIZE in
  capacity_pb (blockSize_ env) lb.

Definition insertToOverlappedData (st : Applyer) (iop : IoPtr) : Applyer :=
  let '(h, ol) := ins (heap st) (olData_ st) iop in
  set_olData_ ol (set_heap h st).

(** The bytes of a write: those of the blocks of the IO. *)
Definition io_bytes (io : Io) : list Byte.byte :=
  take (Z.to_nat (size_ io)) (concat (map aa_bytes (blocks_ io))).

(** The loop of submitIos over the queue popped from its front. *)
Fixpoint submit_loop (q : list IoPtr) (st : Applyer) (nBulk : Z)
  : result (Applyer * Z) :=
  match q with
  | [] => Ok (st, nBulk)
  | iop :: q' =>
      let st := set_submitIoQ_ q' st in
      let io := deref (heap st) iop in
      if isOverwritten_ io then submit_loop q' st nBulk
      else
        (* Prepare aio. *)
        match blocks_ io with
        | [] => Throw "front of an empty deque"
        | b :: _ =>
            let '(key, a) :=
              prepareWrite (aio_ st) (offset_ io) (size_ io) (aa_data b) (io_bytes io) in
            let st := set_aio_ a st in
            let st := set_heap (upd (heap st) iop
                                    (fun io => markSubmitted (set_aioKey_ (u32 key) io))) st in
            submit_loop q' st (nBulk + 1)
        end
  end.

(** WalbLogApplyer::submitIos. *)
Definition submitIos (st : Applyer) : result Applyer :=
  match submitIoQ_ st with
  | [] => Ok st
  | q =>
      do '(st, nBulk) <- submit_loop q st 0;
      if 0 <? nBulk then Ok (set_aio_ (submit (aio_ st)) st) else Ok st
  end.

(** The position std::lower_bound finds in the submit queue, which is
    sorted by offset: before the first IO whose offset is not smaller. *)
Fixpoint insert_sorted (h : list Io) (iop : IoPtr) (q : list IoPtr) : list IoPtr :=
  match q with
  | [] => [iop]
  | p :: q' =>
      if offset_ (deref h p) <? offset_ (deref h iop)
      then p :: insert_sorted h iop q'
      else iop :: q
  end.

(** The loop of scheduleIos over the ready queue popped from its front. *)
Fixpoint schedule_loop (ready : list IoPtr) (st : Applyer) : result Applyer :=
  match ready with
  | [] => Ok st
  | iop :: ready' =>
      let st := set_readyIoQ_ ready' st in
      if isOverwritten_ (deref (heap st) iop) then
        (* No need to execute the IO. *)
        schedule_loop ready' st
      else
        (* Insert to the submit queue (sorted by offset). *)
        let st := set_submitIoQ_ (insert_sorted (heap st) iop (submitIoQ_ st)) st in
        do st <- (if queueSize_ env <=? Z.of_nat (length (submitIoQ_ st))
                  then submitIos st else Ok st);
        schedule_loop ready' st
  end.

(** WalbLogApplyer::scheduleIos. *)
Definition scheduleIos (st : Applyer) : result Applyer :=
  schedule_loop (readyIoQ_ st) st.

(** The loop "Insert to the head of readyIoQ_". *)
Definition push_ready (st : Applyer) (p : IoPtr) : Applyer :=
  if isOverwritten_ (deref (heap st) p) then st (* No need to execute the IO. *)
  else set_readyIoQ_ (p :: readyIoQ_ st) st.

(** WalbLogApplyer::waitForAnIoCompletion. *)
Definition waitForAnIoCompletion (st : Applyer) : result Applyer :=
  match ioQ_ st with
  | [] => Throw "front of an empty queue"
  | iop :: q' =>
      let st := set_ioQ_ q' st in
      do st <- (if negb (isSubmitted_ (deref (heap st) iop))
                   && negb (isOverwritten_ (deref (heap st) iop))
                then
                  (* The IO is not still submitted. *)
                  do st1 <- scheduleIos st; submitIos st1
                else Ok st);
      do st <- (if isSubmitted_ (deref (heap st) iop) then
                  do a <- waitFor (aio_ st) (aioKey_ (deref (heap st) iop));
                  let st := set_aio_ a st in
                  let st := set_heap (upd (heap st) iop markCompleted) st in
                  Ok (set_nWritten_ (nWritten_ st + 1) st)
                else Ok (set_nOverwritten_ (nOverwritten_ st + 1) st));
      let st := set_nPendingBlocks_
                  (u64 (nPendingBlocks_ st
                        - bytesToPb (size_ (deref (heap st) iop)))) st in
      let '(h, ol, tmpIoQ) := del (heap st) (olData_ st) iop [] in
      let st := set_olData_ ol (set_heap h st) in
      Ok (fold_left push_ready tmpIoQ st)
  end.

(** The loop of waitForAllPendingIos. Every completion wait pops one IO of
    [ioQ_] and nothing is pushed meanwhile, so the length of [ioQ_] plus
    one bounds the iterations: the fuel cannot run out. *)
Fixpoint wait_all_loop (fuel : nat) (st : Applyer) : result Applyer :=
  match ioQ_ st, readyIoQ_ st with
  | [], [] => Ok st
  | _, _ =>
      match fuel with
      | O => Throw "unreachable"
      | S fuel' => do st' <- waitForAnIoCompletion st; wait_all_loop fuel' st'
      end
  end.

(** WalbLogApplyer::waitForAllPendingIos. *)
Definition waitForAllPendingIos (st : Applyer) : result Applyer :=
  wait_all_loop (S (length (ioQ_ st))) st.

(** The loop "Wait for pending IOs for submission" of prepareIos, bounded
    in the same way by the length of [ioQ_]. *)
Fixpoint wait_room_loop (fuel : nat) (nBlocks : Z) (st : Applyer) : result Applyer :=
  match ioQ_ st with
  | [] => Ok st
  | _ :: _ =>
      if queueSize_ env <? u64 (nPendingBlocks_ st + nBlocks) then
        match fuel with
        | O => Throw "unreachable"
        | S fuel' =>
            do st' <- waitForAnIoCompletion st; wait_room_loop fuel' nBlocks st'
        end
      else Ok st
  end.

(** The loop "Enqueue IOs to readyIoQ_": an IO popped from the staging
    queue becomes shared. *)
Fixpoint enqueue_loop (ioQ : list Io) (st : Applyer) : Applyer :=
  match ioQ with
  | [] => st
  | io :: ioQ' =>
      let iop := length (heap st) in
      let st := set_heap (heap st ++ [io]) st in
      let st := insertToOverlappedData st iop in
      let st := if nOverlapped_ (deref (heap st) iop) =? 0
                then set_readyIoQ_ (readyIoQ_ st ++ [iop]) st (* Ready to submit. *)
                else st (* Will be submitted later. *) in
      enqueue_loop ioQ' (set_ioQ_ (ioQ_ st ++ [iop]) st)
  end.

(** WalbLogApplyer::prepareIos; the caller's [ioQ] is left empty and its
    [nBlocks] zero. *)
Definition prepareIos (ioQ : list Io) (nBlocks : Z) (st : Applyer) : result Applyer :=
  do st <- wait_room_loop (length (ioQ_ st)) nBlocks st;
  let st := set_nPendingBlocks_ (u64 (nPendingBlocks_ st + nBlocks)) st in
  Ok (enqueue_loop ioQ st).

(** The body of the loop "Create IOs" of redoNormalIo in its three parts:
    the block of the IO, the clip test, and the flush of the staging queue
    once it holds half a queue of blocks. *)
Definition take_block (rec : LogRecord) (blockS : list AlignedArray) (i : nat)
           (st : Applyer) : result (AlignedArray * Applyer) :=
  if LogBase.isDiscard rec then
    Ok (mkAlignedArray (alloc_addr env (nalloc st))
                       (repeat Byte.x00 (Z.to_nat (blockSize_ env))),
        set_nalloc (S (nalloc st)) st)
  else
    match blockS !! i with
    | Some b => Ok (b, st)
    | None => Throw "block index out of range"
    end.

Definition clip_or_add (rec : LogRecord) (iop : Io) (tmpIoQ : list Io)
           (nBlocks : Z) (st : Applyer) : list Io * Z * Applyer :=
  (* Clip if the IO area is out of range in the device. *)
  if u64 (offset_ iop + size_ iop) <=? bd_deviceSize env then
    (IoQueue_add tmpIoQ iop, u64 (nBlocks + 1),
     if LogBase.isDiscard rec then set_nDiscard_ (nDiscard_ st + 1) st else st)
  else (tmpIoQ, nBlocks, set_nClipped_ (nClipped_ st + 1) st).

Definition flush_if_many (tmpIoQ : list Io) (nBlocks : Z) (st : Applyer)
  : result (list Io * Z * Applyer) :=
  (* Do not prepare too many blocks at once. *)
  if queueSize_ env / 2 <=? nBlocks then
    do st <- prepareIos tmpIoQ nBlocks st;
    do st <- scheduleIos st;
    Ok ([], 0, st)
  else Ok (tmpIoQ, nBlocks, st).

(** The loop "Create IOs" of redoNormalIo: [cnt] iterations are left and
    [i] is the loop index. *)
Fixpoint redo_loop (rec : LogRecord) (blockS : list AlignedArray) (cnt i : nat)
         (tmpIoQ : list Io) (remaining off nBlocks : Z) (st : Applyer)
  : result (list Io * Z * Applyer) :=
  match cnt with
  | O => Ok (tmpIoQ, nBlocks, st)
  | S cnt' =>
      do '(block, st) <- take_block rec blockS i st;
      let size := Z.min (blockSize_ env) remaining in
      let iop := newIo off size block (seqgen st) in
      let st := set_seqgen (u64 (seqgen st + 1)) st in
      let off' := s64 (off + size) in
      let remaining' := u64 (remaining - size) in
      do '(tmpIoQ, nBlocks, st) <-
         (let '(tmpIoQ, nBlocks, st) := clip_or_add rec iop tmpIoQ nBlocks st in
          flush_if_many tmpIoQ nBlocks st);
      redo_loop rec blockS cnt' (S i) tmpIoQ remaining' off' nBlocks st
  end.

(** WalbLogApplyer::redoNormalIo. After the loop the source asserts
    [remaining == 0]; the loop leaves bytes of the record over when
    ioSizePb blocks of the device do not hold it. *)
Definition redoNormalIo (rec : LogRecord) (blockS : list AlignedArray) (st : Applyer)
  : result Applyer :=
  let remaining := u32 (LogBase.ioSizeLb rec * LOGICAL_BLOCK_SIZE) in
  let off := s64 (LogBase.offset rec * LOGICAL_BLOCK_SIZE) in
  let ioSizePb := LogBase.ioSizePb rec (wh_pbs env) in
  do '(tmpIoQ, nBlocks, st) <-
     redo_loop rec blockS (Z.to_nat ioSizePb) 0 [] remaining off 0 st;
  do st <- prepareIos tmpIoQ nBlocks st;
  scheduleIos st.

(** WalbLogApplyer::redoDiscard; the BLKDISCARD ioctl is recorded. *)
Definition redoDiscard (rec : LogRecord) (st : Applyer) : result Applyer :=
  (* Wait for all IO done. *)
  do st <- waitForAllPendingIos st;
  (* Issue the corresponding discard IOs. *)
  let st := set_discards
              (discards st
               ++ [(u64 (LogBase.offset rec * LOGICAL_BLOCK_SIZE),
                    u64 (u32 (LogBase.ioSizeLb rec * LOGICAL_BLOCK_SIZE)))]) st in
  Ok (set_nDiscard_ (nDiscard_ st + LogBase.ioSizePb rec (wh_pbs env)) st).

(** WalbLogApplyer::redoPack. *)
Definition redoPack (rec : LogRecord) (blockS : list AlignedArray) (st : Applyer)
  : result Applyer :=
  let ioSizePb := LogBase.ioSizePb rec (wh_pbs env) in
  if LogBase.isPadding rec then
    (* Do nothing. *)
    Ok (set_nPadding_ (nPadding_ st + ioSizePb) st)
  else if LogBase.isDiscard rec && cfg_isDiscard env then redoDiscard rec st
  else if LogBase.isDiscard rec && negb (cfg_isZeroDiscard env) then
    (* Ignore discard logs. *)
    Ok (set_nDiscard_ (nDiscard_ st + ioSizePb) st)
  else
    (* zero-discard will use redoNormalIo(). *)
    redoNormalIo rec blockS st.

(** The records of the packs of a wlog, each with the blocks read for it
    (none for a discard), as LogPackHeader::readFrom, LogBlockShared::read
    and verifyLogChecksum deliver them. *)
Fixpoint redo_records (recs : list (LogRecord * list AlignedArray)) (st : Applyer)
  : result Applyer :=
  match recs with
  | [] => Ok st
  | (rec, blockS) :: recs' => do st' <- redoPack rec blockS st; redo_records recs' st'
  end.

(** WalbLogApplyer::readAndApply on the records of the log. *)
Definition readAndApply (recs : list (LogRecord * list AlignedArray)) (st : Applyer)
  : result Applyer :=
  if negb canApply then Throw "This walblog can not be applied to the device."
  else
    do st <- redo_records recs st;
    (* Wait for all pending IOs. *)
    do st <- submitIos st;
    waitForAllPendingIos st.




End Applyer.

(** The stores before and after a function of the engine: of the same
    length with related IOs, or grown with the IOs of before related. *)
Definition heap_rel (R : Io -> Io -> Prop) (h h' : list Io) : Prop :=
  length h = length h' /\ forall q, R (deref h q) (deref h' q).

Definition heap_le (R : Io -> Io -> Prop) (h h' : list Io) : Prop :=
  (length h <= length h')%nat
  /\ forall q, (q < length h)%nat -> R (deref h q) (deref h' q).

(** The target range of an IO, and of a write, lies within the device. *)
Definition in_dev (env : Env) (io : Io) : Prop :=
  0 <= offset_ io /\ 0 <= size_ io
  /\ offset_ io + size_ io <= bd_deviceSize env.

Definition w_in_dev (env : Env) (w : AioWrite) : Prop :=
  0 <= w_offset w /\ 0 <= w_size w
  /\ w_offset w + w_size w <= bd_deviceSize env.

Record range_inv (env : Env) (st : Applyer) : Prop := {
  ri_heap : Forall (in_dev env) (heap st);
  ri_prepared : Forall (w_in_dev env) (aio_prepared (aio_ st));
  ri_issued : Forall (w_in_dev env) (aio_issued (aio_ st))
}.

(** A device with blocks of at least one byte and a size that is an off_t;
    a record whose byte range is one of off_t values. *)
Record env_ok (env : Env) : Prop := {
  eo_block : 0 < blockSize_ env;
  eo_size : 0 <= bd_deviceSize env < 2 ^ 63
}.

Record rec_ok (rec : LogRecord) : Prop := {
  ro_offset : 0 <= LogBase.offset rec;
  ro_size : 0 <= LogBase.io_size rec;
  ro_bytes : LogBase.io_size rec * LOGICAL_BLOCK_SIZE < 2 ^ 32;
  ro_end : (LogBase.offset rec + LogBase.io_size rec) * LOGICAL_BLOCK_SIZE < 2 ^ 63
}.

(** The IOs into which redoNormalIo splits a record, as (offset, size) in
    bytes, and those of them that the clip test drops. *)
Fixpoint split_ios (blockSize : Z) (cnt : nat) (off remaining : Z) : list (Z * Z) :=
  match cnt with
  | O => []
  | S cnt' =>
      let size := Z.min blockSize remaining in
      (off, size) :: split_ios blockSize cnt' (off + size) (remaining - size)
  end.

Definition record_ios (env : Env) (rec : LogRecord) : list (Z * Z) :=
  split_ios (blockSize_ env) (Z.to_nat (LogBase.ioSizePb rec (wh_pbs env)))
            (LogBase.offset rec * LOGICAL_BLOCK_SIZE)
            (LogBase.io_size rec * LOGICAL_BLOCK_SIZE).

Definition clipped_ios (env : Env) (ios : list (Z * Z)) : list (Z * Z) :=
  List.filter (fun os => bd_deviceSize env <? fst os + snd os) ios.

(** The records that redoPack hands to redoNormalIo. *)
Definition takes_normal_path (env : Env) (rec : LogRecord) : bool :=
  negb (LogBase.isPadding rec)
  && negb (LogBase.isDiscard rec && cfg_isDiscard env)
  && negb (LogBase.isDiscard rec && negb (cfg_isZeroDiscard env)).

Fixpoint clipped_total (env : Env) (recs : list (LogRecord * list AlignedArray)) : Z :=
  match recs with
  | [] => 0
  | (rec, _) :: recs' =>
      (if takes_normal_path env rec
       then Z.of_nat (length (clipped_ios env (record_ios env rec)))
       else 0)
      + clipped_total env recs'
  end.

(** What the functions below redoNormalIo leave alone. *)
Definition frame (R : Io -> Io -> Prop) (st st' : Applyer) : Prop :=
  heap_rel R (heap st) (heap st')
  /\ nClipped_ st' = nClipped_ st
  /\ seqgen st' = seqgen st
  /\ nalloc st' = nalloc st.

(** What a write puts on the device, and what the write of an IO would
    put there; the IOs of a queue that are not overwritten. *)
Definition w_target (w : AioWrite) : Z * Z * list Byte.byte :=
  (w_offset w, w_size w, w_bytes w).

Definition io_target (io : Io) : Z * Z * list Byte.byte :=
  (offset_ io, size_ io, io_bytes io).



(** The error of a bounded loop whose bound was too small. *)
Definition out_of_fuel {A : Type} (r : result A) : Prop :=
  r = Throw "unreachable".

(** BUFFER_SIZE of main, from which the queue size follows. *)
Definition BUFFER_SIZE : Z := 4 * 1024 * 1024.

(** A log record of a plain write, and the run of the tool on a device
    whose block size is that of the log, with no option given. *)
Definition write_record (off size : Z) : LogRecord :=
  LogBase.mkLogRecord 0 0 0 (Z.shiftl 1 LogBase.LOG_RECORD_EXIST) off size.

Definition env_of (deviceSize blockSize queueSize : Z) : Env :=
  mkEnv false false deviceSize blockSize queueSize blockSize
        (fun n => Z.of_nat n * blockSize).

End Redo.

(** ** Splitting diff records and diff IOs (walb_diff_base.hpp) *)

Module DiffSplit.

Import DiffBase.

Section Split.

Variable WALB_DIFF_CMPR_MAX : Z.

(** RecordRaw(const RecordRaw &rec, bool isCheck = true): the copy is
    checked. *)
Definition clone (r : walb_diff_record) : result walb_diff_record :=
  if isValid WALB_DIFF_CMPR_MAX r then Ok r else Throw "invalid record.".

(** RecordRaw::split. *)
Definition split (r : walb_diff_record) (ioBlocks0 : Z)
  : result (walb_diff_record * walb_diff_record) :=
  if (ioBlocks0 =? 0) || (ioBlocks r <=? ioBlocks0)
  then Throw "split: ioBlocks0 is out or range."
  else if isCompressed r then Throw "split: compressed data can not be splitted."
  else
    do r0 <- clone r;
    do r1 <- clone r;
    let ioBlocks1 := u16 (ioBlocks r - ioBlocks0) in
    let r0 := setIoBlocks ioBlocks0 r0 in
    let r1 := setIoBlocks ioBlocks1 r1 in
    let r1 := setIoAddress (u64 (ioAddress r + ioBlocks0)) r1 in
    if isNormal r then
      Ok (setDataSize (u32 (ioBlocks0 * LOGICAL_BLOCK_SIZE)) r0,
          setDataSize (u32 (ioBlocks1 * LOGICAL_BLOCK_SIZE)) r1)
    else Ok (r0, r1).

(** The loop of RecordRaw::splitAll. Every turn takes at least one block
    off [remaining], so that [ioBlocks()] turns are enough. *)
Fixpoint splitAll_loop (fuel : nat) (r : walb_diff_record)
         (ioBlocks0 addr remaining : Z) : result (list walb_diff_record) :=
  if 0 <? remaining then
    match fuel with
    | O => Throw "unreachable"
    | S fuel' =>
        let blks := Z.min ioBlocks0 remaining in
        do c <- clone r;
        let c := setIoAddress addr c in
        let c := setIoBlocks blks c in
        let c := if isNormal r
                 then setDataSize (u32 (blks * LOGICAL_BLOCK_SIZE)) c else c in
        do rest <- splitAll_loop fuel' r ioBlocks0 (u64 (addr + blks))
                                 (u16 (remaining - blks));
        Ok (c :: rest)
    end
  else Ok [].

(** RecordRaw::splitAll. The vector that the source asserts not to be
    empty before it returns it is empty when the record has no block. *)
Definition splitAll (r : walb_diff_record) (ioBlocks0 : Z)
  : result (list walb_diff_record) :=
  if ioBlocks0 =? 0 then Throw "splitAll: ioBlocks0 must not be 0."
  else if isCompressed r then Throw "splitAll: compressed data can not be splitted."
  else splitAll_loop (Z.to_nat (ioBlocks r)) r ioBlocks0 (ioAddress r) (ioBlocks r).

End Split.

(** struct IoWrap: the buffer that [data] points to ([None] for nullptr)
    and the [size] kept beside it. *)
Record IoWrap : Type := mkIoWrap {
  iw_ioBlocks : Z;          (* uint16_t *)
  iw_compressionType : Z;   (* int *)
  iw_data : option (list Byte.byte);
  iw_size : Z               (* size_t *)
}.

Definition iw_isCompressed (io : IoWrap) : bool :=
  negb (iw_compressionType io =? WALB_DIFF_CMPR_NONE).

Definition iw_empty (io : IoWrap) : bool := iw_ioBlocks io =? 0.

(** IoWrap::isValid. *)
Definition iw_isValid (io : IoWrap) : bool :=
  if iw_empty io then
    if (match iw_data io with Some _ => true | None => false end)
       || negb (iw_size io =? 0)
    then false else true
  else if iw_isCompressed io then
    match iw_data io with
    | None => false
    | Some _ => if iw_size io =? 0 then false else true
    end
  else
    if negb (iw_size io =? iw_ioBlocks io * LOGICAL_BLOCK_SIZE) then false else true.

(** IoData(ioBlocks, compressionType, data, size): [size] bytes are copied
    from [data]; a read beyond the buffer is undefined. *)
Definition read_bytes (buf : option (list Byte.byte)) (off size : Z)
  : result (list Byte.byte) :=
  match buf with
  | None => Throw "undefined: null pointer"
  | Some b =>
      if Z.of_nat (length b) <? off + size then Throw "undefined: read out of bounds"
      else Ok (take (Z.to_nat size) (drop (Z.to_nat off) b))
  end.

(** The loop of splitIoDataAll. *)
Fixpoint splitIoDataAll_loop (fuel : nat) (io0 : IoWrap)
         (ioBlocks0 remaining off : Z) : result (list IoData) :=
  if 0 <? remaining then
    match fuel with
    | O => Throw "unreachable"
    | S fuel' =>
        let blks := Z.min remaining ioBlocks0 in
        let size := blks * LOGICAL_BLOCK_SIZE in
        do bytes <- read_bytes (iw_data io0) off size;
        do rest <- splitIoDataAll_loop fuel' io0 ioBlocks0
                                       (u16 (remaining - blks)) (u64 (off + size));
        Ok (mkIoData blks WALB_DIFF_CMPR_NONE bytes :: rest)
    end
  else Ok [].

(** splitIoDataAll. *)
Definition splitIoDataAll (io0 : IoWrap) (ioBlocks0 : Z) : result (list IoData) :=
  if ioBlocks0 =? 0 then Throw "splitAll: ioBlocks0 must not be 0."
  else if iw_isCompressed io0
       then Throw "splitAll: compressed IO can not be splitted."
  else splitIoDataAll_loop (Z.to_nat (iw_ioBlocks io0)) io0 ioBlocks0
                           (iw_ioBlocks io0) 0.

(** The view of an IoData as its base IoWrap after resetData, for a vector
    that holds at least one byte: [data] points to the vector and [size]
    is its length. *)
Definition wrap_of (io : IoData) : IoWrap :=
  mkIoWrap (ioBlocks_ io) (compressionType_ io) (Some (data_ io))
           (Z.of_nat (length (data_ io))).

(** A piece of a record: the record at another address and with another
    number of blocks, a normal record with the bytes of these blocks. *)
Definition piece (r : walb_diff_record) (addr blks : Z) : walb_diff_record :=
  let c := setIoBlocks blks (setIoAddress addr r) in
  if isNormal r then setDataSize (u32 (blks * LOGICAL_BLOCK_SIZE)) c else c.

End DiffSplit.

(** ** The receiver of wdiff-recv (RequestWorker::recvAndWriteDiffs) *)

Module WdiffRecv.

Import DiffBase DiffSplit.

(** What the receiver hands to diff::Writer. *)
Inductive written : Type :=
| WriteDiff (rec : walb_diff_record) (data : list Byte.byte)
| CompressAndWriteDiff (rec : walb_diff_record) (data : list Byte.byte).

(** IoData(): no blocks, no compression, no bytes. *)
Definition IoData_new : IoData := mkIoData 0 WALB_DIFF_CMPR_NONE [].

(** sock.read(io.rawData(), n): the first [n] bytes of the vector are
    overwritten with the [n] bytes that arrive. *)
Definition sock_read (arrived : list Byte.byte) (n : Z) (io : IoData) : IoData :=
  mkIoData (ioBlocks_ io) (compressionType_ io)
           (take (Z.to_nat n) arrived ++ drop (Z.to_nat n) (data_ io)).

Section Recv.

Variable WALB_DIFF_CMPR_MAX : Z.

(** The body of the loop of RequestWorker::recvAndWriteDiffs for a record
    and the bytes that follow it on the socket. *)
Definition recv_one (recRaw : walb_diff_record) (arrived : list Byte.byte)
  : result written :=
  if negb (isValid WALB_DIFF_CMPR_MAX recRaw) then Throw "recvAndWriteDiffs:bad recRaw"
  else
    let io := set recRaw IoData_new in
    if dataSize recRaw =? 0 then Ok (WriteDiff recRaw [])
    else
      let io := sock_read arrived (dataSize recRaw) io in
      if negb (iw_isValid (wrap_of io)) then Throw "recvAndWriteDiffs:bad io"
      else if negb (calcChecksum io =? checksum recRaw)
           then Throw "recvAndWriteDiffs:bad io checksum"
      else Ok (CompressAndWriteDiff recRaw (data_ io)).

(** The loop: what the writer has received so far, and how the loop
    ends. *)
Fixpoint recv_loop (msgs : list (walb_diff_record * list Byte.byte))
         (out : list written) : list written * result unit :=
  match msgs with
  | [] => (out, Ok tt)
  | (recRaw, arrived) :: rest =>
      match recv_one recRaw arrived with
      | Ok w => recv_loop rest (out ++ [w])
      | Throw e => (out, Throw e)
      end
  end.

(** recvAndWriteDiffs on the records of the stream; [ended] tells whether
    the stream control stands at its end mark after the last record. *)
Definition recvAndWriteDiffs (msgs : list (walb_diff_record * list Byte.byte))
           (ended : bool) : list written * result unit :=
  let '(out, r) := recv_loop msgs [] in
  match r with
  | Ok _ => if ended then (out, Ok tt)
            else (out, Throw "recvAndWriteDiffs:bad ctrl not end")
  | Throw e => (out, Throw e)
  end.

End Recv.

(** What a written diff is worth: a record without data of its own, or a
    normal record with as many bytes as it announces and their checksum. *)
Definition well_formed (w : written) : Prop :=
  match w with
  | WriteDiff rec data => data = [] /\ data_size rec = 0
  | CompressAndWriteDiff rec data =>
      isNormal rec = true
      /\ io_blocks rec <> 0
      /\ Z.of_nat (length data) = data_size rec
      /\ (isCompressed rec = false -> data_size rec = io_blocks rec * LOGICAL_BLOCK_SIZE)
      /\ checksum rec = Util.calcChecksum data 0
  end.

End WdiffRecv.

(** ** Log packs: LSIDs, shrinking and moving (walb_log_base.hpp) *)

Module LogPack.

Import LogBase.

(** LogRecord::packLsid and LogRecord::hasDataForChecksum. *)
Definition packLsid (r : walb_log_record) : Z := u64 (lsid r - lsid_local r).

Definition hasDataForChecksum (r : walb_log_record) : bool :=
  isExist r && negb (isDiscard r) && negb (isPadding r).

Definition set_lsid (v : Z) (r : walb_log_record) : walb_log_record :=
  mkLogRecord (checksum r) v (lsid_local r) (flags r) (offset r) (io_size r).

(** What updateLsid does to a record: [rec.lsid = newLsid + rec.lsid_local]. *)
Definition rebase (newLsid : Z) (r : walb_log_record) : walb_log_record :=
  set_lsid (u64 (newLsid + lsid_local r)) r.

(** Assignments to the fields of the header block. *)
Definition set_logpack_lsid (v : Z) (h : LogPackHeader) : LogPackHeader :=
  let hd := header_ h in
  mkLogPackHeader
    (mkLogpackHeader (hdr_checksum hd) (sector_type hd) (total_io_size hd) v
                     (n_records hd) (n_padding hd) (record hd))
    (pbs_ h) (salt_ h).

Definition set_total_io_size (v : Z) (h : LogPackHeader) : LogPackHeader :=
  let hd := header_ h in
  mkLogPackHeader
    (mkLogpackHeader (hdr_checksum hd) (sector_type hd) v (logpack_lsid hd)
                     (n_records hd) (n_padding hd) (record hd))
    (pbs_ h) (salt_ h).

Definition set_n_records (v : Z) (h : LogPackHeader) : LogPackHeader :=
  let hd := header_ h in
  mkLogPackHeader
    (mkLogpackHeader (hdr_checksum hd) (sector_type hd) (total_io_size hd)
                     (logpack_lsid hd) v (n_padding hd) (record hd))
    (pbs_ h) (salt_ h).

Definition set_n_padding (v : Z) (h : LogPackHeader) : LogPackHeader :=
  let hd := header_ h in
  mkLogPackHeader
    (mkLogpackHeader (hdr_checksum hd) (sector_type hd) (total_io_size hd)
                     (logpack_lsid hd) (n_records hd) v (record hd))
    (pbs_ h) (salt_ h).

Definition set_hdr_checksum (v : Z) (h : LogPackHeader) : LogPackHeader :=
  let hd := header_ h in
  mkLogPackHeader
    (mkLogpackHeader v (sector_type hd) (total_io_size hd)
                     (logpack_lsid hd) (n_records hd) (n_padding hd) (record hd))
    (pbs_ h) (salt_ h).

Definition set_record (pos : nat) (r : walb_log_record) (h : LogPackHeader)
  : LogPackHeader :=
  let hd := header_ h in
  mkLogPackHeader
    (mkLogpackHeader (hdr_checksum hd) (sector_type hd) (total_io_size hd)
                     (logpack_lsid hd) (n_records hd) (n_padding hd)
                     (<[pos := r]> (record hd)))
    (pbs_ h) (salt_ h).

(** LogPackHeader::record(pos): checkIndexRange, then the element of the
    inline array; an element beyond the block is undefined. *)
Definition record_at (h : LogPackHeader) (pos : nat) : result walb_log_record :=
  if nRecords h <=? Z.of_nat pos then Throw "LogPackHeader:index out of range."
  else
    match record (header_ h) !! pos with
    | Some r => Ok r
    | None => Throw "undefined: record beyond the block"
    end.

(** LogPackHeader::nextLogpackLsid and LogPackHeader::isEnd. *)
Definition nextLogpackLsid (h : LogPackHeader) : Z :=
  if 0 <? nRecords h then u64 (logpackLsid h + 1 + totalIoSize h)
  else logpackLsid h.

Definition isEnd (h : LogPackHeader) : bool :=
  (nRecords h =? 0) && (logpackLsid h =? UINT64_MAX).

(** LogPackHeader::totalPaddingPb; [cnt] turns of the loop are left and
    [i] is the loop index. *)
Fixpoint totalPaddingPb_loop (h : LogPackHeader) (cnt i : nat) (t : Z) : result Z :=
  match cnt with
  | O => Ok t
  | S cnt' =>
      do rec <- record_at h i;
      let t := if isPadding rec then u64 (t + capacity_pb (pbs h) (io_size rec))
               else t in
      totalPaddingPb_loop h cnt' (S i) t
  end.

Definition totalPaddingPb (h : LogPackHeader) : result Z :=
  if nPadding h =? 0 then Ok 0
  else totalPaddingPb_loop h (Z.to_nat (nRecords h)) 0 0.

Section Pack.

(** Of the missing walb/log_record.h and walb/log_device.h: the validity
    check of a header with its records, the value log_record_init gives a
    record, and the checksum of the header block. *)
Variable is_valid_logpack_header_and_records : walb_logpack_header -> bool.
Variable log_record_init : walb_log_record.
Variable checksum_of_block : LogPackHeader -> Z.

(** The loop of LogPackHeader::updateLsid. *)
Fixpoint updateLsid_loop (newLsid : Z) (cnt i : nat) (h : LogPackHeader)
  : result LogPackHeader :=
  match cnt with
  | O => Ok h
  | S cnt' =>
      do rec <- record_at h i;
      updateLsid_loop newLsid cnt' (S i) (set_record i (rebase newLsid rec) h)
  end.

(** LogPackHeader::updateLsid. *)
Definition updateLsid (h : LogPackHeader) (newLsid : Z)
  : result (bool * LogPackHeader) :=
  if newLsid =? UINT64_MAX then Ok (true, h)
  else if logpack_lsid (header_ h) =? newLsid then Ok (true, h)
  else
    let h := set_logpack_lsid newLsid h in
    do h <- updateLsid_loop newLsid (Z.to_nat (n_records (header_ h))) 0 h;
    Ok (is_valid_logpack_header_and_records (header_ h), h).

(** LogPackHeader::updateChecksum. *)
Definition updateChecksum (h : LogPackHeader) : LogPackHeader :=
  let h := set_hdr_checksum 0 h in
  set_hdr_checksum (checksum_of_block h) h.

(** The loops of LogPackHeader::shrink: "Invalidate records" from [i] on,
    and the recount of [total_io_size] and [n_padding]. *)
Fixpoint shrink_invalidate (cnt i : nat) (h : LogPackHeader) : result LogPackHeader :=
  match cnt with
  | O => Ok h
  | S cnt' =>
      do _ <- record_at h i;
      shrink_invalidate cnt' (S i) (set_record i log_record_init h)
  end.

Fixpoint shrink_recount (cnt i : nat) (h : LogPackHeader) : result LogPackHeader :=
  match cnt with
  | O => Ok h
  | S cnt' =>
      do rec <- record_at h i;
      let h := if negb (test_bit_u32 LOG_RECORD_DISCARD (flags rec))
               then set_total_io_size
                      (u32 (total_io_size (header_ h)
                            + capacity_pb (pbs h) (io_size rec))) h
               else h in
      let h := if test_bit_u32 LOG_RECORD_PADDING (flags rec)
               then set_n_padding (u16 (n_padding (header_ h) + 1)) h
               else h in
      shrink_recount cnt' (S i) h
  end.

(** LogPackHeader::shrink. *)
Definition shrink (h : LogPackHeader) (invalidIdx : Z) : result LogPackHeader :=
  (* Invalidate records. *)
  do h <- shrink_invalidate (Z.to_nat (nRecords h - invalidIdx))
                            (Z.to_nat invalidIdx) h;
  (* Set n_records and total_io_size. *)
  let h := set_n_records (u16 invalidIdx) h in
  let h := set_total_io_size 0 h in
  let h := set_n_padding 0 h in
  do h <- shrink_recount (Z.to_nat (nRecords h)) 0 h;
  Ok (updateChecksum h).

End Pack.

(** The records in use, the physical blocks a record takes in the log,
    and those of a sequence of records. *)
Definition used (h : LogPackHeader) : list walb_log_record :=
  take (Z.to_nat (nRecords h)) (record (header_ h)).

Definition io_pb (pbs0 : Z) (r : walb_log_record) : Z :=
  if isDiscard r then 0 else capacity_pb pbs0 (io_size r).

Fixpoint total_pb (pbs0 : Z) (recs : list walb_log_record) : Z :=
  match recs with
  | [] => 0
  | r :: recs' => io_pb pbs0 r + total_pb pbs0 recs'
  end.

(** The counters of a pack agree with its records, and every record has
    the LSIDs of its place. *)
Record pack_consistent (h : LogPackHeader) : Prop := {
  pc_count : 0 <= nRecords h <= Z.of_nat (length (record (header_ h)));
  pc_total : total_io_size (header_ h) = total_pb (pbs h) (used h);
  pc_padding : n_padding (header_ h)
               = Z.of_nat (length (List.filter isPadding (used h)));
  pc_records : forall i r,
      used h !! i = Some r ->
      isExist r = true
      /\ isPadding r && isDiscard r = false
      /\ lsid_local r = total_pb (pbs h) (take i (used h)) + 1
      /\ lsid r = logpack_lsid (header_ h) + lsid_local r
}.

Section Built.

Variable MAX_TOTAL_IO_SIZE_IN_LOGPACK_HEADER : Z.
Variable max_n_log_record_in_sector : Z -> Z.

(** The packs that successful adds build from a pack. *)
Inductive built (h0 : LogPackHeader) : LogPackHeader -> Prop :=
| built_start : built h0 h0
| built_add h k offset0 size h' :
    built h0 h ->
    0 <= size < 2 ^ 16 ->
    add_io MAX_TOTAL_IO_SIZE_IN_LOGPACK_HEADER max_n_log_record_in_sector
           k h offset0 size = Ok (true, h') ->
    built h0 h'.

End Built.

End LogPack.

Module RedoQueues.

Import Redo.

(** The write that submitIos prepares for an IO, and the device after the
    writes of the IOs of a queue in their order. *)
Definition write_of (io : Io) : AioWrite :=
  mkAioWrite 0 (offset_ io) (size_ io)
             (match blocks_ io with b :: _ => aa_data b | [] => 0 end)
             (io_bytes io).

Definition write_all (dev : list Byte.byte) (q : list Io) : list Byte.byte :=
  fold_left (fun d io => apply_write d (write_of io)) q dev.

(** An IO whose blocks hold as many bytes as the IO has, and which lies
    on the device. *)
Definition io_filled (devSize : Z) (io : Io) : Prop :=
  0 <= offset_ io /\ 0 <= size_ io
  /\ offset_ io + size_ io <= devSize
  /\ Z.of_nat (length (concat (map aa_bytes (blocks_ io)))) = size_ io.

(** The submit queue is kept in the order of the offsets. *)
Definition offsets_sorted (h : list Io) (q : list IoPtr) : Prop :=
  StronglySorted (fun p0 p1 => offset_ (deref h p0) <= offset_ (deref h p1)) q.

End RedoQueues.

Module RedoOverlap.

Import Redo.

(** The element [e] of the overlap set overlaps the IO [iop]. *)
Definition ov_with (h : list Io) (iop : IoPtr) (e : Z * IoPtr) : bool :=
  isOverlapped (deref h (snd e)) (deref h iop).

(** The elements of the set that were created before [p] and overlap it;
    the pointers are the indices of the store, in the order of creation. *)
Definition earlier (h : list Io) (s : list (Z * IoPtr)) (p : IoPtr)
  : list (Z * IoPtr) :=
  List.filter (fun e => (snd e <? p)%nat && ov_with h p e) s.

(** The counters of the IOs of the set: [nOverlapped] of an IO is the
    number of the IOs before it in the set that overlap it; a pointer is
    in the set once. *)
Record counted (h : list Io) (ol : OverlappedData) : Prop := {
  ct_nodup : List.NoDup (map snd (set_ ol));
  ct_count : forall k p,
      In (k, p) (set_ ol) ->
      nOverlapped_ (deref h p) = Z.of_nat (length (earlier h (set_ ol) p))
}.

(** The decrement of the loop of OverlappedData::del. *)
Definition dec (io : Io) : Io := set_nOverlapped_ (u32 (nOverlapped_ io - 1)) io.

End RedoOverlap.

Module ConvertedLog.

Import Converter.

(** A log record as the converter can take it: its size fits the block
    count of a diff record, and a record with data comes with its blocks. *)
Definition convertible (pbs : Z) (l : LogRecord * LogBase.LogBlockShared) : Prop :=
  0 <= LogBase.io_size (fst l) < 2 ^ 16
  /\ (LogBase.isPadding (fst l) = false -> LogBase.isDiscard (fst l) = false ->
      blocks_ok pbs (fst l) (snd l)).

(** The records of a log that are no padding. *)
Definition non_padding (logs : list (LogRecord * LogBase.LogBlockShared))
  : list (LogRecord * LogBase.LogBlockShared) :=
  List.filter (fun l => negb (LogBase.isPadding (fst l))) logs.

(** The logical blocks of a list of log records. *)
Definition total_lb (logs : list (LogRecord * LogBase.LogBlockShared)) : Z :=
  fold_right Z.add 0 (map (fun l => LogBase.io_size (fst l)) logs).

End ConvertedLog.

Module WlogSend.

Import Ascii.

(** std::string::find of a one-character string: the index of the first
    occurrence, [None] for npos. *)
Fixpoint find (c : ascii) (s : string) : option nat :=
  match s with
  | EmptyString => None
  | String a s' =>
      if Ascii.eqb a c then Some O
      else match find c s' with
           | Some n => Some (S n)
           | None => None
           end
  end.

(** std::string::substr(pos) for a position inside the string. *)
Definition substr_from (pos : nat) (s : string) : string :=
  String.substring pos (String.length s - pos) s.

Definition is_empty (s : string) : bool :=
  match s with EmptyString => true | _ => false end.

(** The character does not occur in the string. *)
Fixpoint lacks (c : ascii) (s : string) : Prop :=
  match s with
  | EmptyString => True
  | String a s' => a <> c /\ lacks c s'
  end.

Section Parse.

(** cybozu::atoi with its conversion to uint16_t is not among the sources
    and is taken as a parameter. *)
Variable atoi : string -> result Z.

Definition throwError {A : Type} (s : string) : result A :=
  Throw (String.append "parseHostColonPortStr: invalid format '"
                       (String.append s "'")).

(** parseHostPortStr. *)
Definition parseHostPortStr (s : string) : result (string * Z) :=
  match find ":"%char s with
  | None => throwError s
  | Some n =>
      let hostStr := String.substring 0 n s in
      if is_empty hostStr then throwError s
      else
        let portStr := substr_from (n + 1) s in
        if is_empty portStr then throwError s
        else
          do port <- atoi portStr;
          Ok (hostStr, port)
  end.

End Parse.

End WlogSend.

Module RedoDrain.

Import Redo.

(** What the engine keeps between the calls of its member functions: the
    overlap set holds the IOs of [ioQ_], each once and under its offset,
    and every IO of the store is in [ioQ_] or has been counted as written
    or as overwritten. *)
Record queue_inv (st : Applyer) : Prop := {
  qi_nodup : List.NoDup (map snd (set_ (olData_ st)));
  qi_keys : forall k p,
      In (k, p) (set_ (olData_ st)) ->
      (p < length (heap st))%nat /\ offset_ (deref (heap st) p) = k;
  qi_perm : Permutation (map snd (set_ (olData_ st))) (ioQ_ st);
  qi_count : nWritten_ st + nOverwritten_ st + Z.of_nat (length (ioQ_ st))
             = Z.of_nat (length (heap st))
}.

(** A step that leaves [ioQ_], the overlap set and the two counters alone
    and changes no offset or size in the store. *)
Definition quiet (st st' : Applyer) : Prop :=
  heap_rel same_geom (heap st) (heap st')
  /\ ioQ_ st' = ioQ_ st
  /\ olData_ st' = olData_ st
  /\ nWritten_ st' = nWritten_ st
  /\ nOverwritten_ st' = nOverwritten_ st.

End RedoDrain.

Module RedoBytes.

Import Redo.

(** The bytes that the IOs of a list ask to write. *)
Definition io_sizes (q : list Io) : Z := fold_right Z.add 0 (map size_ q).

(** The bytes of IOs given as (offset, size), and those of them that the
    clip test lets pass. *)
Definition ios_size (ios : list (Z * Z)) : Z := fold_right Z.add 0 (map snd ios).

Definition kept_ios (env : Env) (ios : list (Z * Z)) : list (Z * Z) :=
  List.filter (fun os => negb (bd_deviceSize env <? fst os + snd os)) ios.

(** Each IO begins where the one before it ends. *)
Fixpoint contiguous (off : Z) (ios : list (Z * Z)) : Prop :=
  match ios with
  | [] => True
  | os :: rest => fst os = off /\ contiguous (off + snd os) rest
  end.

End RedoBytes.

Module LogChecksum.

Import LogBase.

(** The loop of LogBlockShared::calcChecksum; [rest] is [data_] from index
    [i] on, so that its head is [get(i)] and an empty [rest] is the range
    error of [get]. *)
Fixpoint calcChecksum_loop (pbs0 : Z) (rest : list (list Byte.byte))
         (remaining csum : Z) : result Z :=
  if 0 <? remaining then
    match rest with
    | [] => Throw "LogBlockShared:index out of range"
    | blk :: rest' =>
        let s := Z.min pbs0 remaining in
        calcChecksum_loop pbs0 rest' (remaining - s)
                          (Util.checksumPartial (take (Z.to_nat s) blk) csum)
    end
  else Ok csum.

(** LogBlockShared::calcChecksum. *)
Definition calcChecksum (b : LogBlockShared) (ioSizeLb0 salt : Z) : result Z :=
  do _ <- checkPbs b;
  do _ <- checkSizeLb b ioSizeLb0;
  do csum <- calcChecksum_loop (lbs_pbs b) (data_ b)
                               (u64 (ioSizeLb0 * LOGICAL_BLOCK_SIZE)) salt;
  Ok (Util.checksumFinish csum).

(** log::verifyLogChecksum and log::isLogChecksumValid. *)
Definition verifyLogChecksum (rec : walb_log_record) (blockS : LogBlockShared)
           (salt : Z) : result unit :=
  if negb (LogPack.hasDataForChecksum rec) then Ok tt
  else
    do checksum0 <- calcChecksum blockS (io_size rec) salt;
    if negb (checksum0 =? checksum rec) then Throw "verifyLogChecksum:invalid checksum"
    else Ok tt.

Definition isLogChecksumValid (rec : walb_log_record) (blockS : LogBlockShared)
           (salt : Z) : bool :=
  match verifyLogChecksum rec blockS salt with
  | Ok _ => true
  | Throw _ => false
  end.

(** LogPackIo::calcIoChecksumWithZeroSalt. *)
Definition calcIoChecksumWithZeroSalt (rec : walb_log_record)
           (blockS : LogBlockShared) : result Z :=
  calcChecksum blockS (ioSizeLb rec) 0.

End LogChecksum.

Module RedoSafety.

Import Redo RedoOverlap.

(** Two values of an IO with the same target and the same counter. *)
Definition same_core (a b : Io) : Prop :=
  offset_ a = offset_ b /\ size_ a = size_ b /\ nOverlapped_ a = nOverlapped_ b.

(** An IO as redoNormalIo hands it to prepareIos: a target of at least one
    byte that ends within the off_t values, not submitted. *)
Definition good_io (io : Io) : Prop :=
  0 <= offset_ io /\ 0 < size_ io /\ offset_ io + size_ io < 2 ^ 63
  /\ isSubmitted_ io = false.

(** What the engine keeps about the order of overlapping IOs: the overlap
    set is in order and holds the IOs of [ioQ_], which are pending in the
    order of their creation; the counters are right; an IO that is ready,
    queued for submission or submitted waits for no other IO. *)
Record safe_inv (st : Applyer) : Prop := {
  si_ol : ol_inv (heap st) (olData_ st);
  si_counted : counted (heap st) (olData_ st);
  si_perm : Permutation (map snd (set_ (olData_ st))) (ioQ_ st);
  si_sorted : StronglySorted lt (ioQ_ st);
  si_geom : forall p,
      In p (ioQ_ st) ->
      offset_ (deref (heap st) p) + size_ (deref (heap st) p) < 2 ^ 63;
  si_ready : forall p,
      In p (readyIoQ_ st ++ submitIoQ_ st) ->
      (p < length (heap st))%nat /\ nOverlapped_ (deref (heap st) p) = 0;
  si_submitted : forall p,
      isSubmitted_ (deref (heap st) p) = true ->
      nOverlapped_ (deref (heap st) p) = 0
}.

(** Two states with the same engine: store, queues, overlap set, the
    counters of the written and of the overwritten IOs, and the writes
    handed to the device. *)
Definition same_engine (st st' : Applyer) : Prop :=
  heap st' = heap st /\ olData_ st' = olData_ st /\ ioQ_ st' = ioQ_ st
  /\ readyIoQ_ st' = readyIoQ_ st /\ submitIoQ_ st' = submitIoQ_ st
  /\ nWritten_ st' = nWritten_ st /\ nOverwritten_ st' = nOverwritten_ st
  /\ aio_ st' = aio_ st.

(** An IO of the staging queue of redoNormalIo: within the device, of at
    least one byte, not submitted. *)
Definition staged (env : Env) (io : Io) : Prop :=
  in_dev env io /\ 0 < size_ io /\ isSubmitted_ io = false.

(** The steps of the engine: the calls of the member functions through
    which IOs enter the engine, are submitted and are completed, and the
    statements between them, which leave the engine alone. *)
Inductive engine_step (env : Env) : Applyer -> Applyer -> Prop :=
| step_account st st' :
    same_engine st st' -> engine_step env st st'
| step_submitIos st st' :
    submitIos st = Ok st' -> engine_step env st st'
| step_scheduleIos st st' :
    scheduleIos env st = Ok st' -> engine_step env st st'
| step_waitForAnIoCompletion st st' :
    waitForAnIoCompletion env st = Ok st' -> engine_step env st st'
| step_prepareIos ioQ nBlocks st st' :
    Forall good_io ioQ ->
    Z.of_nat (length (heap st')) < 2 ^ 32 ->
    prepareIos env ioQ nBlocks st = Ok st' -> engine_step env st st'.

Inductive engine_run (env : Env) : Applyer -> Applyer -> Prop :=
| run_nil st : engine_run env st st
| run_step st st1 st2 :
    engine_run env st st1 -> engine_step env st1 st2 -> engine_run env st st2.

(** No IO is in flight while an older IO that overlaps it is pending. *)
Definition in_flight_safe (st : Applyer) : Prop :=
  forall p q,
    In p (ioQ_ st) -> In q (ioQ_ st) -> (p < q)%nat ->
    isSubmitted_ (deref (heap st) q) = true ->
    isOverlapped (deref (heap st) p) (deref (heap st) q) = false.

(** What scheduleIos and submitIos do to the state. *)
Definition sched (st st' : Applyer) : Prop :=
  heap_rel same_core (heap st) (heap st')
  /\ ioQ_ st' = ioQ_ st
  /\ olData_ st' = olData_ st
  /\ (forall p, In p (readyIoQ_ st' ++ submitIoQ_ st') ->
                In p (readyIoQ_ st ++ submitIoQ_ st))
  /\ (forall p, isSubmitted_ (deref (heap st') p) = true ->
                isSubmitted_ (deref (heap st) p) = true
                \/ In p (readyIoQ_ st ++ submitIoQ_ st)).



End RedoSafety.

Module RedoFlow.

Import Redo RedoOverlap RedoSafety.

(** An IO that was submitted and whose completion was waited for. *)
Definition written (io : Io) : Prop :=
  isSubmitted_ io = true /\ isCompleted_ io = true.

Definition stays_written (a b : Io) : Prop := written a -> written b.

(** The flags of submission and of overwriting are never taken back. *)
Definition flags_up (a b : Io) : Prop :=
  (isSubmitted_ a = true -> isSubmitted_ b = true)
  /\ (isOverwritten_ a = true -> isOverwritten_ b = true).

(** The number of IOs that have left [ioQ_]. *)
Definition nDone (st : Applyer) : nat := length (heap st) - length (ioQ_ st).

Definition n_submitted (h : list Io) : Z :=
  Z.of_nat (length (List.filter isSubmitted_ h)).

Definition n_unsubmitted (h : list Io) : Z :=
  Z.of_nat (length (List.filter (fun io => negb (isSubmitted_ io)) h)).

(** What the engine keeps about the way of an IO through it: the pending
    IOs are the last of the store; a pending IO that waits for no other IO
    and is neither overwritten nor submitted is in one of the two queues
    that lead to its submission; an IO that has left [ioQ_] was written, or
    was overwritten before its submission; and the two counters count
    them. *)
Record flow_inv (st : Applyer) : Prop := {
  fl_safe : safe_inv st;
  fl_pending : ioQ_ st = seq (nDone st) (length (ioQ_ st));
  fl_room : (length (ioQ_ st) <= length (heap st))%nat;
  fl_queued : forall p,
      In p (ioQ_ st) ->
      nOverlapped_ (deref (heap st) p) = 0 ->
      isOverwritten_ (deref (heap st) p) = false ->
      isSubmitted_ (deref (heap st) p) = false ->
      In p (readyIoQ_ st ++ submitIoQ_ st);
  fl_done : forall p,
      (p < nDone st)%nat ->
      written (deref (heap st) p) \/ dead (deref (heap st) p);
  fl_written : nWritten_ st = n_submitted (take (nDone st) (heap st));
  fl_overwritten : nOverwritten_ st = n_unsubmitted (take (nDone st) (heap st))
}.

(** What scheduleIos and submitIos do to the IOs of the two queues: an IO
    leaves them overwritten or submitted. *)
Definition flow (st st' : Applyer) : Prop :=
  heap_rel flags_up (heap st) (heap st')
  /\ (forall p, isOverwritten_ (deref (heap st') p)
                = isOverwritten_ (deref (heap st) p))
  /\ (forall p, In p (readyIoQ_ st ++ submitIoQ_ st) ->
                In p (readyIoQ_ st' ++ submitIoQ_ st')
                \/ isOverwritten_ (deref (heap st) p) = true
                \/ isSubmitted_ (deref (heap st') p) = true).

End RedoFlow.

Module RedoWrites.

Import Redo RedoOverlap RedoSafety RedoFlow.

(** The writes handed to the device so far: those issued and, behind them,
    those prepared for the next submission. *)
Definition writes (a : Aio) : list AioWrite := aio_issued a ++ aio_prepared a.

(** The IOs of the store that have been submitted. *)
Definition submitted_ios (h : list Io) : list Io := List.filter isSubmitted_ h.

(** A submitted IO stays submitted and keeps what it writes. *)
Definition keeps_target (a b : Io) : Prop :=
  isSubmitted_ a = true -> isSubmitted_ b = true /\ io_target b = io_target a.

(** What the engine keeps about the writes: the IOs of the ready queue and
    of the submit queue are IOs of the store, each once, none submitted;
    between two submissions no write is left prepared; and the device has
    been handed one write for each submitted IO, with the target and the
    bytes of that IO. *)
Record write_inv (st : Applyer) : Prop := {
  wi_valid : forall p,
      In p (readyIoQ_ st ++ submitIoQ_ st) -> (p < length (heap st))%nat;
  wi_fresh : forall p,
      In p (readyIoQ_ st ++ submitIoQ_ st) ->
      isSubmitted_ (deref (heap st) p) = false;
  wi_nodup : List.NoDup (readyIoQ_ st ++ submitIoQ_ st);
  wi_prepared : aio_prepared (aio_ st) = [];
  wi_writes : Permutation (map w_target (aio_issued (aio_ st)))
                          (map io_target (submitted_ios (heap st)))
}.

End RedoWrites.

Module RedoOrder.

Import Redo RedoOverlap RedoSafety RedoFlow RedoWrites.

(** Two IOs that overlap are in the order of their creation. *)
Definition log_order (h : list Io) (p q : IoPtr) : Prop :=
  isOverlapped (deref h p) (deref h q) = true -> (p < q)%nat.

(** In a list of IOs, every IO is in this order with those behind it. *)
Fixpoint in_log_order (h : list Io) (ps : list IoPtr) : Prop :=
  match ps with
  | [] => True
  | p :: ps' => (forall q, In q ps' -> log_order h p q) /\ in_log_order h ps'
  end.

(** The writes handed to the device are, in their order, those of the IOs
    [ps]: the submitted IOs, each once, the overlapping ones in the order of
    their creation. *)
Record issue_core (st : Applyer) (ps : list IoPtr) : Prop := {
  ic_writes : map w_target (writes (aio_ st))
              = map (fun p => io_target (deref (heap st) p)) ps;
  ic_sub : forall p, In p ps <-> isSubmitted_ (deref (heap st) p) = true;
  ic_nodup : List.NoDup ps;
  ic_order : in_log_order (heap st) ps
}.

(** The IOs [Q] on their way to submission against the IOs [ps] that were
    submitted: an IO of [Q] that is not overwritten comes after every IO of
    [ps] that overlaps it, and overlaps no other such IO of [Q]. *)
Definition queued_in_order (h : list Io) (ps Q : list IoPtr) : Prop :=
  forall x, In x Q -> isOverwritten_ (deref h x) = false ->
    (forall p, In p ps -> log_order h p x)
    /\ (forall y, In y Q -> isOverwritten_ (deref h y) = false -> y <> x ->
                  isOverlapped (deref h y) (deref h x) = false).

(** An IO on its way to submission is pending, or it was overwritten. *)
Definition queued_pending (st : Applyer) : Prop :=
  forall p, In p (readyIoQ_ st ++ submitIoQ_ st) ->
            In p (ioQ_ st) \/ isOverwritten_ (deref (heap st) p) = true.

End RedoOrder.

(* ===================================================================== *)
(** * Properties                                                          *)
(* ===================================================================== *)

(** ** Machine integers *)

Lemma s64_small x : 0 <= x < 2 ^ 63 -> s64 x = x.
Proof.
  intros H. unfold s64, u64, wrap. rewrite Z.mod_small by lia.
  destruct (Z.ltb_spec x (2 ^ 63)); lia.
Qed.

Lemma u64_small x : 0 <= x < 2 ^ 64 -> u64 x = x.
Proof. intros H. unfold u64, wrap. apply Z.mod_small. lia. Qed.

Lemma u32_small x : 0 <= x < 2 ^ 32 -> u32 x = x.
Proof. intros H. unfold u32, wrap. apply Z.mod_small. lia. Qed.

(** ** Diff record validity *)

Lemma diff_flags_exclusive_when_valid cmax r :
  DiffBase.isValid cmax r = true ->
  DiffBase.isAllZero r && DiffBase.isDiscard r = false.
Proof.
  unfold DiffBase.isValid, DiffBase.isNormal.
  destruct (DiffBase.exists_ r); simpl; [|discriminate].
  destruct (DiffBase.isAllZero r), (DiffBase.isDiscard r); simpl; congruence.
Qed.

(** C6. A record with the EXIST and DISCARD flags and a non-zero
    [data_size] passes [isValid], whatever the number of compression types:
    the non-normal branch prints the message that the data size must be
    zero and still returns true. *)
Theorem C6_isValid_accepts_discard_with_payload :
  forall cmax,
    let r := DiffBase.mkDiffRecord 0 8 (Z.lor DiffBase.EXIST DiffBase.DISCARD)
                                   0 0 4096 0 in
    DiffBase.isValid cmax r = true
    /\ DiffBase.isDiscard r = true
    /\ DiffBase.isNormal r = false
    /\ DiffBase.dataSize r = 4096.
Proof. intros cmax. repeat split; reflexivity. Qed.

(** ** Log-pack header: adding records *)

Section HeaderFacts.

Variable MAX_TOTAL_IO_SIZE_IN_LOGPACK_HEADER : Z.
Variable max_n_log_record_in_sector : Z -> Z.

Import LogBase.

Local Abbreviation MAXT := MAX_TOTAL_IO_SIZE_IN_LOGPACK_HEADER.
Local Abbreviation maxn := max_n_log_record_in_sector.
Local Abbreviation add_io := (LogBase.add_io MAXT maxn).
Local Abbreviation records_full := (LogBase.records_full maxn).
Local Abbreviation io_size_full := (LogBase.io_size_full MAXT).
Local Abbreviation header_ok := (LogBase.header_ok maxn).


Lemma capacity_pb_small pbs0 size :
  0 < pbs0 -> 0 <= size < 2 ^ 16 ->
  0 <= capacity_pb pbs0 size < 2 ^ 25
  /\ capacity_pb pbs0 size = (size * 512 + pbs0 - 1) / pbs0.
Proof.
  intros Hp Hs. unfold capacity_pb, u32, wrap, LOGICAL_BLOCK_SIZE.
  assert (H0 : 0 <= (size * 512 + pbs0 - 1) / pbs0) by (apply Z.div_pos; lia).
  assert (H1 : (size * 512 + pbs0 - 1) / pbs0 < 2 ^ 25).
  { apply Z.div_lt_upper_bound; [lia|]. nia. }
  rewrite Z.mod_small by lia. lia.
Qed.




(** C10. A zero-sized normal or discard add on a pack that is not full
    raises the exception of the adder, and is never accepted; an adder
    returns false only on a full pack or, for a padding, when the pack
    has a padding already; a zero-sized padding on a pack that is not
    full and has no padding is accepted. *)
Theorem C10_zero_sized_adds :
  forall h offset0,
    (* normal *)
    (~ records_full h -> ~ io_size_full h 0 ->
     addNormalIo MAXT maxn h offset0 0 = Throw "Normal IO can not be zero-sized.")
    /\ (forall h', addNormalIo MAXT maxn h offset0 0 <> Ok (true, h'))
    (* discard *)
    /\ (~ records_full h ->
        addDiscardIo maxn h offset0 0 = Throw "Discard IO can not be zero-sized.")
    /\ (forall h', addDiscardIo maxn h offset0 0 <> Ok (true, h'))
    (* false only when full, or when a padding exists *)
    /\ (forall k size h',
           add_io k h offset0 size = Ok (false, h') ->
           h' = h
           /\ (records_full h
               \/ (k <> AddDiscard /\ io_size_full h size)
               \/ (k = AddPadding /\ 0 < nPadding h)))
    (* zero-sized padding *)
    /\ (~ records_full h -> ~ io_size_full h 0 -> nPadding h <= 0 ->
        LOGICAL_BLOCK_SIZE <= pbs h ->
        addPadding MAXT maxn h 0
        = Ok (true, store_record h
                      (new_record h (set_bit_u32 LOG_RECORD_PADDING
                                       (set_bit_u32 LOG_RECORD_EXIST 0)) 0 0)
                      (capacity_pb (pbs h) 0) true)).
Proof.
  intros h offset0. unfold LogBase.records_full, LogBase.io_size_full, LogBase.add_io.
  repeat split.
  - intros H1 H2. unfold addNormalIo.
    destruct (Z.leb_spec (maxn (pbs h)) (nRecords h)); [lia|].
    destruct (Z.ltb_spec MAXT (u32 (totalIoSize h + capacity_pb (pbs h) 0))); [lia|].
    reflexivity.
  - intros h'. unfold addNormalIo.
    repeat (match goal with
            | |- context [if ?c then _ else _] => destruct c eqn:?
            end; try discriminate).
  - intros H1. unfold addDiscardIo.
    destruct (Z.leb_spec (maxn (pbs h)) (nRecords h)); [lia|]. reflexivity.
  - intros h'. unfold addDiscardIo.
    repeat (match goal with
            | |- context [if ?c then _ else _] => destruct c eqn:?
            end; try discriminate).
  - destruct k; simpl in H; unfold addNormalIo, addDiscardIo, addPadding in H;
      repeat (match type of H with
              | context [if ?c then _ else _] => destruct c eqn:?
              end; try discriminate); congruence.
  - destruct k; simpl in H; unfold addNormalIo, addDiscardIo, addPadding in H;
      repeat (match type of H with
              | context [if ?c then _ else _] => destruct c eqn:?
              end; try discriminate);
      try (left; lia);
      try (right; left; split; [discriminate | lia]);
      try (right; right; split; [reflexivity | lia]).
  - intros H1 H2 H3 H4. unfold addPadding.
    destruct (Z.leb_spec (maxn (pbs h)) (nRecords h)); [lia|].
    destruct (Z.ltb_spec MAXT (u32 (totalIoSize h + capacity_pb (pbs h) 0))); [lia|].
    destruct (Z.ltb_spec 0 (nPadding h)); [lia|].
    assert (Hn : 1 <= n_lb_in_pb (pbs h)).
    { unfold n_lb_in_pb, LOGICAL_BLOCK_SIZE in *.
      apply Z.div_le_lower_bound; lia. }
    destruct (Z.eqb_spec (n_lb_in_pb (pbs h)) 0); [lia|].
    rewrite Z.mod_0_l by lia. reflexivity.
Qed.

End HeaderFacts.


(** ** Conversion of one log record *)

Lemma calcIsAllZero_loop_spec pbs0 rest :
  0 < pbs0 ->
  Forall (fun b => Z.of_nat (length b) = pbs0) rest ->
  forall remaining,
    0 <= remaining <= Z.of_nat (length rest) * pbs0 ->
    LogBase.calcIsAllZero_loop pbs0 rest remaining
    = Ok (forallb Util.is_zero_byte (take (Z.to_nat remaining) (concat rest))).
Proof.
  intros Hp Hall. induction Hall as [|blk rest Hb Hall IH]; intros remaining Hr.
  - simpl in *. assert (remaining = 0) by lia. subst. reflexivity.
  - cbn [LogBase.calcIsAllZero_loop].
    destruct (Z.ltb_spec 0 remaining) as [Hpos|Hpos].
    + unfold Util.calcIsAllZero. cbn [concat].
      rewrite take_app, forallb_app.
      destruct (Z.le_gt_cases remaining pbs0) as [Hle|Hgt].
      * rewrite Z.min_r by lia.
        replace (Z.to_nat remaining - length blk)%nat with 0%nat by lia.
        rewrite take_0. cbn [forallb]. rewrite andb_true_r.
        destruct (forallb Util.is_zero_byte (take (Z.to_nat remaining) blk)); simpl; [|reflexivity].
        rewrite IH by (rewrite length_cons in Hr; lia).
        replace (remaining - remaining) with 0 by lia. reflexivity.
      * rewrite Z.min_l by lia.
        rewrite !take_ge by lia.
        destruct (forallb Util.is_zero_byte blk); simpl; [|reflexivity].
        rewrite IH by (rewrite length_cons in Hr; lia).
        do 3 f_equal. lia.
    + assert (remaining = 0) by lia. subst. reflexivity.
Qed.

Lemma copy_loop_spec blockS pbs0 :
  0 < pbs0 ->
  LogBase.lbs_pbs blockS <> 0 ->
  Forall (fun b => Z.of_nat (length b) = pbs0) (LogBase.data_ blockS) ->
  forall cnt i buf off remaining,
    0 <= off -> 0 <= remaining ->
    Z.of_nat (length buf) = off + remaining ->
    remaining <= Z.of_nat cnt * pbs0 ->
    (i + cnt <= length (LogBase.data_ blockS))%nat ->
    Converter.copy_loop pbs0 blockS cnt i buf off remaining
    = Ok (take (Z.to_nat off) buf
            ++ take (Z.to_nat remaining) (concat (drop i (LogBase.data_ blockS)))).
Proof.
  intros Hp Hnz Hall. induction cnt as [|cnt IH]; intros i buf off remaining Ho Hr Hlen Hcnt Hi.
  - assert (remaining = 0) by lia. subst. simpl.
    rewrite take_ge by lia. rewrite take_0, app_nil_r. reflexivity.
  - cbn [Converter.copy_loop].
    destruct (lookup_lt_is_Some_2 (LogBase.data_ blockS) i) as [blk Hblk]; [lia|].
    unfold LogBase.get, LogBase.checkPbs.
    destruct (Z.eqb_spec (LogBase.lbs_pbs blockS) 0); [contradiction|]. cbn [bind].
    rewrite Hblk. cbn [bind].
    assert (Hb : Z.of_nat (length blk) = pbs0).
    { rewrite Forall_lookup in Hall. exact (Hall i blk Hblk). }
    set (cs := Z.min pbs0 remaining).
    assert (Hcs : 0 <= cs <= pbs0 /\ cs <= remaining) by (unfold cs; lia).
    rewrite IH; try lia.
    + f_equal. rewrite (drop_S _ _ _ Hblk). cbn [concat].
      unfold Converter.memcpy.
      rewrite take_app.
      rewrite length_take_le by lia.
      rewrite (take_ge (take (Z.to_nat off) buf)) by (rewrite length_take_le; lia).
      rewrite <- app_assoc. f_equal.
      replace (Z.to_nat (off + cs) - Z.to_nat off)%nat with (Z.to_nat cs) by lia.
      rewrite take_app. rewrite length_take_le by lia.
      rewrite (take_ge (take (Z.to_nat cs) blk)) by (rewrite length_take_le; lia).
      replace (Z.to_nat cs - Z.to_nat cs)%nat with 0%nat by lia.
      rewrite take_0, app_nil_r.
      rewrite (take_app blk).
      destruct (Z.le_gt_cases remaining pbs0).
      * unfold cs. rewrite Z.min_r by lia.
        replace (Z.to_nat (remaining - remaining)) with 0%nat by lia.
        replace (Z.to_nat remaining - length blk)%nat with 0%nat by lia.
        reflexivity.
      * unfold cs. rewrite Z.min_l by lia.
        rewrite (take_ge blk (Z.to_nat pbs0)) by lia.
        rewrite (take_ge blk (Z.to_nat remaining)) by lia.
        do 2 f_equal. lia.
    + unfold Converter.memcpy. rewrite !length_app, !length_take_le, length_drop by lia.
      lia.
Qed.

Section ConverterFacts.

Import Converter.

Lemma diff_set_empty_data rec io :
  DiffBase.data_size rec = 0 -> DiffBase.data_ (DiffBase.set rec io) = [].
Proof.
  intros H. unfold DiffBase.set. rewrite H.
  destruct (DiffBase.isNormal rec); reflexivity.
Qed.

Lemma diff_set_normal_blocks a b io :
  DiffBase.ioBlocks_
    (DiffBase.set (DiffBase.setIoBlocks b (DiffBase.setIoAddress a DiffBase.init)) io)
  = b.
Proof. reflexivity. Qed.

(** C1. convertLogToDiff on a record whose size fits a diff record: a
    padding record gives false and leaves the outputs alone; a discard
    record gives a DISCARD diff record with [data_size = 0] and no payload;
    a record whose payload is all zero gives an ALLZERO diff record with
    [data_size = 0] and no payload; any other record gives a normal diff
    record whose IO holds the payload bytes, with compression type NONE,
    [data_size = io_size * 512] and the checksum of the payload. *)
Theorem C1_convertLogToDiff_cases :
  forall pbs0 rec blockS mrec0 io0,
    0 <= LogBase.io_size rec < 2 ^ 16 ->
    (LogBase.isPadding rec = false -> LogBase.isDiscard rec = false ->
     blocks_ok pbs0 rec blockS) ->
    exists b mrec io,
      convertLogToDiff pbs0 rec blockS mrec0 io0 = Ok (b, mrec, io)
      /\ if LogBase.isPadding rec then
           b = false /\ mrec = mrec0 /\ io = io0
         else
           b = true
           /\ DiffBase.io_address mrec = LogBase.offset rec
           /\ DiffBase.io_blocks mrec = LogBase.io_size rec
           /\ if LogBase.isDiscard rec then
                DiffBase.isDiscard mrec = true
                /\ DiffBase.isAllZero mrec = false
                /\ DiffBase.data_size mrec = 0
                /\ DiffBase.data_ io = []
              else if forallb Util.is_zero_byte (payload rec blockS) then
                DiffBase.isAllZero mrec = true
                /\ DiffBase.isDiscard mrec = false
                /\ DiffBase.data_size mrec = 0
                /\ DiffBase.data_ io = []
              else
                DiffBase.isNormal mrec = true
                /\ DiffBase.data_ io = payload rec blockS
                /\ DiffBase.compression_type mrec = DiffBase.WALB_DIFF_CMPR_NONE
                /\ DiffBase.data_size mrec = LogBase.io_size rec * LOGICAL_BLOCK_SIZE
                /\ DiffBase.checksum mrec = Util.calcChecksum (payload rec blockS) 0.
Proof.
  intros pbs0 rec blockS mrec0 io0 Hsz Hok.
  unfold convertLogToDiff.
  destruct (LogBase.isPadding rec) eqn:Hpad.
  { exists false, mrec0, io0. auto. }
  assert (Hu16 : u16 (LogBase.io_size rec) = LogBase.io_size rec).
  { unfold u16, wrap. apply Z.mod_small. lia. }
  rewrite Hu16.
  destruct (LogBase.isDiscard rec) eqn:Hdis.
  { eexists _, _, _. split; [reflexivity|].
    repeat split. }
  destruct (Hok eq_refl eq_refl) as [Hpbs Hpos Hall Hfit Hmem].
  assert (Hbytes : u64 (LogBase.ioSizeLb rec * LOGICAL_BLOCK_SIZE)
                   = LogBase.io_size rec * LOGICAL_BLOCK_SIZE).
  { unfold u64, wrap, LogBase.ioSizeLb, LOGICAL_BLOCK_SIZE. apply Z.mod_small. lia. }
  assert (Hbytes32 : u32 (LogBase.ioSizeLb rec * LOGICAL_BLOCK_SIZE)
                     = LogBase.io_size rec * LOGICAL_BLOCK_SIZE).
  { unfold u32, wrap, LogBase.ioSizeLb, LOGICAL_BLOCK_SIZE. apply Z.mod_small. lia. }
  unfold LogBase.calcIsAllZero, LogBase.checkPbs, LogBase.checkSizeLb.
  destruct (Z.eqb_spec (LogBase.lbs_pbs blockS) 0) as [E|_]; [lia|]. cbn [bind].
  rewrite Hbytes.
  assert (Hmem' : u64 (LogBase.nBlocks blockS * LogBase.lbs_pbs blockS)
                  = LogBase.nBlocks blockS * pbs0).
  { rewrite Hpbs. unfold u64, wrap. apply Z.mod_small. unfold LogBase.nBlocks in *. lia. }
  rewrite Hmem'.
  destruct (Z.ltb_spec (LogBase.nBlocks blockS * pbs0)
                       (LogBase.io_size rec * LOGICAL_BLOCK_SIZE)) as [E|_]; [lia|].
  cbn [bind].
  rewrite Hpbs.
  rewrite (calcIsAllZero_loop_spec pbs0 (LogBase.data_ blockS) Hpos Hall)
    by (unfold LogBase.nBlocks in Hfit; unfold LOGICAL_BLOCK_SIZE in *; lia).
  cbn [bind]. fold (payload rec blockS).
  destruct (forallb Util.is_zero_byte (payload rec blockS)) eqn:Hz.
  { eexists _, _, _. split; [reflexivity|]. repeat split. }
  rewrite Hbytes32.
  assert (Hnz : 0 < LogBase.io_size rec).
  { destruct (Z.eq_dec (LogBase.io_size rec) 0) as [E|E]; [|lia].
    unfold payload in Hz. rewrite E in Hz. simpl in Hz. discriminate. }
  assert (Hcap : LogBase.ioSizePb rec pbs0
                 = (LogBase.io_size rec * 512 + pbs0 - 1) / pbs0).
  { unfold LogBase.ioSizePb, capacity_pb, u32, wrap, LOGICAL_BLOCK_SIZE.
    apply Z.mod_small. split; [apply Z.div_pos; lia|].
    apply Z.div_lt_upper_bound; nia. }
  assert (Hcap1 : LogBase.io_size rec * 512 <= LogBase.ioSizePb rec pbs0 * pbs0).
  { rewrite Hcap.
    pose proof (Z.mul_div_le (LogBase.io_size rec * 512 + pbs0 - 1) pbs0 Hpos).
    pose proof (Z.mod_pos_bound (LogBase.io_size rec * 512 + pbs0 - 1) pbs0 Hpos).
    pose proof (Z.div_mod (LogBase.io_size rec * 512 + pbs0 - 1) pbs0). lia. }
  assert (Hcap2 : LogBase.ioSizePb rec pbs0 <= LogBase.nBlocks blockS).
  { rewrite Hcap. apply Z.lt_succ_r. apply Z.div_lt_upper_bound; [lia|].
    unfold LOGICAL_BLOCK_SIZE in Hfit. nia. }
  rewrite (copy_loop_spec blockS pbs0 Hpos ltac:(lia) Hall).
  - cbn [bind]. eexists _, _, _. split; [reflexivity|].
    rewrite take_0, drop_0. cbn [app].
    split; [reflexivity|]. split; [reflexivity|]. split; [reflexivity|].
    split; [reflexivity|].
    split; [reflexivity|]. split; [reflexivity|]. split; [reflexivity|].
    unfold DiffBase.setChecksum, DiffBase.checksum, DiffBase.calcChecksum, DiffBase.empty.
    cbn.
    rewrite diff_set_normal_blocks.
    destruct (Z.eqb_spec (LogBase.io_size rec) 0); [lia|]. reflexivity.
  - lia.
  - unfold LOGICAL_BLOCK_SIZE. lia.
  - rewrite repeat_length. unfold LOGICAL_BLOCK_SIZE. lia.
  - unfold LOGICAL_BLOCK_SIZE. lia.
  - unfold LogBase.nBlocks in Hcap2. lia.
Qed.

(** One 8-block write of 0xAA bytes at block 8, in one 4096-byte block. *)
Lemma C1_convertLogToDiff_cases_witness :
  let rec := LogBase.mkLogRecord 0 101 1 1 8 8 in
  let blockS := LogBase.mkLogBlockShared 4096 [repeat Byte.xaa 4096] in
  exists b mrec io,
    convertLogToDiff 4096 rec blockS DiffBase.init
                     (DiffBase.mkIoData 0 0 []) = Ok (b, mrec, io)
    /\ b = true
    /\ DiffBase.isNormal mrec = true
    /\ DiffBase.data_ io = repeat Byte.xaa 4096
    /\ DiffBase.data_size mrec = 4096.
Proof.
  intros rec blockS.
  destruct (C1_convertLogToDiff_cases 4096 rec blockS DiffBase.init
              (DiffBase.mkIoData 0 0 []))
    as (b & mrec & io & Hrun & Hcase).
  - vm_compute. split; congruence.
  - intros _ _. constructor.
    + reflexivity.
    + reflexivity.
    + repeat constructor.
    + vm_compute. congruence.
    + reflexivity.
  - exists b, mrec, io. split; [exact Hrun|].
    change (LogBase.isPadding rec) with false in Hcase.
    change (LogBase.isDiscard rec) with false in Hcase.
    replace (forallb Util.is_zero_byte (payload rec blockS)) with false in Hcase
      by (vm_compute; reflexivity).
    destruct Hcase as (Hb & _ & _ & Hn & Hd & _ & Hs & _).
    repeat split; assumption.
Defined.

(** *** Records wider than a diff record *)

Lemma Forall_repeat_eq {A} (x : A) n : Forall (eq x) (repeat x n).
Proof.
  apply List.Forall_forall. intros y Hy. symmetry. exact (repeat_spec _ _ _ Hy).
Qed.

Lemma le_words_zeros :
  forall fuel l, Forall (eq Byte.x00) l -> Forall (eq 0) (Util.le_words fuel l).
Proof.
  induction fuel as [|fuel IH]; intros l Hl; [constructor|].
  destruct l as [|b0 [|b1 [|b2 [|b3 r]]]]; cbn [Util.le_words];
    repeat match goal with
           | H : Forall _ (_ :: _) |- _ => inversion H; clear H; subst
           end;
    try (constructor; [reflexivity|]); try constructor.
  - destruct fuel; constructor.
  - destruct fuel; constructor.
  - destruct fuel; constructor.
  - apply IH. assumption.
Qed.

Lemma fold_zero_words :
  forall ws c,
    Forall (eq 0) ws -> 0 <= c < 2 ^ 32 ->
    fold_left (fun acc w => u32 (acc + w)) ws c = c.
Proof.
  induction ws as [|w ws IH]; intros c Hws Hc; [reflexivity|].
  inversion Hws as [|? ? <- Hws']; subst. cbn [fold_left].
  replace (u32 (c + 0)) with c.
  - apply IH; assumption.
  - unfold u32, wrap. rewrite Z.add_0_r, Z.mod_small by lia. reflexivity.
Qed.

(** The checksum of a buffer whose first byte is 1 and whose other bytes
    are zero. *)
Lemma calcChecksum_one_then_zeros r :
  Forall (eq Byte.x00) r ->
  Util.calcChecksum (Byte.x01 :: r) 0 = 2 ^ 32 - 1.
Proof.
  intros Hr. unfold Util.calcChecksum, Util.checksumPartial.
  cbn [length Util.le_words].
  assert (Hw : forall fuel l, Forall (eq Byte.x00) l ->
                 fold_left (fun acc w => u32 (acc + w)) (1 :: Util.le_words fuel l) 0 = 1).
  { intros fuel l Hl. cbn [fold_left]. change (u32 (0 + 1)) with 1.
    apply fold_zero_words; [apply le_words_zeros; exact Hl|lia]. }
  destruct r as [|b1 [|b2 [|b3 r]]];
    repeat match goal with
           | H : Forall _ (_ :: _) |- _ => inversion H; clear H; subst
           end.
  - change (Util.byte_val Byte.x01 + 2 ^ 8 * Util.byte_val Byte.x00
            + 2 ^ 16 * Util.byte_val Byte.x00 + 2 ^ 24 * Util.byte_val Byte.x00) with 1.
    rewrite (Hw _ [] ltac:(constructor)). reflexivity.
  - change (Util.byte_val Byte.x01 + 2 ^ 8 * Util.byte_val Byte.x00
            + 2 ^ 16 * Util.byte_val Byte.x00 + 2 ^ 24 * Util.byte_val Byte.x00) with 1.
    rewrite (Hw _ [] ltac:(constructor)). reflexivity.
  - change (Util.byte_val Byte.x01 + 2 ^ 8 * Util.byte_val Byte.x00
            + 2 ^ 16 * Util.byte_val Byte.x00 + 2 ^ 24 * Util.byte_val Byte.x00) with 1.
    rewrite (Hw _ [] ltac:(constructor)). reflexivity.
  - change (Util.byte_val Byte.x01 + 2 ^ 8 * Util.byte_val Byte.x00
            + 2 ^ 16 * Util.byte_val Byte.x00 + 2 ^ 24 * Util.byte_val Byte.x00) with 1.
    rewrite (Hw _ r ltac:(assumption)). reflexivity.
Qed.

(** convertLogToDiff on a record with data that is not all zero, whatever
    the width of its size: the block count of the diff record is the size
    cut to 16 bits, and the checksum is 0 when that is 0. *)
Lemma convertLogToDiff_normal pbs0 rec blockS mrec0 io0 :
  LogBase.isPadding rec = false ->
  LogBase.isDiscard rec = false ->
  0 <= LogBase.io_size rec ->
  LogBase.io_size rec * LOGICAL_BLOCK_SIZE < 2 ^ 32 ->
  blocks_ok pbs0 rec blockS ->
  forallb Util.is_zero_byte (payload rec blockS) = false ->
  exists mrec io,
    convertLogToDiff pbs0 rec blockS mrec0 io0 = Ok (true, mrec, io)
    /\ DiffBase.io_blocks mrec = u16 (LogBase.io_size rec)
    /\ DiffBase.data_ io = payload rec blockS
    /\ DiffBase.data_size mrec = LogBase.io_size rec * LOGICAL_BLOCK_SIZE
    /\ DiffBase.checksum mrec
       = if u16 (LogBase.io_size rec) =? 0 then 0
         else Util.calcChecksum (payload rec blockS) 0.
Proof.
  intros Hpad Hdis Hsz0 Hsz [Hpbs Hpos Hall Hfit Hmem] Hz.
  unfold convertLogToDiff. rewrite Hpad, Hdis.
  assert (Hbytes : u64 (LogBase.ioSizeLb rec * LOGICAL_BLOCK_SIZE)
                   = LogBase.io_size rec * LOGICAL_BLOCK_SIZE).
  { unfold u64, wrap, LogBase.ioSizeLb, LOGICAL_BLOCK_SIZE in *. apply Z.mod_small. lia. }
  assert (Hbytes32 : u32 (LogBase.ioSizeLb rec * LOGICAL_BLOCK_SIZE)
                     = LogBase.io_size rec * LOGICAL_BLOCK_SIZE).
  { unfold u32, wrap, LogBase.ioSizeLb, LOGICAL_BLOCK_SIZE in *. apply Z.mod_small. lia. }
  unfold LogBase.calcIsAllZero, LogBase.checkPbs, LogBase.checkSizeLb.
  destruct (Z.eqb_spec (LogBase.lbs_pbs blockS) 0) as [E|_]; [lia|]. cbn [bind].
  rewrite Hbytes.
  assert (Hmem' : u64 (LogBase.nBlocks blockS * LogBase.lbs_pbs blockS)
                  = LogBase.nBlocks blockS * pbs0).
  { rewrite Hpbs. unfold u64, wrap. apply Z.mod_small. unfold LogBase.nBlocks in *. lia. }
  rewrite Hmem'.
  destruct (Z.ltb_spec (LogBase.nBlocks blockS * pbs0)
                       (LogBase.io_size rec * LOGICAL_BLOCK_SIZE)) as [E|_]; [lia|].
  cbn [bind].
  rewrite Hpbs.
  rewrite (calcIsAllZero_loop_spec pbs0 (LogBase.data_ blockS) Hpos Hall)
    by (unfold LogBase.nBlocks in Hfit; unfold LOGICAL_BLOCK_SIZE in *; lia).
  cbn [bind]. fold (payload rec blockS). rewrite Hz.
  rewrite Hbytes32.
  assert (Hnz : 0 < LogBase.io_size rec).
  { destruct (Z.eq_dec (LogBase.io_size rec) 0) as [E|E]; [|lia].
    unfold payload in Hz. rewrite E in Hz. simpl in Hz. discriminate. }
  assert (Hcap : LogBase.ioSizePb rec pbs0
                 = (LogBase.io_size rec * 512 + pbs0 - 1) / pbs0).
  { unfold LogBase.ioSizePb, capacity_pb, u32, wrap, LOGICAL_BLOCK_SIZE in *.
    apply Z.mod_small. split; [apply Z.div_pos; lia|].
    apply Z.div_lt_upper_bound; nia. }
  assert (Hcap2 : LogBase.ioSizePb rec pbs0 <= LogBase.nBlocks blockS).
  { rewrite Hcap. apply Z.lt_succ_r. apply Z.div_lt_upper_bound; [lia|].
    unfold LOGICAL_BLOCK_SIZE in Hfit. nia. }
  assert (Hcap1 : LogBase.io_size rec * 512 <= LogBase.ioSizePb rec pbs0 * pbs0).
  { rewrite Hcap.
    pose proof (Z.mul_div_le (LogBase.io_size rec * 512 + pbs0 - 1) pbs0 Hpos).
    pose proof (Z.mod_pos_bound (LogBase.io_size rec * 512 + pbs0 - 1) pbs0 Hpos).
    pose proof (Z.div_mod (LogBase.io_size rec * 512 + pbs0 - 1) pbs0). lia. }
  rewrite (copy_loop_spec blockS pbs0 Hpos ltac:(lia) Hall).
  - cbn [bind]. eexists _, _. split; [reflexivity|].
    rewrite take_0, drop_0. cbn [app].
    split; [reflexivity|]. split; [reflexivity|]. split; [reflexivity|].
    unfold DiffBase.setChecksum, DiffBase.checksum, DiffBase.calcChecksum, DiffBase.empty.
    cbn. rewrite diff_set_normal_blocks. reflexivity.
  - lia.
  - unfold LOGICAL_BLOCK_SIZE. lia.
  - rewrite repeat_length. unfold LOGICAL_BLOCK_SIZE. lia.
  - unfold LOGICAL_BLOCK_SIZE. lia.
  - unfold LogBase.nBlocks in Hcap2. lia.
Qed.

(** A write of 65536 logical blocks whose first byte is 1 and whose other
    bytes are 0, in 8192 blocks of 4096 bytes. The size does not fit the
    16 bits of [io_blocks]: the diff record has no block, its IO is empty
    for calcChecksum, and the checksum stored is 0, which is not the
    checksum of the payload. *)
Lemma C1_wide_record_counterexample :
  let rec := LogBase.mkLogRecord 0 101 1 1 8 65536 in
  let blockS :=
    LogBase.mkLogBlockShared
      4096 ((Byte.x01 :: repeat Byte.x00 4095)
              :: repeat (repeat Byte.x00 4096) (Z.to_nat 8191)) in
  LogBase.isPadding rec = false
  /\ LogBase.isDiscard rec = false
  /\ forallb Util.is_zero_byte (payload rec blockS) = false
  /\ exists mrec io,
      convertLogToDiff 4096 rec blockS DiffBase.init (DiffBase.mkIoData 0 0 [])
      = Ok (true, mrec, io)
      /\ DiffBase.io_blocks mrec = 0
      /\ DiffBase.io_blocks mrec <> LogBase.io_size rec
      /\ DiffBase.data_ io = payload rec blockS
      /\ DiffBase.checksum mrec = 0
      /\ Util.calcChecksum (payload rec blockS) 0 = 2 ^ 32 - 1.
Proof.
  intros rec blockS.
  assert (Hpay : exists r, payload rec blockS = Byte.x01 :: r /\ Forall (eq Byte.x00) r).
  { unfold payload, rec, blockS. cbn [LogBase.io_size LogBase.data_ concat].
    replace (Z.to_nat (65536 * LOGICAL_BLOCK_SIZE)) with (S (Z.to_nat 33554431))
      by (unfold LOGICAL_BLOCK_SIZE; lia).
    rewrite <- app_comm_cons, firstn_cons.
    eexists. split; [reflexivity|].
    apply Forall_take. apply Forall_app. split; [apply Forall_repeat_eq|].
    apply Forall_concat. apply List.Forall_forall. intros b Hb.
    apply repeat_spec in Hb. subst b. apply Forall_repeat_eq. }
  destruct Hpay as (r & Hpay & Hr).
  assert (Hz : forallb Util.is_zero_byte (payload rec blockS) = false).
  { rewrite Hpay. reflexivity. }
  split; [reflexivity|]. split; [reflexivity|]. split; [exact Hz|].
  destruct (convertLogToDiff_normal 4096 rec blockS DiffBase.init (DiffBase.mkIoData 0 0 []))
    as (mrec & io & Hrun & Hb & Hd & _ & Hc); try reflexivity; try exact Hz.
  - cbn. lia.
  - constructor.
    + reflexivity.
    + reflexivity.
    + cbn [LogBase.data_ blockS]. constructor; [reflexivity|].
      apply List.Forall_forall. intros b Hb. apply repeat_spec in Hb. subst b.
      reflexivity.
    + unfold LogBase.nBlocks. cbn [LogBase.data_ blockS length LogBase.io_size rec].
      rewrite repeat_length. unfold LOGICAL_BLOCK_SIZE. lia.
    + unfold LogBase.nBlocks. cbn [LogBase.data_ blockS length].
      rewrite repeat_length. lia.
  - exists mrec, io. split; [exact Hrun|].
    change (u16 (LogBase.io_size rec)) with 0 in Hb, Hc.
    split; [exact Hb|]. split; [rewrite Hb; cbn; lia|]. split; [exact Hd|].
    split; [exact Hc|].
    rewrite Hpay. apply calcChecksum_one_then_zeros. exact Hr.
Qed.

(** ** Conversion of concatenated wlog files *)

Lemma uuid_eqb_eq a b : uuid_eqb a b = true <-> a = b.
Proof.
  revert b. induction a as [|x a IH]; intros [|y b]; simpl; split;
    try congruence; try discriminate.
  - intros H. apply andb_true_iff in H as [H1 H2].
    apply Byte.byte_dec_bl in H1. apply IH in H2. congruence.
  - intros [= -> ->]. apply andb_true_iff. split.
    + apply Byte.byte_dec_lb. reflexivity.
    + apply IH. reflexivity.
Qed.

Lemma convert_logs_uuid pbs0 logs :
  forall written m written' m',
    convert_logs pbs0 logs written m = Ok (written', m') ->
    md_uuid m' = md_uuid m.
Proof.
  induction logs as [|[lrec blockS] logs IH]; intros written m written' m' H.
  - simpl in H. congruence.
  - cbn [convert_logs] in H.
    destruct (convertLogToDiff _ _ _ _ _) as [[[[] r] io]|]; cbn [bind] in H;
      try discriminate; apply IH in H; exact H.
Qed.

Lemma convertWlog_file_ok st wl st' :
  convertWlog_file st wl = Ok st' ->
  cs_lsid st' = wl_endLsid wl
  /\ exists l0 m0, beginWlog st wl = Ok (l0, m0)
                   /\ md_uuid (cs_walbDiff st') = md_uuid m0.
Proof.
  unfold convertWlog_file. intros H.
  destruct (beginWlog st wl) as [[l0 m0]|] eqn:Hb; cbn [bind] in H; [|discriminate].
  destruct (convert_logs _ _ _ _) as [[w m1]|] eqn:Hc; cbn [bind] in H; [|discriminate].
  injection H as <-. simpl. split; [reflexivity|].
  exists l0, m0. split; [reflexivity|]. eapply convert_logs_uuid; eauto.
Qed.

Lemma beginWlog_later st wl l0 m0 :
  cs_lsid st <> UINT64_MAX ->
  beginWlog st wl = Ok (l0, m0) ->
  wl_beginLsid wl = cs_lsid st
  /\ wl_uuid wl = md_uuid (cs_walbDiff st)
  /\ m0 = cs_walbDiff st.
Proof.
  intros Hl. unfold beginWlog.
  destruct (Z.eqb_spec (cs_lsid st) UINT64_MAX); [contradiction|].
  destruct (Z.eqb_spec (cs_lsid st) (wl_beginLsid wl)); simpl; [|discriminate].
  destruct (uuid_eqb _ _) eqn:Hu; simpl; [|discriminate].
  apply uuid_eqb_eq in Hu. intros [= <- <-]. auto.
Qed.

Lemma convert_loop_app st a b :
  convert_loop st (a ++ b) = do st' <- convert_loop st a; convert_loop st' b.
Proof.
  revert st. induction a as [|f a IH]; intros st; simpl; [reflexivity|].
  destruct (convertWlog_file st f); simpl; [apply IH|reflexivity].
Qed.

Lemma last_default_irrel (l : list Z) d d' :
  l <> [] -> List.last l d = List.last l d'.
Proof.
  induction l as [|x [|y l] IH]; intros H; [contradiction|reflexivity|].
  change (List.last (y :: l) d = List.last (y :: l) d'). apply IH. discriminate.
Qed.

Lemma last_cons_nonempty (l : list Z) x d :
  l <> [] -> List.last (x :: l) d = List.last l d.
Proof. destruct l; [contradiction|reflexivity]. Qed.

Lemma convert_loop_later files :
  forall st st',
    cs_lsid st <> UINT64_MAX ->
    Forall (fun f => wl_endLsid f <> UINT64_MAX) files ->
    convert_loop st files = Ok st' ->
    md_uuid (cs_walbDiff st') = md_uuid (cs_walbDiff st)
    /\ cs_lsid st' = List.last (map wl_endLsid files) (cs_lsid st)
    /\ cs_lsid st' <> UINT64_MAX
    /\ Forall (fun f => wl_uuid f = md_uuid (cs_walbDiff st)) files.
Proof.
  induction files as [|f files IH]; intros st st' Hl Hall H.
  - simpl in H. injection H as <-. simpl. auto.
  - cbn [convert_loop] in H.
    destruct (convertWlog_file st f) as [st1|] eqn:Hf; cbn [bind] in H; [|discriminate].
    apply convertWlog_file_ok in Hf as [He (l0 & m0 & Hb & Hu)].
    apply beginWlog_later in Hb as (Hbl & Hbu & ->); [|assumption].
    inversion Hall as [|? ? Hf0 Hall']; subst.
    apply IH in H as (H1 & H2 & H3 & H4); [| congruence | assumption].
    rewrite Hu in H1, H4.
    repeat split; try assumption.
    + rewrite H2, He. destruct files as [|w files]; [reflexivity|].
      change (map wl_endLsid (f :: w :: files))
        with (wl_endLsid f :: map wl_endLsid (w :: files)).
      rewrite last_cons_nonempty by discriminate.
      apply last_default_irrel. discriminate.
    + constructor; assumption.
Qed.

(** C9. On a concatenation of wlog files of which a prefix has been
    converted, the first file has initialised the UUID of the diff and the
    starting LSID; a further file whose begin LSID differs from the end LSID
    of the previous file fails with the LSID mismatch, and one that chains
    but carries another UUID than the first file fails with the UUID
    mismatch. The end LSIDs are LSIDs, not the reserved value 2^64 - 1 with
    which the converter marks that no file has been read yet. *)
Theorem C9_concatenated_wlogs :
  forall f0 mid st,
    Forall (fun f => wl_endLsid f <> UINT64_MAX) (f0 :: mid) ->
    convert (f0 :: mid) = Ok st ->
    let prev := List.last mid f0 in
    (* the first file initialises the UUID and the starting LSID *)
    beginWlog convert_init f0
    = Ok (wl_beginLsid f0, setUuid (wl_uuid f0) (cs_walbDiff convert_init))
    /\ md_uuid (cs_walbDiff st) = wl_uuid f0
    /\ cs_lsid st = wl_endLsid prev
    (* the files accepted so far were chained and had the UUID of the first *)
    /\ Forall (fun f => wl_uuid f = wl_uuid f0) mid
    (* a further file *)
    /\ forall f rest,
        (wl_beginLsid f <> wl_endLsid prev ->
         convert (f0 :: mid ++ f :: rest) = Throw "lsid mismatch.")
        /\ (wl_beginLsid f = wl_endLsid prev -> wl_uuid f <> wl_uuid f0 ->
            convert (f0 :: mid ++ f :: rest) = Throw "Uuid mismatch.").
Proof.
  intros f0 mid st Hall Hrun prev.
  unfold convert in Hrun. cbn [convert_loop] in Hrun.
  destruct (convertWlog_file convert_init f0) as [st1|] eqn:Hf0;
    cbn [bind] in Hrun; [|discriminate].
  assert (Hb0 : beginWlog convert_init f0
                = Ok (wl_beginLsid f0, setUuid (wl_uuid f0) (cs_walbDiff convert_init)))
    by reflexivity.
  pose proof Hf0 as Hf0'.
  apply convertWlog_file_ok in Hf0' as [He (l0 & m0 & Hb & Hu)].
  rewrite Hb0 in Hb. injection Hb as <- <-. simpl in Hu.
  inversion Hall as [|? ? He0 Hall']; subst.
  pose proof (convert_loop_later mid st1 st ltac:(congruence) Hall' Hrun)
    as (H1 & H2 & H3 & H4).
  rewrite Hu in H1, H4.
  assert (Hprev : cs_lsid st = wl_endLsid prev).
  { rewrite H2, He. unfold prev. clear. induction mid as [|a [|b mid] IH]; try reflexivity.
    change (List.last (map wl_endLsid (b :: mid)) (wl_endLsid f0)
            = wl_endLsid (List.last (b :: mid) f0)). exact IH. }
  split; [exact Hb0|]. split; [exact H1|]. split; [exact Hprev|]. split; [exact H4|].
  intros f rest.
  assert (Hgo : convert (f0 :: mid ++ f :: rest)
                = do st' <- convertWlog_file st f; convert_loop st' rest).
  { unfold convert. cbn [convert_loop app]. rewrite Hf0. cbn [bind].
    rewrite convert_loop_app, Hrun. reflexivity. }
  rewrite Hgo. unfold convertWlog_file, beginWlog.
  destruct (Z.eqb_spec (cs_lsid st) UINT64_MAX); [contradiction|].
  rewrite Hprev. split.
  - intros Hne. destruct (Z.eqb_spec (wl_endLsid prev) (wl_beginLsid f)); [congruence|].
    reflexivity.
  - intros Heq Hnu. destruct (Z.eqb_spec (wl_endLsid prev) (wl_beginLsid f)); [|congruence].
    simpl. destruct (uuid_eqb _ _) eqn:Hq; [|reflexivity].
    apply uuid_eqb_eq in Hq. congruence.
Qed.

(** Two files: the first ends at LSID 20, the second begins at LSID 30. *)
Lemma C9_concatenated_wlogs_witness :
  let u := repeat Byte.x01 16 in
  let f0 := mkWlogFile 4096 u 10 20 [] in
  let f1 := mkWlogFile 4096 u 30 40 [] in
  convert [f0; f1] = Throw "lsid mismatch.".
Proof.
  intros u f0 f1.
  destruct (C9_concatenated_wlogs f0 [] (mkConvState 20 0 (mkMemoryData u [])))
    as (_ & _ & _ & _ & H).
  - repeat constructor. vm_compute. congruence.
  - reflexivity.
  - destruct (H f1 []) as [H1 _]. apply H1. vm_compute. congruence.
Defined.

(** A first file that ends at LSID 2^64 - 1, the value with which the
    converter marks that no file has been read: the second file is taken
    for a first one. Its begin LSID and its UUID are not checked, and its
    UUID replaces that of the first file. *)
Lemma C9_sentinel_end_lsid_counterexample :
  let u := repeat Byte.x01 16 in
  let u' := repeat Byte.x02 16 in
  let f0 := mkWlogFile 4096 u 10 UINT64_MAX [] in
  let f1 := mkWlogFile 4096 u' 30 40 [] in
  wl_beginLsid f1 <> wl_endLsid f0
  /\ wl_uuid f1 <> wl_uuid f0
  /\ convert [f0; f1] = Ok (mkConvState 40 0 (mkMemoryData u' [])).
Proof.
  intros u u' f0 f1.
  split; [vm_compute; congruence|]. split; [vm_compute; congruence|].
  vm_compute. reflexivity.
Qed.

End ConverterFacts.

(** ** One pass of the diff merger

    Of the pass only shouldMerge and Wdiff::currentAddress are in the
    header; the loop is the one of section 4.E. *)

Section MergerFacts.

Import Merger.

Lemma shouldMerge_iff m minAddr rec :
  shouldMerge m rec minAddr = true
  <-> DiffBase.io_address rec < u64 (doneAddr_ m + searchLen_ m)
      /\ DiffBase.endIoAddress rec <= minAddr.
Proof.
  unfold shouldMerge. rewrite andb_true_iff, Z.ltb_lt, Z.leb_le. reflexivity.
Qed.

Lemma getMinimumAddr_le ws w :
  In w ws -> getMinimumAddr ws <= currentAddress w.
Proof.
  induction ws as [|w0 ws IH]; [contradiction|].
  intros [->|Hin]; cbn [getMinimumAddr fold_right]; [lia|].
  specialize (IH Hin). unfold getMinimumAddr in IH. lia.
Qed.

(** With the minimum taken over every open stream, the stream of the record
    included, a front record of one block or more is not accepted. *)
Lemma front_record_with_blocks_not_merged m w rec io rest :
  In w (wdiffs_ m) ->
  w_recs w = (rec, io) :: rest ->
  0 < DiffBase.io_blocks rec ->
  0 <= DiffBase.io_address rec ->
  DiffBase.io_address rec + DiffBase.io_blocks rec < 2 ^ 64 ->
  shouldMerge m rec (getMinimumAddr (wdiffs_ m)) = false.
Proof.
  intros Hin Hw Hb Ha Hr. apply getMinimumAddr_le in Hin.
  unfold currentAddress in Hin. rewrite Hw in Hin.
  unfold shouldMerge, DiffBase.endIoAddress, DiffBase.ioAddress, DiffBase.ioBlocks.
  unfold u64 at 2, wrap. rewrite (Z.mod_small (_ + _)) by lia.
  apply andb_false_iff. right. apply Z.leb_gt. lia.
Qed.

Lemma moveStreams_stuck m minAddr :
  forall ws mem,
    Forall (fun w => match w_recs w with
                     | [] => True
                     | (rec, _) :: _ => shouldMerge m rec minAddr = false
                     end) ws ->
    moveStreams m minAddr ws mem = (ws, mem).
Proof.
  induction ws as [|[recs] ws IH]; intros mem Hall; [reflexivity|].
  inversion Hall as [|? ? Hw Hws]; subst. cbn [moveStreams w_recs] in *.
  assert (E : moveStream m minAddr recs mem = (recs, mem)).
  { destruct recs as [|[rec io] recs]; [reflexivity|].
    cbn [moveStream]. rewrite Hw. reflexivity. }
  rewrite E, (IH mem Hws). reflexivity.
Qed.

(** Read to the letter, section 4.E lets a pass pop no record that has a
    block: the minimum front address is at most the address of the front
    record of every stream, below its end. The pass moves only the
    watermark. *)
Lemma tryMoveToDiffMemory_pops_nothing m :
  Forall front_has_blocks (wdiffs_ m) ->
  tryMoveToDiffMemory m
  = mkDiffMerger (wdiffs_ m) (diffMem_ m) (getMinimumAddr (wdiffs_ m)) (searchLen_ m).
Proof.
  intros Hall. unfold tryMoveToDiffMemory.
  rewrite moveStreams_stuck; [reflexivity|].
  apply List.Forall_forall. intros w Hw.
  rewrite List.Forall_forall in Hall. specialize (Hall w Hw).
  unfold front_has_blocks in Hall.
  destruct (w_recs w) as [|[rec io] rest] eqn:E; [exact I|].
  destruct Hall as (H1 & H2 & H3).
  apply (front_record_with_blocks_not_merged m w rec io rest Hw E H1 H2 H3).
Qed.

End MergerFacts.

(** ** Redo: coalescing in the staging queue *)

Section CoalesceFacts.

Import Redo.

Lemma tryMerge_true lhs rhs lhs' rhs' :
  tryMerge lhs rhs = (true, lhs', rhs') ->
  canMerge lhs rhs = true
  /\ lhs' = set_blocks_ (blocks_ lhs ++ blocks_ rhs)
                        (set_size_ (u64 (size_ lhs + size_ rhs)) lhs)
  /\ rhs' = set_blocks_ [] rhs.
Proof.
  unfold tryMerge. destruct (canMerge lhs rhs); simpl; [|discriminate].
  intros [= <- <-]. auto.
Qed.

Lemma IoQueue_tryMerge_true io0 io1 io0' io1' :
  IoQueue_tryMerge io0 io1 = (true, io0', io1') ->
  u64 (size_ io0 + size_ io1) <= maxIoSize_
  /\ tryMerge io0 io1 = (true, io0', io1').
Proof.
  unfold IoQueue_tryMerge.
  destruct (Z.ltb_spec maxIoSize_ (u64 (size_ io0 + size_ io1))); [discriminate|].
  auto.
Qed.

Lemma IoQueue_add_cases ioQ iop :
  IoQueue_add ioQ iop = ioQ ++ [iop]
  \/ exists front back back' iop',
      ioQ = front ++ [back]
      /\ IoQueue_tryMerge back iop = (true, back', iop')
      /\ IoQueue_add ioQ iop = front ++ [back'].
Proof.
  unfold IoQueue_add.
  destruct (rev ioQ) as [|back rfront] eqn:Hrev.
  - left. apply (f_equal (@rev _)) in Hrev. rewrite rev_involutive in Hrev.
    subst. reflexivity.
  - destruct (IoQueue_tryMerge back iop) as [[[] back'] iop'] eqn:Hm; [|left; reflexivity].
    right. exists (rev rfront), back, back', iop'.
    apply (f_equal (@rev _)) in Hrev. rewrite rev_involutive in Hrev.
    subst. simpl. auto.
Qed.

(** C7. When the staging queue merges an IO into the previous one, the
    offsets are adjacent on the device, the buffers are contiguous in
    memory and the sizes add up to 1 MiB at most; the previous IO has then
    grown by the size of the next one and holds its blocks as well, of which
    the next IO has none left. The queue merges in no other way. *)
Theorem C7_coalesce_conditions :
  forall io0 io1 io0' io1',
    0 <= offset_ io0 -> 0 <= size_ io0 -> 0 <= size_ io1 < 2 ^ 63 ->
    offset_ io0 + size_ io0 < 2 ^ 63 ->
    IoQueue_tryMerge io0 io1 = (true, io0', io1') ->
    (* (a) adjacent on the device *)
    offset_ io0 + size_ io0 = offset_ io1
    (* (b) buffers contiguous in memory *)
    /\ (exists b0 r0 b1 r1,
           blocks_ io0 = b0 :: r0 /\ blocks_ io1 = b1 :: r1
           /\ aa_data b0 + size_ io0 = aa_data b1)
    (* (c) at most 1 MiB together *)
    /\ size_ io0 + size_ io1 <= 1024 * 1024
    (* the effect of the merge *)
    /\ offset_ io0' = offset_ io0
    /\ size_ io0' = size_ io0 + size_ io1
    /\ blocks_ io0' = blocks_ io0 ++ blocks_ io1
    /\ blocks_ io1' = []
    (* and the staging queue merges in no other way *)
    /\ (forall ioQ iop,
           IoQueue_add ioQ iop = ioQ ++ [iop]
           \/ exists front back back' iop',
               ioQ = front ++ [back]
               /\ IoQueue_tryMerge back iop = (true, back', iop')
               /\ IoQueue_add ioQ iop = front ++ [back']).
Proof.
  intros io0 io1 io0' io1' Ho Hs0 Hs1 Hr Hm.
  apply IoQueue_tryMerge_true in Hm as [Hmax Hm].
  apply tryMerge_true in Hm as (Hcan & -> & ->).
  unfold canMerge in Hcan.
  destruct (blocks_ io0) as [|b0 r0] eqn:Hb0; [discriminate|].
  destruct (blocks_ io1) as [|b1 r1] eqn:Hb1; [discriminate|].
  rewrite s64_small in Hcan by lia.
  destruct (Z.eqb_spec (offset_ io0 + size_ io0) (offset_ io1)); simpl in Hcan;
    [|discriminate].
  apply Z.eqb_eq in Hcan.
  assert (Hsum : size_ io0 + size_ io1 <= 1024 * 1024).
  { rewrite u64_small in Hmax by lia. exact Hmax. }
  split; [assumption|].
  split; [exists b0, r0, b1, r1; auto|].
  split; [exact Hsum|].
  simpl.
  split; [reflexivity|]. split; [apply u64_small; lia|].
  split; [reflexivity|]. split; [reflexivity|].
  apply IoQueue_add_cases.
Qed.

(** Two 512-byte IOs at byte offsets 0 and 512 with buffers at the
    addresses 4096 and 4608. *)
Lemma C7_coalesce_conditions_witness :
  let b0 := mkAlignedArray 4096 (repeat Byte.x01 512) in
  let b1 := mkAlignedArray 4608 (repeat Byte.x02 512) in
  let io0 := newIo 0 512 b0 0 in
  let io1 := newIo 512 512 b1 1 in
  exists io0' io1',
    IoQueue_tryMerge io0 io1 = (true, io0', io1')
    /\ size_ io0' = 1024
    /\ blocks_ io0' = [b0; b1]
    /\ blocks_ io1' = [].
Proof.
  intros b0 b1 io0 io1.
  destruct (IoQueue_tryMerge io0 io1) as [[[] io0'] io1'] eqn:E;
    [|vm_compute in E; discriminate].
  exists io0', io1'. split; [reflexivity|].
  destruct (C7_coalesce_conditions io0 io1 io0' io1')
    as (_ & _ & _ & _ & Hs & Hb & Hr & _);
    [simpl; lia | simpl; lia | simpl; lia | simpl; lia | exact E |].
  repeat split; assumption.
Defined.

End CoalesceFacts.

(** ** Redo: the store of the IOs and the overlap set *)

Section StoreFacts.

Import Redo.

Lemma length_upd h p f : length (upd h p f) = length h.
Proof. unfold upd. apply length_alter. Qed.

Lemma deref_upd_eq h p f :
  (p < length h)%nat -> deref (upd h p f) p = f (deref h p).
Proof.
  intros H. unfold deref, upd. rewrite list_lookup_alter_eq.
  destruct (h !! p) eqn:E; [reflexivity|].
  apply lookup_ge_None in E. lia.
Qed.

Lemma deref_upd_ne h p q f : p <> q -> deref (upd h p f) q = deref h q.
Proof. intros H. unfold deref, upd. rewrite list_lookup_alter_ne by exact H. reflexivity. Qed.

Lemma deref_upd_out h p f q : (length h <= p)%nat -> deref (upd h p f) q = deref h q.
Proof.
  intros H. destruct (Nat.eq_dec p q) as [->|Hne]; [|apply deref_upd_ne; exact Hne].
  unfold deref, upd. rewrite list_lookup_alter_eq.
  rewrite (lookup_ge_None_2 h q) by lia. reflexivity.
Qed.

(** A pointwise relation between the IOs of a store before and after an
    update that the updating function respects. *)
Lemma deref_upd_rel (R : Io -> Io -> Prop) h p f q :
  (forall io, R io io) ->
  R (deref h p) (f (deref h p)) ->
  R (deref h q) (deref (upd h p f) q).
Proof.
  intros Hrefl Hf.
  destruct (Nat.eq_dec p q) as [->|Hne].
  - destruct (Nat.lt_ge_cases q (length h)) as [Hlt|Hge].
    + rewrite deref_upd_eq by exact Hlt. exact Hf.
    + rewrite deref_upd_out by exact Hge. apply Hrefl.
  - rewrite deref_upd_ne by exact Hne. apply Hrefl.
Qed.

Lemma deref_app_l h io p : (p < length h)%nat -> deref (h ++ [io]) p = deref h p.
Proof. intros H. unfold deref. rewrite lookup_app_l by exact H. reflexivity. Qed.

Lemma deref_app_new h io : deref (h ++ [io]) (length h) = io.
Proof.
  unfold deref. rewrite lookup_app_r by lia.
  rewrite Nat.sub_diag. reflexivity.
Qed.

Lemma deref_out h p : (length h <= p)%nat -> deref h p = blank_io.
Proof. intros H. unfold deref. rewrite lookup_ge_None_2 by lia. reflexivity. Qed.

Lemma ins_scan_rel R iop key1 :
  io_rel_ok R ->
  forall it h q, R (deref h q) (deref (ins_scan iop key1 it h) q).
Proof.
  intros HR. induction it as [|[k p] it IH]; intros h q; [apply (r_refl R HR)|].
  cbn [ins_scan]. destruct (k <? key1); [|apply (r_refl R HR)].
  eapply (r_trans R HR); [|apply IH].
  destruct (isOverlapped _ _); [|apply (r_refl R HR)].
  set (f := fun io => set_nOverlapped_ (u32 (nOverlapped_ io + 1)) io).
  assert (H1 : R (deref h q) (deref (upd h iop f) q)).
  { apply deref_upd_rel; [apply (r_refl R HR)|apply (r_nov R HR)]. }
  destruct (isOverwrittenBy _ _); [|exact H1].
  eapply (r_trans R HR); [exact H1|].
  apply (deref_upd_rel R (upd h iop f) p overwritten q);
    [apply (r_refl R HR)|apply (r_ow R HR)].
Qed.

Lemma ins_scan_length iop key1 :
  forall it h, length (ins_scan iop key1 it h) = length h.
Proof.
  induction it as [|[k p] it IH]; intros h; [reflexivity|].
  cbn [ins_scan]. destruct (k <? key1); [|reflexivity].
  rewrite IH. destruct (isOverlapped _ _); [|reflexivity].
  match goal with |- context [if ?c then _ else _] => destruct c end;
    rewrite ?length_upd; reflexivity.
Qed.

Lemma del_scan_rel R iop key1 :
  io_rel_ok R ->
  forall it h ioQ q, R (deref h q) (deref (fst (del_scan iop key1 it h ioQ)) q).
Proof.
  intros HR. induction it as [|[k p] it IH]; intros h ioQ q; [apply (r_refl R HR)|].
  cbn [del_scan]. destruct (k <? key1); [|apply (r_refl R HR)].
  destruct (isOverlapped _ _); [|apply IH].
  set (f := fun io => set_nOverlapped_ (u32 (nOverlapped_ io - 1)) io).
  assert (H1 : R (deref h q) (deref (upd h p f) q)).
  { apply deref_upd_rel; [apply (r_refl R HR)|apply (r_nov R HR)]. }
  destruct (nOverlapped_ _ =? 0); (eapply (r_trans R HR); [exact H1|apply IH]).
Qed.

Lemma del_scan_length iop key1 :
  forall it h ioQ, length (fst (del_scan iop key1 it h ioQ)) = length h.
Proof.
  induction it as [|[k p] it IH]; intros h ioQ; [reflexivity|].
  cbn [del_scan]. destruct (k <? key1); [|reflexivity].
  destruct (isOverlapped _ _); [|apply IH].
  match goal with |- context [if ?c then _ else _] => destruct c end;
    rewrite IH, length_upd; reflexivity.
Qed.

Lemma ins_rel R h ol iop q :
  io_rel_ok R -> R (deref h q) (deref (fst (ins h ol iop)) q).
Proof.
  intros HR. unfold ins. cbn [fst].
  eapply (r_trans R HR); [|apply (ins_scan_rel R _ _ HR)].
  apply (deref_upd_rel R h iop (set_nOverlapped_ 0) q);
    [apply (r_refl R HR)|apply (r_nov R HR)].
Qed.

Lemma ins_length h ol iop : length (fst (ins h ol iop)) = length h.
Proof. unfold ins. cbn [fst]. rewrite ins_scan_length, length_upd. reflexivity. Qed.

Lemma del_rel R h ol iop ioQ q :
  io_rel_ok R -> R (deref h q) (deref (fst (fst (del h ol iop ioQ))) q).
Proof.
  intros HR. unfold del.
  match goal with |- context [del_scan ?a ?b ?c ?d ?e] =>
    pose proof (del_scan_rel R a b HR c d e q) as H;
    destruct (del_scan a b c d e) as [h1 q1] end.
  exact H.
Qed.

Lemma del_length h ol iop ioQ : length (fst (fst (del h ol iop ioQ))) = length h.
Proof.
  unfold del.
  match goal with |- context [del_scan ?a ?b ?c ?d ?e] =>
    pose proof (del_scan_length a b c d e) as H;
    destruct (del_scan a b c d e) as [h1 q1] end.
  exact H.
Qed.

Lemma same_geom_ok : io_rel_ok same_geom.
Proof.
  constructor; unfold same_geom, dead, overwritten; intros;
    repeat match goal with
           | |- context [if ?c then _ else _] => destruct c eqn:?
           end; simpl in *; intuition congruence.
Qed.

Lemma stays_overwritten_ok : io_rel_ok stays_overwritten.
Proof.
  constructor; unfold stays_overwritten, dead, overwritten; intros;
    repeat match goal with
           | |- context [if ?c then _ else _] => destruct c eqn:?
           end; simpl in *; intuition congruence.
Qed.

Lemma stays_dead_ok : io_rel_ok stays_dead.
Proof.
  constructor; unfold stays_dead, dead, overwritten; intros;
    repeat match goal with
           | |- context [if ?c then _ else _] => destruct c eqn:?
           end; simpl in *; intuition congruence.
Qed.

End StoreFacts.

(** ** Redo: insertion into the overlap set *)

Section OverlapFacts.

Import Redo.

Lemma stays_released_ok : io_rel_ok stays_released.
Proof.
  constructor; unfold stays_released, dead, overwritten; intros;
    repeat match goal with
           | |- context [if ?c then _ else _] => destruct c eqn:?
           end; simpl in *; intuition congruence.
Qed.

Lemma intersectb_iff a b : intersectb a b = true <-> ranges_intersect a b.
Proof.
  unfold intersectb, ranges_intersect. rewrite Z.ltb_lt. split.
  - intros H. exists (Z.max (offset_ a) (offset_ b)). lia.
  - intros [x Hx]. lia.
Qed.

Lemma isOverlapped_intersectb a b :
  0 < size_ a -> 0 < size_ b -> isOverlapped a b = intersectb a b.
Proof.
  intros Ha Hb. unfold isOverlapped, intersectb.
  destruct (Z.ltb_spec (offset_ a) (offset_ b + size_ b));
    destruct (Z.ltb_spec (offset_ b) (offset_ a + size_ a));
    destruct (Z.ltb_spec (Z.max (offset_ a) (offset_ b))
                         (Z.min (offset_ a + size_ a) (offset_ b + size_ b)));
    simpl; try reflexivity; lia.
Qed.

Lemma isOverlapped_geom a a' b b' :
  same_geom a a' -> same_geom b b' -> isOverlapped a' b' = isOverlapped a b.
Proof. intros [H1 H2] [H3 H4]. unfold isOverlapped. rewrite H1, H2, H3, H4. reflexivity. Qed.

Lemma isOverwrittenBy_geom a a' b b' :
  same_geom a a' -> same_geom b b' -> isOverwrittenBy a' b' = isOverwrittenBy a b.
Proof. intros [H1 H2] [H3 H4]. unfold isOverwrittenBy. rewrite H1, H2, H3, H4. reflexivity. Qed.

Lemma same_geom_upd h p f :
  (forall io, same_geom io (f io)) ->
  forall q, same_geom (deref h q) (deref (upd h p f) q).
Proof.
  intros Hf q. apply (deref_upd_rel same_geom h p f q).
  - apply (r_refl _ same_geom_ok).
  - apply Hf.
Qed.

Lemma ins_scan_count iop key1 h0 :
  (iop < length h0)%nat ->
  forall it h,
    length h = length h0 ->
    (forall q, same_geom (deref h0 q) (deref h q)) ->
    Forall (fun e => snd e <> iop) it ->
    0 <= nOverlapped_ (deref h iop) ->
    nOverlapped_ (deref h iop) + Z.of_nat (length it) < 2 ^ 32 ->
    nOverlapped_ (deref (ins_scan iop key1 it h) iop)
    = nOverlapped_ (deref h iop)
      + Z.of_nat (length (List.filter
                            (fun e => isOverlapped (deref h0 (snd e)) (deref h0 iop))
                            (scan_window key1 it))).
Proof.
  intros Hiop. induction it as [|[k p] it IH]; intros h Hlen Hg Hne H0 Hb.
  - simpl. lia.
  - cbn [ins_scan scan_window fst]. inversion Hne as [|? ? Hp Hne']; subst.
    simpl in Hp. destruct (k <? key1); [|simpl; lia].
    cbn [List.filter snd].
    rewrite (isOverlapped_geom _ _ _ _ (Hg p) (Hg iop)).
    rewrite length_cons in Hb.
    destruct (isOverlapped (deref h0 p) (deref h0 iop)).
    + set (f := fun io => set_nOverlapped_ (u32 (nOverlapped_ io + 1)) io).
      assert (Hn : nOverlapped_ (deref (upd h iop f) iop) = nOverlapped_ (deref h iop) + 1).
      { rewrite deref_upd_eq by lia. unfold f. simpl. apply u32_small. lia. }
      assert (Hg1 : forall q, same_geom (deref h0 q) (deref (upd h iop f) q)).
      { intros q. eapply (r_trans _ same_geom_ok); [apply Hg|].
        apply same_geom_upd. intros io. split; reflexivity. }
      destruct (isOverwrittenBy _ _).
      * rewrite IH.
        -- rewrite deref_upd_ne by exact Hp. rewrite Hn. cbn [length]. lia.
        -- rewrite !length_upd. exact Hlen.
        -- intros q. eapply (r_trans _ same_geom_ok); [apply Hg1|].
           apply same_geom_upd. intros io. apply (r_ow _ same_geom_ok).
        -- exact Hne'.
        -- rewrite deref_upd_ne by exact Hp. lia.
        -- rewrite deref_upd_ne by exact Hp. lia.
      * rewrite IH; try assumption.
        -- rewrite Hn. cbn [length]. lia.
        -- rewrite length_upd. exact Hlen.
        -- lia.
        -- lia.
    + apply IH; try assumption. lia.
Qed.

Lemma keys_sorted_tail e s : keys_sorted (e :: s) -> keys_sorted s.
Proof. intros H. inversion H; assumption. Qed.

Lemma keys_sorted_head e s x : keys_sorted (e :: s) -> In x s -> fst e <= fst x.
Proof.
  intros H Hin. inversion H as [|? ? _ Hall]; subst.
  rewrite List.Forall_forall in Hall. apply Hall. exact Hin.
Qed.

Lemma filter_none {A} (f : A -> bool) l :
  (forall x, In x l -> f x = false) -> List.filter f l = [].
Proof.
  induction l as [|x l IH]; intros H; [reflexivity|].
  simpl. rewrite (H x) by (left; reflexivity). apply IH.
  intros y Hy. apply H. right. exact Hy.
Qed.

Lemma scan_window_filter (ov : Z * IoPtr -> bool) key1 s :
  keys_sorted s ->
  (forall e, In e s -> ov e = true -> fst e < key1) ->
  List.filter ov (scan_window key1 s) = List.filter ov s.
Proof.
  induction s as [|e s IH]; intros Hs Hov; [reflexivity|].
  cbn [scan_window]. destruct (Z.ltb_spec (fst e) key1) as [Hlt|Hge].
  - cbn [List.filter]. rewrite IH.
    + reflexivity.
    + eapply keys_sorted_tail; eassumption.
    + intros x Hx. apply Hov. right. exact Hx.
  - symmetry. apply filter_none. intros x Hx.
    destruct (ov x) eqn:E; [|reflexivity].
    pose proof (Hov x Hx E) as H1.
    destruct Hx as [->|Hx]; [lia|].
    pose proof (keys_sorted_head e s x Hs Hx). lia.
Qed.

Lemma lower_bound_filter (ov : Z * IoPtr -> bool) key0 s :
  (forall e, In e s -> ov e = true -> key0 <= fst e) ->
  List.filter ov (lower_bound key0 s) = List.filter ov s
  /\ (forall e, In e (lower_bound key0 s) -> In e s).
Proof.
  induction s as [|e s IH]; intros Hov; [simpl; auto|].
  cbn [lower_bound]. destruct (Z.ltb_spec (fst e) key0) as [Hlt|Hge].
  - destruct IH as [IH1 IH2]; [intros x Hx; apply Hov; right; exact Hx|].
    split.
    + cbn [List.filter]. destruct (ov e) eqn:E; [|exact IH1].
      pose proof (Hov e (or_introl eq_refl) E). lia.
    + intros x Hx. right. apply IH2. exact Hx.
  - auto.
Qed.

Lemma lower_bound_sorted key0 s : keys_sorted s -> keys_sorted (lower_bound key0 s).
Proof.
  induction s as [|e s IH]; intros Hs; [exact Hs|].
  cbn [lower_bound]. destruct (fst e <? key0); [|exact Hs].
  apply IH. eapply keys_sorted_tail; eassumption.
Qed.

Lemma lower_bound_In key0 s e :
  In e s -> key0 <= fst e -> keys_sorted s -> In e (lower_bound key0 s).
Proof.
  induction s as [|x s IH]; intros Hin Hk Hs; [contradiction|].
  cbn [lower_bound]. destruct (Z.ltb_spec (fst x) key0) as [Hlt|Hge]; [|exact Hin].
  destruct Hin as [->|Hin]; [lia|].
  apply IH; try assumption. eapply keys_sorted_tail; eassumption.
Qed.

Lemma scan_window_In key1 s e :
  In e s -> fst e < key1 -> keys_sorted s -> In e (scan_window key1 s).
Proof.
  induction s as [|x s IH]; intros Hin Hk Hs; [contradiction|].
  cbn [scan_window]. destruct (Z.ltb_spec (fst x) key1) as [Hlt|Hge].
  - destruct Hin as [->|Hin]; [left; reflexivity|right].
    apply IH; try assumption. eapply keys_sorted_tail; eassumption.
  - destruct Hin as [->|Hin]; [lia|].
    pose proof (keys_sorted_head x s e Hs Hin). lia.
Qed.

Lemma overwritten_marks io : isOverwritten_ (overwritten io) = true.
Proof. destruct io as [? ? ? sub ? ow ? ? ?]. destruct sub, ow; reflexivity. Qed.

(** An element of the window that the new IO overlaps and covers is marked. *)
Lemma ins_scan_marks iop key1 h0 :
  forall it h k p,
    (forall q, same_geom (deref h0 q) (deref h q)) ->
    length h = length h0 ->
    In (k, p) (scan_window key1 it) ->
    (p < length h0)%nat -> p <> iop ->
    isOverlapped (deref h0 p) (deref h0 iop) = true ->
    isOverwrittenBy (deref h0 p) (deref h0 iop) = true ->
    isOverwritten_ (deref (ins_scan iop key1 it h) p) = true.
Proof.
  induction it as [|[k0 p0] it IH]; intros h k p Hg Hlen Hin Hp Hne Hov Hcov;
    [contradiction|].
  cbn [ins_scan scan_window fst] in *.
  destruct (k0 <? key1); [|contradiction].
  set (f := fun io => set_nOverlapped_ (u32 (nOverlapped_ io + 1)) io).
  assert (Hg1 : forall q, same_geom (deref h0 q) (deref (upd h iop f) q)).
  { intros q. eapply (r_trans _ same_geom_ok); [apply Hg|].
    apply same_geom_upd. intros io. split; reflexivity. }
  destruct Hin as [[= -> ->]|Hin].
  - rewrite (isOverlapped_geom _ _ _ _ (Hg p) (Hg iop)), Hov.
    fold f.
    rewrite (isOverwrittenBy_geom _ _ _ _ (Hg1 p) (Hg1 iop)), Hcov.
    apply (ins_scan_rel stays_overwritten iop key1 stays_overwritten_ok).
    rewrite deref_upd_eq by (rewrite length_upd; lia).
    apply overwritten_marks.
  - destruct (isOverlapped (deref h p0) (deref h iop)).
    + fold f.
      destruct (isOverwrittenBy (deref (upd h iop f) p0) (deref (upd h iop f) iop)).
      * eapply IH; try eassumption.
        -- intros q. eapply (r_trans _ same_geom_ok); [apply Hg1|].
           apply same_geom_upd. intros io. apply (r_ow _ same_geom_ok).
        -- rewrite !length_upd. exact Hlen.
      * eapply IH; try eassumption. rewrite length_upd. exact Hlen.
    + eapply IH; eassumption.
Qed.

Lemma released_rel h h' :
  (forall q, stays_released (deref h q) (deref h' q)) ->
  released h -> released h'.
Proof. intros HR Hrel p Hd. exact (HR p (Hrel p) Hd). Qed.

Lemma same_submitted_ins_scan iop key1 :
  forall it h q,
    isSubmitted_ (deref (ins_scan iop key1 it h) q) = isSubmitted_ (deref h q).
Proof.
  induction it as [|[k p] it IH]; intros h q; [reflexivity|].
  cbn [ins_scan]. destruct (k <? key1); [|reflexivity].
  rewrite IH.
  assert (Hs : forall (f : Io -> Io) hh pp,
             (forall io, isSubmitted_ (f io) = isSubmitted_ io) ->
             isSubmitted_ (deref (upd hh pp f) q) = isSubmitted_ (deref hh q)).
  { intros f hh pp Hf.
    apply (deref_upd_rel (fun a b => isSubmitted_ b = isSubmitted_ a) hh pp f q);
      [reflexivity|apply Hf]. }
  destruct (isOverlapped _ _); [|reflexivity].
  destruct (isOverwrittenBy _ _).
  - rewrite Hs, Hs; [reflexivity|reflexivity|].
    intros [? ? ? sub ? ow ? ? ?]. destruct sub, ow; reflexivity.
  - rewrite Hs; reflexivity.
Qed.

(** An IO of the set that the inserted IO covers is marked overwritten by
    the insertion, which does not touch its submission flag. *)
Lemma ins_marks_covered h ol iop k p :
  ol_inv h ol ->
  (iop < length h)%nat ->
  ~ In iop (map snd (set_ ol)) ->
  0 <= offset_ (deref h iop) ->
  0 < size_ (deref h iop) ->
  offset_ (deref h iop) + size_ (deref h iop) < 2 ^ 63 ->
  In (k, p) (set_ ol) ->
  offset_ (deref h iop) <= offset_ (deref h p) ->
  offset_ (deref h p) + size_ (deref h p)
  <= offset_ (deref h iop) + size_ (deref h iop) ->
  isOverwritten_ (deref (fst (ins h ol iop)) p) = true
  /\ isSubmitted_ (deref (fst (ins h ol iop)) p) = isSubmitted_ (deref h p).
Proof.
  intros [Hsorted Helem Hcount] Hiop Hnotin Hoff Hsize Hend Hin Hlo Hhi.
  set (io := deref h iop) in *. set (h' := fst (ins h ol iop)).
  assert (Hkey1 : s64 (offset_ io + size_ io) = offset_ io + size_ io).
  { apply s64_small. lia. }
  set (key0 := if maxSize_ ol <? offset_ io then offset_ io - maxSize_ ol else 0).
  set (h1 := upd h iop (set_nOverlapped_ 0)).
  assert (Hh' : h' = ins_scan iop (offset_ io + size_ io)
                              (lower_bound key0 (set_ ol)) h1).
  { unfold h', ins. cbn [fst]. fold io. rewrite Hkey1. reflexivity. }
  assert (Hg1 : forall q, same_geom (deref h q) (deref h1 q)).
  { apply same_geom_upd. intros x. split; reflexivity. }
  assert (Hne : p <> iop).
  { intros ->. apply Hnotin. apply in_map_iff. exists (k, iop). auto. }
  destruct (Helem k p Hin) as (Hp & Hk & Hk0 & Hsz).
  assert (Hov : isOverlapped (deref h p) io = true).
  { unfold isOverlapped. apply andb_true_iff. split; apply Z.ltb_lt; lia. }
  assert (Hcov : isOverwrittenBy (deref h p) io = true).
  { unfold isOverwrittenBy. apply andb_true_iff. split; apply Z.leb_le; lia. }
  assert (Hwin : key0 <= k < offset_ io + size_ io).
  { unfold key0. destruct (Z.ltb_spec (maxSize_ ol) (offset_ io)); lia. }
  split.
  - rewrite Hh'. eapply (ins_scan_marks iop _ h).
    + exact Hg1.
    + unfold h1. apply length_upd.
    + apply scan_window_In.
      * apply lower_bound_In; [exact Hin|apply Hwin|exact Hsorted].
      * apply Hwin.
      * apply lower_bound_sorted. exact Hsorted.
    + exact Hp.
    + exact Hne.
    + exact Hov.
    + exact Hcov.
  - rewrite Hh', same_submitted_ins_scan. unfold h1.
    rewrite deref_upd_ne by (intros E; apply Hne; symmetry; exact E).
    reflexivity.
Qed.

(** C2. When an IO is inserted into the overlap set, its [nOverlapped]
    becomes the number of live IOs of the set whose byte range has a byte in
    common with its own, the scan of the keys from [offset - maxSize] up to
    [offset + size] missing none of them; and every live IO whose range lies
    within the range of the new IO is marked overwritten and, unless it
    was submitted, has released its blocks. *)
Theorem C2_overlap_insert :
  forall h ol iop,
    ol_inv h ol ->
    released h ->
    (iop < length h)%nat ->
    ~ In iop (map snd (set_ ol)) ->
    0 <= offset_ (deref h iop) ->
    0 < size_ (deref h iop) ->
    offset_ (deref h iop) + size_ (deref h iop) < 2 ^ 63 ->
    let io := deref h iop in
    let h' := fst (ins h ol iop) in
    (* the counter is the number of live IOs whose range meets the new one *)
    nOverlapped_ (deref h' iop)
    = Z.of_nat (length (List.filter
                          (fun e => intersectb (deref h (snd e)) io) (set_ ol)))
    /\ (forall a b, intersectb a b = true <-> ranges_intersect a b)
    (* every live IO that the new one covers is marked overwritten and has
       released its blocks unless it was submitted *)
    /\ (forall k p,
           In (k, p) (set_ ol) ->
           offset_ io <= offset_ (deref h p) ->
           offset_ (deref h p) + size_ (deref h p) <= offset_ io + size_ io ->
           isOverwritten_ (deref h' p) = true
           /\ (isSubmitted_ (deref h p) = false -> blocks_ (deref h' p) = []))
    (* offsets and sizes are those of before *)
    /\ (forall q, same_geom (deref h q) (deref h' q)).
Proof.
  intros h ol iop [Hsorted Helem Hcount] Hrel Hiop Hnotin Hoff Hsize Hend io h'.
  assert (Hkey1 : s64 (offset_ io + size_ io) = offset_ io + size_ io).
  { apply s64_small. unfold io. lia. }
  set (key0 := if maxSize_ ol <? offset_ io then offset_ io - maxSize_ ol else 0).
  set (h1 := upd h iop (set_nOverlapped_ 0)).
  assert (Hh' : h' = ins_scan iop (offset_ io + size_ io)
                              (lower_bound key0 (set_ ol)) h1).
  { unfold h', ins. cbn [fst]. fold io. rewrite Hkey1. reflexivity. }
  assert (Hg1 : forall q, same_geom (deref h q) (deref h1 q)).
  { apply same_geom_upd. intros x. split; reflexivity. }
  assert (Hne : forall k p, In (k, p) (set_ ol) -> p <> iop).
  { intros k p Hin ->. apply Hnotin. apply in_map_iff. exists (k, iop). auto. }
  (* an element that overlaps the new IO lies in the window *)
  assert (Hwin : forall e, In e (set_ ol) ->
                           isOverlapped (deref h (snd e)) io = true ->
                           key0 <= fst e < offset_ io + size_ io).
  { intros [k p] Hin Hov. cbn [fst snd] in *.
    destruct (Helem k p Hin) as (_ & Hk & Hk0 & Hsz).
    unfold isOverlapped in Hov. apply andb_true_iff in Hov as [H1 H2].
    apply Z.ltb_lt in H1, H2. rewrite Hk in *.
    unfold key0. destruct (Z.ltb_spec (maxSize_ ol) (offset_ io)); lia. }
  split; [|split; [exact intersectb_iff|split]].
  - rewrite Hh'.
    rewrite (ins_scan_count iop _ h).
    + unfold h1. rewrite deref_upd_eq by exact Hiop.
      change (nOverlapped_ (set_nOverlapped_ 0 (deref h iop))) with 0.
      rewrite Z.add_0_l. do 2 f_equal.
      rewrite scan_window_filter.
      * destruct (lower_bound_filter
                    (fun e => isOverlapped (deref h (snd e)) (deref h iop)) key0 (set_ ol))
          as [Hf _].
        { intros e He Hov. apply (Hwin e He Hov). }
        rewrite Hf. apply filter_ext_in. intros [k p] Hin. cbn [snd].
        destruct (Helem k p Hin) as (_ & _ & _ & Hsz).
        apply isOverlapped_intersectb; [lia|exact Hsize].
      * apply lower_bound_sorted. exact Hsorted.
      * intros e He Hov.
        destruct (lower_bound_filter
                    (fun e => isOverlapped (deref h (snd e)) (deref h iop)) key0 (set_ ol))
          as [_ Hin].
        { intros e0 He0 Hov0. apply (Hwin e0 He0 Hov0). }
        apply (Hwin e (Hin e He) Hov).
    + exact Hiop.
    + unfold h1. apply length_upd.
    + exact Hg1.
    + apply List.Forall_forall. intros [k p] Hin. cbn [snd].
      destruct (lower_bound_filter (fun _ => false) key0 (set_ ol)) as [_ Hsub];
        [discriminate|].
      apply (Hne k p). apply Hsub. exact Hin.
    + unfold h1. rewrite deref_upd_eq by exact Hiop. simpl. lia.
    + unfold h1. rewrite deref_upd_eq by exact Hiop. simpl.
      destruct (lower_bound_filter (fun _ => false) key0 (set_ ol)) as [_ Hsub];
        [discriminate|].
      assert (length (lower_bound key0 (set_ ol)) <= length (set_ ol))%nat.
      { clear. induction (set_ ol) as [|e s IH]; [simpl; lia|].
        cbn [lower_bound]. destruct (fst e <? key0); simpl in *; lia. }
      lia.
  - intros k p Hin Hlo Hhi.
    destruct (ins_marks_covered h ol iop k p) as [Hmark Hsame]; try assumption.
    { constructor; assumption. }
    split; [exact Hmark|].
    intros Hsub.
    assert (Hrel' : released h').
    { eapply released_rel; [|exact Hrel].
      intros q. unfold h'. apply ins_rel. exact stays_released_ok. }
    apply Hrel'. split; [exact Hmark|].
    unfold h'. rewrite Hsame. exact Hsub.
  - intros q. unfold h'. apply ins_rel. exact same_geom_ok.
Qed.

(** The overlap set keeps what it relies on when an IO is inserted. *)
Lemma set_emplace_In k s e :
  In e (set_emplace k s) -> e = k \/ In e s.
Proof.
  induction s as [|x s IH]; simpl; [intuition|].
  destruct (pair_lt k x); [simpl; intuition|].
  destruct (pair_lt x k); simpl; intuition.
Qed.

Lemma set_emplace_length k s : (length (set_emplace k s) <= S (length s))%nat.
Proof.
  induction s as [|x s IH]; simpl; [lia|].
  destruct (pair_lt k x); [simpl; lia|].
  destruct (pair_lt x k); simpl; lia.
Qed.

Lemma set_emplace_sorted k s : keys_sorted s -> keys_sorted (set_emplace k s).
Proof.
  induction s as [|x s IH]; intros Hs.
  - repeat constructor.
  - cbn [set_emplace]. destruct (pair_lt k x) eqn:E1.
    + constructor; [exact Hs|].
      assert (Hk : fst k <= fst x).
      { unfold pair_lt in E1. apply orb_true_iff in E1 as [E|E].
        - apply Z.ltb_lt in E. lia.
        - apply andb_true_iff in E as [E _]. apply Z.eqb_eq in E. lia. }
      constructor; [exact Hk|].
      apply List.Forall_forall. intros y Hy.
      pose proof (keys_sorted_head x s y Hs Hy). lia.
    + destruct (pair_lt x k) eqn:E2; [|exact Hs].
      assert (Hk : fst x <= fst k).
      { unfold pair_lt in E2. apply orb_true_iff in E2 as [E|E].
        - apply Z.ltb_lt in E. lia.
        - apply andb_true_iff in E as [E _]. apply Z.eqb_eq in E. lia. }
      constructor; [apply IH; eapply keys_sorted_tail; eassumption|].
      apply List.Forall_forall. intros y Hy.
      apply set_emplace_In in Hy as [->|Hy]; [exact Hk|].
      apply (keys_sorted_head x s y Hs Hy).
Qed.

Lemma ins_keeps_ol_inv h ol iop :
  ol_inv h ol ->
  (iop < length h)%nat ->
  0 <= offset_ (deref h iop) ->
  0 < size_ (deref h iop) ->
  Z.of_nat (length (set_ ol)) + 1 < 2 ^ 32 ->
  ol_inv (fst (ins h ol iop)) (snd (ins h ol iop)).
Proof.
  intros [Hsorted Helem Hcount] Hiop Hoff Hsize Hroom.
  pose proof (fun q => ins_rel same_geom h ol iop q same_geom_ok) as Hg.
  pose proof (ins_length h ol iop) as Hlen.
  assert (Hset : set_ (snd (ins h ol iop))
                 = set_emplace (offset_ (deref h iop), iop) (set_ ol)) by reflexivity.
  assert (Hmax : maxSize_ (snd (ins h ol iop))
                 = if maxSize_ ol <? size_ (deref h iop)
                   then size_ (deref h iop) else maxSize_ ol) by reflexivity.
  constructor.
  - rewrite Hset. apply set_emplace_sorted. exact Hsorted.
  - intros k p Hin. rewrite Hset in Hin. rewrite Hlen, Hmax.
    destruct (Hg p) as [Ho Hs]. rewrite <- Ho, <- Hs.
    apply set_emplace_In in Hin as [[= -> ->]|Hin].
    + repeat split; try lia.
      destruct (Z.ltb_spec (maxSize_ ol) (size_ (deref h iop))); lia.
    + destruct (Helem k p Hin) as (H1 & H2 & H3 & H4).
      repeat split; try lia.
      destruct (Z.ltb_spec (maxSize_ ol) (size_ (deref h iop))); lia.
  - rewrite Hset. pose proof (set_emplace_length (offset_ (deref h iop), iop) (set_ ol)).
    lia.
Qed.

Lemma ol_inv_empty h : ol_inv h (mkOverlappedData [] 0).
Proof.
  constructor.
  - constructor.
  - intros k p [].
  - simpl. lia.
Qed.

(** The IO X of 4096 bytes at offset 0 is live and not submitted; the IO Y
    of the same range is inserted. *)
Lemma C2_overlap_insert_witness :
  let x := newIo 0 4096 (mkAlignedArray 8192 (repeat Byte.xaa 4096)) 0 in
  let y := newIo 0 4096 (mkAlignedArray 16384 (repeat Byte.xbb 4096)) 1 in
  let h := [x; y] in
  let ol := mkOverlappedData [(0, 0%nat)] 4096 in
  let h' := fst (ins h ol 1%nat) in
  nOverlapped_ (deref h' 1%nat) = 1
  /\ isOverwritten_ (deref h' 0%nat) = true
  /\ blocks_ (deref h' 0%nat) = [].
Proof.
  intros x y h ol h'.
  destruct (C2_overlap_insert h ol 1%nat) as (Hn & _ & Hm & _).
  - constructor.
    + repeat constructor.
    + intros k p [[= <- <-]|[]]. cbn. repeat split; lia.
    + reflexivity.
  - intros p [Hp _]. destruct p as [|[|p]]; vm_compute in Hp; discriminate.
  - simpl. lia.
  - simpl. intros [H|[]]. discriminate.
  - simpl. lia.
  - simpl. lia.
  - simpl. lia.
  - split; [exact Hn|].
    destruct (Hm 0 0%nat) as [H1 H2]; [left; reflexivity|simpl; lia|simpl; lia|].
    split; [exact H1|apply H2; reflexivity].
Defined.

(** An IO at a negative offset (an off_t can hold one) is not seen by the
    scan, which starts at the key 0 or above. X of 512 bytes at offset -512
    is inserted into the empty set, then Y of the same range: the insertion
    of Y counts no overlapping IO and marks nothing, although Y covers X. *)
Lemma C2_negative_offset_counterexample :
  let x := newIo (-512) 512 (mkAlignedArray 8192 (repeat Byte.xaa 512)) 0 in
  let y := newIo (-512) 512 (mkAlignedArray 16384 (repeat Byte.xbb 512)) 1 in
  let h := fst (ins [x; y] (mkOverlappedData [] 0) 0%nat) in
  let ol := snd (ins [x; y] (mkOverlappedData [] 0) 0%nat) in
  let h' := fst (ins h ol 1%nat) in
  set_ ol = [(-512, 0%nat)]
  /\ isSubmitted_ (deref h 0%nat) = false
  /\ intersectb (deref h 0%nat) (deref h 1%nat) = true
  /\ isOverwrittenBy (deref h 0%nat) (deref h 1%nat) = true
  /\ nOverlapped_ (deref h' 1%nat) = 0
  /\ isOverwritten_ (deref h' 0%nat) = false.
Proof.
  intros x y h ol h'. vm_compute. repeat split; reflexivity.
Qed.

End OverlapFacts.

(** ** The redo engine

    What every function of the engine does to the IOs of the store, for a
    relation that the mutators of an IO respect. *)

Section EngineFacts.

Import Redo.

Variable env : Env.
Variable R : Io -> Io -> Prop.
Hypothesis HR : io_rel_ok R.

Lemma bind_ok {A B} (m : result A) (k : A -> result B) b :
  bind m k = Ok b -> exists a, m = Ok a /\ k a = Ok b.
Proof. destruct m as [a|e]; simpl; [eauto|discriminate]. Qed.

Lemma heap_rel_refl h : heap_rel R h h.
Proof. split; [reflexivity|intros q; apply (r_refl R HR)]. Qed.

Lemma heap_rel_trans h1 h2 h3 :
  heap_rel R h1 h2 -> heap_rel R h2 h3 -> heap_rel R h1 h3.
Proof.
  intros [L1 H1] [L2 H2]. split; [congruence|].
  intros q. eapply (r_trans R HR); [apply H1|apply H2].
Qed.

Lemma heap_rel_le h h' : heap_rel R h h' -> heap_le R h h'.
Proof. intros [L H]. split; [lia|intros q _; apply H]. Qed.

Lemma heap_le_refl h : heap_le R h h.
Proof. apply heap_rel_le, heap_rel_refl. Qed.

Lemma heap_le_trans h1 h2 h3 :
  heap_le R h1 h2 -> heap_le R h2 h3 -> heap_le R h1 h3.
Proof.
  intros [L1 H1] [L2 H2]. split; [lia|].
  intros q Hq. eapply (r_trans R HR); [apply H1; lia|apply H2; lia].
Qed.

Lemma heap_rel_upd h p f :
  R (deref h p) (f (deref h p)) -> heap_rel R h (upd h p f).
Proof.
  intros Hf. split; [symmetry; apply length_upd|].
  intros q. apply (deref_upd_rel R h p f q); [apply (r_refl R HR)|exact Hf].
Qed.

Lemma heap_rel_ins h ol iop : heap_rel R h (fst (ins h ol iop)).
Proof.
  split; [symmetry; apply ins_length|]. intros q. apply ins_rel. exact HR.
Qed.

Lemma heap_rel_del h ol iop ioQ : heap_rel R h (fst (fst (del h ol iop ioQ))).
Proof.
  split; [symmetry; apply del_length|]. intros q. apply del_rel. exact HR.
Qed.

Local Abbreviation frame := (frame R).

Lemma frame_refl st : frame st st.
Proof. split; [apply heap_rel_refl|repeat split; reflexivity]. Qed.

Ltac frame_same :=
  split; [apply heap_rel_refl | repeat split; reflexivity].

Lemma frame_trans st1 st2 st3 : frame st1 st2 -> frame st2 st3 -> frame st1 st3.
Proof.
  intros (H1 & H2 & H3 & H4) (G1 & G2 & G3 & G4).
  split; [eapply heap_rel_trans; eassumption|].
  repeat split; congruence.
Qed.

Lemma submit_loop_frame :
  forall q st n st' n',
    submit_loop q st n = Ok (st', n') -> frame st st'.
Proof.
  induction q as [|iop q IH]; intros st n st' n' H.
  - simpl in H. injection H as <- <-. frame_same.
  - cbn [submit_loop] in H.
    destruct (isOverwritten_ (deref (heap (set_submitIoQ_ q st)) iop)) eqn:Eo.
    + apply IH in H. eapply frame_trans; [|exact H]. frame_same.
    + destruct (blocks_ (deref (heap (set_submitIoQ_ q st)) iop)) as [|b bs];
        [discriminate|].
      apply IH in H. eapply frame_trans; [|exact H].
      split; [|repeat split; reflexivity].
      cbn [heap set_heap set_aio_ set_submitIoQ_ prepareWrite fst snd].
      apply heap_rel_upd. apply (r_sub R HR). exact Eo.
Qed.

Lemma submitIos_frame st st' : submitIos st = Ok st' -> frame st st'.
Proof.
  unfold submitIos. destruct (submitIoQ_ st) as [|p q] eqn:E.
  - intros [= <-]. frame_same.
  - intros H. apply bind_ok in H as ([st1 n1] & H1 & H2).
    apply submit_loop_frame in H1.
    destruct (0 <? n1); injection H2 as <-; [|exact H1].
    eapply frame_trans; [exact H1|]. frame_same.
Qed.

Lemma schedule_loop_frame :
  forall ready st st', schedule_loop env ready st = Ok st' -> frame st st'.
Proof.
  induction ready as [|iop ready IH]; intros st st' H.
  - simpl in H. injection H as <-. frame_same.
  - cbn [schedule_loop] in H.
    destruct (isOverwritten_ (deref (heap (set_readyIoQ_ ready st)) iop)).
    + apply IH in H. eapply frame_trans; [|exact H]. frame_same.
    + apply bind_ok in H as (st1 & H1 & H2). apply IH in H2.
      eapply frame_trans; [|exact H2].
      match type of H1 with (if ?c then _ else _) = _ => destruct c end.
      * apply submitIos_frame in H1. eapply frame_trans; [|exact H1]. frame_same.
      * injection H1 as <-. frame_same.
Qed.

Lemma scheduleIos_frame st st' : scheduleIos env st = Ok st' -> frame st st'.
Proof. apply schedule_loop_frame. Qed.

Lemma push_ready_heap st p : heap (push_ready st p) = heap st.
Proof. unfold push_ready. destruct (isOverwritten_ _); reflexivity. Qed.

Lemma fold_push_ready_frame l : forall st, frame st (fold_left push_ready l st).
Proof.
  induction l as [|p l IH]; intros st; [frame_same|].
  cbn [fold_left]. eapply frame_trans; [|apply IH].
  unfold push_ready. destruct (isOverwritten_ _); frame_same.
Qed.

Lemma waitForAnIoCompletion_frame st st' :
  waitForAnIoCompletion env st = Ok st' -> frame st st'.
Proof.
  unfold waitForAnIoCompletion. destruct (ioQ_ st) as [|iop q]; [discriminate|].
  intros H. apply bind_ok in H as (st1 & H1 & H).
  apply bind_ok in H as (st2 & H2 & H).
  assert (F1 : frame st st1).
  { match type of H1 with (if ?c then _ else _) = _ => destruct c end.
    - apply bind_ok in H1 as (sta & Ha & Hb).
      apply scheduleIos_frame in Ha. apply submitIos_frame in Hb.
      eapply frame_trans; [|exact Hb]. eapply frame_trans; [|exact Ha]. frame_same.
    - injection H1 as <-. frame_same. }
  assert (F2 : frame st1 st2).
  { destruct (isSubmitted_ (deref (heap st1) iop)) eqn:Es.
    - apply bind_ok in H2 as (a & Ha & Hb). injection Hb as <-.
      split; [|repeat split; reflexivity].
      cbn [heap set_heap set_aio_ set_nWritten_].
      apply heap_rel_upd. apply (r_comp R HR). exact Es.
    - injection H2 as <-. frame_same. }
  match type of H with context [del ?a ?b ?c ?d] =>
    pose proof (heap_rel_del a b c d) as Hd;
    destruct (del a b c d) as [[h1 ol1] tmp] end.
  injection H as <-.
  eapply frame_trans; [exact F1|]. eapply frame_trans; [exact F2|].
  eapply frame_trans; [|apply fold_push_ready_frame].
  split; [exact Hd|repeat split; reflexivity].
Qed.

Lemma wait_all_loop_frame :
  forall fuel st st', wait_all_loop env fuel st = Ok st' -> frame st st'.
Proof.
  induction fuel as [|fuel IH]; intros st st' H.
  - simpl in H. destruct (ioQ_ st), (readyIoQ_ st); try discriminate.
    injection H as <-. frame_same.
  - cbn [wait_all_loop] in H.
    assert (Hgo : (do st1 <- waitForAnIoCompletion env st; wait_all_loop env fuel st1)
                  = Ok st' -> frame st st').
    { intros G. apply bind_ok in G as (st1 & G1 & G2).
      apply waitForAnIoCompletion_frame in G1. apply IH in G2.
      eapply frame_trans; eassumption. }
    destruct (ioQ_ st), (readyIoQ_ st); try (apply Hgo; exact H).
    injection H as <-. frame_same.
Qed.

Lemma waitForAllPendingIos_frame st st' :
  waitForAllPendingIos env st = Ok st' -> frame st st'.
Proof. apply wait_all_loop_frame. Qed.

Lemma wait_room_loop_frame nBlocks :
  forall fuel st st', wait_room_loop env fuel nBlocks st = Ok st' -> frame st st'.
Proof.
  induction fuel as [|fuel IH]; intros st st' H.
  - simpl in H. destruct (ioQ_ st); [injection H as <-; frame_same|].
    destruct (queueSize_ env <? _); [discriminate|].
    injection H as <-. frame_same.
  - cbn [wait_room_loop] in H.
    destruct (ioQ_ st); [injection H as <-; frame_same|].
    destruct (queueSize_ env <? _); [|injection H as <-; frame_same].
    apply bind_ok in H as (st1 & G1 & G2).
    apply waitForAnIoCompletion_frame in G1. apply IH in G2.
    eapply frame_trans; eassumption.
Qed.

Lemma insertToOverlappedData_heap st iop :
  heap (insertToOverlappedData st iop) = fst (ins (heap st) (olData_ st) iop).
Proof. unfold insertToOverlappedData. destruct (ins _ _ _); reflexivity. Qed.

Lemma insertToOverlappedData_fields st iop :
  let st' := insertToOverlappedData st iop in
  nClipped_ st' = nClipped_ st /\ seqgen st' = seqgen st /\ nalloc st' = nalloc st
  /\ aio_ st' = aio_ st /\ ioQ_ st' = ioQ_ st /\ readyIoQ_ st' = readyIoQ_ st
  /\ submitIoQ_ st' = submitIoQ_ st /\ nWritten_ st' = nWritten_ st
  /\ nOverwritten_ st' = nOverwritten_ st.
Proof. unfold insertToOverlappedData. destruct (ins _ _ _). repeat split. Qed.

Lemma heap_le_app h io : heap_le R h (h ++ [io]).
Proof.
  split; [rewrite length_app; lia|].
  intros q Hq. rewrite deref_app_l by exact Hq. apply (r_refl R HR).
Qed.

(** What the enqueueing functions leave alone. *)
Lemma enqueue_loop_frame :
  forall ioQ st,
    let st' := enqueue_loop ioQ st in
    heap_le R (heap st) (heap st')
    /\ nClipped_ st' = nClipped_ st /\ seqgen st' = seqgen st
    /\ nalloc st' = nalloc st.
Proof.
  induction ioQ as [|io ioQ IH]; intros st.
  - simpl. split; [apply heap_le_refl|auto].
  - cbn [enqueue_loop]. cbv zeta.
    set (st1 := set_heap (heap st ++ [io]) st).
    set (st2 := insertToOverlappedData st1 (length (heap st))).
    pose proof (insertToOverlappedData_fields st1 (length (heap st)))
      as (F1 & F2 & F3 & _).
    fold st2 in F1, F2, F3.
    assert (Hle : heap_le R (heap st) (heap st2)).
    { eapply heap_le_trans; [apply (heap_le_app (heap st) io)|].
      unfold st2. rewrite insertToOverlappedData_heap.
      apply heap_rel_le. apply heap_rel_ins. }
    match goal with |- context [enqueue_loop ioQ ?s] =>
      destruct (IH s) as (G1 & G2 & G3 & G4); set (st3 := s) in * end.
    assert (Hst3 : heap st3 = heap st2 /\ nClipped_ st3 = nClipped_ st2
                   /\ seqgen st3 = seqgen st2 /\ nalloc st3 = nalloc st2).
    { unfold st3. destruct (nOverlapped_ _ =? 0); repeat split. }
    destruct Hst3 as (E1 & E2 & E3 & E4).
    assert (D1 : nClipped_ st1 = nClipped_ st) by reflexivity.
    assert (D2 : seqgen st1 = seqgen st) by reflexivity.
    assert (D3 : nalloc st1 = nalloc st) by reflexivity.
    split; [eapply heap_le_trans; [exact Hle|]; rewrite <- E1; exact G1|].
    repeat split; congruence.
Qed.

Lemma prepareIos_frame ioQ nBlocks st st' :
  prepareIos env ioQ nBlocks st = Ok st' ->
  heap_le R (heap st) (heap st')
  /\ nClipped_ st' = nClipped_ st /\ seqgen st' = seqgen st
  /\ nalloc st' = nalloc st.
Proof.
  unfold prepareIos. intros H. apply bind_ok in H as (st1 & H1 & H2).
  apply wait_room_loop_frame in H1 as (F1 & F2 & F3 & F4).
  injection H2 as <-.
  match goal with |- context [enqueue_loop ioQ ?s] =>
    destruct (enqueue_loop_frame ioQ s) as (G1 & G2 & G3 & G4) end.
  split; [eapply heap_le_trans; [apply heap_rel_le; exact F1|exact G1]|].
  cbn [nClipped_ seqgen nalloc set_nPendingBlocks_] in G2, G3, G4.
  repeat split; congruence.
Qed.

Lemma take_block_fields rec blockS i st block st1 :
  take_block env rec blockS i st = Ok (block, st1) ->
  heap st1 = heap st /\ aio_ st1 = aio_ st /\ nClipped_ st1 = nClipped_ st
  /\ seqgen st1 = seqgen st.
Proof.
  unfold take_block. destruct (LogBase.isDiscard rec).
  - intros [= <- <-]. repeat split.
  - destruct (blockS !! i); [|discriminate]. intros [= <- <-]. repeat split.
Qed.

Lemma clip_or_add_fields rec iop tmpIoQ nBlocks st :
  heap (snd (clip_or_add env rec iop tmpIoQ nBlocks st)) = heap st
  /\ aio_ (snd (clip_or_add env rec iop tmpIoQ nBlocks st)) = aio_ st.
Proof.
  unfold clip_or_add. destruct (_ <=? _); [destruct (LogBase.isDiscard rec)|];
    split; reflexivity.
Qed.

Lemma flush_if_many_heap tmpIoQ nBlocks st q n st' :
  flush_if_many env tmpIoQ nBlocks st = Ok (q, n, st') ->
  heap_le R (heap st) (heap st').
Proof.
  unfold flush_if_many. destruct (_ <=? _).
  - intros H. apply bind_ok in H as (sa & Ha & H).
    apply bind_ok in H as (sb & Hb & H). injection H as <- <- <-.
    apply prepareIos_frame in Ha as (Ha & _).
    apply scheduleIos_frame in Hb as (Hb & _).
    eapply heap_le_trans; [exact Ha|apply heap_rel_le; exact Hb].
  - intros [= <- <- <-]. apply heap_le_refl.
Qed.

Lemma redo_loop_heap rec blockS :
  forall cnt i tmpIoQ remaining off nBlocks st tmpIoQ' nBlocks' st',
    redo_loop env rec blockS cnt i tmpIoQ remaining off nBlocks st
    = Ok (tmpIoQ', nBlocks', st') ->
    heap_le R (heap st) (heap st').
Proof.
  induction cnt as [|cnt IH];
    intros i tmpIoQ remaining off nBlocks st tmpIoQ' nBlocks' st' H.
  - simpl in H. injection H as <- <- <-. apply heap_le_refl.
  - cbn [redo_loop] in H.
    apply bind_ok in H as ([block st1] & H1 & H).
    apply take_block_fields in H1 as (E1 & _).
    cbv zeta in H.
    apply bind_ok in H as ([[q2 n2] st2] & H2 & H).
    apply IH in H.
    match type of H2 with context [clip_or_add env rec ?io ?q ?n ?s] =>
      pose proof (clip_or_add_fields rec io q n s) as [E2 _];
      destruct (clip_or_add env rec io q n s) as [[q1 n1] s1] end.
    cbn [snd heap set_seqgen] in E2.
    apply flush_if_many_heap in H2.
    rewrite E2, E1 in H2.
    eapply heap_le_trans; eassumption.
Qed.

Lemma redoNormalIo_heap rec blockS st st' :
  redoNormalIo env rec blockS st = Ok st' -> heap_le R (heap st) (heap st').
Proof.
  unfold redoNormalIo. intros H.
  apply bind_ok in H as ([[q n] st1] & H1 & H).
  apply bind_ok in H as (st2 & H2 & H).
  apply redo_loop_heap in H1. apply prepareIos_frame in H2 as (H2 & _).
  apply scheduleIos_frame in H as (H & _).
  eapply heap_le_trans; [exact H1|]. eapply heap_le_trans; [exact H2|].
  apply heap_rel_le. exact H.
Qed.

Lemma redoDiscard_heap rec st st' :
  redoDiscard env rec st = Ok st' -> heap_le R (heap st) (heap st').
Proof.
  unfold redoDiscard. intros H. apply bind_ok in H as (st1 & H1 & H).
  injection H as <-. apply waitForAllPendingIos_frame in H1 as (H1 & _).
  apply heap_rel_le. exact H1.
Qed.

Lemma redoPack_heap rec blockS st st' :
  redoPack env rec blockS st = Ok st' -> heap_le R (heap st) (heap st').
Proof.
  unfold redoPack. intros H.
  destruct (LogBase.isPadding rec); [injection H as <-; apply heap_le_refl|].
  destruct (LogBase.isDiscard rec && cfg_isDiscard env);
    [apply redoDiscard_heap in H; exact H|].
  destruct (LogBase.isDiscard rec && negb (cfg_isZeroDiscard env));
    [injection H as <-; apply heap_le_refl|].
  apply redoNormalIo_heap in H. exact H.
Qed.

Lemma redo_records_heap :
  forall recs st st',
    redo_records env recs st = Ok st' -> heap_le R (heap st) (heap st').
Proof.
  induction recs as [|[rec blockS] recs IH]; intros st st' H.
  - simpl in H. injection H as <-. apply heap_le_refl.
  - cbn [redo_records] in H. apply bind_ok in H as (st1 & H1 & H).
    apply redoPack_heap in H1. apply IH in H.
    eapply heap_le_trans; eassumption.
Qed.




End EngineFacts.

(** The target ranges of the IOs of the store and of the writes handed to
    the device stay within the device. *)

Section RangeFacts.

Import Redo.

Variable env : Env.
Hypothesis Henv : env_ok env.

Lemma Forall_deref (P : Io -> Prop) h :
  Forall P h <-> forall q, (q < length h)%nat -> P (deref h q).
Proof.
  rewrite Forall_lookup. split.
  - intros H q Hq. unfold deref.
    destruct (h !! q) as [io|] eqn:E; [exact (H q io E)|].
    apply lookup_ge_None in E. lia.
  - intros H q io E. specialize (H q (lookup_lt_Some _ _ _ E)).
    unfold deref in H. rewrite E in H. exact H.
Qed.

Lemma in_dev_geom a b : same_geom a b -> in_dev env a -> in_dev env b.
Proof. intros [H1 H2]. unfold in_dev. rewrite H1, H2. auto. Qed.

Lemma heap_rel_in_dev h h' :
  heap_rel same_geom h h' -> Forall (in_dev env) h -> Forall (in_dev env) h'.
Proof.
  intros [L H]. rewrite !Forall_deref. intros G q Hq.
  eapply in_dev_geom; [apply H|]. apply G. lia.
Qed.

Lemma frame_range st st' :
  frame same_geom st st' ->
  aio_prepared (aio_ st') = aio_prepared (aio_ st) ->
  aio_issued (aio_ st') = aio_issued (aio_ st) ->
  range_inv env st -> range_inv env st'.
Proof.
  intros (F & _) E1 E2 [H1 H2 H3]. constructor.
  - eapply heap_rel_in_dev; eassumption.
  - rewrite E1. exact H2.
  - rewrite E2. exact H3.
Qed.

Lemma submit_loop_range :
  forall q st n st' n',
    submit_loop q st n = Ok (st', n') -> range_inv env st -> range_inv env st'.
Proof.
  induction q as [|iop q IH]; intros st n st' n' H Hinv.
  - simpl in H. injection H as <- <-. exact Hinv.
  - cbn [submit_loop] in H.
    destruct (isOverwritten_ (deref (heap (set_submitIoQ_ q st)) iop)) eqn:Eo.
    + apply IH in H; [exact H|]. destruct Hinv. constructor; assumption.
    + destruct (blocks_ (deref (heap (set_submitIoQ_ q st)) iop)) as [|b bs] eqn:Eb;
        [discriminate|].
      apply IH in H; [exact H|].
      destruct Hinv as [H1 H2 H3].
      cbn [heap set_heap set_aio_ set_submitIoQ_ prepareWrite fst snd aio_ aio_prepared
           aio_issued] in *.
      constructor; cbn [heap set_heap set_aio_ aio_ aio_prepared aio_issued].
      * eapply heap_rel_in_dev; [|exact H1].
        apply (heap_rel_upd same_geom same_geom_ok).
        apply (r_sub _ same_geom_ok). exact Eo.
      * apply Forall_app. split; [exact H2|]. constructor; [|constructor].
        assert (Hq : (iop < length (heap st))%nat).
        { destruct (Nat.lt_ge_cases iop (length (heap st))) as [Hlt|Hge]; [exact Hlt|].
          rewrite deref_out in Eb by exact Hge. discriminate. }
        rewrite Forall_deref in H1. exact (H1 iop Hq).
      * exact H3.
Qed.

Lemma submitIos_range st st' :
  submitIos st = Ok st' -> range_inv env st -> range_inv env st'.
Proof.
  unfold submitIos. destruct (submitIoQ_ st) as [|p q] eqn:E.
  - intros [= <-]. auto.
  - intros H Hinv. apply bind_ok in H as ([st1 n1] & H1 & H2).
    apply submit_loop_range in H1; [|exact Hinv].
    destruct (0 <? n1); injection H2 as <-; [|exact H1].
    destruct H1 as [G1 G2 G3]. constructor; cbn.
    + exact G1.
    + constructor.
    + apply Forall_app. split; assumption.
Qed.

Lemma schedule_loop_range :
  forall ready st st',
    schedule_loop env ready st = Ok st' -> range_inv env st -> range_inv env st'.
Proof.
  induction ready as [|iop ready IH]; intros st st' H Hinv.
  - simpl in H. injection H as <-. exact Hinv.
  - cbn [schedule_loop] in H.
    destruct (isOverwritten_ (deref (heap (set_readyIoQ_ ready st)) iop)).
    + apply IH in H; [exact H|]. destruct Hinv. constructor; assumption.
    + apply bind_ok in H as (st1 & H1 & H2). apply IH in H2; [exact H2|].
      match type of H1 with (if ?c then _ else _) = _ => destruct c end.
      * apply submitIos_range in H1; [exact H1|].
        destruct Hinv. constructor; assumption.
      * injection H1 as <-. destruct Hinv. constructor; assumption.
Qed.

Lemma scheduleIos_range st st' :
  scheduleIos env st = Ok st' -> range_inv env st -> range_inv env st'.
Proof. apply schedule_loop_range. Qed.

Lemma fold_push_ready_aio l : forall st, aio_ (fold_left push_ready l st) = aio_ st.
Proof.
  induction l as [|p l IH]; intros st; [reflexivity|].
  cbn [fold_left]. rewrite IH. unfold push_ready.
  destruct (isOverwritten_ _); reflexivity.
Qed.

Lemma fold_push_ready_range l st :
  range_inv env st -> range_inv env (fold_left push_ready l st).
Proof.
  intros Hinv. eapply frame_range; [apply fold_push_ready_frame; exact same_geom_ok| | |exact Hinv];
    rewrite fold_push_ready_aio; reflexivity.
Qed.

Lemma waitFor_writes a key a' :
  waitFor a key = Ok a' ->
  aio_prepared a' = aio_prepared a /\ aio_issued a' = aio_issued a.
Proof.
  unfold waitFor. destruct (_ && _); [|discriminate]. intros [= <-]. auto.
Qed.

Lemma waitForAnIoCompletion_range st st' :
  waitForAnIoCompletion env st = Ok st' -> range_inv env st -> range_inv env st'.
Proof.
  unfold waitForAnIoCompletion. destruct (ioQ_ st) as [|iop q]; [discriminate|].
  intros H Hinv. apply bind_ok in H as (st1 & H1 & H).
  apply bind_ok in H as (st2 & H2 & H).
  assert (F1 : range_inv env st1).
  { match type of H1 with (if ?c then _ else _) = _ => destruct c end.
    - apply bind_ok in H1 as (sta & Ha & Hb).
      apply scheduleIos_range in Ha; [|destruct Hinv; constructor; assumption].
      apply submitIos_range in Hb; assumption.
    - injection H1 as <-. destruct Hinv; constructor; assumption. }
  assert (F2 : range_inv env st2).
  { destruct (isSubmitted_ (deref (heap st1) iop)) eqn:Es.
    - apply bind_ok in H2 as (a & Ha & Hb). injection Hb as <-.
      apply waitFor_writes in Ha as [Ea Eb].
      destruct F1 as [G1 G2 G3]. constructor; cbn.
      + eapply heap_rel_in_dev; [|exact G1].
        apply (heap_rel_upd same_geom same_geom_ok).
        apply (r_comp _ same_geom_ok). exact Es.
      + rewrite Ea. exact G2.
      + rewrite Eb. exact G3.
    - injection H2 as <-. destruct F1; constructor; assumption. }
  match type of H with context [del ?a ?b ?c ?d] =>
    pose proof (heap_rel_del same_geom same_geom_ok a b c d) as Hd;
    destruct (del a b c d) as [[h1 ol1] tmp] end.
  injection H as <-. apply fold_push_ready_range.
  destruct F2 as [G1 G2 G3]. cbn [fst heap set_nPendingBlocks_] in Hd.
  constructor; cbn.
  - eapply heap_rel_in_dev; eassumption.
  - exact G2.
  - exact G3.
Qed.

Lemma wait_all_loop_range :
  forall fuel st st',
    wait_all_loop env fuel st = Ok st' -> range_inv env st -> range_inv env st'.
Proof.
  induction fuel as [|fuel IH]; intros st st' H Hinv.
  - simpl in H. destruct (ioQ_ st), (readyIoQ_ st); try discriminate.
    injection H as <-. exact Hinv.
  - cbn [wait_all_loop] in H.
    assert (Hgo : (do st1 <- waitForAnIoCompletion env st; wait_all_loop env fuel st1)
                  = Ok st' -> range_inv env st').
    { intros G. apply bind_ok in G as (st1 & G1 & G2).
      apply waitForAnIoCompletion_range in G1; [|exact Hinv]. eapply IH; eassumption. }
    destruct (ioQ_ st), (readyIoQ_ st); try (apply Hgo; exact H).
    injection H as <-. exact Hinv.
Qed.

Lemma wait_room_loop_range nBlocks :
  forall fuel st st',
    wait_room_loop env fuel nBlocks st = Ok st' ->
    range_inv env st -> range_inv env st'.
Proof.
  induction fuel as [|fuel IH]; intros st st' H Hinv.
  - simpl in H. destruct (ioQ_ st); [injection H as <-; exact Hinv|].
    destruct (queueSize_ env <? _); [discriminate|].
    injection H as <-. exact Hinv.
  - cbn [wait_room_loop] in H.
    destruct (ioQ_ st); [injection H as <-; exact Hinv|].
    destruct (queueSize_ env <? _); [|injection H as <-; exact Hinv].
    apply bind_ok in H as (st1 & G1 & G2).
    apply waitForAnIoCompletion_range in G1; [|exact Hinv]. eapply IH; eassumption.
Qed.

Lemma insertToOverlappedData_range st iop :
  range_inv env st -> range_inv env (insertToOverlappedData st iop).
Proof.
  intros [G1 G2 G3].
  pose proof (insertToOverlappedData_fields st iop) as (_ & _ & _ & Ea & _).
  constructor.
  - rewrite insertToOverlappedData_heap.
    eapply heap_rel_in_dev; [apply (heap_rel_ins same_geom same_geom_ok)|exact G1].
  - rewrite Ea. exact G2.
  - rewrite Ea. exact G3.
Qed.

Lemma enqueue_loop_range :
  forall ioQ st,
    Forall (in_dev env) ioQ -> range_inv env st -> range_inv env (enqueue_loop ioQ st).
Proof.
  induction ioQ as [|io ioQ IH]; intros st Hq Hinv; [exact Hinv|].
  cbn [enqueue_loop]. cbv zeta.
  inversion Hq as [|? ? Hio Hq']; subst.
  apply IH; [exact Hq'|].
  set (st1 := set_heap (heap st ++ [io]) st).
  assert (H1 : range_inv env st1).
  { destruct Hinv as [G1 G2 G3]. constructor; cbn; try assumption.
    apply Forall_app. split; [exact G1|]. constructor; [exact Hio|constructor]. }
  apply (insertToOverlappedData_range st1 (length (heap st))) in H1.
  destruct (nOverlapped_ _ =? 0); destruct H1; constructor; assumption.
Qed.

Lemma prepareIos_range ioQ nBlocks st st' :
  prepareIos env ioQ nBlocks st = Ok st' ->
  Forall (in_dev env) ioQ -> range_inv env st -> range_inv env st'.
Proof.
  unfold prepareIos. intros H Hq Hinv. apply bind_ok in H as (st1 & H1 & H2).
  apply wait_room_loop_range in H1; [|exact Hinv].
  injection H2 as <-. apply enqueue_loop_range; [exact Hq|].
  destruct H1; constructor; assumption.
Qed.

End RangeFacts.

(** The clip test of redoNormalIo and the count of the clipped IOs. *)

Section ClipFacts.

Import Redo.

Variable env : Env.
Hypothesis Henv : env_ok env.

Lemma IoQueue_add_in_dev ioQ iop :
  Forall (in_dev env) ioQ -> in_dev env iop ->
  Forall (in_dev env) (IoQueue_add ioQ iop).
Proof.
  intros Hq Hio.
  destruct (IoQueue_add_cases ioQ iop) as [->|(front & back & back' & iop' & -> & Hm & ->)].
  - apply Forall_app. split; [exact Hq|]. constructor; [exact Hio|constructor].
  - apply Forall_app in Hq as [Hf Hb]. apply Forall_app. split; [exact Hf|].
    constructor; [|constructor]. inversion Hb as [|? ? Hback _]; subst.
    apply IoQueue_tryMerge_true in Hm as [_ Hm].
    apply tryMerge_true in Hm as (Hc & -> & _).
    destruct Hback as (B1 & B2 & B3), Hio as (I1 & I2 & I3).
    pose proof (eo_size env Henv) as Hd.
    unfold canMerge in Hc.
    destruct (blocks_ back) as [|b0 ?]; [discriminate|].
    destruct (blocks_ iop) as [|b1 ?]; [discriminate|].
    rewrite s64_small in Hc by lia.
    destruct (Z.eqb_spec (offset_ back + size_ back) (offset_ iop)) as [E|]; [|discriminate].
    unfold in_dev. destruct back; cbn in *.
    rewrite u64_small by lia. lia.
Qed.

Lemma clip_or_add_range rec iop tmpIoQ nBlocks st :
  0 <= offset_ iop -> 0 <= size_ iop -> offset_ iop + size_ iop < 2 ^ 63 ->
  range_inv env st -> Forall (in_dev env) tmpIoQ ->
  let '(q, n, st1) := clip_or_add env rec iop tmpIoQ nBlocks st in
  range_inv env st1 /\ Forall (in_dev env) q
  /\ nClipped_ st1
     = nClipped_ st
       + (if bd_deviceSize env <? offset_ iop + size_ iop then 1 else 0).
Proof.
  intros H1 H2 H3 Hinv Hq. unfold clip_or_add.
  rewrite u64_small by lia.
  destruct (Z.leb_spec (offset_ iop + size_ iop) (bd_deviceSize env)) as [Hle|Hgt].
  - destruct (Z.ltb_spec (bd_deviceSize env) (offset_ iop + size_ iop)); [lia|].
    split; [|split].
    + destruct (LogBase.isDiscard rec); destruct Hinv; constructor; assumption.
    + apply IoQueue_add_in_dev; [exact Hq|]. unfold in_dev. lia.
    + destruct (LogBase.isDiscard rec); cbn; lia.
  - destruct (Z.ltb_spec (bd_deviceSize env) (offset_ iop + size_ iop)); [|lia].
    split; [|split].
    + destruct Hinv; constructor; assumption.
    + exact Hq.
    + reflexivity.
Qed.

Lemma flush_if_many_range tmpIoQ nBlocks st q n st' :
  flush_if_many env tmpIoQ nBlocks st = Ok (q, n, st') ->
  range_inv env st -> Forall (in_dev env) tmpIoQ ->
  range_inv env st' /\ Forall (in_dev env) q /\ nClipped_ st' = nClipped_ st.
Proof.
  unfold flush_if_many. intros H Hinv Hq.
  destruct (queueSize_ env / 2 <=? nBlocks).
  - apply bind_ok in H as (st1 & H1 & H). apply bind_ok in H as (st2 & H2 & H).
    injection H as <- <- <-.
    pose proof (prepareIos_frame env same_geom same_geom_ok _ _ _ _ H1) as (_ & C1 & _).
    pose proof (scheduleIos_frame env same_geom same_geom_ok _ _ H2) as (_ & C2 & _).
    apply (prepareIos_range env) in H1; [|exact Hq|exact Hinv].
    apply (scheduleIos_range env) in H2; [|exact H1].
    split; [exact H2|]. split; [constructor|]. congruence.
  - injection H as <- <- <-. auto.
Qed.

Lemma redo_loop_range rec blockS :
  forall cnt i tmpIoQ remaining off nBlocks st tmpIoQ' nBlocks' st',
    0 <= off -> 0 <= remaining -> off + remaining < 2 ^ 63 ->
    redo_loop env rec blockS cnt i tmpIoQ remaining off nBlocks st
    = Ok (tmpIoQ', nBlocks', st') ->
    range_inv env st -> Forall (in_dev env) tmpIoQ ->
    range_inv env st' /\ Forall (in_dev env) tmpIoQ'
    /\ nClipped_ st'
       = nClipped_ st
         + Z.of_nat (length (clipped_ios env (split_ios (blockSize_ env) cnt off remaining))).
Proof.
  induction cnt as [|cnt IH];
    intros i tmpIoQ remaining off nBlocks st tmpIoQ' nBlocks' st' Ho Hr Hs H Hinv Hq.
  - simpl in H. injection H as <- <- <-. simpl. split; [exact Hinv|]. split; [exact Hq|lia].
  - cbn [redo_loop] in H.
    apply bind_ok in H as ([block st1] & Hb & H). cbv zeta in H.
    apply bind_ok in H as ([[q2 n2] st2] & Hc & H).
    pose proof (eo_block env Henv) as Hbs.
    set (size := Z.min (blockSize_ env) remaining) in *.
    assert (Hsz : 0 <= size <= remaining) by (unfold size; lia).
    pose proof (take_block_fields env _ _ _ _ _ _ Hb) as (Eh & Ea & Ec & Es).
    assert (Hinv1 : range_inv env (set_seqgen (u64 (seqgen st1 + 1)) st1)).
    { destruct Hinv as [G1 G2 G3]. constructor; cbn; rewrite ?Eh, ?Ea; assumption. }
    pose proof (clip_or_add_range rec (newIo off size block (seqgen st1)) tmpIoQ nBlocks
                  _ Ho (proj1 Hsz) ltac:(cbn; lia) Hinv1 Hq) as Hca.
    destruct (clip_or_add env rec (newIo off size block (seqgen st1)) tmpIoQ nBlocks
                (set_seqgen (u64 (seqgen st1 + 1)) st1)) as [[q1 n1] sta].
    destruct Hca as (Ra & Qa & Ca).
    apply flush_if_many_range in Hc as (Rb & Qb & Cb); [|exact Ra|exact Qa].
    rewrite s64_small in H by lia. rewrite u64_small in H by lia.
    apply IH in H as (Rc & Qc & Cc); [|lia|lia|lia|exact Rb|exact Qb].
    split; [exact Rc|]. split; [exact Qc|].
    rewrite Cc, Cb, Ca. cbn [nClipped_ set_seqgen newIo offset_ size_].
    rewrite Ec. cbn [split_ios]. fold size. unfold clipped_ios. cbn [List.filter fst snd].
    destruct (bd_deviceSize env <? off + size); cbn [length]; lia.
Qed.

Lemma redoNormalIo_range rec blockS st st' :
  rec_ok rec ->
  redoNormalIo env rec blockS st = Ok st' -> range_inv env st ->
  range_inv env st'
  /\ nClipped_ st'
     = nClipped_ st + Z.of_nat (length (clipped_ios env (record_ios env rec))).
Proof.
  intros [O1 O2 O3 O4] H Hinv. unfold redoNormalIo in H.
  apply bind_ok in H as ([[q n] st1] & H1 & H).
  apply bind_ok in H as (st2 & H2 & H3).
  unfold LogBase.ioSizeLb in H1. unfold LOGICAL_BLOCK_SIZE in *.
  rewrite u32_small in H1 by lia. rewrite s64_small in H1 by lia.
  apply redo_loop_range in H1 as (R1 & Q1 & C1); [|lia|lia|lia|exact Hinv|constructor].
  pose proof (prepareIos_frame env same_geom same_geom_ok _ _ _ _ H2) as (_ & C2 & _).
  pose proof (scheduleIos_frame env same_geom same_geom_ok _ _ H3) as (_ & C3 & _).
  apply (prepareIos_range env) in H2; [|exact Q1|exact R1].
  apply (scheduleIos_range env) in H3; [|exact H2].
  split; [exact H3|]. unfold record_ios, LOGICAL_BLOCK_SIZE. congruence.
Qed.

Lemma waitForAllPendingIos_range st st' :
  waitForAllPendingIos env st = Ok st' -> range_inv env st -> range_inv env st'.
Proof. apply wait_all_loop_range. Qed.

Lemma redoDiscard_range rec st st' :
  redoDiscard env rec st = Ok st' -> range_inv env st ->
  range_inv env st' /\ nClipped_ st' = nClipped_ st.
Proof.
  unfold redoDiscard. intros H Hinv. apply bind_ok in H as (st1 & H1 & H).
  injection H as <-.
  pose proof (waitForAllPendingIos_frame env same_geom same_geom_ok _ _ H1) as (_ & C1 & _).
  apply waitForAllPendingIos_range in H1; [|exact Hinv].
  split; [|exact C1]. destruct H1; constructor; assumption.
Qed.

Lemma redoPack_range rec blockS st st' :
  rec_ok rec ->
  redoPack env rec blockS st = Ok st' -> range_inv env st ->
  range_inv env st'
  /\ nClipped_ st'
     = nClipped_ st
       + (if takes_normal_path env rec
          then Z.of_nat (length (clipped_ios env (record_ios env rec))) else 0).
Proof.
  intros Hrec H Hinv. unfold redoPack in H. unfold takes_normal_path.
  destruct (LogBase.isPadding rec); cbn [negb andb].
  { injection H as <-. split; [destruct Hinv; constructor; assumption|cbn; lia]. }
  destruct (LogBase.isDiscard rec && cfg_isDiscard env); cbn [negb andb].
  { apply redoDiscard_range in H as [H1 H2]; [|exact Hinv]. split; [exact H1|lia]. }
  destruct (LogBase.isDiscard rec && negb (cfg_isZeroDiscard env)); cbn [negb andb].
  { injection H as <-. split; [destruct Hinv; constructor; assumption|cbn; lia]. }
  eapply redoNormalIo_range; eassumption.
Qed.

Lemma redo_records_range :
  forall recs st st',
    Forall (fun rb => rec_ok (fst rb)) recs ->
    redo_records env recs st = Ok st' -> range_inv env st ->
    range_inv env st' /\ nClipped_ st' = nClipped_ st + clipped_total env recs.
Proof.
  induction recs as [|[rec blockS] recs IH]; intros st st' Hrecs H Hinv.
  - simpl in H. injection H as <-. simpl. split; [exact Hinv|lia].
  - cbn [redo_records] in H. apply bind_ok in H as (st1 & H1 & H2).
    inversion Hrecs as [|? ? Hrec Hrecs']; subst. cbn [fst] in Hrec.
    apply redoPack_range in H1 as [R1 C1]; [|exact Hrec|exact Hinv].
    apply IH in H2 as [R2 C2]; [|exact Hrecs'|exact R1].
    split; [exact R2|]. cbn [clipped_total]. lia.
Qed.

Lemma readAndApply_range recs st st' :
  Forall (fun rb => rec_ok (fst rb)) recs ->
  readAndApply env recs st = Ok st' -> range_inv env st ->
  range_inv env st' /\ nClipped_ st' = nClipped_ st + clipped_total env recs.
Proof.
  intros Hrecs H Hinv. unfold readAndApply in H.
  destruct (negb (canApply env)); [discriminate|].
  apply bind_ok in H as (st1 & H1 & H). apply bind_ok in H as (st2 & H2 & H3).
  apply redo_records_range in H1 as [R1 C1]; [|exact Hrecs|exact Hinv].
  pose proof (submitIos_frame same_geom same_geom_ok _ _ H2) as (_ & C2 & _).
  pose proof (waitForAllPendingIos_frame env same_geom same_geom_ok _ _ H3) as (_ & C3 & _).
  apply (submitIos_range env) in H2; [|exact R1].
  apply waitForAllPendingIos_range in H3; [|exact H2].
  split; [exact H3|]. congruence.
Qed.

End ClipFacts.

(** The writes that submitIos prepares, and the completion wait of an IO
    that died. *)

Section ElisionFacts.

Import Redo.

Variable env : Env.



Lemma fold_push_ready_fields l :
  forall st,
    let st' := fold_left push_ready l st in
    aio_ st' = aio_ st /\ nWritten_ st' = nWritten_ st
    /\ nOverwritten_ st' = nOverwritten_ st /\ ioQ_ st' = ioQ_ st.
Proof.
  induction l as [|p l IH]; intros st; [cbn; auto|].
  cbn [fold_left]. cbv zeta. destruct (IH (push_ready st p)) as (-> & -> & -> & ->).
  unfold push_ready. destruct (isOverwritten_ _); cbn; auto.
Qed.


End ElisionFacts.

(** The bounds of the loops of waitForAllPendingIos and prepareIos are
    never reached. *)

Section FuelFacts.

Import Redo.

Variable env : Env.

Lemma bind_fuel {A B} (m : result A) (k : A -> result B) :
  ~ out_of_fuel m -> (forall a, m = Ok a -> ~ out_of_fuel (k a)) ->
  ~ out_of_fuel (bind m k).
Proof.
  intros Hm Hk. destruct m as [a|e]; simpl; [apply Hk; reflexivity|].
  intros H. apply Hm. unfold out_of_fuel in *. congruence.
Qed.

Lemma submit_loop_fuel :
  forall q st n, ~ out_of_fuel (submit_loop q st n).
Proof.
  induction q as [|iop q IH]; intros st n; [discriminate|].
  cbn [submit_loop]. destruct (isOverwritten_ _); [apply IH|].
  destruct (blocks_ _); [discriminate|apply IH].
Qed.

Lemma submit_loop_ioQ :
  forall q st n st' n', submit_loop q st n = Ok (st', n') -> ioQ_ st' = ioQ_ st.
Proof.
  induction q as [|iop q IH]; intros st n st' n' H.
  - simpl in H. injection H as <- <-. reflexivity.
  - cbn [submit_loop] in H. destruct (isOverwritten_ _).
    + apply IH in H. exact H.
    + destruct (blocks_ _); [discriminate|]. apply IH in H. exact H.
Qed.

Lemma submitIos_fuel st : ~ out_of_fuel (submitIos st).
Proof.
  unfold submitIos. destruct (submitIoQ_ st); [discriminate|].
  apply bind_fuel; [apply submit_loop_fuel|].
  intros [st1 n1] _. destruct (0 <? n1); discriminate.
Qed.

Lemma submitIos_ioQ st st' : submitIos st = Ok st' -> ioQ_ st' = ioQ_ st.
Proof.
  unfold submitIos. destruct (submitIoQ_ st); [intros [= <-]; reflexivity|].
  intros H. apply bind_ok in H as ([st1 n1] & H1 & H2).
  apply submit_loop_ioQ in H1. destruct (0 <? n1); injection H2 as <-; exact H1.
Qed.

Lemma schedule_loop_fuel :
  forall ready st, ~ out_of_fuel (schedule_loop env ready st).
Proof.
  induction ready as [|iop ready IH]; intros st; [discriminate|].
  cbn [schedule_loop]. destruct (isOverwritten_ _); [apply IH|].
  apply bind_fuel; [|intros; apply IH].
  match goal with |- context [if ?c then _ else _] => destruct c end;
    [apply submitIos_fuel|discriminate].
Qed.

Lemma schedule_loop_ioQ :
  forall ready st st', schedule_loop env ready st = Ok st' -> ioQ_ st' = ioQ_ st.
Proof.
  induction ready as [|iop ready IH]; intros st st' H.
  - simpl in H. injection H as <-. reflexivity.
  - cbn [schedule_loop] in H. destruct (isOverwritten_ _).
    + apply IH in H. exact H.
    + apply bind_ok in H as (st1 & H1 & H2). apply IH in H2. rewrite H2.
      match type of H1 with (if ?c then _ else _) = _ => destruct c end.
      * apply submitIos_ioQ in H1. exact H1.
      * injection H1 as <-. reflexivity.
Qed.

Lemma waitForAnIoCompletion_fuel st : ~ out_of_fuel (waitForAnIoCompletion env st).
Proof.
  unfold waitForAnIoCompletion. destruct (ioQ_ st) as [|iop q]; [discriminate|].
  apply bind_fuel.
  { match goal with |- context [if ?c then _ else _] => destruct c end; [|discriminate].
    apply bind_fuel; [apply schedule_loop_fuel|intros; apply submitIos_fuel]. }
  intros st1 _. apply bind_fuel.
  { destruct (isSubmitted_ _); [|discriminate].
    apply bind_fuel; [|discriminate].
    unfold waitFor. destruct (_ && _); discriminate. }
  intros st2 _. destruct (del _ _ _ _) as [[h1 ol1] tmp]. discriminate.
Qed.

Lemma waitForAnIoCompletion_pop st st' :
  waitForAnIoCompletion env st = Ok st' -> ioQ_ st' = tail (ioQ_ st) /\ ioQ_ st <> [].
Proof.
  unfold waitForAnIoCompletion. destruct (ioQ_ st) as [|iop q]; [discriminate|].
  intros H. apply bind_ok in H as (st1 & H1 & H).
  apply bind_ok in H as (st2 & H2 & H).
  assert (E1 : ioQ_ st1 = q).
  { match type of H1 with (if ?c then _ else _) = _ => destruct c end.
    - apply bind_ok in H1 as (sta & Ha & Hb).
      apply schedule_loop_ioQ in Ha. apply submitIos_ioQ in Hb.
      rewrite Hb, Ha. reflexivity.
    - injection H1 as <-. reflexivity. }
  assert (E2 : ioQ_ st2 = q).
  { destruct (isSubmitted_ (deref (heap st1) iop)).
    - apply bind_ok in H2 as (a & Ha & Hb). injection Hb as <-. exact E1.
    - injection H2 as <-. exact E1. }
  destruct (del _ _ _ _) as [[h1 ol1] tmp]. injection H as <-.
  match goal with |- context [fold_left push_ready ?l ?s] =>
    pose proof (fold_push_ready_fields l s) as F; cbv zeta in F;
    destruct F as (_ & _ & _ & F4) end.
  rewrite F4. split; [exact E2|discriminate].
Qed.

Lemma wait_all_loop_fuel :
  forall fuel st,
    (length (ioQ_ st) < fuel)%nat -> ~ out_of_fuel (wait_all_loop env fuel st).
Proof.
  induction fuel as [|fuel IH]; intros st Hlen; [lia|].
  cbn [wait_all_loop].
  assert (Hgo : ~ out_of_fuel (do st' <- waitForAnIoCompletion env st;
                               wait_all_loop env fuel st')).
  { apply bind_fuel; [apply waitForAnIoCompletion_fuel|].
    intros st' H. apply waitForAnIoCompletion_pop in H as [E Hne]. apply IH.
    rewrite E. destruct (ioQ_ st); [congruence|]. simpl in *. lia. }
  destruct (ioQ_ st), (readyIoQ_ st); try exact Hgo. discriminate.
Qed.

Lemma waitForAllPendingIos_fuel st : ~ out_of_fuel (waitForAllPendingIos env st).
Proof. apply wait_all_loop_fuel. lia. Qed.

Lemma wait_room_loop_fuel nBlocks :
  forall fuel st,
    (length (ioQ_ st) <= fuel)%nat -> ~ out_of_fuel (wait_room_loop env fuel nBlocks st).
Proof.
  induction fuel as [|fuel IH]; intros st Hlen.
  - simpl. destruct (ioQ_ st); [discriminate|]. simpl in Hlen. lia.
  - cbn [wait_room_loop]. destruct (ioQ_ st) as [|x q] eqn:Eq; [discriminate|].
    destruct (queueSize_ env <? _); [|discriminate].
    apply bind_fuel; [apply waitForAnIoCompletion_fuel|].
    intros st' H. apply waitForAnIoCompletion_pop in H as [E Hne]. apply IH.
    rewrite E, Eq. simpl in *. lia.
Qed.

Lemma prepareIos_fuel ioQ nBlocks st : ~ out_of_fuel (prepareIos env ioQ nBlocks st).
Proof.
  unfold prepareIos. apply bind_fuel; [apply wait_room_loop_fuel; lia|discriminate].
Qed.

Lemma flush_if_many_fuel tmpIoQ nBlocks st :
  ~ out_of_fuel (flush_if_many env tmpIoQ nBlocks st).
Proof.
  unfold flush_if_many. destruct (_ <=? _); [|discriminate].
  apply bind_fuel; [apply prepareIos_fuel|]. intros st1 _.
  apply bind_fuel; [apply schedule_loop_fuel|discriminate].
Qed.

Lemma redo_loop_fuel rec blockS :
  forall cnt i tmpIoQ remaining off nBlocks st,
    ~ out_of_fuel (redo_loop env rec blockS cnt i tmpIoQ remaining off nBlocks st).
Proof.
  induction cnt as [|cnt IH]; intros i tmpIoQ remaining off nBlocks st; [discriminate|].
  cbn [redo_loop]. apply bind_fuel.
  { unfold take_block. destruct (LogBase.isDiscard rec); [discriminate|].
    destruct (blockS !! i); discriminate. }
  intros [block st1] _. cbv zeta. apply bind_fuel.
  { destruct (clip_or_add _ _ _ _ _ _) as [[q n] sta]. apply flush_if_many_fuel. }
  intros [[q n] st2] _. apply IH.
Qed.

Lemma redoPack_fuel rec blockS st : ~ out_of_fuel (redoPack env rec blockS st).
Proof.
  unfold redoPack. destruct (LogBase.isPadding rec); [discriminate|].
  destruct (_ && _).
  { unfold redoDiscard. apply bind_fuel; [apply waitForAllPendingIos_fuel|discriminate]. }
  destruct (_ && _); [discriminate|].
  unfold redoNormalIo. apply bind_fuel; [apply redo_loop_fuel|].
  intros [[q n] st1] _. apply bind_fuel; [apply prepareIos_fuel|].
  intros st2 _. apply schedule_loop_fuel.
Qed.

Lemma redo_records_fuel :
  forall recs st, ~ out_of_fuel (redo_records env recs st).
Proof.
  induction recs as [|[rec blockS] recs IH]; intros st; [discriminate|].
  cbn [redo_records]. apply bind_fuel; [apply redoPack_fuel|intros; apply IH].
Qed.

Lemma readAndApply_fuel recs st : ~ out_of_fuel (readAndApply env recs st).
Proof.
  unfold readAndApply. destruct (negb _); [discriminate|].
  apply bind_fuel; [apply redo_records_fuel|]. intros st1 _.
  apply bind_fuel; [apply submitIos_fuel|]. intros st2 _.
  apply waitForAllPendingIos_fuel.
Qed.

End FuelFacts.

(** ** Overwritten and clipped IOs over a run *)

Section Scenarios.

Import Redo.

Lemma range_inv_init env : range_inv env applyer_init.
Proof. constructor; constructor. Qed.



(** S6 on a device of 100 LB: with blocks of 4096 bytes the record is one
    IO, which is clipped; with blocks of 512 bytes it is two IOs, of which
    the first is written. *)
Lemma clip_scenario b blockS :
  exists st,
    readAndApply (env_of 51200 4096 1024) [(write_record 99 2, b :: blockS)] applyer_init
    = Ok st
    /\ nClipped_ st = 1 /\ nWritten_ st = 0
    /\ aio_issued (aio_ st) = [] /\ aio_prepared (aio_ st) = [].
Proof.
  eexists. split; [vm_compute; reflexivity|].
  vm_compute. repeat split; reflexivity.
Qed.

(** C5. The engine splits a record into IOs of at most one block and clips
    each of them: an IO that ends beyond the device joins no queue and is
    counted in [nClipped_]. Over a run the IOs of the store and the writes
    handed to the device stay within the device, and [nClipped_] grows by
    the number of the IOs of the records that end beyond it. On a device
    of 100 LB with blocks of 4096 bytes a write of 2 LB at LB 99 ends with
    [nClipped_] = 1, [nWritten_] = 0 and no write. *)
Theorem C5_clip_per_block :
  forall env : Env,
    env_ok env ->
    (forall rec iop tmpIoQ nBlocks st,
        0 <= offset_ iop -> 0 <= size_ iop ->
        offset_ iop + size_ iop < 2 ^ 63 ->
        bd_deviceSize env < offset_ iop + size_ iop ->
        clip_or_add env rec iop tmpIoQ nBlocks st
        = (tmpIoQ, nBlocks, set_nClipped_ (nClipped_ st + 1) st))
    /\ (forall recs st st',
           Forall (fun rb => rec_ok (fst rb)) recs ->
           range_inv env st ->
           readAndApply env recs st = Ok st' ->
           range_inv env st'
           /\ nClipped_ st' = nClipped_ st + clipped_total env recs)
    /\ range_inv env applyer_init
    /\ (forall recs st, ~ out_of_fuel (readAndApply env recs st))
    /\ getQueueSizeStatic BUFFER_SIZE 4096 = Ok 1024
    /\ (forall b blockS,
           exists st,
             readAndApply (env_of 51200 4096 1024)
                          [(write_record 99 2, b :: blockS)] applyer_init = Ok st
             /\ nClipped_ st = 1
             /\ nWritten_ st = 0
             /\ aio_issued (aio_ st) = []
             /\ aio_prepared (aio_ st) = []).
Proof.
  intros env Henv. split; [|split; [|split; [|split; [|split]]]].
  - intros rec iop tmpIoQ nBlocks st H1 H2 H3 H4. unfold clip_or_add.
    rewrite u64_small by lia.
    destruct (Z.leb_spec (offset_ iop + size_ iop) (bd_deviceSize env)); [lia|reflexivity].
  - intros recs st st' Hrecs Hinv H.
    exact (readAndApply_range env Henv recs st st' Hrecs H Hinv).
  - apply range_inv_init.
  - apply readAndApply_fuel.
  - reflexivity.
  - apply clip_scenario.
Qed.

Lemma C5_clip_per_block_witness :
  let env := env_of 51200 4096 1024 in
  let recs := [(write_record 99 2, [mkAlignedArray 8192 (repeat Byte.xaa 4096)])] in
  env_ok env
  /\ clipped_total env recs = 1
  /\ exists st,
      readAndApply env recs applyer_init = Ok st
      /\ range_inv env st
      /\ nClipped_ st = 1.
Proof.
  intros env recs.
  assert (Henv : env_ok env) by (constructor; cbn; lia).
  split; [exact Henv|]. split; [reflexivity|].
  destruct (C5_clip_per_block env Henv) as (_ & Hrun & Hinit & _ & _ & Hs6).
  destruct (Hs6 (mkAlignedArray 8192 (repeat Byte.xaa 4096)) []) as (st & Hst & Hc & _).
  exists st. split; [exact Hst|].
  destruct (Hrun recs applyer_init st) as [Hr _].
  - repeat constructor; cbn; lia.
  - exact Hinit.
  - exact Hst.
  - split; [exact Hr|exact Hc].
Defined.

(** With blocks of 512 bytes the write of 2 LB at LB 99 of S6 is two IOs:
    LB 99 is written and LB 100 is clipped. *)
Lemma C5_small_blocks_counterexample :
  getQueueSizeStatic BUFFER_SIZE 512 = Ok 8192
  /\ exists st,
      readAndApply (env_of 51200 512 8192)
                   [(write_record 99 2,
                     [mkAlignedArray 8192 (repeat Byte.xaa 512);
                      mkAlignedArray 8704 (repeat Byte.xbb 512)])] applyer_init
      = Ok st
      /\ nClipped_ st = 1
      /\ nWritten_ st = 1
      /\ map w_target (aio_issued (aio_ st)) = [(50688, 512, repeat Byte.xaa 512)].
Proof.
  split; [reflexivity|].
  eexists. split; [vm_compute; reflexivity|].
  vm_compute. repeat split; reflexivity.
Qed.

End Scenarios.

(** ** Splitting diff records and diff IOs *)

Section SplitFacts.

Import DiffBase DiffSplit.

Variable CMAX : Z.

Local Abbreviation isValid := (DiffBase.isValid CMAX).
Local Abbreviation clone := (DiffSplit.clone CMAX).
Local Abbreviation split := (DiffSplit.split CMAX).
Local Abbreviation splitAll := (DiffSplit.splitAll CMAX).
Local Abbreviation splitAll_loop := (DiffSplit.splitAll_loop CMAX).

Lemma ceil_step n rem :
  0 < n -> 0 < rem ->
  (rem + n - 1) / n = 1 + (rem - Z.min n rem + n - 1) / n.
Proof.
  intros Hn Hr. destruct (Z.le_gt_cases rem n) as [Hle|Hgt].
  - rewrite Z.min_r by lia.
    replace (rem - rem + n - 1) with (n - 1) by lia.
    rewrite (Z.div_small (n - 1) n) by lia.
    symmetry. apply Z.div_unique with (r := rem - 1); lia.
  - rewrite Z.min_l by lia.
    replace (rem + n - 1) with ((rem - n + n - 1) + 1 * n) by lia.
    rewrite Z.div_add by lia. lia.
Qed.

(** A record that keeps its flags keeps its validity when it has blocks. *)
Lemma isValid_pieces r c :
  isValid r = true ->
  flags c = flags r -> compression_type c = compression_type r ->
  io_blocks c <> 0 ->
  isValid c = true.
Proof.
  unfold DiffBase.isValid, isNormal, exists_, isAllZero, isDiscard, compressionType,
    ioBlocks.
  intros H Hf Hc Hb. rewrite Hf, Hc.
  destruct (negb (negb (Z.land (flags r) EXIST =? 0))); [discriminate|].
  destruct (negb (negb (negb (Z.land (flags r) ALLZERO =? 0))
                  && negb (negb (Z.land (flags r) DISCARD =? 0)))); [exact H|].
  destruct (CMAX <=? compression_type r); [discriminate|].
  destruct (Z.eqb_spec (io_blocks c) 0); [contradiction|reflexivity].
Qed.

Lemma piece_fields r addr blks :
  0 <= blks < 2 ^ 16 ->
  let c := piece r addr blks in
  io_address c = addr /\ io_blocks c = blks /\ flags c = flags r
  /\ compression_type c = compression_type r
  /\ data_offset c = data_offset r /\ checksum c = checksum r
  /\ data_size c = (if isNormal r then blks * LOGICAL_BLOCK_SIZE else data_size r).
Proof.
  intros Hb. unfold piece. cbv zeta.
  destruct (isNormal r); cbn; repeat split; try reflexivity.
  apply u32_small. unfold LOGICAL_BLOCK_SIZE. lia.
Qed.

Lemma splitAll_loop_spec r n :
  isValid r = true -> 0 < n ->
  forall fuel addr rem,
    0 <= rem < 2 ^ 16 -> rem <= Z.of_nat fuel ->
    0 <= addr -> addr + rem < 2 ^ 64 ->
    exists v,
      splitAll_loop fuel r n addr rem = Ok v
      /\ Z.of_nat (length v) = (rem + n - 1) / n
      /\ (forall i c,
             v !! i = Some c ->
             c = piece r (addr + Z.of_nat i * n) (Z.min n (rem - Z.of_nat i * n)))
      /\ Forall (fun c => 0 < io_blocks c <= n) v
      /\ fold_right Z.add 0 (map io_blocks v) = rem.
Proof.
  intros Hv Hn. induction fuel as [|fuel IH]; intros addr rem Hrem Hfuel Haddr Hend.
  - assert (rem = 0) by lia. subst. exists []. simpl.
    split; [reflexivity|]. split; [symmetry; apply Z.div_small; lia|].
    split; [intros i c H; destruct i; discriminate|]. split; [constructor|reflexivity].
  - cbn [DiffSplit.splitAll_loop].
    destruct (Z.ltb_spec 0 rem) as [Hpos|Hz].
    + unfold DiffSplit.clone at 1. rewrite Hv. cbn [bind].
      set (blks := Z.min n rem).
      assert (Hb : 0 < blks <= rem) by (unfold blks; lia).
      rewrite (u64_small (addr + blks)) by lia.
      assert (Hu : u16 (rem - blks) = rem - blks).
      { unfold u16, wrap. apply Z.mod_small. lia. }
      rewrite Hu.
      destruct (IH (addr + blks) (rem - blks)) as (v & Hrun & Hlen & Hidx & Hall & Hsum);
        try lia.
      rewrite Hrun. cbn [bind]. eexists. split; [reflexivity|].
      assert (Hfirst : io_blocks (if isNormal r
                                  then setDataSize (u32 (blks * LOGICAL_BLOCK_SIZE))
                                         (setIoBlocks blks (setIoAddress addr r))
                                  else setIoBlocks blks (setIoAddress addr r)) = blks).
      { destruct (isNormal r); reflexivity. }
      split; [|split; [|split]].
      4:{ cbn [map fold_right]. rewrite Hfirst, Hsum. lia. }
      3:{ constructor; [rewrite Hfirst; unfold blks; lia|exact Hall]. }
      * cbn [length]. rewrite Nat2Z.inj_succ, Hlen. unfold blks.
        rewrite (ceil_step n rem) by lia. lia.
      * intros [|i] c Hc.
        -- simpl in Hc. inversion Hc as [Hc']. unfold piece, blks.
           rewrite Z.mul_0_l, Z.add_0_r, Z.sub_0_r. reflexivity.
        -- simpl in Hc. pose proof (lookup_lt_Some _ _ _ Hc) as Hi.
           apply Hidx in Hc. rewrite Hc.
           assert (Hgt : n < rem).
           { destruct (Z.le_gt_cases rem n) as [Hle|Hgt]; [|lia]. exfalso.
             assert (Hl : Z.of_nat (length v) = 0).
             { rewrite Hlen. unfold blks. rewrite Z.min_r by lia.
               replace (rem - rem + n - 1) with (n - 1) by lia.
               apply Z.div_small. lia. }
             lia. }
           rewrite Nat2Z.inj_succ. unfold blks. rewrite Z.min_l by lia.
           f_equal; [lia|f_equal; lia].
    + assert (rem = 0) by lia. subst. exists []. simpl.
      split; [reflexivity|]. split; [symmetry; apply Z.div_small; lia|].
      split; [intros i c H; destruct i; discriminate|]. split; [constructor|reflexivity].
Qed.


Lemma u16_small x : 0 <= x < 2 ^ 16 -> u16 x = x.
Proof. intros H. unfold u16, wrap. apply Z.mod_small. lia. Qed.

(** RecordRaw::split succeeds exactly on a valid record that is not
    compressed and at a cut inside the record; the halves are valid, meet
    at the cut and cover the record; a normal record hands each half the
    bytes of its blocks. *)
Theorem split_halves :
  forall r n,
    0 <= n < 2 ^ 16 -> 0 <= io_blocks r < 2 ^ 16 ->
    0 <= io_address r -> io_address r + io_blocks r < 2 ^ 64 ->
    (forall r0 r1,
        split r n = Ok (r0, r1) ->
        0 < n < io_blocks r /\ isCompressed r = false /\ isValid r = true)
    /\ (0 < n < io_blocks r -> isCompressed r = false -> isValid r = true ->
        exists r0 r1,
          split r n = Ok (r0, r1)
          /\ io_address r0 = io_address r /\ io_blocks r0 = n
          /\ io_address r1 = io_address r + n /\ io_blocks r1 = io_blocks r - n
          /\ endIoAddress r0 = io_address r1
          /\ endIoAddress r1 = endIoAddress r
          /\ flags r0 = flags r /\ flags r1 = flags r
          /\ isValid r0 = true /\ isValid r1 = true
          /\ (if isNormal r
              then data_size r0 = n * LOGICAL_BLOCK_SIZE
                   /\ data_size r1 = (io_blocks r - n) * LOGICAL_BLOCK_SIZE
              else data_size r0 = data_size r /\ data_size r1 = data_size r))
    /\ (n = 0 \/ io_blocks r <= n ->
        split r n = Throw "split: ioBlocks0 is out or range.").
Proof.
  intros r n Hn Hb Ha He. split; [|split].
  - intros r0 r1 H. unfold DiffSplit.split, ioBlocks in H.
    destruct (Z.eqb_spec n 0); [discriminate|].
    destruct (Z.leb_spec (io_blocks r) n); [discriminate|]. cbn [orb] in H.
    destruct (isCompressed r); [discriminate|].
    unfold DiffSplit.clone in H. destruct (DiffBase.isValid CMAX r); [|discriminate].
    repeat split; lia.
  - intros Hcut Hc Hv. unfold DiffSplit.split, ioBlocks, ioAddress.
    destruct (Z.eqb_spec n 0); [lia|].
    destruct (Z.leb_spec (io_blocks r) n); [lia|]. cbn [orb].
    rewrite Hc. unfold DiffSplit.clone. rewrite Hv. cbn [bind].
    rewrite (u16_small (io_blocks r - n)) by lia.
    rewrite (u64_small (io_address r + n)) by lia.
    assert (V0 : forall c, flags c = flags r -> compression_type c = compression_type r ->
                           io_blocks c = n -> isValid c = true).
    { intros c F C B. apply (isValid_pieces r); try assumption. lia. }
    assert (V1 : forall c, flags c = flags r -> compression_type c = compression_type r ->
                           io_blocks c = io_blocks r - n -> isValid c = true).
    { intros c F C B. apply (isValid_pieces r); try assumption. lia. }
    destruct (isNormal r) eqn:En.
    + eexists _, _. split; [reflexivity|].
      unfold endIoAddress, ioAddress, ioBlocks.
      cbn [io_address io_blocks flags data_size setDataSize setIoBlocks setIoAddress].
      rewrite !u64_small by lia. rewrite !u32_small by (unfold LOGICAL_BLOCK_SIZE; lia).
      repeat split; try lia; [apply V0|apply V1]; reflexivity.
    + eexists _, _. split; [reflexivity|].
      unfold endIoAddress, ioAddress, ioBlocks.
      cbn [io_address io_blocks flags data_size setDataSize setIoBlocks setIoAddress].
      rewrite !u64_small by lia.
      repeat split; try lia; [apply V0|apply V1]; reflexivity.
  - intros Hout. unfold DiffSplit.split, ioBlocks.
    destruct (Z.eqb_spec n 0); [reflexivity|].
    destruct (Z.leb_spec (io_blocks r) n); [reflexivity|lia].
Qed.

(** The pieces of splitAll, for a record of any number of blocks. *)
Lemma splitAll_pieces :
  forall r n,
    0 < n < 2 ^ 16 -> 0 <= io_blocks r < 2 ^ 16 ->
    0 <= io_address r -> io_address r + io_blocks r < 2 ^ 64 ->
    isCompressed r = false ->
    (isValid r = true ->
     exists v,
       splitAll r n = Ok v
       /\ Z.of_nat (length v) = (io_blocks r + n - 1) / n
       /\ (forall i c,
              v !! i = Some c ->
              io_address c = io_address r + Z.of_nat i * n
              /\ io_blocks c = Z.min n (io_blocks r - Z.of_nat i * n)
              /\ 0 < io_blocks c
              /\ flags c = flags r
              /\ checksum c = checksum r
              /\ data_size c = (if isNormal r then io_blocks c * LOGICAL_BLOCK_SIZE
                                else data_size r)
              /\ isValid c = true)
       /\ fold_right Z.add 0 (map io_blocks v) = io_blocks r)
    /\ (io_blocks r = 0 -> splitAll r n = Ok [])
    /\ (isValid r = false -> 0 < io_blocks r ->
        splitAll r n = Throw "invalid record.").
Proof.
  intros r n Hn Hb Ha He Hc.
  unfold DiffSplit.splitAll, ioBlocks, ioAddress.
  destruct (Z.eqb_spec n 0); [lia|]. rewrite Hc.
  split; [|split].
  - intros Hv.
    destruct (splitAll_loop_spec r n Hv ltac:(lia) (Z.to_nat (io_blocks r))
                (io_address r) (io_blocks r)) as (v & Hrun & Hlen & Hidx & Hall & Hsum);
      try lia.
    exists v. split; [exact Hrun|]. split; [exact Hlen|]. split; [|exact Hsum].
    intros i c Hi.
    assert (Hpos : 0 < io_blocks c <= n).
    { rewrite Forall_lookup in Hall. exact (Hall i c Hi). }
    pose proof (Hidx i c Hi) as Hp.
    assert (Hblk : io_blocks c = Z.min n (io_blocks r - Z.of_nat i * n)).
    { rewrite Hp at 1. unfold piece. destruct (isNormal r); reflexivity. }
    pose proof (piece_fields r (io_address r + Z.of_nat i * n)
                  (Z.min n (io_blocks r - Z.of_nat i * n)) ltac:(lia)) as P.
    cbv zeta in P. rewrite <- Hp in P.
    destruct P as (A & B & F & C & _ & K & D).
    split; [exact A|]. split; [exact B|]. split; [lia|]. split; [exact F|].
    split; [exact K|]. split.
    + rewrite D. rewrite B. reflexivity.
    + apply (isValid_pieces r); try assumption. lia.
  - intros Hz. rewrite Hz. reflexivity.
  - intros Hv Hpos.
    destruct (Z.to_nat (io_blocks r)) as [|fuel] eqn:Ef; [lia|].
    cbn [DiffSplit.splitAll_loop].
    destruct (Z.ltb_spec 0 (io_blocks r)); [|lia].
    unfold DiffSplit.clone. rewrite Hv. reflexivity.
Qed.

(** RecordRaw::splitAll cuts a valid record that is not compressed and has
    a block into consecutive pieces of [ioBlocks0] blocks, the last one of
    what is left: there is a piece, as the source asserts; piece [i] starts
    at [io_address + i * ioBlocks0]; the pieces are valid and their blocks
    add up to the blocks of the record. A record with blocks that is not
    valid is refused. *)
Theorem splitAll_tiles :
  forall r n,
    0 < n < 2 ^ 16 -> 0 < io_blocks r < 2 ^ 16 ->
    0 <= io_address r -> io_address r + io_blocks r < 2 ^ 64 ->
    isCompressed r = false ->
    (isValid r = true ->
     exists v,
       splitAll r n = Ok v
       /\ v <> []
       /\ Z.of_nat (length v) = (io_blocks r + n - 1) / n
       /\ (forall i c,
              v !! i = Some c ->
              io_address c = io_address r + Z.of_nat i * n
              /\ io_blocks c = Z.min n (io_blocks r - Z.of_nat i * n)
              /\ 0 < io_blocks c
              /\ flags c = flags r
              /\ checksum c = checksum r
              /\ data_size c = (if isNormal r then io_blocks c * LOGICAL_BLOCK_SIZE
                                else data_size r)
              /\ isValid c = true)
       /\ fold_right Z.add 0 (map io_blocks v) = io_blocks r)
    /\ (isValid r = false -> splitAll r n = Throw "invalid record.").
Proof.
  intros r n Hn Hb Ha He Hc.
  destruct (splitAll_pieces r n Hn ltac:(lia) Ha He Hc) as (Hv & _ & Hi).
  split.
  - intros Hval. destruct (Hv Hval) as (v & Hrun & Hlen & Hidx & Hsum).
    exists v. split; [exact Hrun|]. split; [|auto].
    intros ->. cbn in Hsum. lia.
  - intros Hval. apply Hi; [exact Hval|lia].
Qed.


Lemma map_eq_by_lookup {A B : Type} (f : A -> Z) (g : B -> Z) :
  forall (h : nat -> Z) (l1 : list A) (l2 : list B),
    length l1 = length l2 ->
    (forall i a, l1 !! i = Some a -> f a = h i) ->
    (forall i b, l2 !! i = Some b -> g b = h i) ->
    map f l1 = map g l2.
Proof.
  intros h l1. revert h. induction l1 as [|a l1 IH]; intros h [|b l2] Hlen H1 H2;
    try discriminate; [reflexivity|].
  cbn [map]. f_equal.
  - rewrite (H1 0%nat a eq_refl), (H2 0%nat b eq_refl). reflexivity.
  - apply (IH (fun i => h (S i))).
    + simpl in Hlen. lia.
    + intros i x Hx. apply (H1 (S i)). exact Hx.
    + intros i x Hx. apply (H2 (S i)). exact Hx.
Qed.

(** The loop of splitIoDataAll over a buffer that holds the blocks. *)
Lemma splitIoDataAll_loop_spec io0 buf n :
  iw_data io0 = Some buf -> 0 < n ->
  forall fuel rem off,
    0 <= rem < 2 ^ 16 -> rem <= Z.of_nat fuel -> 0 <= off ->
    off + rem * LOGICAL_BLOCK_SIZE <= Z.of_nat (length buf) ->
    Z.of_nat (length buf) < 2 ^ 64 ->
    exists v,
      splitIoDataAll_loop fuel io0 n rem off = Ok v
      /\ Z.of_nat (length v) = (rem + n - 1) / n
      /\ (forall i d,
             v !! i = Some d ->
             ioBlocks_ d = Z.min n (rem - Z.of_nat i * n)
             /\ data_ d
                = take (Z.to_nat (ioBlocks_ d * LOGICAL_BLOCK_SIZE))
                       (drop (Z.to_nat (off + Z.of_nat i * n * LOGICAL_BLOCK_SIZE)) buf))
      /\ Forall (fun d => 0 < ioBlocks_ d <= n
                          /\ compressionType_ d = WALB_DIFF_CMPR_NONE
                          /\ Z.of_nat (length (data_ d))
                             = ioBlocks_ d * LOGICAL_BLOCK_SIZE) v
      /\ concat (map data_ v)
         = take (Z.to_nat (rem * LOGICAL_BLOCK_SIZE)) (drop (Z.to_nat off) buf)
      /\ fold_right Z.add 0 (map ioBlocks_ v) = rem.
Proof.
  intros Hbuf Hn. unfold LOGICAL_BLOCK_SIZE.
  induction fuel as [|fuel IH]; intros rem off Hrem Hfuel Hoff Hfit Hlen64.
  - assert (rem = 0) by lia. subst. exists []. simpl.
    split; [reflexivity|]. split; [symmetry; apply Z.div_small; lia|].
    split; [intros i c H; destruct i; discriminate|]. split; [constructor|].
    rewrite take_0. split; reflexivity.
  - cbn [splitIoDataAll_loop].
    destruct (Z.ltb_spec 0 rem) as [Hpos|Hz].
    + set (blks := Z.min rem n).
      assert (Hb : 0 < blks <= rem /\ blks <= n) by (unfold blks; lia).
      unfold read_bytes. rewrite Hbuf. unfold LOGICAL_BLOCK_SIZE.
      destruct (Z.ltb_spec (Z.of_nat (length buf)) (off + blks * 512)); [lia|].
      cbn [bind].
      rewrite (u16_small (rem - blks)) by lia.
      rewrite (u64_small (off + blks * 512)) by lia.
      destruct (IH (rem - blks) (off + blks * 512))
        as (v & Hrun & Hlen & Hidx & Hall & Hcat & Hsum); try lia.
      rewrite Hrun. cbn [bind]. eexists. split; [reflexivity|].
      split; [|split; [|split; [|split]]].
      5:{ cbn [map fold_right ioBlocks_]. rewrite Hsum. lia. }
      * cbn [length]. rewrite Nat2Z.inj_succ, Hlen. unfold blks.
        rewrite (ceil_step n rem) by lia. rewrite (Z.min_comm rem n). lia.
      * intros [|i] d Hd.
        -- simpl in Hd. inversion Hd as [Hd']. cbn [ioBlocks_ data_].
           unfold blks. rewrite Z.mul_0_l, Z.sub_0_r, Z.add_0_r.
           split; [apply Z.min_comm|reflexivity].
        -- simpl in Hd. pose proof (lookup_lt_Some _ _ _ Hd) as Hi.
           apply Hidx in Hd as [Hd1 Hd2].
           assert (Hgt : n < rem).
           { destruct (Z.le_gt_cases rem n) as [Hle|Hgt]; [|lia]. exfalso.
             assert (Hl : Z.of_nat (length v) = 0).
             { rewrite Hlen. unfold blks. rewrite Z.min_l by lia.
               replace (rem - rem + n - 1) with (n - 1) by lia.
               apply Z.div_small. lia. }
             lia. }
           unfold blks in Hd1, Hd2. rewrite (Z.min_r rem n) in Hd1, Hd2 by lia.
           rewrite Nat2Z.inj_succ. split.
           ++ rewrite Hd1. f_equal. lia.
           ++ rewrite Hd2. do 2 f_equal. lia.
      * constructor; [|exact Hall]. cbn [ioBlocks_ compressionType_ data_].
        split; [lia|]. split; [reflexivity|].
        rewrite length_take, length_drop. lia.
      * cbn [map concat data_]. rewrite Hcat.
        replace (Z.to_nat (off + blks * 512)) with (Z.to_nat off + Z.to_nat (blks * 512))%nat
          by lia.
        rewrite <- drop_drop.
        rewrite take_take_drop. f_equal. lia.
    + assert (rem = 0) by lia. subst. exists []. simpl.
      split; [reflexivity|]. split; [symmetry; apply Z.div_small; lia|].
      split; [intros i c H; destruct i; discriminate|]. split; [constructor|].
      rewrite take_0. split; reflexivity.
Qed.

(** splitIoDataAll on an IO that is not compressed and whose buffer holds
    [ioBlocks * 512] bytes: the pieces are valid IOs of at most [ioBlocks0]
    blocks whose bytes, put together, are the bytes of the IO; piece [i]
    has the blocks of piece [i] of splitAll on a record of as many
    blocks. *)
Theorem splitIoDataAll_pieces :
  forall io0 buf n,
    0 < n < 2 ^ 16 -> 0 <= iw_ioBlocks io0 < 2 ^ 16 ->
    iw_isCompressed io0 = false ->
    iw_data io0 = Some buf ->
    Z.of_nat (length buf) = iw_ioBlocks io0 * LOGICAL_BLOCK_SIZE ->
    iw_size io0 = Z.of_nat (length buf) ->
    exists v,
      splitIoDataAll io0 n = Ok v
      /\ concat (map data_ v) = buf
      /\ Forall (fun d => 0 < ioBlocks_ d <= n
                          /\ iw_isValid (wrap_of d) = true) v
      /\ fold_right Z.add 0 (map ioBlocks_ v) = iw_ioBlocks io0
      /\ forall r recs,
          isCompressed r = false -> isValid r = true ->
          io_blocks r = iw_ioBlocks io0 ->
          0 <= io_address r -> io_address r + io_blocks r < 2 ^ 64 ->
          splitAll r n = Ok recs ->
          map ioBlocks_ v = map io_blocks recs
          /\ (isNormal r = true ->
              map (fun d => Z.of_nat (length (data_ d))) v = map data_size recs).
Proof.
  intros io0 buf n Hn Hb Hc Hbuf Hlen Hsize.
  unfold splitIoDataAll. destruct (Z.eqb_spec n 0); [lia|]. rewrite Hc.
  destruct (splitIoDataAll_loop_spec io0 buf n Hbuf ltac:(lia)
              (Z.to_nat (iw_ioBlocks io0)) (iw_ioBlocks io0) 0)
    as (v & Hrun & Hl & Hidx & Hall & Hcat & Hsum); try lia.
  { unfold LOGICAL_BLOCK_SIZE in *. lia. }
  exists v. split; [exact Hrun|]. split; [|split; [|split]].
  - rewrite Hcat. change (Z.to_nat 0) with 0%nat. rewrite drop_0.
    apply take_ge. lia.
  - eapply Forall_impl; [exact Hall|]. intros d (H1 & H2 & H3). split; [exact H1|].
    unfold iw_isValid, iw_empty, iw_isCompressed, wrap_of.
    cbn [iw_ioBlocks iw_compressionType iw_data iw_size].
    destruct (Z.eqb_spec (ioBlocks_ d) 0); [lia|]. rewrite H2.
    change (negb (WALB_DIFF_CMPR_NONE =? WALB_DIFF_CMPR_NONE)) with false.
    cbv iota. rewrite H3, Z.eqb_refl. reflexivity.
  - exact Hsum.
  - intros r recs Hrc Hrv Hrb Hra Hre Hrun'.
    destruct (splitAll_pieces r n Hn ltac:(lia) Hra Hre Hrc) as (Ht & _ & _).
    destruct (Ht Hrv) as (v' & Hv' & Hl' & Hidx' & _).
    rewrite Hv' in Hrun'. injection Hrun' as <-.
    split.
    + apply (map_eq_by_lookup _ _ (fun i => Z.min n (iw_ioBlocks io0 - Z.of_nat i * n))).
      * apply Nat2Z.inj. rewrite Hl, Hl', Hrb. reflexivity.
      * intros i d Hd. apply (Hidx i d Hd).
      * intros i c Hc'. destruct (Hidx' i c Hc') as (_ & B & _). rewrite B, Hrb. reflexivity.
    + intros Hnorm.
      apply (map_eq_by_lookup _ _
               (fun i => Z.min n (iw_ioBlocks io0 - Z.of_nat i * n) * LOGICAL_BLOCK_SIZE)).
      * apply Nat2Z.inj. rewrite Hl, Hl', Hrb. reflexivity.
      * intros i d Hd. destruct (Hidx i d Hd) as [B _].
        rewrite Forall_lookup in Hall. destruct (Hall i d Hd) as (_ & _ & L).
        rewrite L, B. reflexivity.
      * intros i c Hc'. destruct (Hidx' i c Hc') as (_ & B & _ & _ & _ & D & _).
        rewrite D, Hnorm, B, Hrb. reflexivity.
Qed.

End SplitFacts.

Section SplitWitnesses.

Import DiffBase DiffSplit.

Lemma split_halves_witness :
  let r := setDataSize 4096 (setIoBlocks 8 (setIoAddress 16 DiffBase.init)) in
  exists r0 r1,
    DiffSplit.split 3 r 3 = Ok (r0, r1)
    /\ io_address r1 = 19 /\ io_blocks r1 = 5
    /\ DiffBase.isValid 3 r1 = true.
Proof.
  intros r.
  destruct (split_halves 3 r 3) as (_ & H & _); try (cbn; lia).
  destruct H as (r0 & r1 & Hs & _ & _ & A1 & B1 & _ & _ & _ & _ & _ & V1 & _);
    try (cbn; lia); try reflexivity.
  exists r0, r1. repeat split; assumption.
Defined.

Lemma splitAll_tiles_witness :
  let r := setDataSize 4096 (setIoBlocks 8 (setIoAddress 16 DiffBase.init)) in
  exists v,
    DiffSplit.splitAll 3 r 3 = Ok v
    /\ v <> []
    /\ Z.of_nat (length v) = 3
    /\ fold_right Z.add 0 (map io_blocks v) = 8.
Proof.
  intros r.
  destruct (splitAll_tiles 3 r 3) as (H & _); try (cbn; lia); try reflexivity.
  destruct (H eq_refl) as (v & Hv & Hne & Hl & _ & Hs).
  exists v. repeat split; assumption.
Defined.

Lemma splitIoDataAll_pieces_witness :
  let buf := repeat Byte.x01 1536 in
  let io0 := mkIoWrap 3 WALB_DIFF_CMPR_NONE (Some buf) 1536 in
  exists v,
    splitIoDataAll io0 2 = Ok v
    /\ concat (map data_ v) = buf
    /\ fold_right Z.add 0 (map ioBlocks_ v) = 3.
Proof.
  intros buf io0.
  destruct (splitIoDataAll_pieces 3 io0 buf 2) as (v & Hv & Hc & _ & Hs & _);
    try (cbn; lia); try reflexivity.
  exists v. repeat split; assumption.
Defined.

End SplitWitnesses.

(** ** The receiver of wdiff-recv *)

Section RecvFacts.

Import DiffBase DiffSplit WdiffRecv.

Variable CMAX : Z.

Local Abbreviation isValid := (DiffBase.isValid CMAX).
Local Abbreviation recv_one := (WdiffRecv.recv_one CMAX).
Local Abbreviation recv_loop := (WdiffRecv.recv_loop CMAX).
Local Abbreviation recvAndWriteDiffs := (WdiffRecv.recvAndWriteDiffs CMAX).

Lemma set_new_fields rec :
  0 <= data_size rec ->
  let io := set rec IoData_new in
  ioBlocks_ io = (if isNormal rec then io_blocks rec else 0)
  /\ compressionType_ io
     = (if isNormal rec then compression_type rec else WALB_DIFF_CMPR_NONE)
  /\ data_ io = repeat Byte.x00 (Z.to_nat (data_size rec)).
Proof.
  intros Hd. unfold set, IoData_new, resize, ioBlocks, compressionType.
  destruct (isNormal rec); cbn [ioBlocks_ compressionType_ data_];
    rewrite take_nil; cbn [app length]; rewrite Nat.sub_0_r; auto.
Qed.

Lemma sock_read_all arrived n io :
  Z.of_nat (length arrived) = n -> Z.of_nat (length (data_ io)) = n ->
  data_ (sock_read arrived n io) = arrived.
Proof.
  intros H1 H2. unfold sock_read. cbn [data_].
  rewrite take_ge by lia. rewrite drop_ge by lia. apply app_nil_r.
Qed.

(** What the body of the receive loop does with a record. *)
Lemma recv_one_spec :
  forall rec arrived,
    0 <= data_size rec ->
    Z.of_nat (length arrived) = data_size rec ->
    (isValid rec = false ->
     recv_one rec arrived = Throw "recvAndWriteDiffs:bad recRaw")
    /\ (isValid rec = true -> data_size rec = 0 ->
        recv_one rec arrived = Ok (WriteDiff rec []))
    /\ (isValid rec = true -> data_size rec <> 0 -> isNormal rec = false ->
        recv_one rec arrived = Throw "recvAndWriteDiffs:bad io")
    /\ (isValid rec = true -> data_size rec <> 0 -> isNormal rec = true ->
        isCompressed rec = false ->
        data_size rec <> io_blocks rec * LOGICAL_BLOCK_SIZE ->
        recv_one rec arrived = Throw "recvAndWriteDiffs:bad io")
    /\ (isValid rec = true -> data_size rec <> 0 -> isNormal rec = true ->
        (isCompressed rec = false ->
         data_size rec = io_blocks rec * LOGICAL_BLOCK_SIZE) ->
        recv_one rec arrived
        = if Util.calcChecksum arrived 0 =? checksum rec
          then Ok (CompressAndWriteDiff rec arrived)
          else Throw "recvAndWriteDiffs:bad io checksum")
    /\ (forall w, recv_one rec arrived = Ok w -> well_formed w).
Proof.
  intros rec arrived Hd Hlen.
  pose proof (set_new_fields rec Hd) as (Hb & Hc & Hdat). cbv zeta in Hb, Hc, Hdat.
  assert (Hread : data_ (sock_read arrived (dataSize rec) (set rec IoData_new)) = arrived).
  { apply sock_read_all; [exact Hlen|]. rewrite Hdat, repeat_length. unfold dataSize. lia. }
  assert (Hio : forall b c, ioBlocks_ (set rec IoData_new) = b ->
                            compressionType_ (set rec IoData_new) = c ->
                            wrap_of (sock_read arrived (dataSize rec) (set rec IoData_new))
                            = mkIoWrap b c (Some arrived) (data_size rec)).
  { intros b c <- <-. unfold wrap_of. rewrite Hread, Hlen. reflexivity. }
  assert (Hnz : forall r : walb_diff_record,
             isValid r = true -> isNormal r = true -> io_blocks r <> 0).
  { intros r Hv Hn. unfold DiffBase.isValid in Hv. rewrite Hn in Hv.
    destruct (negb (exists_ r)); [discriminate|]. cbn [negb] in Hv.
    destruct (CMAX <=? compressionType r); [discriminate|].
    unfold ioBlocks in Hv. destruct (Z.eqb_spec (io_blocks r) 0); [discriminate|assumption]. }
  assert (Hcs : forall b c, b <> 0 ->
                  calcChecksum (mkIoData b c arrived) = Util.calcChecksum arrived 0).
  { intros b c Hb0. unfold calcChecksum, empty. cbn [ioBlocks_ data_].
    destruct (Z.eqb_spec b 0); [contradiction|reflexivity]. }
  assert (Hnormal : isValid rec = true -> data_size rec <> 0 -> isNormal rec = true ->
             (isCompressed rec = false ->
              data_size rec = io_blocks rec * LOGICAL_BLOCK_SIZE) ->
             recv_one rec arrived
             = if Util.calcChecksum arrived 0 =? checksum rec
               then Ok (CompressAndWriteDiff rec arrived)
               else Throw "recvAndWriteDiffs:bad io checksum").
  { intros Hv Hnz' Hn Hsz. unfold WdiffRecv.recv_one. rewrite Hv. cbn [negb].
    unfold dataSize at 1. destruct (Z.eqb_spec (data_size rec) 0); [contradiction|].
    rewrite Hn in Hb, Hc. rewrite (Hio _ _ Hb Hc).
    unfold iw_isValid, iw_empty, iw_isCompressed.
    cbn [iw_ioBlocks iw_compressionType iw_data iw_size].
    destruct (Z.eqb_spec (io_blocks rec) 0) as [E|_]; [exfalso; exact (Hnz rec Hv Hn E)|].
    assert (Hval : (if negb (compression_type rec =? WALB_DIFF_CMPR_NONE)
                    then if data_size rec =? 0 then false else true
                    else if negb (data_size rec =? io_blocks rec * LOGICAL_BLOCK_SIZE)
                         then false else true) = true).
    { unfold isCompressed, compressionType in Hsz.
      destruct (negb (compression_type rec =? WALB_DIFF_CMPR_NONE)).
      - destruct (Z.eqb_spec (data_size rec) 0); [contradiction|reflexivity].
      - rewrite (Hsz eq_refl), Z.eqb_refl. reflexivity. }
    rewrite Hval. cbn [negb].
    assert (Eio : sock_read arrived (dataSize rec) (set rec IoData_new)
                  = mkIoData (io_blocks rec) (compression_type rec) arrived).
    { unfold sock_read in *. cbn [data_] in Hread. rewrite Hread, Hb, Hc. reflexivity. }
    rewrite Eio. rewrite (Hcs _ _ (Hnz rec Hv Hn)). cbn [data_].
    destruct (Util.calcChecksum arrived 0 =? checksum rec); reflexivity. }
  split; [|split; [|split; [|split; [|split]]]].
  - intros Hv. unfold WdiffRecv.recv_one. rewrite Hv. reflexivity.
  - intros Hv Hz. unfold WdiffRecv.recv_one. rewrite Hv. cbn [negb].
    unfold dataSize. rewrite Hz. reflexivity.
  - intros Hv Hnz' Hn. unfold WdiffRecv.recv_one. rewrite Hv. cbn [negb].
    unfold dataSize at 1. destruct (Z.eqb_spec (data_size rec) 0); [contradiction|].
    rewrite Hn in Hb, Hc. rewrite (Hio _ _ Hb Hc).
    unfold iw_isValid, iw_empty. cbn [iw_ioBlocks iw_data iw_size]. reflexivity.
  - intros Hv Hnz' Hn Hcmp Hsz. unfold WdiffRecv.recv_one. rewrite Hv. cbn [negb].
    unfold dataSize at 1. destruct (Z.eqb_spec (data_size rec) 0); [contradiction|].
    rewrite Hn in Hb, Hc. rewrite (Hio _ _ Hb Hc).
    unfold iw_isValid, iw_empty, iw_isCompressed.
    cbn [iw_ioBlocks iw_compressionType iw_data iw_size].
    destruct (Z.eqb_spec (io_blocks rec) 0) as [E|_]; [exfalso; exact (Hnz rec Hv Hn E)|].
    unfold isCompressed, compressionType in Hcmp. rewrite Hcmp.
    destruct (Z.eqb_spec (data_size rec) (io_blocks rec * LOGICAL_BLOCK_SIZE));
      [contradiction|reflexivity].
  - exact Hnormal.
  - intros w Hw.
    destruct (isValid rec) eqn:Hv;
      [|unfold WdiffRecv.recv_one in Hw; rewrite Hv in Hw; discriminate].
    destruct (Z.eq_dec (data_size rec) 0) as [Hz|Hnz'].
    { unfold WdiffRecv.recv_one in Hw. rewrite Hv in Hw. cbn [negb] in Hw.
      unfold dataSize in Hw. rewrite Hz in Hw. injection Hw as <-. split; [reflexivity|exact Hz]. }
    destruct (isNormal rec) eqn:Hn.
    + destruct (isCompressed rec) eqn:Hcmp.
      * rewrite (Hnormal eq_refl Hnz' eq_refl ltac:(discriminate)) in Hw.
        destruct (Z.eqb_spec (Util.calcChecksum arrived 0) (checksum rec)) as [E|];
          [|discriminate].
        injection Hw as <-. cbn.
        split; [assumption|]. split; [exact (Hnz rec Hv Hn)|]. split; [exact Hlen|].
        split; [intros H; rewrite H in Hcmp; discriminate|symmetry; exact E].
      * destruct (Z.eq_dec (data_size rec) (io_blocks rec * LOGICAL_BLOCK_SIZE)) as [Hs|Hs].
        -- rewrite (Hnormal eq_refl Hnz' eq_refl ltac:(intros _; exact Hs)) in Hw.
           destruct (Z.eqb_spec (Util.calcChecksum arrived 0) (checksum rec)) as [E|];
             [|discriminate].
           injection Hw as <-. cbn.
           split; [assumption|]. split; [exact (Hnz rec Hv Hn)|]. split; [exact Hlen|].
           split; [intros _; exact Hs|symmetry; exact E].
        -- exfalso. revert Hw. unfold WdiffRecv.recv_one. rewrite Hv. cbn [negb].
           unfold dataSize at 1. destruct (Z.eqb_spec (data_size rec) 0); [contradiction|].
           rewrite (Hio _ _ Hb Hc).
           unfold iw_isValid, iw_empty, iw_isCompressed.
           cbn [iw_ioBlocks iw_compressionType iw_data iw_size].
           destruct (Z.eqb_spec (io_blocks rec) 0) as [E|_];
             [exfalso; exact (Hnz rec Hv Hn E)|].
           unfold isCompressed, compressionType in Hcmp. rewrite Hcmp.
           destruct (Z.eqb_spec (data_size rec) (io_blocks rec * LOGICAL_BLOCK_SIZE));
             [contradiction|discriminate].
    + exfalso. revert Hw. unfold WdiffRecv.recv_one. rewrite Hv. cbn [negb].
      unfold dataSize at 1. destruct (Z.eqb_spec (data_size rec) 0); [contradiction|].
      rewrite (Hio _ _ Hb Hc).
      unfold iw_isValid, iw_empty. cbn [iw_ioBlocks iw_data iw_size]. discriminate.
Qed.

(** The body of the receive loop. A record that Record::isValid refuses
    is refused; a record that announces no data is written as it is, with
    no data and without a look at an IO; a record that announces data is
    written only if it is normal, its bytes have the checksum of the
    record and, unless it is compressed, it announces 512 bytes per block.
    A discard or all-zero record that announces data, which Record::isValid
    lets pass, ends the reception with "bad io". *)
Theorem recv_one_cases :
  forall rec arrived,
    0 <= data_size rec ->
    Z.of_nat (length arrived) = data_size rec ->
    (isValid rec = false ->
     recv_one rec arrived = Throw "recvAndWriteDiffs:bad recRaw")
    /\ (isValid rec = true -> data_size rec = 0 ->
        recv_one rec arrived = Ok (WriteDiff rec []))
    /\ (isValid rec = true -> data_size rec <> 0 -> isNormal rec = false ->
        recv_one rec arrived = Throw "recvAndWriteDiffs:bad io")
    /\ (isValid rec = true -> data_size rec <> 0 -> isNormal rec = true ->
        isCompressed rec = false ->
        data_size rec <> io_blocks rec * LOGICAL_BLOCK_SIZE ->
        recv_one rec arrived = Throw "recvAndWriteDiffs:bad io")
    /\ (isValid rec = true -> data_size rec <> 0 -> isNormal rec = true ->
        (isCompressed rec = false ->
         data_size rec = io_blocks rec * LOGICAL_BLOCK_SIZE) ->
        recv_one rec arrived
        = if Util.calcChecksum arrived 0 =? checksum rec
          then Ok (CompressAndWriteDiff rec arrived)
          else Throw "recvAndWriteDiffs:bad io checksum")
    /\ (forall w, recv_one rec arrived = Ok w -> well_formed w).
Proof. exact recv_one_spec. Qed.


Lemma recv_loop_spec :
  forall msgs acc,
    exists k out,
      fst (recv_loop msgs acc) = acc ++ out
      /\ (k <= length msgs)%nat
      /\ Forall2 (fun m w => recv_one (fst m) (snd m) = Ok w) (take k msgs) out
      /\ (snd (recv_loop msgs acc) = Ok tt -> k = length msgs)
      /\ (forall e, snd (recv_loop msgs acc) = Throw e ->
                    exists m, msgs !! k = Some m
                              /\ recv_one (fst m) (snd m) = Throw e).
Proof.
  induction msgs as [|[rec arrived] msgs IH]; intros acc.
  - exists 0%nat, []. cbn. rewrite app_nil_r.
    repeat split; try constructor; try reflexivity. intros e H. discriminate.
  - cbn [WdiffRecv.recv_loop].
    destruct (WdiffRecv.recv_one CMAX rec arrived) as [w|e] eqn:E.
    + destruct (IH (acc ++ [w])) as (k & out & H1 & H2 & H3 & H4 & H5).
      exists (S k), (w :: out). rewrite H1, <- app_assoc. cbn [app].
      split; [reflexivity|]. split; [simpl; lia|]. split.
      * cbn [take]. constructor; [exact E|exact H3].
      * split; [intros H; simpl; f_equal; exact (H4 H)|].
        intros e H. destruct (H5 e H) as (m & Hm & He). exists m. split; assumption.
    + exists 0%nat, []. cbn. rewrite app_nil_r.
      split; [reflexivity|]. split; [lia|]. split; [constructor|].
      split; [discriminate|]. intros e' [= <-]. exists (rec, arrived). split; [reflexivity|exact E].
Qed.

(** RequestWorker::recvAndWriteDiffs hands the writer the records of the
    stream in their order up to the first one that it refuses, whose
    error it raises; what it hands over is well formed: a record without
    data of its own, or a normal record with the bytes it announces and
    their checksum. It returns only if no record was refused and the
    stream stands at its end mark. *)
Theorem recvAndWriteDiffs_writes :
  forall msgs ended,
    Forall (fun m => 0 <= data_size (fst m)
                     /\ Z.of_nat (length (snd m)) = data_size (fst m)) msgs ->
    let out := fst (recvAndWriteDiffs msgs ended) in
    let r := snd (recvAndWriteDiffs msgs ended) in
    exists k,
      (k <= length msgs)%nat
      /\ Forall2 (fun m w => recv_one (fst m) (snd m) = Ok w) (take k msgs) out
      /\ Forall well_formed out
      /\ (forall m, msgs !! k = Some m ->
                    exists e, recv_one (fst m) (snd m) = Throw e /\ r = Throw e)
      /\ (k = length msgs ->
          r = if ended then Ok tt else Throw "recvAndWriteDiffs:bad ctrl not end").
Proof.
  intros msgs ended Hsz out r.
  destruct (recv_loop_spec msgs []) as (k & o & H1 & H2 & H3 & H4 & H5).
  cbn [app] in H1.
  assert (Hout : out = o).
  { unfold out, WdiffRecv.recvAndWriteDiffs. rewrite <- H1.
    destruct (WdiffRecv.recv_loop CMAX msgs []) as [o' [[]|e]]; [destruct ended|];
      reflexivity. }
  assert (Hr : r = match snd (recv_loop msgs []) with
                   | Ok _ => if ended then Ok tt
                             else Throw "recvAndWriteDiffs:bad ctrl not end"
                   | Throw e => Throw e
                   end).
  { unfold r, WdiffRecv.recvAndWriteDiffs.
    destruct (WdiffRecv.recv_loop CMAX msgs []) as [o' [[]|e]]; [destruct ended|];
      reflexivity. }
  exists k. rewrite Hout. split; [exact H2|]. split; [exact H3|]. split; [|split].
  - assert (Hsz' : Forall (fun m => 0 <= data_size (fst m)
                                    /\ Z.of_nat (length (snd m)) = data_size (fst m))
                          (take k msgs)).
    { apply Forall_take. exact Hsz. }
    clear -H3 Hsz'. induction H3 as [|m w ms ws Hmw _ IH]; [constructor|].
    inversion Hsz' as [|? ? [Hd Hl] Hrest]; subst.
    constructor; [|apply IH; exact Hrest].
    destruct (recv_one_spec (fst m) (snd m) Hd Hl) as (_ & _ & _ & _ & _ & Hw).
    exact (Hw w Hmw).
  - intros m Hm. rewrite Hr.
    destruct (snd (recv_loop msgs [])) as [[]|e] eqn:Es.
    + rewrite (H4 eq_refl) in Hm. apply lookup_lt_Some in Hm. lia.
    + destruct (H5 e eq_refl) as (m' & Hm' & He). rewrite Hm in Hm'.
      injection Hm' as <-. exists e. split; [exact He|reflexivity].
  - intros Hk. rewrite Hr.
    destruct (snd (recv_loop msgs [])) as [[]|e] eqn:Es; [reflexivity|].
    destruct (H5 e eq_refl) as (m' & Hm' & _). apply lookup_lt_Some in Hm'. lia.
Qed.

End RecvFacts.

Section RecvWitnesses.

Import DiffBase DiffSplit WdiffRecv.

Lemma recv_one_cases_witness :
  let rec := setDataSize 512 (setDiscard (setIoBlocks 1 DiffBase.init)) in
  DiffBase.isValid 3 rec = true
  /\ WdiffRecv.recv_one 3 rec (repeat Byte.x00 512) = Throw "recvAndWriteDiffs:bad io".
Proof.
  intros rec. split; [reflexivity|].
  destruct (recv_one_cases 3 rec (repeat Byte.x00 512)) as (_ & _ & H & _).
  - cbn. lia.
  - reflexivity.
  - apply H; [reflexivity|cbn; lia|reflexivity].
Defined.

Lemma recvAndWriteDiffs_writes_witness :
  let rec := setDiscard (setIoBlocks 8 DiffBase.init) in
  exists k,
    (k <= 1)%nat
    /\ Forall2 (fun m w => WdiffRecv.recv_one 3 (fst m) (snd m) = Ok w)
               (take k [(rec, [])])
               (fst (WdiffRecv.recvAndWriteDiffs 3 [(rec, [])] true)).
Proof.
  intros rec.
  destruct (recvAndWriteDiffs_writes 3 [(rec, [])] true) as (k & H1 & H2 & _).
  - constructor; [cbn; split; [lia|reflexivity]|constructor].
  - exists k. split; [exact H1|exact H2].
Defined.

End RecvWitnesses.

(** ** Log packs *)

Section PackFacts.

Import LogBase LogPack.

Variable MAXT : Z.
Variable maxn : Z -> Z.

Local Abbreviation add_io := (LogBase.add_io MAXT maxn).
Local Abbreviation header_ok := (LogBase.header_ok maxn).
Local Abbreviation built := (LogPack.built MAXT maxn).

Lemma capacity_pb_nonneg pbs0 size : 0 <= capacity_pb pbs0 size < 2 ^ 32.
Proof. unfold capacity_pb, u32, wrap. apply Z.mod_pos_bound. lia. Qed.

Lemma io_pb_nonneg pbs0 r : 0 <= io_pb pbs0 r < 2 ^ 32.
Proof.
  unfold io_pb. destruct (isDiscard r); [lia|apply capacity_pb_nonneg].
Qed.

Lemma total_pb_app pbs0 l1 l2 :
  total_pb pbs0 (l1 ++ l2) = total_pb pbs0 l1 + total_pb pbs0 l2.
Proof. induction l1 as [|r l1 IH]; cbn [app total_pb]; lia. Qed.

Lemma total_pb_nonneg pbs0 l : 0 <= total_pb pbs0 l.
Proof.
  induction l as [|r l IH]; cbn [total_pb]; [lia|].
  pose proof (io_pb_nonneg pbs0 r). lia.
Qed.

Lemma total_pb_take pbs0 l k : total_pb pbs0 (take k l) <= total_pb pbs0 l.
Proof.
  rewrite <- (take_drop k l) at 2. rewrite total_pb_app.
  pose proof (total_pb_nonneg pbs0 (drop k l)). lia.
Qed.

Lemma used_store_record h rec cap pad :
  0 <= nRecords h < Z.of_nat (length (record (header_ h))) ->
  nRecords h + 1 < 2 ^ 16 ->
  used (store_record h rec cap pad) = used h ++ [rec].
Proof.
  intros Hn Hw. unfold used, store_record.
  assert (E : u16 (n_records (header_ h) + 1) = nRecords h + 1).
  { unfold u16, wrap, nRecords in *. apply Z.mod_small. lia. }
  unfold nRecords at 1. cbn [header_ n_records record]. rewrite E.
  replace (Z.to_nat (nRecords h + 1)) with (S (Z.to_nat (nRecords h))) by lia.
  erewrite take_S_r; [|apply list_lookup_insert_eq; lia].
  rewrite take_insert_ge by lia. reflexivity.
Qed.

(** What a successful add has tested and written. *)
Lemma add_io_inv k h offset0 size h' :
  add_io k h offset0 size = Ok (true, h') ->
  nRecords h < maxn (pbs h)
  /\ (k <> AddDiscard -> u32 (totalIoSize h + capacity_pb (pbs h) size) <= MAXT)
  /\ (k = AddPadding -> nPadding h <= 0)
  /\ exists rec,
      h' = store_record h rec (added_pb k h size)
                        (match k with AddPadding => true | _ => false end)
      /\ isExist rec = true
      /\ isPadding rec = (match k with AddPadding => true | _ => false end)
      /\ isDiscard rec = (match k with AddDiscard => true | _ => false end)
      /\ io_size rec = size
      /\ lsid_local rec = u32 (total_io_size (header_ h) + 1)
      /\ lsid rec = u64 (logpack_lsid (header_ h) + lsid_local rec).
Proof.
  unfold LogBase.add_io.
  destruct k; simpl; unfold addNormalIo, addDiscardIo, addPadding;
    repeat (match goal with
            | |- context [if ?c then _ else _] => destruct c eqn:?
            end; try discriminate);
    intros [= <-];
    (split; [lia|]); (split; [intros; try congruence; lia|]);
    (split; [intros; try congruence; lia|]);
    eexists; (split; [reflexivity|]); repeat split.
Qed.


Lemma lookup_repeat {A : Type} (x : A) :
  forall n i, (i < n)%nat -> repeat x n !! i = Some x.
Proof.
  induction n as [|n IH]; intros i Hi; [lia|].
  destruct i; [reflexivity|]. cbn [repeat]. simpl. apply IH. lia.
Qed.

Lemma used_init h0 lsid0 : used (LogBase.init maxn h0 lsid0) = [].
Proof. reflexivity. Qed.

Lemma add_keeps k h offset0 size h' :
  MAXT < 2 ^ 16 -> maxn (pbs h) < 2 ^ 16 ->
  logpack_lsid (header_ h) + MAXT + 1 < 2 ^ 64 ->
  header_ok h -> pack_consistent h ->
  nPadding h <= 1 -> total_io_size (header_ h) <= MAXT ->
  0 <= size < 2 ^ 16 ->
  add_io k h offset0 size = Ok (true, h') ->
  header_ok h' /\ pack_consistent h'
  /\ nPadding h' <= 1 /\ total_io_size (header_ h') <= MAXT
  /\ pbs h' = pbs h /\ logpack_lsid (header_ h') = logpack_lsid (header_ h)
  /\ nRecords h' = nRecords h + 1
  /\ exists rec, used h' = used h ++ [rec] /\ io_size rec = size.
Proof.
  intros HM Hmaxn Hlsid [Hp Hn Hs Ht [Hl0 Hl1]] [Pc Pt Pp Pr] Hpad Htot Hsz Hadd.
  apply add_io_inv in Hadd
    as (Hfull & Hcap & Hnp & rec & -> & Hex & Hispad & Hisdis & Hios & Hll & Hl).
  assert (Hrange : 0 <= nRecords h < Z.of_nat (length (record (header_ h)))) by lia.
  assert (Hused : used (store_record h rec (added_pb k h size)
                          (match k with AddPadding => true | _ => false end))
                  = used h ++ [rec]).
  { apply used_store_record; lia. }
  pose proof (capacity_pb_small (pbs h) size Hp Hsz) as [Hc0 Hc1].
  assert (Hadd_pb : added_pb k h size = io_pb (pbs h) rec).
  { unfold added_pb, io_pb. rewrite Hisdis, Hios. destruct k; reflexivity. }
  assert (Htot16 : totalIoSize h = total_io_size (header_ h)).
  { unfold totalIoSize, u16, wrap. apply Z.mod_small. lia. }
  assert (Hnew : 0 <= total_io_size (header_ h) + added_pb k h size <= MAXT).
  { unfold added_pb. destruct k.
    - specialize (Hcap ltac:(discriminate)). rewrite Htot16 in Hcap.
      rewrite u32_small in Hcap by lia. lia.
    - lia.
    - specialize (Hcap ltac:(discriminate)). rewrite Htot16 in Hcap.
      rewrite u32_small in Hcap by lia. lia. }
  assert (E32 : u32 (total_io_size (header_ h) + added_pb k h size)
                = total_io_size (header_ h) + added_pb k h size).
  { apply u32_small. lia. }
  assert (Enr : u16 (n_records (header_ h) + 1) = nRecords h + 1).
  { unfold u16, wrap, nRecords in *. apply Z.mod_small. lia. }
  assert (Hlen : length (record (header_ (store_record h rec (added_pb k h size)
                   (match k with AddPadding => true | _ => false end))))
                 = length (record (header_ h))).
  { unfold store_record. cbn [header_ record]. apply length_insert. }
  assert (Hnp' : 0 <= n_padding (header_ h)).
  { rewrite Pp. lia. }
  split; [|split; [|split; [|split; [|split; [|split; [|split]]]]]].
  - constructor.
    + exact Hp.
    + unfold nRecords, store_record. cbn [header_ n_records]. rewrite Enr. lia.
    + rewrite Hlen. exact Hs.
    + unfold store_record. cbn [header_ total_io_size]. rewrite E32. lia.
    + unfold store_record. cbn [header_ total_io_size logpack_lsid]. rewrite E32. lia.
  - constructor.
    + rewrite Hlen. unfold nRecords at 1 2, store_record. cbn [header_ n_records].
      rewrite Enr. lia.
    + change (pbs (store_record h rec (added_pb k h size)
                     (match k with AddPadding => true | _ => false end))) with (pbs h).
      rewrite Hused, total_pb_app. cbn [total_pb]. rewrite <- Pt, <- Hadd_pb.
      unfold store_record. cbn [header_ total_io_size]. rewrite E32. lia.
    + rewrite Hused, List.filter_app, length_app. cbn [List.filter]. rewrite Hispad.
      unfold store_record. cbn [header_ n_padding].
      destruct k; cbn [length]; try lia.
      specialize (Hnp eq_refl). unfold nPadding in Hnp.
      assert (n_padding (header_ h) = 0) by lia.
      unfold u16, wrap. rewrite Z.mod_small by lia. lia.
    + intros i r Hi. rewrite Hused in Hi.
      assert (Hul : length (used h) = Z.to_nat (nRecords h)).
      { unfold used. rewrite length_take. lia. }
      change (pbs (store_record h rec (added_pb k h size)
                     (match k with AddPadding => true | _ => false end))) with (pbs h).
      change (logpack_lsid (header_ (store_record h rec (added_pb k h size)
                     (match k with AddPadding => true | _ => false end))))
        with (logpack_lsid (header_ h)).
      rewrite Hused.
      destruct (Nat.lt_ge_cases i (length (used h))) as [Hlt|Hge].
      * rewrite lookup_app_l in Hi by exact Hlt.
        rewrite take_app_le by lia. apply Pr. exact Hi.
      * rewrite lookup_app_r in Hi by exact Hge.
        destruct (i - length (used h))%nat as [|j] eqn:Ej; [|destruct j; discriminate].
        simpl in Hi. injection Hi as <-.
        assert (i = length (used h)) by lia. subst i.
        rewrite take_app_length. rewrite <- Pt.
        split; [exact Hex|]. split; [rewrite Hispad, Hisdis; destruct k; reflexivity|].
        rewrite Hl, Hll. rewrite u32_small by lia.
        split; [reflexivity|apply u64_small; lia].
  - unfold nPadding, store_record. cbn [header_ n_padding].
    destruct k; try (unfold nPadding in Hpad; lia).
    specialize (Hnp eq_refl). unfold nPadding in Hnp.
    unfold u16, wrap. rewrite Z.mod_small by lia. lia.
  - unfold store_record. cbn [header_ total_io_size]. rewrite E32. lia.
  - reflexivity.
  - reflexivity.
  - unfold nRecords at 1, store_record. cbn [header_ n_records]. exact Enr.
  - exists rec. split; [exact Hused|exact Hios].
Qed.

Lemma built_pack_inv :
  forall h0 lsid0 h,
    0 < pbs h0 -> 0 <= maxn (pbs h0) < 2 ^ 16 -> 0 <= MAXT < 2 ^ 16 ->
    0 <= lsid0 -> lsid0 + MAXT + 1 < 2 ^ 64 ->
    built (LogBase.init maxn h0 lsid0) h ->
    pack_consistent h
    /\ header_ok h
    /\ nPadding h <= 1
    /\ totalIoSize h <= MAXT
    /\ nRecords h <= maxn (pbs h)
    /\ pbs h = pbs h0
    /\ logpackLsid h = lsid0.
Proof.
  intros h0 lsid0 h Hp Hmaxn HM Hl0 Hl1 Hb.
  assert (G : pack_consistent h /\ header_ok h /\ nPadding h <= 1
              /\ total_io_size (header_ h) <= MAXT
              /\ pbs h = pbs h0 /\ logpack_lsid (header_ h) = lsid0).
  { induction Hb as [|h k offset0 size h' Hb IH Hsz Hadd].
    - split; [|split; [|split; [|split; [|split]]]]; try reflexivity.
      + constructor.
        * unfold nRecords, LogBase.init. cbn [header_ n_records record].
          rewrite repeat_length. lia.
        * reflexivity.
        * reflexivity.
        * intros i r Hi. rewrite used_init in Hi. destruct i; discriminate.
      + constructor.
        * exact Hp.
        * unfold nRecords, LogBase.init. cbn [header_ n_records]. lia.
        * unfold LogBase.init. cbn [header_ record]. rewrite repeat_length.
          change (pbs (mkLogPackHeader _ (pbs_ h0) (salt_ h0))) with (pbs h0). lia.
        * unfold LogBase.init. cbn [header_ total_io_size]. lia.
        * unfold LogBase.init. cbn [header_ total_io_size logpack_lsid]. lia.
      + unfold nPadding, LogBase.init. cbn. lia.
      + unfold LogBase.init. cbn. lia.
    - destruct IH as (Pc & Ho & Hpad & Htot & Epbs & Elsid).
      destruct (add_keeps k h offset0 size h') as (A & B & C & D & E & F & _);
        try assumption; try lia.
      + rewrite Epbs. lia.
      + split; [exact B|]. split; [exact A|]. split; [exact C|]. split; [exact D|].
        split; congruence. }
  destruct G as (Pc & Ho & Hpad & Htot & Epbs & Elsid).
  split; [exact Pc|]. split; [exact Ho|]. split; [exact Hpad|].
  destruct Ho as [Hp' Hn Hs Ht Hl]. destruct Pc as [Pcnt _ _ _].
  split; [|split; [|split]]; try assumption.
  - unfold totalIoSize, u16, wrap. rewrite Z.mod_small by lia. exact Htot.
  - lia.
Qed.

(** A pack that successful adds have built from an initialised header:
    [total_io_size] is the number of physical blocks of its records that
    are not discards, [n_padding] is the number of its padding records and
    is at most one, every record carries the LSIDs of its place, and the
    pack stays within the limits of a header. *)
Theorem built_pack_consistent :
  forall h0 lsid0 h,
    0 < pbs h0 -> 0 <= maxn (pbs h0) < 2 ^ 16 -> 0 <= MAXT < 2 ^ 16 ->
    0 <= lsid0 -> lsid0 + MAXT + 1 < 2 ^ 64 ->
    built (LogBase.init maxn h0 lsid0) h ->
    pack_consistent h
    /\ header_ok h
    /\ nPadding h <= 1
    /\ totalIoSize h <= MAXT
    /\ nRecords h <= maxn (pbs h)
    /\ pbs h = pbs h0
    /\ logpackLsid h = lsid0.
Proof. exact built_pack_inv. Qed.


Section Shrink.

Variable is_valid : walb_logpack_header -> bool.
Variable log_record_init : walb_log_record.
Variable checksum_of_block : LogPackHeader -> Z.

Local Abbreviation shrink := (LogPack.shrink log_record_init checksum_of_block).
Local Abbreviation shrink_invalidate := (LogPack.shrink_invalidate log_record_init).
Local Abbreviation updateLsid := (LogPack.updateLsid is_valid).

Lemma record_at_ok h i :
  (Z.of_nat i < nRecords h) -> (i < length (record (header_ h)))%nat ->
  exists r, record (header_ h) !! i = Some r /\ record_at h i = Ok r.
Proof.
  intros H1 H2. unfold record_at.
  destruct (Z.leb_spec (nRecords h) (Z.of_nat i)); [lia|].
  destruct (lookup_lt_is_Some_2 _ _ H2) as [r Hr]. rewrite Hr. eauto.
Qed.

Lemma shrink_invalidate_spec :
  forall cnt i h,
    Z.of_nat (i + cnt) <= nRecords h ->
    (i + cnt <= length (record (header_ h)))%nat ->
    exists h',
      shrink_invalidate cnt i h = Ok h'
      /\ record (header_ h')
         = take i (record (header_ h)) ++ repeat log_record_init cnt
             ++ drop (i + cnt) (record (header_ h))
      /\ n_records (header_ h') = n_records (header_ h)
      /\ logpack_lsid (header_ h') = logpack_lsid (header_ h)
      /\ sector_type (header_ h') = sector_type (header_ h)
      /\ pbs_ h' = pbs_ h /\ salt_ h' = salt_ h.
Proof.
  induction cnt as [|cnt IH]; intros i h Hn Hl.
  - exists h. cbn [LogPack.shrink_invalidate repeat app]. rewrite Nat.add_0_r, take_drop.
    repeat split; reflexivity.
  - cbn [LogPack.shrink_invalidate].
    destruct (record_at_ok h i) as (r & Hr & ->); try lia. cbn [bind].
    destruct (IH (S i) (set_record i log_record_init h)) as (h' & Hrun & Hrec & F);
      [unfold nRecords, set_record in *; cbn [header_ n_records]; lia
      |unfold set_record; cbn [header_ record]; rewrite length_insert; lia|].
    exists h'. split; [exact Hrun|]. split; [|exact F].
    rewrite Hrec. unfold set_record. cbn [header_ record].
    erewrite take_S_r; [|apply list_lookup_insert_eq; lia].
    rewrite take_insert_ge by lia. rewrite drop_insert_lt by lia.
    rewrite <- app_assoc. cbn [app repeat].
    replace (S i + cnt)%nat with (i + S cnt)%nat by lia. reflexivity.
Qed.

Lemma shrink_recount_spec :
  forall cnt i h,
    Z.of_nat (i + cnt) <= nRecords h ->
    (i + cnt <= length (record (header_ h)))%nat ->
    let seg := take cnt (drop i (record (header_ h))) in
    0 <= total_io_size (header_ h) ->
    total_io_size (header_ h) + total_pb (pbs h) seg < 2 ^ 32 ->
    0 <= n_padding (header_ h) ->
    n_padding (header_ h) + Z.of_nat cnt < 2 ^ 16 ->
    exists h',
      shrink_recount cnt i h = Ok h'
      /\ total_io_size (header_ h') = total_io_size (header_ h) + total_pb (pbs h) seg
      /\ n_padding (header_ h')
         = n_padding (header_ h) + Z.of_nat (length (List.filter isPadding seg))
      /\ record (header_ h') = record (header_ h)
      /\ n_records (header_ h') = n_records (header_ h)
      /\ logpack_lsid (header_ h') = logpack_lsid (header_ h)
      /\ sector_type (header_ h') = sector_type (header_ h)
      /\ hdr_checksum (header_ h') = hdr_checksum (header_ h)
      /\ pbs_ h' = pbs_ h /\ salt_ h' = salt_ h.
Proof.
  induction cnt as [|cnt IH]; intros i h Hn Hl seg Ht0 Ht Hp0 Hp.
  - exists h. unfold seg. rewrite take_0. cbn [total_pb List.filter length].
    repeat split; try reflexivity; lia.
  - cbn [LogPack.shrink_recount].
    destruct (record_at_ok h i) as (r & Hr & ->); try lia. cbn [bind].
    assert (Hseg : seg = r :: take cnt (drop (S i) (record (header_ h)))).
    { unfold seg. erewrite drop_S by exact Hr. reflexivity. }
    rewrite Hseg in Ht. cbn [total_pb] in Ht.
    pose proof (io_pb_nonneg (pbs h) r) as Hio.
    pose proof (total_pb_nonneg (pbs h) (take cnt (drop (S i) (record (header_ h))))) as Hrest.
    set (h1 := if negb (test_bit_u32 LOG_RECORD_DISCARD (flags r))
               then set_total_io_size
                      (u32 (total_io_size (header_ h) + capacity_pb (pbs h) (io_size r))) h
               else h).
    assert (H1 : total_io_size (header_ h1) = total_io_size (header_ h) + io_pb (pbs h) r
                 /\ record (header_ h1) = record (header_ h)
                 /\ n_records (header_ h1) = n_records (header_ h)
                 /\ n_padding (header_ h1) = n_padding (header_ h)
                 /\ logpack_lsid (header_ h1) = logpack_lsid (header_ h)
                 /\ sector_type (header_ h1) = sector_type (header_ h)
                 /\ hdr_checksum (header_ h1) = hdr_checksum (header_ h)
                 /\ pbs_ h1 = pbs_ h /\ salt_ h1 = salt_ h).
    { unfold h1, io_pb, isDiscard in *.
      destruct (test_bit_u32 LOG_RECORD_DISCARD (flags r)); cbn [negb].
      - repeat split; try reflexivity; lia.
      - unfold set_total_io_size. cbn. rewrite u32_small by lia. repeat split; reflexivity. }
    destruct H1 as (T1 & R1 & N1 & P1 & L1 & S1 & C1 & B1 & A1).
    set (h2 := if test_bit_u32 LOG_RECORD_PADDING (flags r)
               then set_n_padding (u16 (n_padding (header_ h1) + 1)) h1 else h1).
    assert (H2 : total_io_size (header_ h2) = total_io_size (header_ h1)
                 /\ record (header_ h2) = record (header_ h1)
                 /\ n_records (header_ h2) = n_records (header_ h1)
                 /\ n_padding (header_ h2)
                    = n_padding (header_ h1) + (if isPadding r then 1 else 0)
                 /\ logpack_lsid (header_ h2) = logpack_lsid (header_ h1)
                 /\ sector_type (header_ h2) = sector_type (header_ h1)
                 /\ hdr_checksum (header_ h2) = hdr_checksum (header_ h1)
                 /\ pbs_ h2 = pbs_ h1 /\ salt_ h2 = salt_ h1).
    { unfold h2, isPadding. destruct (test_bit_u32 LOG_RECORD_PADDING (flags r)).
      - unfold set_n_padding. cbn. unfold u16, wrap. rewrite Z.mod_small by lia.
        repeat split; reflexivity.
      - repeat split; try reflexivity; lia. }
    destruct H2 as (T2 & R2 & N2 & P2 & L2 & S2 & C2 & B2 & A2).
    assert (Epbs : pbs h2 = pbs h) by (unfold pbs; congruence).
    destruct (IH (S i) h2) as (h' & Hrun & T & P & R & N & L & S' & C & B & A).
    + unfold nRecords in *. rewrite N2, N1. lia.
    + rewrite R2, R1. lia.
    + lia.
    + rewrite Epbs, R2, R1, T2, T1. lia.
    + rewrite P2, P1. destruct (isPadding r); lia.
    + rewrite P2, P1. destruct (isPadding r); lia.
    + exists h'. split; [exact Hrun|].
      rewrite Epbs, R2, R1 in T. rewrite R2, R1 in P.
      rewrite Hseg. cbn [total_pb List.filter].
      split; [rewrite T, T2, T1; lia|].
      split; [rewrite P, P2, P1; destruct (isPadding r); cbn [length]; lia|].
      repeat split; congruence.
Qed.


Lemma shrink_spec :
  forall h k,
    pack_consistent h ->
    total_io_size (header_ h) < 2 ^ 32 -> nRecords h < 2 ^ 16 ->
    0 <= k < nRecords h ->
    exists h',
      shrink h k = Ok h'
      /\ nRecords h' = k
      /\ used h' = take (Z.to_nat k) (used h)
      /\ total_io_size (header_ h') = total_pb (pbs h) (used h')
      /\ n_padding (header_ h') = Z.of_nat (length (List.filter isPadding (used h')))
      /\ (forall i, (Z.to_nat k <= i < Z.to_nat (nRecords h))%nat ->
                    record (header_ h') !! i = Some log_record_init)
      /\ logpack_lsid (header_ h') = logpack_lsid (header_ h)
      /\ pbs h' = pbs h
      /\ pack_consistent h'.
Proof.
  intros h k [Pc Pt Pp Pr] Ht Hn Hk.
  unfold LogPack.shrink.
  destruct (shrink_invalidate_spec (Z.to_nat (nRecords h - k)) (Z.to_nat k) h)
    as (h1 & Hrun1 & R1 & N1 & L1 & S1 & B1 & A1); try lia.
  rewrite Hrun1. cbn [bind].
  set (h2 := set_n_padding 0 (set_total_io_size 0 (set_n_records (u16 k) h1))).
  assert (Eu : u16 k = k) by (unfold u16, wrap; apply Z.mod_small; lia).
  assert (N2 : nRecords h2 = k) by (unfold h2, nRecords; cbn; exact Eu).
  assert (R2 : record (header_ h2) = record (header_ h1)) by reflexivity.
  assert (Htk : take (Z.to_nat k) (record (header_ h1)) = take (Z.to_nat k) (used h)).
  { rewrite R1. rewrite take_app_le by (rewrite length_take; lia).
    rewrite take_take. unfold used. rewrite take_take. f_equal. lia. }
  assert (Hlen1 : length (record (header_ h1)) = length (record (header_ h))).
  { rewrite R1. rewrite !length_app, length_take, repeat_length, length_drop. lia. }
  pose proof (total_pb_take (pbs h) (used h) (Z.to_nat k)) as Hle.
  pose proof (total_pb_nonneg (pbs h) (take (Z.to_nat k) (used h))) as Hge.
  assert (Epbs2 : pbs h2 = pbs h) by (unfold pbs, h2; cbn; exact B1).
  destruct (shrink_recount_spec (Z.to_nat (nRecords h2)) 0 h2)
    as (h3 & Hrun3 & T3 & P3 & R3 & N3 & L3 & S3 & C3 & B3 & A3).
  - rewrite N2. lia.
  - rewrite R2, Hlen1, N2. lia.
  - cbn. lia.
  - rewrite N2, drop_0, R2, Htk, Epbs2. cbn [h2 set_n_padding set_total_io_size
      set_n_records header_ total_io_size]. lia.
  - cbn. lia.
  - rewrite N2. cbn [h2 set_n_padding header_ n_padding]. lia.
  - rewrite Hrun3. cbn [bind]. eexists. split; [reflexivity|].
    rewrite N2, drop_0, R2, Htk, Epbs2 in T3.
    rewrite N2, drop_0, R2, Htk in P3.
    assert (Eused : used (updateChecksum checksum_of_block h3) = take (Z.to_nat k) (used h)).
    { unfold used, nRecords, updateChecksum, set_hdr_checksum. cbn [header_ n_records record].
      rewrite N3, R3. fold (nRecords h2). rewrite N2, R2. exact Htk. }
    assert (Enr : nRecords (updateChecksum checksum_of_block h3) = k).
    { unfold nRecords, updateChecksum, set_hdr_checksum. cbn [header_ n_records].
      rewrite N3. exact N2. }
    assert (Epbs : pbs (updateChecksum checksum_of_block h3) = pbs h).
    { unfold pbs, updateChecksum, set_hdr_checksum. cbn [pbs_]. rewrite B3. exact Epbs2. }
    assert (Etot : total_io_size (header_ (updateChecksum checksum_of_block h3))
                   = total_pb (pbs h) (take (Z.to_nat k) (used h))).
    { unfold updateChecksum, set_hdr_checksum. cbn [header_ total_io_size].
      rewrite T3. cbn. lia. }
    assert (Epad : n_padding (header_ (updateChecksum checksum_of_block h3))
                   = Z.of_nat (length (List.filter isPadding (take (Z.to_nat k) (used h))))).
    { unfold updateChecksum, set_hdr_checksum. cbn [header_ n_padding].
      rewrite P3. cbn. lia. }
    assert (Elsid : logpack_lsid (header_ (updateChecksum checksum_of_block h3))
                    = logpack_lsid (header_ h)).
    { unfold updateChecksum, set_hdr_checksum. cbn [header_ logpack_lsid].
      rewrite L3. cbn. exact L1. }
    assert (Erec : record (header_ (updateChecksum checksum_of_block h3))
                   = record (header_ h1)).
    { unfold updateChecksum, set_hdr_checksum. cbn [header_ record]. rewrite R3. exact R2. }
    split; [exact Enr|]. split; [exact Eused|].
    split; [rewrite Eused; exact Etot|]. split; [rewrite Eused; exact Epad|].
    split; [|split; [exact Elsid|split; [exact Epbs|]]].
    + intros i Hi. rewrite Erec, R1.
      rewrite lookup_app_r by (rewrite length_take; lia).
      rewrite length_take.
      rewrite lookup_app_l by (rewrite repeat_length; lia).
      apply lookup_repeat. lia.
    + constructor.
      * rewrite Enr, Erec, Hlen1. lia.
      * rewrite Epbs, Eused. exact Etot.
      * rewrite Eused. exact Epad.
      * intros i r Hi. rewrite Epbs, Elsid, Eused. rewrite Eused in Hi.
        pose proof (lookup_lt_Some _ _ _ Hi) as Hlt. rewrite length_take in Hlt.
        rewrite lookup_take_lt in Hi by lia.
        rewrite take_take. replace (i `min` Z.to_nat k)%nat with i by lia.
        apply Pr. exact Hi.
Qed.

(** LogPackHeader::shrink keeps the first [invalidIdx] records of a pack,
    initialises the records it drops, and recounts: the result has the
    total IO size and the padding count of the records kept, and is a
    consistent pack again. *)
Theorem shrink_recounts :
  forall h k,
    pack_consistent h ->
    total_io_size (header_ h) < 2 ^ 32 -> nRecords h < 2 ^ 16 ->
    0 <= k < nRecords h ->
    exists h',
      shrink h k = Ok h'
      /\ nRecords h' = k
      /\ used h' = take (Z.to_nat k) (used h)
      /\ total_io_size (header_ h') = total_pb (pbs h) (used h')
      /\ n_padding (header_ h') = Z.of_nat (length (List.filter isPadding (used h')))
      /\ (forall i, (Z.to_nat k <= i < Z.to_nat (nRecords h))%nat ->
                    record (header_ h') !! i = Some log_record_init)
      /\ logpack_lsid (header_ h') = logpack_lsid (header_ h)
      /\ pbs h' = pbs h
      /\ pack_consistent h'.
Proof. exact shrink_spec. Qed.

(** An add followed by a shrink to the records of before: the records in
    use and the counters are those of before the add. *)
Theorem add_then_shrink :
  forall k h offset0 size h1,
    MAXT < 2 ^ 16 -> maxn (pbs h) < 2 ^ 16 ->
    logpack_lsid (header_ h) + MAXT + 1 < 2 ^ 64 ->
    header_ok h -> pack_consistent h ->
    nPadding h <= 1 -> total_io_size (header_ h) <= MAXT ->
    0 <= size < 2 ^ 16 ->
    add_io k h offset0 size = Ok (true, h1) ->
    exists h2,
      shrink h1 (nRecords h) = Ok h2
      /\ used h2 = used h
      /\ nRecords h2 = nRecords h
      /\ total_io_size (header_ h2) = total_io_size (header_ h)
      /\ n_padding (header_ h2) = n_padding (header_ h)
      /\ logpack_lsid (header_ h2) = logpack_lsid (header_ h)
      /\ record (header_ h2) !! Z.to_nat (nRecords h) = Some log_record_init.
Proof.
  intros k h offset0 size h1 HM Hmaxn Hlsid Ho Pc Hpad Htot Hsz Hadd.
  destruct (add_keeps k h offset0 size h1 HM Hmaxn Hlsid Ho Pc Hpad Htot Hsz Hadd)
    as (Ho1 & Pc1 & Hpad1 & Htot1 & Epbs & Elsid & En & rec & Hused & Hios).
  destruct Ho as [Hp Hn Hs Ht Hl]. destruct Pc as [Pcnt Pt Pp Pr].
  assert (Hn1 : nRecords h1 < 2 ^ 16).
  { destruct Ho1 as [_ _ Hs1 _ _]. destruct Pc1 as [Pcnt1 _ _ _].
    rewrite Hs1, Epbs in Pcnt1. lia. }
  assert (Ht1 : total_io_size (header_ h1) < 2 ^ 32) by lia.
  assert (Hk1 : 0 <= nRecords h < nRecords h1) by lia.
  destruct (shrink_spec h1 (nRecords h) Pc1 Ht1 Hn1 Hk1) as
    (h2 & Hrun & N2 & U2 & T2 & P2 & I2 & L2 & B2 & _).
  assert (Hul : length (used h) = Z.to_nat (nRecords h)).
  { unfold used. rewrite length_take. lia. }
  assert (Eu : used h2 = used h).
  { rewrite U2, Hused, <- Hul. apply take_app_length. }
  exists h2. split; [exact Hrun|]. split; [exact Eu|]. split; [exact N2|].
  split; [rewrite T2, Eu, Epbs; symmetry; exact Pt|].
  split; [rewrite P2, Eu; symmetry; exact Pp|].
  split; [congruence|]. apply I2. lia.
Qed.


Lemma updateLsid_loop_spec newLsid :
  forall cnt i h,
    Z.of_nat (i + cnt) <= nRecords h ->
    (i + cnt <= length (record (header_ h)))%nat ->
    exists h',
      updateLsid_loop newLsid cnt i h = Ok h'
      /\ record (header_ h')
         = take i (record (header_ h))
             ++ map (rebase newLsid) (take cnt (drop i (record (header_ h))))
             ++ drop (i + cnt) (record (header_ h))
      /\ n_records (header_ h') = n_records (header_ h)
      /\ logpack_lsid (header_ h') = logpack_lsid (header_ h)
      /\ total_io_size (header_ h') = total_io_size (header_ h)
      /\ n_padding (header_ h') = n_padding (header_ h)
      /\ pbs_ h' = pbs_ h /\ salt_ h' = salt_ h.
Proof.
  induction cnt as [|cnt IH]; intros i h Hn Hl.
  - exists h. cbn [LogPack.updateLsid_loop]. rewrite take_0. cbn [map app].
    rewrite Nat.add_0_r, take_drop. repeat split; reflexivity.
  - cbn [LogPack.updateLsid_loop].
    destruct (record_at_ok h i) as (r & Hr & ->); try lia. cbn [bind].
    destruct (IH (S i) (set_record i (set_lsid (u64 (newLsid + lsid_local r)) r) h))
      as (h' & Hrun & Hrec & F);
      [unfold nRecords, set_record in *; cbn [header_ n_records]; lia
      |unfold set_record; cbn [header_ record]; rewrite length_insert; lia|].
    exists h'. split; [exact Hrun|]. split; [|exact F].
    rewrite Hrec. unfold set_record. cbn [header_ record].
    erewrite take_S_r; [|apply list_lookup_insert_eq; lia].
    rewrite take_insert_ge by lia. rewrite !drop_insert_lt by lia.
    rewrite (drop_S _ _ _ Hr). cbn [take map]. rewrite <- app_assoc. cbn [app].
    replace (S i + cnt)%nat with (i + S cnt)%nat by lia. reflexivity.
Qed.

Lemma total_pb_rebase pbs0 newLsid l :
  total_pb pbs0 (map (rebase newLsid) l) = total_pb pbs0 l.
Proof. induction l as [|r l IH]; cbn [map total_pb]; [reflexivity|]. rewrite IH. reflexivity. Qed.

Lemma filter_padding_rebase newLsid l :
  length (List.filter isPadding (map (rebase newLsid) l))
  = length (List.filter isPadding l).
Proof.
  induction l as [|r l IH]; cbn [map List.filter]; [reflexivity|].
  change (isPadding (rebase newLsid r)) with (isPadding r).
  destruct (isPadding r); cbn [length]; rewrite IH; reflexivity.
Qed.

(** LogPackHeader::updateLsid moves a pack to another LSID: the reserved
    value 2^64 - 1 and the LSID the pack has already leave it alone;
    otherwise every record in use gets the new LSID plus its local LSID, so
    that packLsid() of every record is the new LSID, and a consistent pack
    stays consistent. The flag returned is that of the validity check of
    the moved header. *)
Theorem updateLsid_rebases :
  forall h newLsid,
    0 <= nRecords h <= Z.of_nat (length (record (header_ h))) ->
    0 <= newLsid < 2 ^ 64 ->
    (newLsid = UINT64_MAX \/ logpack_lsid (header_ h) = newLsid ->
     updateLsid h newLsid = Ok (true, h))
    /\ (newLsid <> UINT64_MAX -> logpack_lsid (header_ h) <> newLsid ->
        exists h',
          updateLsid h newLsid = Ok (is_valid (header_ h'), h')
          /\ logpack_lsid (header_ h') = newLsid
          /\ used h' = map (rebase newLsid) (used h)
          /\ drop (Z.to_nat (nRecords h)) (record (header_ h'))
             = drop (Z.to_nat (nRecords h)) (record (header_ h))
          /\ nRecords h' = nRecords h
          /\ total_io_size (header_ h') = total_io_size (header_ h)
          /\ n_padding (header_ h') = n_padding (header_ h)
          /\ Forall (fun r => packLsid r = newLsid) (used h')
          /\ (pack_consistent h ->
              newLsid + total_io_size (header_ h) + 1 < 2 ^ 64 ->
              pack_consistent h')).
Proof.
  intros h newLsid Hn Hnew. split.
  - intros [->|E]; unfold LogPack.updateLsid.
    + reflexivity.
    + destruct (newLsid =? UINT64_MAX); [reflexivity|].
      rewrite E, Z.eqb_refl. reflexivity.
  - intros H1 H2. unfold LogPack.updateLsid.
    destruct (Z.eqb_spec newLsid UINT64_MAX); [contradiction|].
    destruct (Z.eqb_spec (logpack_lsid (header_ h)) newLsid); [contradiction|].
    set (h0 := set_logpack_lsid newLsid h).
    destruct (updateLsid_loop_spec newLsid (Z.to_nat (n_records (header_ h0))) 0 h0)
      as (h' & Hrun & R & N & L & T & P & B & A).
    { unfold nRecords, h0 in *. cbn [set_logpack_lsid header_ n_records]. lia. }
    { unfold nRecords, h0 in *. cbn [set_logpack_lsid header_ n_records record]. lia. }
    rewrite Hrun. cbn [bind]. exists h'. split; [reflexivity|].
    change (n_records (header_ h0)) with (nRecords h) in R.
    change (record (header_ h0)) with (record (header_ h)) in R.
    rewrite take_0, drop_0 in R. cbn [app Nat.add] in R.
    assert (En : nRecords h' = nRecords h) by (unfold nRecords; rewrite N; reflexivity).
    assert (Eu : used h' = map (rebase newLsid) (used h)).
    { unfold used. rewrite En, R. rewrite take_app_le by (rewrite length_map, length_take; lia).
      apply take_ge. rewrite length_map, length_take. lia. }
    assert (Hpk : Forall (fun r => packLsid r = newLsid) (used h')).
    { rewrite Eu. apply List.Forall_forall. intros r' Hin. apply in_map_iff in Hin as (r & <- & _).
      unfold packLsid, rebase, set_lsid. cbn [lsid lsid_local].
      unfold u64, wrap. rewrite Zminus_mod_idemp_l.
      replace (newLsid + lsid_local r - lsid_local r) with newLsid by lia.
      apply Z.mod_small. lia. }
    split; [rewrite L; reflexivity|]. split; [exact Eu|].
    split; [rewrite R; rewrite drop_app_length'; [reflexivity|];
            rewrite length_map, length_take; lia|].
    split; [exact En|]. split; [rewrite T; reflexivity|]. split; [rewrite P; reflexivity|].
    split; [exact Hpk|].
    intros [Pc Pt Pp Pr] Hend.
    assert (Epbs : pbs h' = pbs h) by (unfold pbs; rewrite B; reflexivity).
    constructor.
    + rewrite En, R, !length_app, length_map, length_take, length_drop. lia.
    + rewrite Epbs, Eu, total_pb_rebase, T. exact Pt.
    + rewrite Eu, filter_padding_rebase, P. exact Pp.
    + intros i r' Hi. rewrite Eu in Hi. rewrite Epbs, Eu, L.
      cbn [h0 set_logpack_lsid header_ logpack_lsid].
      pose proof (lookup_lt_Some _ _ _ Hi) as Hlt. rewrite length_map in Hlt.
      destruct (lookup_lt_is_Some_2 _ _ Hlt) as [r Hr].
      assert (Er : r' = rebase newLsid r).
      { assert (Hm : map (rebase newLsid) (used h) !! i = Some (rebase newLsid r)).
        { clear -Hr. revert i Hr. induction (used h) as [|x l IH]; intros [|i] Hr;
            try discriminate; simpl in *; [congruence|apply IH; exact Hr]. }
        congruence. }
      destruct (Pr i r Hr) as (Hex & Hfl & Hll & Hl).
      subst r'. rewrite firstn_map, total_pb_rebase.
      split; [exact Hex|]. split; [exact Hfl|]. split; [exact Hll|].
      unfold rebase, set_lsid. cbn [lsid lsid_local].
      apply u64_small.
      pose proof (total_pb_take (pbs h) (used h) i).
      pose proof (total_pb_nonneg (pbs h) (take i (used h))). lia.
Qed.

End Shrink.

(** The LSIDs of a consistent pack: every record lies above the LSID of
    the pack and has it as its packLsid(); a record starts where the
    blocks of the record before it end, and nextLogpackLsid() is where the
    blocks of the last record end. *)
Theorem pack_lsids_tile :
  forall h,
    header_ok h -> pack_consistent h ->
    (forall i r,
        used h !! i = Some r ->
        logpackLsid h < lsid r
        /\ lsid r + io_pb (pbs h) r <= nextLogpackLsid h
        /\ packLsid r = logpackLsid h
        /\ forall r', used h !! S i = Some r' -> lsid r' = lsid r + io_pb (pbs h) r)
    /\ (forall r, last (used h) = Some r ->
                  nextLogpackLsid h = lsid r + io_pb (pbs h) r)
    /\ (nRecords h = 0 -> nextLogpackLsid h = logpackLsid h).
Proof.
  intros h [Hp Hn Hs Ht [Hl0 Hl1]] [Pc Pt Pp Pr].
  assert (Hnext : 0 < nRecords h ->
                  nextLogpackLsid h
                  = logpack_lsid (header_ h) + 1 + total_pb (pbs h) (used h)).
  { intros Hpos. unfold nextLogpackLsid, logpackLsid, totalIoSize.
    destruct (Z.ltb_spec 0 (nRecords h)); [|lia].
    unfold u16, wrap. rewrite (Z.mod_small (total_io_size (header_ h))) by lia.
    rewrite u64_small by lia. rewrite Pt. reflexivity. }
  assert (Hul : length (used h) = Z.to_nat (nRecords h)).
  { unfold used. rewrite length_take. lia. }
  assert (Hstep : forall i r, used h !! i = Some r ->
                    total_pb (pbs h) (take (S i) (used h))
                    = total_pb (pbs h) (take i (used h)) + io_pb (pbs h) r).
  { intros i r Hi. rewrite (take_S_r _ _ _ Hi), total_pb_app. cbn [total_pb]. lia. }
  split; [|split].
  - intros i r Hi. destruct (Pr i r Hi) as (_ & _ & Hll & Hl).
    pose proof (lookup_lt_Some _ _ _ Hi) as Hlt.
    pose proof (total_pb_nonneg (pbs h) (take i (used h))) as H0.
    pose proof (total_pb_take (pbs h) (used h) (S i)) as H1.
    pose proof (Hstep i r Hi) as H2.
    split; [unfold logpackLsid; lia|]. split; [rewrite Hnext by lia; lia|]. split.
    + unfold packLsid, logpackLsid. rewrite Hl.
      replace (logpack_lsid (header_ h) + lsid_local r - lsid_local r)
        with (logpack_lsid (header_ h)) by lia.
      apply u64_small. lia.
    + intros r' Hi'. destruct (Pr (S i) r' Hi') as (_ & _ & Hll' & Hl'). lia.
  - intros r Hlast. apply last_Some in Hlast as [l' El].
    assert (Hi : used h !! length l' = Some r).
    { rewrite El. rewrite lookup_app_r by lia. rewrite Nat.sub_diag. reflexivity. }
    destruct (Pr _ r Hi) as (_ & _ & Hll & Hl).
    assert (Hlen : length (used h) = S (length l')).
    { rewrite El, length_app. simpl. lia. }
    rewrite Hnext by lia.
    pose proof (Hstep _ r Hi) as H2. rewrite <- Hlen, take_ge in H2 by lia. lia.
  - intros Hz. unfold nextLogpackLsid. rewrite Hz. reflexivity.
Qed.



End PackFacts.

Section PackWitnesses.

Import LogBase LogPack.

Ltac by_eval :=
  vm_compute; repeat split; first [reflexivity | intro; discriminate].

(** A header of 512-byte blocks with room for four records, at LSID 100,
    and the pack that the add of a write of 8 LB makes of it. *)
Local Abbreviation maxn4 := (fun _ : Z => 4).
Local Abbreviation h100 :=
  (LogBase.init maxn4 (mkLogPackHeader (mkLogpackHeader 0 0 0 0 0 0 []) 512 0) 100).
Local Abbreviation h100w :=
  (store_record h100 (new_record h100 (set_bit_u32 LOG_RECORD_EXIST 0) 16 8)
                (capacity_pb 512 8) false).

Lemma h100w_added : LogBase.add_io 1024 maxn4 AddNormal h100 16 8 = Ok (true, h100w).
Proof. reflexivity. Qed.

Lemma h100w_built : LogPack.built 1024 maxn4 h100 h100w.
Proof.
  eapply built_add; [apply built_start| |exact h100w_added]. lia.
Qed.

Lemma h100w_inv :
  pack_consistent h100w /\ LogBase.header_ok maxn4 h100w.
Proof.
  destruct (built_pack_inv 1024 maxn4
              (mkLogPackHeader (mkLogpackHeader 0 0 0 0 0 0 []) 512 0) 100 h100w)
    as (A & B & _); try (cbn; lia).
  - exact h100w_built.
  - split; assumption.
Qed.

Lemma built_pack_consistent_witness :
  pack_consistent h100w /\ nPadding h100w <= 1 /\ totalIoSize h100w <= 1024.
Proof.
  destruct (built_pack_consistent 1024 maxn4
              (mkLogPackHeader (mkLogpackHeader 0 0 0 0 0 0 []) 512 0) 100 h100w)
    as (A & _ & C & D & _); try (cbn; lia).
  - exact h100w_built.
  - split; [exact A|split; [exact C|exact D]].
Defined.

Lemma shrink_recounts_witness :
  exists h',
    LogPack.shrink zero_record (fun _ => 0) h100w 0 = Ok h'
    /\ nRecords h' = 0 /\ total_io_size (header_ h') = 0.
Proof.
  destruct (shrink_recounts zero_record (fun _ => 0) h100w 0 (proj1 h100w_inv)
              ltac:(by_eval) ltac:(by_eval) ltac:(by_eval))
    as (h' & Hrun & Hn & Hu & Ht & _).
  exists h'. split; [exact Hrun|]. split; [exact Hn|]. rewrite Ht, Hu. reflexivity.
Defined.

Lemma add_then_shrink_witness :
  exists h2,
    LogPack.shrink zero_record (fun _ => 0) h100w 0 = Ok h2
    /\ used h2 = used h100
    /\ total_io_size (header_ h2) = total_io_size (header_ h100).
Proof.
  assert (Ho : LogBase.header_ok maxn4 h100) by (constructor; by_eval).
  assert (Pc : pack_consistent h100).
  { constructor; [by_eval|by_eval|by_eval|intros i r Hi; destruct i; discriminate]. }
  destruct (add_then_shrink 1024 maxn4 zero_record (fun _ => 0) AddNormal h100 16 8 h100w
              ltac:(lia) ltac:(by_eval) ltac:(by_eval) Ho Pc ltac:(by_eval)
              ltac:(by_eval) ltac:(lia) h100w_added)
    as (h2 & Hrun & Hu & _ & Ht & _).
  exists h2. split; [exact Hrun|]. split; [exact Hu|exact Ht].
Defined.

Lemma updateLsid_rebases_witness :
  exists h',
    LogPack.updateLsid (fun _ => true) h100w 500 = Ok (true, h')
    /\ logpack_lsid (header_ h') = 500
    /\ Forall (fun r => packLsid r = 500) (used h').
Proof.
  destruct (updateLsid_rebases (fun _ => true) h100w 500 ltac:(by_eval) ltac:(lia))
    as (_ & H).
  destruct (H ltac:(discriminate) ltac:(discriminate))
    as (h' & Hrun & Hl & _ & _ & _ & _ & _ & Hp & _).
  exists h'. split; [exact Hrun|]. split; [exact Hl|exact Hp].
Defined.

Lemma pack_lsids_tile_witness :
  nextLogpackLsid h100w = 109
  /\ nextLogpackLsid h100 = logpackLsid h100.
Proof.
  destruct (pack_lsids_tile maxn4 h100w) as (_ & H & _).
  - exact (proj2 h100w_inv).
  - exact (proj1 h100w_inv).
  - split; [|reflexivity].
    rewrite (H (new_record h100 (set_bit_u32 LOG_RECORD_EXIST 0) 16 8) eq_refl).
    reflexivity.
Defined.

End PackWitnesses.

Section PaddingFacts.

Import LogBase LogPack.

Variable maxn : Z -> Z.

Lemma total_pb_filter_le pbs0 (f : walb_log_record -> bool) l :
  0 <= total_pb pbs0 (List.filter f l) <= total_pb pbs0 l.
Proof.
  induction l as [|r l IH]; cbn [List.filter total_pb]; [lia|].
  pose proof (io_pb_nonneg pbs0 r).
  destruct (f r); cbn [total_pb]; lia.
Qed.

Lemma totalPaddingPb_loop_spec h :
  forall cnt i t,
    Z.of_nat (i + cnt) <= nRecords h ->
    (i + cnt <= length (record (header_ h)))%nat ->
    let seg := take cnt (drop i (record (header_ h))) in
    Forall (fun r => isPadding r && isDiscard r = false) seg ->
    0 <= t -> t + total_pb (pbs h) (List.filter isPadding seg) < 2 ^ 64 ->
    totalPaddingPb_loop h cnt i t
    = Ok (t + total_pb (pbs h) (List.filter isPadding seg)).
Proof.
  induction cnt as [|cnt IH]; intros i t Hn Hl seg Hfl Ht Hb.
  - unfold seg. rewrite take_0. cbn. f_equal. lia.
  - cbn [totalPaddingPb_loop].
    destruct (record_at_ok h i) as (r & Hr & ->); try lia. cbn [bind].
    assert (Hseg : seg = r :: take cnt (drop (S i) (record (header_ h)))).
    { unfold seg. erewrite drop_S by exact Hr. reflexivity. }
    rewrite Hseg in Hfl, Hb |- *. inversion Hfl as [|? ? Hr0 Hrest]; subst.
    cbn [List.filter] in Hb |- *.
    pose proof (total_pb_filter_le (pbs h) isPadding
                  (take cnt (drop (S i) (record (header_ h))))) as Hle.
    pose proof (io_pb_nonneg (pbs h) r) as Hio.
    destruct (isPadding r) eqn:Ep.
    + cbn [total_pb] in Hb |- *.
      assert (Ed : io_pb (pbs h) r = capacity_pb (pbs h) (io_size r)).
      { unfold io_pb. cbn [andb] in Hr0. rewrite Hr0. reflexivity. }
      rewrite Ed in *. rewrite u64_small by lia.
      rewrite IH; try lia; [f_equal; lia|exact Hrest].
    + rewrite IH; try lia; [reflexivity|exact Hrest].
Qed.

(** LogPackHeader::totalPaddingPb of a consistent pack is the number of
    physical blocks of its padding records; it is part of the total IO size
    of the pack, and zero when the pack counts no padding. *)
Theorem totalPaddingPb_counts :
  forall h,
    LogBase.header_ok maxn h -> pack_consistent h ->
    totalPaddingPb h = Ok (total_pb (pbs h) (List.filter isPadding (used h)))
    /\ 0 <= total_pb (pbs h) (List.filter isPadding (used h)) <= totalIoSize h
    /\ (nPadding h = 0 -> totalPaddingPb h = Ok 0).
Proof.
  intros h [Hp Hn Hs Ht [Hl0 Hl1]] [Pc Pt Pp Pr].
  pose proof (total_pb_filter_le (pbs h) isPadding (used h)) as Hle.
  assert (Htot : totalIoSize h = total_io_size (header_ h)).
  { unfold totalIoSize, u16, wrap. apply Z.mod_small. lia. }
  assert (Hfl : Forall (fun r => isPadding r && isDiscard r = false) (used h)).
  { apply Forall_lookup. intros i r Hi. apply (Pr i r Hi). }
  split; [|split].
  - unfold totalPaddingPb.
    destruct (Z.eqb_spec (nPadding h) 0) as [E|E].
    + unfold nPadding in E. rewrite Pp in E.
      destruct (List.filter isPadding (used h)); [reflexivity|simpl in E; lia].
    + rewrite (totalPaddingPb_loop_spec h (Z.to_nat (nRecords h)) 0 0); try lia.
      * rewrite drop_0. reflexivity.
      * rewrite drop_0. exact Hfl.
      * rewrite drop_0. fold (used h). lia.
  - rewrite Htot, Pt. lia.
  - intros E. unfold totalPaddingPb. rewrite E. reflexivity.
Qed.

End PaddingFacts.

Section PaddingWitness.

Import LogBase LogPack.

Lemma totalPaddingPb_counts_witness :
  let h100 := LogBase.init (fun _ => 4)
                (mkLogPackHeader (mkLogpackHeader 0 0 0 0 0 0 []) 512 0) 100 in
  exists hp,
    LogBase.addPadding 1024 (fun _ => 4) h100 8 = Ok (true, hp)
    /\ totalPaddingPb hp = Ok 8.
Proof.
  intros h100. eexists. split; [reflexivity|].
  match goal with |- totalPaddingPb ?hp = _ =>
    destruct (built_pack_inv 1024 (fun _ => 4)
                (mkLogPackHeader (mkLogpackHeader 0 0 0 0 0 0 []) 512 0) 100 hp)
      as (Pc & Ho & _);
      [vm_compute; reflexivity
      |vm_compute; split; [intro; discriminate|reflexivity]
      |vm_compute; split; [intro; discriminate|reflexivity]
      |vm_compute; intro; discriminate
      |vm_compute; reflexivity
      |eapply (built_add 1024 (fun _ => 4) _ _ AddPadding 0 8);
       [apply built_start|lia|reflexivity]
      |destruct (totalPaddingPb_counts (fun _ => 4) hp Ho Pc) as (H & _); exact H]
  end.
Defined.

End PaddingWitness.

Section QueueFacts.

Import Redo RedoQueues.

(** getQueueSizeStatic for a block size of at least one byte: it fails
    exactly when the buffer is not larger than a block, and otherwise
    returns the number of whole blocks of the buffer, which is at least
    one; its second error cannot occur. *)
Theorem getQueueSizeStatic_bounds :
  forall bufferSize blockSize,
    0 < blockSize ->
    (bufferSize <= blockSize ->
     getQueueSizeStatic bufferSize blockSize = Throw "Buffer size must be > blockSize.")
    /\ (blockSize < bufferSize ->
        exists qs,
          getQueueSizeStatic bufferSize blockSize = Ok qs
          /\ 1 <= qs
          /\ qs * blockSize <= bufferSize < (qs + 1) * blockSize)
    /\ getQueueSizeStatic bufferSize blockSize <> Throw "Queue size is must be positive.".
Proof.
  intros bufferSize blockSize Hb. unfold getQueueSizeStatic.
  assert (Hdiv : blockSize < bufferSize -> 1 <= bufferSize / blockSize).
  { intros H. apply Z.div_le_lower_bound; lia. }
  split; [|split].
  - intros H. destruct (Z.leb_spec bufferSize blockSize); [reflexivity|lia].
  - intros H. destruct (Z.leb_spec bufferSize blockSize); [lia|].
    specialize (Hdiv H).
    destruct (Z.eqb_spec (bufferSize / blockSize) 0); [lia|].
    eexists. split; [reflexivity|]. split; [lia|].
    pose proof (Z.mul_div_le bufferSize blockSize Hb).
    pose proof (Z.mul_succ_div_gt bufferSize blockSize Hb). lia.
  - destruct (Z.leb_spec bufferSize blockSize); [discriminate|].
    destruct (Z.eqb_spec (bufferSize / blockSize) 0); [|discriminate].
    specialize (Hdiv ltac:(lia)). lia.
Qed.

Lemma getQueueSizeStatic_bounds_witness :
  getQueueSizeStatic BUFFER_SIZE 512 <> Throw "Queue size is must be positive."
  /\ getQueueSizeStatic 512 512 = Throw "Buffer size must be > blockSize.".
Proof.
  destruct (getQueueSizeStatic_bounds BUFFER_SIZE 512 ltac:(lia)) as (_ & _ & H).
  split; [exact H|].
  destruct (getQueueSizeStatic_bounds 512 512 ltac:(lia)) as (H' & _).
  apply H'. lia.
Defined.

(** Sorted insertion into the submit queue. *)
Lemma insert_sorted_split h iop q :
  exists l1 l2,
    q = l1 ++ l2
    /\ insert_sorted h iop q = l1 ++ iop :: l2
    /\ Forall (fun p => offset_ (deref h p) < offset_ (deref h iop)) l1
    /\ match l2 with
       | [] => True
       | p :: _ => offset_ (deref h iop) <= offset_ (deref h p)
       end.
Proof.
  induction q as [|p q IH].
  - exists [], []. cbn. auto.
  - cbn [insert_sorted].
    destruct (Z.ltb_spec (offset_ (deref h p)) (offset_ (deref h iop))) as [Hlt|Hge].
    + destruct IH as (l1 & l2 & -> & -> & Hall & Hhd).
      exists (p :: l1), l2. cbn. repeat split; auto.
    + exists [], (p :: q). cbn. repeat split; auto.
Qed.

(** The insertion of scheduleIos puts the IO before the first IO of the
    submit queue whose offset is not smaller; the queue keeps its IOs and
    its order, and stays sorted by offset. *)
Theorem insert_sorted_keeps_order :
  forall h iop q,
    offsets_sorted h q ->
    offsets_sorted h (insert_sorted h iop q)
    /\ Permutation (iop :: q) (insert_sorted h iop q)
    /\ exists l1 l2,
        q = l1 ++ l2
        /\ insert_sorted h iop q = l1 ++ iop :: l2
        /\ Forall (fun p => offset_ (deref h p) < offset_ (deref h iop)) l1
        /\ Forall (fun p => offset_ (deref h iop) <= offset_ (deref h p)) l2.
Proof.
  intros h iop q Hs.
  destruct (insert_sorted_split h iop q) as (l1 & l2 & Eq & Er & Hall & Hhd).
  assert (Hl2 : Forall (fun p => offset_ (deref h iop) <= offset_ (deref h p)) l2).
  { subst q. unfold offsets_sorted in Hs.
    assert (Hs2 : StronglySorted
                    (fun p0 p1 => offset_ (deref h p0) <= offset_ (deref h p1)) l2).
    { clear -Hs. induction l1 as [|x l1 IH]; [exact Hs|].
      apply IH. change ((x :: l1) ++ l2) with (x :: (l1 ++ l2)) in Hs.
      inversion Hs as [|? ? Hs' _]. exact Hs'. }
    destruct l2 as [|p l2]; [constructor|].
    inversion Hs2 as [|? ? Hs2' Hfa]; subst. constructor; [exact Hhd|].
    rewrite List.Forall_forall in *. intros x Hx. specialize (Hfa x Hx). lia. }
  split; [|split].
  - rewrite Er. subst q. unfold offsets_sorted in *.
    clear Hhd Er. induction l1 as [|x l1 IH].
    + cbn. constructor; [exact Hs|exact Hl2].
    + cbn in *. inversion Hs as [|? ? Hs' Hfa]; subst.
      inversion Hall as [|? ? Hx Hall']; subst.
      constructor; [apply IH; assumption|].
      apply Forall_app in Hfa as [Hf1 Hf2].
      apply Forall_app. split; [exact Hf1|].
      constructor; [lia|exact Hf2].
  - rewrite Er. subst q. apply Permutation_middle.
  - exists l1, l2. auto.
Qed.

Lemma insert_sorted_keeps_order_witness :
  let h := [newIo 0 512 (mkAlignedArray 0 []) 0; newIo 1024 512 (mkAlignedArray 0 []) 1;
            newIo 512 512 (mkAlignedArray 0 []) 2] in
  offsets_sorted h (insert_sorted h 2%nat [0%nat; 1%nat])
  /\ insert_sorted h 2%nat [0%nat; 1%nat] = [0%nat; 2%nat; 1%nat].
Proof.
  intros h. split; [|reflexivity].
  destruct (insert_sorted_keeps_order h 2%nat [0%nat; 1%nat]) as (H & _).
  - repeat constructor; cbn; lia.
  - exact H.
Defined.


Lemma apply_write_length dev io :
  io_filled (Z.of_nat (length dev)) io ->
  length (apply_write dev (write_of io)) = length dev.
Proof.
  intros (H1 & H2 & H3 & H4). unfold apply_write, write_of, io_bytes.
  cbn [w_offset w_size w_bytes].
  rewrite !length_app, !length_take, length_drop. lia.
Qed.

Lemma write_all_length q :
  forall dev,
    Forall (io_filled (Z.of_nat (length dev))) q ->
    length (write_all dev q) = length dev.
Proof.
  induction q as [|io q IH]; intros dev Hq; [reflexivity|].
  inversion Hq as [|? ? Hio Hq']; subst. cbn [write_all fold_left].
  fold (write_all (apply_write dev (write_of io)) q).
  rewrite IH; rewrite apply_write_length by exact Hio; [reflexivity|exact Hq'].
Qed.

Lemma write_all_app dev q1 q2 :
  write_all dev (q1 ++ q2) = write_all (write_all dev q1) q2.
Proof. unfold write_all. apply fold_left_app. Qed.

(** A merged IO writes what the two IOs write one after the other. *)
Lemma merged_write dev back iop back' iop' :
  io_filled (Z.of_nat (length dev)) back ->
  io_filled (Z.of_nat (length dev)) iop ->
  Z.of_nat (length dev) < 2 ^ 63 ->
  IoQueue_tryMerge back iop = (true, back', iop') ->
  apply_write dev (write_of back')
  = apply_write (apply_write dev (write_of back)) (write_of iop)
  /\ io_filled (Z.of_nat (length dev)) back'
  /\ blocks_ back' = blocks_ back ++ blocks_ iop
  /\ size_ back' = size_ back + size_ iop
  /\ size_ back' <= maxIoSize_.
Proof.
  intros (B1 & B2 & B3 & B4) (I1 & I2 & I3 & I4) Hdev Hm.
  apply IoQueue_tryMerge_true in Hm as [Hmax Hm].
  apply tryMerge_true in Hm as (Hc & -> & _).
  unfold canMerge in Hc.
  destruct (blocks_ back) as [|b0 bs0] eqn:Eb0; [discriminate|].
  destruct (blocks_ iop) as [|b1 bs1] eqn:Eb1; [discriminate|].
  rewrite s64_small in Hc by lia.
  destruct (Z.eqb_spec (offset_ back + size_ back) (offset_ iop)) as [Eadj|]; [|discriminate].
  cbn [negb] in Hc.
  rewrite u64_small in Hmax by lia.
  assert (Esz : size_ (set_blocks_ ((b0 :: bs0) ++ b1 :: bs1)
                         (set_size_ (u64 (size_ back + size_ iop)) back))
                = size_ back + size_ iop).
  { assert (Hu : u64 (size_ back + size_ iop) = size_ back + size_ iop)
      by (apply u64_small; lia).
    destruct back; exact Hu. }
  assert (Eoff : offset_ (set_blocks_ ((b0 :: bs0) ++ b1 :: bs1)
                            (set_size_ (u64 (size_ back + size_ iop)) back))
                 = offset_ back) by (destruct back; reflexivity).
  assert (Ebl : blocks_ (set_blocks_ ((b0 :: bs0) ++ b1 :: bs1)
                           (set_size_ (u64 (size_ back + size_ iop)) back))
                = (b0 :: bs0) ++ b1 :: bs1) by (destruct back; reflexivity).
  set (B0 := concat (map aa_bytes (b0 :: bs0))) in *.
  set (B1' := concat (map aa_bytes (b1 :: bs1))) in *.
  split; [|split; [|split; [|split]]].
  - unfold apply_write, write_of, io_bytes. cbn [w_offset w_size w_bytes].
    rewrite Esz, Eoff, Ebl, Eb0, Eb1. rewrite map_app, concat_app. fold B0 B1'.
    rewrite <- Eadj.
    set (o := Z.to_nat (offset_ back)). set (s0 := Z.to_nat (size_ back)).
    set (s1 := Z.to_nat (size_ iop)).
    assert (L0 : length B0 = s0) by (unfold s0; lia).
    assert (L1 : length B1' = s1) by (unfold s1; lia).
    replace (Z.to_nat (size_ back + size_ iop)) with (s0 + s1)%nat by (unfold s0, s1; lia).
    replace (Z.to_nat (offset_ back + size_ back)) with (o + s0)%nat by (unfold o, s0; lia).
    replace (Z.to_nat (offset_ back + (size_ back + size_ iop))) with (o + s0 + s1)%nat
      by (unfold o, s0, s1; lia).
    replace (Z.to_nat (offset_ back + size_ back + size_ iop)) with (o + s0 + s1)%nat
      by (unfold o, s0, s1; lia).
    assert (Lo : length (take o dev) = o) by (rewrite length_take; unfold o; lia).
    rewrite !(take_ge (B0 ++ B1') (s0 + s1)) by (rewrite length_app; lia).
    rewrite !(take_ge B0 s0) by lia. rewrite !(take_ge B1' s1) by lia.
    rewrite (app_assoc (take o dev) B0).
    rewrite (take_app_length' (take o dev ++ B0)) by (rewrite length_app; lia).
    rewrite drop_app_ge by (rewrite length_app; lia).
    rewrite length_app, Lo, L0.
    replace (o + s0 + s1 - (o + s0))%nat with s1 by lia.
    rewrite drop_drop. rewrite <- !app_assoc. reflexivity.
  - unfold io_filled. rewrite Esz, Eoff, Ebl. rewrite map_app, concat_app, length_app.
    fold B0 B1'. lia.
  - exact Ebl.
  - exact Esz.
  - rewrite Esz. exact Hmax.
Qed.

(** IoQueue::add keeps what the queue writes: the queue after the add of
    an IO writes the device image that the queue followed by the IO writes,
    whether the IO was appended or merged into the last IO; the blocks stay
    in their order, and a merged IO has at most 1 MiB. *)
Theorem IoQueue_add_same_writes :
  forall dev ioQ iop,
    Z.of_nat (length dev) < 2 ^ 63 ->
    Forall (io_filled (Z.of_nat (length dev))) ioQ ->
    io_filled (Z.of_nat (length dev)) iop ->
    write_all dev (IoQueue_add ioQ iop) = write_all dev (ioQ ++ [iop])
    /\ Forall (io_filled (Z.of_nat (length dev))) (IoQueue_add ioQ iop)
    /\ concat (map blocks_ (IoQueue_add ioQ iop))
       = concat (map blocks_ ioQ) ++ blocks_ iop
    /\ fold_right Z.add 0 (map size_ (IoQueue_add ioQ iop))
       = fold_right Z.add 0 (map size_ ioQ) + size_ iop
    /\ (Forall (fun io => size_ io <= maxIoSize_) ioQ -> size_ iop <= maxIoSize_ ->
        Forall (fun io => size_ io <= maxIoSize_) (IoQueue_add ioQ iop)).
Proof.
  intros dev ioQ iop Hdev Hq Hio.
  destruct (IoQueue_add_cases ioQ iop)
    as [E|(front & back & back' & iop' & -> & Hm & E)]; rewrite E.
  - split; [reflexivity|]. split; [apply Forall_app; split; [exact Hq|constructor; [exact Hio|constructor]]|].
    split; [rewrite map_app, concat_app; cbn; rewrite app_nil_r; reflexivity|].
    split.
    + rewrite map_app. clear. induction (map size_ ioQ) as [|x l IH]; cbn in *; lia.
    + intros H1 H2. apply Forall_app. split; [exact H1|constructor; [exact H2|constructor]].
  - apply Forall_app in Hq as [Hf Hb]. inversion Hb as [|? ? Hback _]; subst.
    assert (Hlen : length (write_all dev front) = length dev)
      by (apply write_all_length; exact Hf).
    pose proof (merged_write (write_all dev front) back iop back' iop') as M.
    rewrite Hlen in M.
    destruct (M Hback Hio Hdev Hm) as (Hw & Hfill & Hbl & Hsz & Hmax). clear M.
    split; [|split; [|split; [|split]]].
    + rewrite <- app_assoc. rewrite !write_all_app. cbn [write_all fold_left app].
      exact Hw.
    + apply Forall_app. split; [exact Hf|constructor; [exact Hfill|constructor]].
    + rewrite !map_app, !concat_app. cbn [map concat]. rewrite Hbl, !app_nil_r.
      rewrite <- app_assoc. reflexivity.
    + rewrite !map_app. cbn [map]. rewrite Hsz. clear.
      induction (map size_ front) as [|x l IH]; cbn in *; lia.
    + intros H1 H2. apply Forall_app in H1 as [H1 _].
      apply Forall_app. split; [exact H1|constructor; [exact Hmax|constructor]].
Qed.

Lemma IoQueue_add_same_writes_witness :
  length (IoQueue_add
            [newIo 0 512 (mkAlignedArray 4096 (repeat Byte.x01 512)) 0]
            (newIo 512 512 (mkAlignedArray 4608 (repeat Byte.x02 512)) 1)) = 1%nat
  /\ write_all (repeat Byte.x00 2048)
       (IoQueue_add
          [newIo 0 512 (mkAlignedArray 4096 (repeat Byte.x01 512)) 0]
          (newIo 512 512 (mkAlignedArray 4608 (repeat Byte.x02 512)) 1))
     = write_all (repeat Byte.x00 2048)
         [newIo 0 512 (mkAlignedArray 4096 (repeat Byte.x01 512)) 0;
          newIo 512 512 (mkAlignedArray 4608 (repeat Byte.x02 512)) 1].
Proof.
  split; [reflexivity|].
  destruct (IoQueue_add_same_writes (repeat Byte.x00 2048)
              [newIo 0 512 (mkAlignedArray 4096 (repeat Byte.x01 512)) 0]
              (newIo 512 512 (mkAlignedArray 4608 (repeat Byte.x02 512)) 1))
    as (H & _).
  - vm_compute. reflexivity.
  - constructor; [|constructor].
    repeat split; vm_compute; first [reflexivity | intro; discriminate].
  - repeat split; vm_compute; first [reflexivity | intro; discriminate].
  - exact H.
Defined.

End QueueFacts.

Section CountFacts.

Import Redo RedoOverlap.

Lemma isOverlapped_comm a b : isOverlapped a b = isOverlapped b a.
Proof. unfold isOverlapped. apply andb_comm. Qed.

Lemma ov_with_geom h h' iop e :
  (forall q, same_geom (deref h q) (deref h' q)) ->
  ov_with h' iop e = ov_with h iop e.
Proof. intros Hg. unfold ov_with. apply isOverlapped_geom; apply Hg. Qed.

Lemma earlier_geom h h' s p :
  (forall q, same_geom (deref h q) (deref h' q)) ->
  earlier h' s p = earlier h s p.
Proof.
  intros Hg. unfold earlier. apply filter_ext. intros e.
  rewrite (ov_with_geom h h') by exact Hg. reflexivity.
Qed.

Lemma filter_length_perm {A} (f : A -> bool) l l' :
  Permutation l l' -> length (List.filter f l) = length (List.filter f l').
Proof.
  induction 1 as [|x l l' _ IH|x y l|l l' l'' _ IH1 _ IH2]; cbn.
  - reflexivity.
  - destruct (f x); cbn; lia.
  - destruct (f x), (f y); reflexivity.
  - lia.
Qed.

Lemma nOverlapped_overwritten io : nOverlapped_ (overwritten io) = nOverlapped_ io.
Proof.
  unfold overwritten. destruct io as [? ? ? sub ? ow ? ? ?]; cbn.
  destruct ow, sub; reflexivity.
Qed.

(** The loop of ins touches the counter of the new IO only. *)
Lemma ins_scan_other iop key1 q :
  q <> iop ->
  forall it h,
    nOverlapped_ (deref (ins_scan iop key1 it h) q) = nOverlapped_ (deref h q).
Proof.
  intros Hq. induction it as [|[k p] it IH]; intros h; [reflexivity|].
  cbn [ins_scan]. destruct (k <? key1); [|reflexivity].
  rewrite IH.
  destruct (isOverlapped _ _); [|reflexivity].
  set (h2 := upd h iop _).
  assert (E2 : deref h2 q = deref h q)
    by (unfold h2; apply deref_upd_ne; congruence).
  destruct (isOverwrittenBy _ _); [|rewrite E2; reflexivity].
  rewrite <- E2.
  symmetry.
  apply (deref_upd_rel (fun a b => nOverlapped_ a = nOverlapped_ b) h2 p overwritten q).
  - reflexivity.
  - symmetry. apply nOverlapped_overwritten.
Qed.

Lemma ins_other h ol iop q :
  q <> iop ->
  nOverlapped_ (deref (fst (ins h ol iop)) q) = nOverlapped_ (deref h q).
Proof.
  intros Hq. unfold ins. cbn [fst]. rewrite ins_scan_other by exact Hq.
  rewrite deref_upd_ne by congruence. reflexivity.
Qed.

(** An element that overlaps an IO lies in the window that ins and del
    scan for it. *)
Lemma overlap_in_window h s maxSize iop e :
  (forall k p, In (k, p) s ->
               offset_ (deref h p) = k /\ 0 <= k /\ 0 < size_ (deref h p) <= maxSize) ->
  In e s ->
  ov_with h iop e = true ->
  (if maxSize <? offset_ (deref h iop) then offset_ (deref h iop) - maxSize else 0)
  <= fst e < offset_ (deref h iop) + size_ (deref h iop).
Proof.
  intros Helem Hin Hov. destruct e as [k p]. cbn [fst snd] in *.
  destruct (Helem k p Hin) as (Hk & Hk0 & Hsz).
  unfold ov_with, isOverlapped in Hov. cbn [snd] in Hov.
  apply andb_true_iff in Hov as [H1 H2].
  apply Z.ltb_lt in H1, H2. rewrite Hk in *.
  destruct (Z.ltb_spec maxSize (offset_ (deref h iop))); lia.
Qed.

Lemma window_filter h s maxSize iop :
  keys_sorted s ->
  (forall k p, In (k, p) s ->
               offset_ (deref h p) = k /\ 0 <= k /\ 0 < size_ (deref h p) <= maxSize) ->
  List.filter (ov_with h iop)
    (scan_window (offset_ (deref h iop) + size_ (deref h iop))
       (lower_bound
          (if maxSize <? offset_ (deref h iop)
           then offset_ (deref h iop) - maxSize else 0) s))
  = List.filter (ov_with h iop) s.
Proof.
  intros Hsorted Helem.
  destruct (lower_bound_filter (ov_with h iop)
              (if maxSize <? offset_ (deref h iop)
               then offset_ (deref h iop) - maxSize else 0) s) as [Hf Hsub].
  { intros e He Hov. apply (overlap_in_window h s maxSize iop e Helem He Hov). }
  rewrite scan_window_filter.
  - exact Hf.
  - apply lower_bound_sorted. exact Hsorted.
  - intros e He Hov.
    apply (overlap_in_window h s maxSize iop e Helem (Hsub e He) Hov).
Qed.

Lemma lower_bound_length key0 s : (length (lower_bound key0 s) <= length s)%nat.
Proof.
  induction s as [|e s IH]; [simpl; lia|].
  cbn [lower_bound]. destruct (fst e <? key0); simpl in *; lia.
Qed.

Lemma lower_bound_sub key0 s e : In e (lower_bound key0 s) -> In e s.
Proof.
  destruct (lower_bound_filter (fun _ => false) key0 s) as [_ Hsub]; [discriminate|].
  apply Hsub.
Qed.

Lemma scan_window_sub key1 s e : In e (scan_window key1 s) -> In e s.
Proof.
  induction s as [|x s IH]; [intros []|].
  cbn [scan_window]. destruct (fst x <? key1); [|intros []].
  intros [->|H]; [left; reflexivity|right; apply IH; exact H].
Qed.

(** The counter that ins gives the new IO. *)
Lemma ins_count h ol iop :
  ol_inv h ol ->
  (iop < length h)%nat ->
  ~ In iop (map snd (set_ ol)) ->
  offset_ (deref h iop) + size_ (deref h iop) < 2 ^ 63 ->
  0 <= offset_ (deref h iop) + size_ (deref h iop) ->
  nOverlapped_ (deref (fst (ins h ol iop)) iop)
  = Z.of_nat (length (List.filter (ov_with h iop) (set_ ol))).
Proof.
  intros [Hsorted Helem Hcount] Hiop Hnotin Hend Hend0.
  unfold ins. cbn [fst]. rewrite s64_small by lia.
  set (h1 := upd h iop (set_nOverlapped_ 0)).
  rewrite (ins_scan_count iop _ h).
  - unfold h1. rewrite deref_upd_eq by exact Hiop.
    change (nOverlapped_ (set_nOverlapped_ 0 (deref h iop))) with 0.
    rewrite Z.add_0_l. do 2 f_equal.
    apply (window_filter h (set_ ol) (maxSize_ ol) iop Hsorted).
    intros k p Hin. destruct (Helem k p Hin) as (_ & H1 & H2 & H3). auto.
  - exact Hiop.
  - unfold h1. apply length_upd.
  - apply same_geom_upd. intros x. split; reflexivity.
  - apply List.Forall_forall. intros [k p] Hin. cbn [snd]. intros ->.
    apply Hnotin. apply in_map_iff. exists (k, iop). split; [reflexivity|].
    eapply lower_bound_sub. exact Hin.
  - unfold h1. rewrite deref_upd_eq by exact Hiop. simpl. lia.
  - unfold h1. rewrite deref_upd_eq by exact Hiop. simpl.
    match goal with |- context [lower_bound ?k ?s] =>
      pose proof (lower_bound_length k s) end.
    lia.
Qed.

Lemma set_emplace_perm k s :
  (forall e, In e s -> snd e <> snd k) ->
  Permutation (k :: s) (set_emplace k s).
Proof.
  induction s as [|x s IH]; intros Hne; [reflexivity|].
  cbn [set_emplace]. destruct (pair_lt k x) eqn:E1; [reflexivity|].
  destruct (pair_lt x k) eqn:E2.
  - etransitivity; [apply perm_swap|]. apply perm_skip. apply IH.
    intros e He. apply Hne. right. exact He.
  - exfalso. apply (Hne x (or_introl eq_refl)).
    unfold pair_lt in E1, E2.
    apply orb_false_iff in E1 as [A1 B1]. apply orb_false_iff in E2 as [A2 B2].
    apply Z.ltb_ge in A1, A2.
    assert (Ef : fst k = fst x) by lia.
    rewrite Ef, Z.eqb_refl in B1. rewrite Ef, Z.eqb_refl in B2.
    cbn [andb] in B1, B2. apply Nat.ltb_ge in B1, B2. lia.
Qed.

(** ins keeps the counters right: the new IO counts the IOs of the set
    that overlap it, and no other counter changes. *)
Lemma ins_counted h ol iop :
  ol_inv h ol ->
  counted h ol ->
  (iop < length h)%nat ->
  Forall (fun e => (snd e < iop)%nat) (set_ ol) ->
  0 <= offset_ (deref h iop) ->
  0 < size_ (deref h iop) ->
  offset_ (deref h iop) + size_ (deref h iop) < 2 ^ 63 ->
  Permutation ((offset_ (deref h iop), iop) :: set_ ol) (set_ (snd (ins h ol iop)))
  /\ counted (fst (ins h ol iop)) (snd (ins h ol iop))
  /\ nOverlapped_ (deref (fst (ins h ol iop)) iop)
     = Z.of_nat (length (List.filter (ov_with h iop) (set_ ol))).
Proof.
  intros Hinv [Hnd Hct] Hiop Hnew Hoff Hsize Hend.
  rewrite List.Forall_forall in Hnew.
  assert (Hnotin : ~ In iop (map snd (set_ ol))).
  { intros Hin. apply in_map_iff in Hin as (e & He & Hin).
    specialize (Hnew e Hin). lia. }
  assert (Hperm : Permutation ((offset_ (deref h iop), iop) :: set_ ol)
                              (set_ (snd (ins h ol iop)))).
  { unfold ins. cbn [snd set_]. apply set_emplace_perm.
    intros e He. cbn [snd]. specialize (Hnew e He). lia. }
  assert (Hcnt := ins_count h ol iop Hinv Hiop Hnotin Hend ltac:(lia)).
  pose proof (fun q => ins_rel same_geom h ol iop q same_geom_ok) as Hg.
  split; [exact Hperm|]. split; [|exact Hcnt].
  constructor.
  - eapply Permutation_NoDup; [apply Permutation_map; exact Hperm|].
    cbn [map snd]. constructor; assumption.
  - intros k p Hin.
    rewrite (earlier_geom h) by exact Hg.
    unfold earlier. rewrite <- (filter_length_perm _ _ _ Hperm).
    apply (Permutation_in _ (Permutation_sym Hperm)) in Hin.
    cbn [List.filter snd].
    destruct Hin as [[= <- <-]|Hin].
    + rewrite Nat.ltb_irrefl. cbn [andb]. rewrite Hcnt. do 2 f_equal.
      apply filter_ext_in. intros e He.
      specialize (Hnew e He). apply Nat.ltb_lt in Hnew. rewrite Hnew. reflexivity.
    + pose proof (Hnew _ Hin) as Hlt. cbn [snd] in Hlt.
      assert (E : (iop <? p)%nat = false) by (apply Nat.ltb_ge; lia).
      rewrite E. cbn [andb].
      rewrite ins_other by lia. apply (Hct k p Hin).
Qed.

(** std::set::erase of the pair of an IO that is in the set once. *)
Lemma set_erase_filter k iop s :
  List.NoDup (map snd s) ->
  In (k, iop) s ->
  set_erase (k, iop) s = List.filter (fun e => negb (snd e =? iop)%nat) s.
Proof.
  induction s as [|e s IH]; intros Hnd Hin; [contradiction|].
  cbn [map] in Hnd. inversion Hnd as [|? ? Hnot Hnd']; subst.
  cbn [set_erase List.filter fst snd].
  destruct Hin as [->|Hin].
  - cbn [fst snd]. rewrite Z.eqb_refl, Nat.eqb_refl. cbn [andb negb].
    symmetry. clear IH Hnd Hnd'.
    induction s as [|x s IHs]; [reflexivity|].
    cbn [List.filter]. cbn [map] in Hnot.
    destruct (Nat.eqb_spec (snd x) iop) as [E|E].
    + exfalso. apply Hnot. left. exact E.
    + cbn [negb]. f_equal. apply IHs. intros H. apply Hnot. right. exact H.
  - destruct (Nat.eqb_spec (snd e) iop) as [E|E].
    + exfalso. apply Hnot. rewrite E. apply in_map_iff. exists (k, iop). auto.
    + rewrite andb_false_r. cbn [negb]. f_equal. apply IH; assumption.
Qed.

Lemma keys_sorted_filter f s : keys_sorted s -> keys_sorted (List.filter f s).
Proof.
  induction s as [|e s IH]; intros Hs; [exact Hs|].
  pose proof (keys_sorted_tail _ _ Hs) as Ht.
  cbn [List.filter]. destruct (f e); [|apply IH; exact Ht].
  constructor; [apply IH; exact Ht|].
  apply List.Forall_forall. intros x Hx. apply filter_In in Hx as [Hx _].
  apply (keys_sorted_head e s x Hs Hx).
Qed.

Lemma NoDup_map_filter (f : Z * IoPtr -> bool) s :
  List.NoDup (map snd s) -> List.NoDup (map snd (List.filter f s)).
Proof.
  induction s as [|e s IH]; intros Hnd; [exact Hnd|].
  cbn [map] in Hnd. inversion Hnd as [|? ? Hnot Hnd']; subst.
  cbn [List.filter]. destruct (f e); [|apply IH; exact Hnd'].
  cbn [map]. constructor; [|apply IH; exact Hnd'].
  intros Hin. apply Hnot. apply in_map_iff in Hin as (x & Hx & Hin).
  apply filter_In in Hin as [Hin _]. apply in_map_iff. exists x. auto.
Qed.

Lemma filter_length_split (f : Z * IoPtr -> bool) k iop s :
  List.NoDup (map snd s) ->
  In (k, iop) s ->
  length (List.filter f s)
  = (length (List.filter f (List.filter (fun e => negb (snd e =? iop)%nat) s))
     + (if f (k, iop) then 1 else 0))%nat.
Proof.
  induction s as [|e s IH]; intros Hnd Hin; [contradiction|].
  cbn [map] in Hnd. inversion Hnd as [|? ? Hnot Hnd']; subst.
  cbn [List.filter].
  destruct Hin as [->|Hin].
  - cbn [snd]. rewrite Nat.eqb_refl. cbn [negb].
    assert (E : List.filter (fun e => negb (snd e =? iop)%nat) s = s).
    { clear IH Hnd Hnd'. induction s as [|x s IHs]; [reflexivity|].
      cbn [List.filter]. cbn [map snd] in Hnot.
      destruct (Nat.eqb_spec (snd x) iop) as [E|E].
      - exfalso. apply Hnot. left. exact E.
      - cbn [negb]. f_equal. apply IHs. intros H. apply Hnot. right. exact H. }
    rewrite E. destruct (f (k, iop)); cbn [length]; lia.
  - destruct (Nat.eqb_spec (snd e) iop) as [E|E].
    + exfalso. apply Hnot. rewrite E. apply in_map_iff. exists (k, iop). auto.
    + cbn [negb List.filter]. specialize (IH Hnd' Hin).
      destruct (f e); cbn [length]; lia.
Qed.

(** The loop of del: the counters of the overlapping elements of the window
    go down by one, and those that reach 0 are pushed in the order of the
    set. *)
Lemma del_scan_spec iop key1 h0 :
  forall it h ioQ,
    (forall q, same_geom (deref h0 q) (deref h q)) ->
    List.NoDup (map snd it) ->
    Forall (fun e => (snd e < length h)%nat) it ->
    del_scan iop key1 it h ioQ
    = (fold_left (fun h e => upd h (snd e) dec)
                 (List.filter (ov_with h0 iop) (scan_window key1 it)) h,
       ioQ ++ map snd
         (List.filter (fun e => u32 (nOverlapped_ (deref h (snd e)) - 1) =? 0)
            (List.filter (ov_with h0 iop) (scan_window key1 it)))).
Proof.
  induction it as [|[k p] it IH]; intros h ioQ Hg Hnd Hlen.
  - cbn. rewrite app_nil_r. reflexivity.
  - cbn [map snd] in Hnd. inversion Hnd as [|? ? Hnot Hnd']; subst.
    inversion Hlen as [|? ? Hp Hlen']; subst. cbn [snd] in Hp.
    cbn [del_scan scan_window fst].
    destruct (k <? key1); [|cbn; rewrite app_nil_r; reflexivity].
    cbn [List.filter].
    assert (Eov : ov_with h0 iop (k, p) = isOverlapped (deref h p) (deref h iop)).
    { unfold ov_with. cbn [snd]. symmetry. apply isOverlapped_geom; apply Hg. }
    rewrite Eov.
    destruct (isOverlapped (deref h p) (deref h iop)).
    + fold dec. cbn [List.filter fold_left snd map].
      assert (Hg1 : forall q, same_geom (deref h0 q) (deref (upd h p dec) q)).
      { intros q. eapply (r_trans _ same_geom_ok); [apply Hg|].
        apply same_geom_upd. intros io. split; reflexivity. }
      assert (Hlen1 : Forall (fun e => (snd e < length (upd h p dec))%nat) it)
        by (rewrite length_upd; exact Hlen').
      assert (Hrest :
                List.filter (fun e => u32 (nOverlapped_ (deref (upd h p dec) (snd e)) - 1) =? 0)
                  (List.filter (ov_with h0 iop) (scan_window key1 it))
                = List.filter (fun e => u32 (nOverlapped_ (deref h (snd e)) - 1) =? 0)
                    (List.filter (ov_with h0 iop) (scan_window key1 it))).
      { apply filter_ext_in. intros e He.
        apply filter_In in He as [He _]. apply scan_window_sub in He.
        rewrite deref_upd_ne; [reflexivity|].
        intros ->. apply Hnot. apply in_map_iff. exists e. auto. }
      rewrite deref_upd_eq by exact Hp.
      change (nOverlapped_ (dec (deref h p))) with (u32 (nOverlapped_ (deref h p) - 1)).
      destruct (u32 (nOverlapped_ (deref h p) - 1) =? 0).
      * rewrite (IH _ _ Hg1 Hnd' Hlen1). rewrite Hrest.
        cbn [map snd fold_left]. rewrite <- app_assoc. reflexivity.
      * rewrite (IH _ _ Hg1 Hnd' Hlen1). rewrite Hrest. reflexivity.
    + apply IH; assumption.
Qed.

Lemma fold_dec_out (l : list (Z * IoPtr)) :
  forall h q,
    ~ In q (map snd l) ->
    deref (fold_left (fun h e => upd h (snd e) dec) l h) q = deref h q.
Proof.
  induction l as [|e l IH]; intros h q Hq; [reflexivity|].
  cbn [fold_left]. rewrite IH.
  - apply deref_upd_ne. intros E. apply Hq. left. exact E.
  - intros H. apply Hq. right. exact H.
Qed.

Lemma fold_dec_in (l : list (Z * IoPtr)) :
  forall h q,
    List.NoDup (map snd l) ->
    In q (map snd l) ->
    (q < length h)%nat ->
    deref (fold_left (fun h e => upd h (snd e) dec) l h) q = dec (deref h q).
Proof.
  induction l as [|e l IH]; intros h q Hnd Hq Hlen; [contradiction|].
  cbn [map] in Hnd, Hq. inversion Hnd as [|? ? Hnot Hnd']; subst.
  cbn [fold_left]. destruct Hq as [<-|Hq].
  - rewrite fold_dec_out by exact Hnot. apply deref_upd_eq. exact Hlen.
  - rewrite IH; [|exact Hnd'|exact Hq|rewrite length_upd; exact Hlen].
    rewrite deref_upd_ne; [reflexivity|].
    intros E. apply Hnot. rewrite E. exact Hq.
Qed.

(** The parts of the result of del. *)
Lemma del_parts h ol iop ioQ :
  let s1 := set_erase (offset_ (deref h iop), iop) (set_ ol) in
  let maxSize1 := match s1 with [] => 0 | _ => maxSize_ ol end in
  let key0 := if maxSize1 <? offset_ (deref h iop)
              then offset_ (deref h iop) - maxSize1 else 0 in
  let key1 := s64 (offset_ (deref h iop) + size_ (deref h iop)) in
  del h ol iop ioQ
  = (fst (del_scan iop key1 (lower_bound key0 s1) h ioQ),
     mkOverlappedData s1 maxSize1,
     snd (del_scan iop key1 (lower_bound key0 s1) h ioQ)).
Proof.
  cbv zeta. unfold del.
  match goal with |- context [del_scan ?a ?b ?c ?d ?e] =>
    destruct (del_scan a b c d e) as [h1 q1] end.
  reflexivity.
Qed.

(** del of an IO that waits for no other IO. *)
Lemma del_spec h ol iop ioQ :
  ol_inv h ol ->
  counted h ol ->
  In (offset_ (deref h iop), iop) (set_ ol) ->
  nOverlapped_ (deref h iop) = 0 ->
  offset_ (deref h iop) + size_ (deref h iop) < 2 ^ 63 ->
  let h' := fst (fst (del h ol iop ioQ)) in
  let ol' := snd (fst (del h ol iop ioQ)) in
  let ioQ' := snd (del h ol iop ioQ) in
  set_ ol' = List.filter (fun e => negb (snd e =? iop)%nat) (set_ ol)
  /\ ol_inv h' ol'
  /\ counted h' ol'
  /\ ioQ' = ioQ ++ map snd
              (List.filter
                 (fun e => ov_with h iop e && (nOverlapped_ (deref h (snd e)) =? 1))
                 (set_ ol'))
  /\ (forall k p, In (k, p) (set_ ol') ->
                  deref h' p = if ov_with h iop (k, p) then dec (deref h p)
                               else deref h p)
  /\ (forall k p, In (k, p) (set_ ol') -> ov_with h iop (k, p) = true ->
                  (iop < p)%nat /\ 1 <= nOverlapped_ (deref h p) < 2 ^ 32).
Proof.
  intros [Hsorted Helem Hcount] [Hnd Hct] Hin Hzero Hend h' ol' ioQ'.
  destruct (Helem _ _ Hin) as (Hiop & _ & Hoff & Hsize).
  set (s1 := List.filter (fun e => negb (snd e =? iop)%nat) (set_ ol)).
  assert (Es1 : set_erase (offset_ (deref h iop), iop) (set_ ol) = s1)
    by (apply set_erase_filter; assumption).
  assert (Hs1 : forall e, In e s1 <-> In e (set_ ol) /\ snd e <> iop).
  { intros e. unfold s1. rewrite filter_In.
    destruct (Nat.eqb_spec (snd e) iop); cbn [negb]; intuition congruence. }
  pose proof (del_parts h ol iop ioQ) as Hparts. cbv zeta in Hparts.
  rewrite Es1 in Hparts. rewrite s64_small in Hparts by lia.
  set (maxSize1 := match s1 with [] => 0 | _ => maxSize_ ol end) in *.
  set (key0 := if maxSize1 <? offset_ (deref h iop)
               then offset_ (deref h iop) - maxSize1 else 0) in *.
  set (key1 := offset_ (deref h iop) + size_ (deref h iop)) in *.
  assert (Helem1 : forall k p, In (k, p) s1 ->
             offset_ (deref h p) = k /\ 0 <= k /\ 0 < size_ (deref h p) <= maxSize1).
  { intros k p Hp. pose proof Hp as Hp'. apply Hs1 in Hp as [Hp _].
    destruct (Helem k p Hp) as (_ & H1 & H2 & H3).
    unfold maxSize1. destruct s1; [contradiction|]. auto. }
  assert (Hsorted1 : keys_sorted s1) by (apply keys_sorted_filter; exact Hsorted).
  assert (Hnd1 : List.NoDup (map snd s1)) by (apply NoDup_map_filter; exact Hnd).
  set (W := List.filter (ov_with h iop) (scan_window key1 (lower_bound key0 s1))).
  assert (HW : W = List.filter (ov_with h iop) s1).
  { apply (window_filter h s1 maxSize1 iop Hsorted1 Helem1). }
  assert (Hscan : del_scan iop key1 (lower_bound key0 s1) h ioQ
                  = (fold_left (fun h e => upd h (snd e) dec) W h,
                     ioQ ++ map snd
                       (List.filter
                          (fun e => u32 (nOverlapped_ (deref h (snd e)) - 1) =? 0) W))).
  { apply (del_scan_spec iop key1 h).
    - intros q. apply (r_refl _ same_geom_ok).
    - clear -Hnd1. revert Hnd1. generalize s1. intros s.
      induction s as [|e s IH]; intros Hnd; [exact Hnd|].
      cbn [lower_bound]. destruct (fst e <? key0); [|exact Hnd].
      apply IH. cbn [map] in Hnd. inversion Hnd; assumption.
    - apply List.Forall_forall. intros [k p] He. cbn [snd].
      apply lower_bound_sub in He. apply Hs1 in He as [He _].
      destruct (Helem k p He) as (H1 & _). exact H1. }
  rewrite Hscan in Hparts. cbn [fst snd] in Hparts.
  assert (Eh' : h' = fold_left (fun h e => upd h (snd e) dec) W h)
    by (unfold h'; rewrite Hparts; reflexivity).
  assert (Eol' : ol' = mkOverlappedData s1 maxSize1)
    by (unfold ol'; rewrite Hparts; reflexivity).
  assert (Eq' : ioQ' = ioQ ++ map snd
                         (List.filter
                            (fun e => u32 (nOverlapped_ (deref h (snd e)) - 1) =? 0) W))
    by (unfold ioQ'; rewrite Hparts; reflexivity).
  clearbody h' ol' ioQ'. subst h' ol' ioQ'. cbn [set_ maxSize_].
  (* an element that overlaps the deleted IO was created after it and has
     counted it *)
  assert (Hlater : forall k p, In (k, p) s1 -> ov_with h iop (k, p) = true ->
                     (iop < p)%nat /\ 1 <= nOverlapped_ (deref h p) < 2 ^ 32
                     /\ length (earlier h (set_ ol) p)
                        = S (length (earlier h s1 p))).
  { intros k p Hp Hov. apply Hs1 in Hp as [Hp Hne]. cbn [snd] in Hne.
    assert (Hlt : (iop < p)%nat).
    { pose proof (Hct _ _ Hin) as Hc. rewrite Hzero in Hc.
      destruct (earlier h (set_ ol) iop) as [|x l] eqn:E; [|cbn in Hc; lia].
      destruct (Nat.ltb_spec p iop) as [Hlt|Hge]; [|lia].
      exfalso.
      assert (Hx : In (k, p) (earlier h (set_ ol) iop)).
      { unfold earlier. apply filter_In. split; [exact Hp|]. cbn [snd].
        apply andb_true_iff. split; [apply Nat.ltb_lt; exact Hlt|exact Hov]. }
      rewrite E in Hx. contradiction. }
    pose proof (filter_length_split
                  (fun e => (snd e <? p)%nat && ov_with h p e)
                  _ iop (set_ ol) Hnd Hin) as Hsplit.
    cbn [snd] in Hsplit.
    assert (Eind : (iop <? p)%nat && ov_with h p (offset_ (deref h iop), iop) = true).
    { apply andb_true_iff. split; [apply Nat.ltb_lt; exact Hlt|].
      unfold ov_with in *. cbn [snd] in *. rewrite isOverlapped_comm. exact Hov. }
    rewrite Eind in Hsplit. fold s1 in Hsplit.
    fold (earlier h (set_ ol) p) in Hsplit. fold (earlier h s1 p) in Hsplit.
    pose proof (Hct k p Hp) as Hc.
    assert (Hle : (length (earlier h (set_ ol) p) <= length (set_ ol))%nat)
      by (unfold earlier; apply filter_length_le).
    split; [exact Hlt|]. split; [lia|lia]. }
  assert (Hderef : forall k p, In (k, p) s1 ->
             deref (fold_left (fun h e => upd h (snd e) dec) W h) p
             = if ov_with h iop (k, p) then dec (deref h p) else deref h p).
  { intros k p Hp. pose proof Hp as Hp'. apply Hs1 in Hp' as [Hp' _].
    destruct (Helem k p Hp') as (Hplen & _).
    destruct (ov_with h iop (k, p)) eqn:Hov.
    - apply fold_dec_in; [rewrite HW; apply NoDup_map_filter; exact Hnd1| |exact Hplen].
      apply in_map_iff. exists (k, p). split; [reflexivity|].
      rewrite HW. apply filter_In. auto.
    - apply fold_dec_out. intros Hx. apply in_map_iff in Hx as ([k' p'] & E & Hx).
      cbn [snd] in E. subst p'. rewrite HW in Hx. apply filter_In in Hx as [Hx Hov'].
      assert (k' = k).
      { destruct (Helem1 _ _ Hx) as (A & _). destruct (Helem1 _ _ Hp) as (B & _).
        congruence. }
      subst k'. congruence. }
  assert (Hg : forall q, same_geom (deref h q)
                 (deref (fold_left (fun h e => upd h (snd e) dec) W h) q)).
  { intros q. pose proof (del_rel same_geom h ol iop ioQ q same_geom_ok) as H.
    rewrite Hparts in H. exact H. }
  assert (Hlen : length (fold_left (fun h e => upd h (snd e) dec) W h) = length h).
  { pose proof (del_length h ol iop ioQ) as H. rewrite Hparts in H. exact H. }
  split; [reflexivity|]. split; [|split; [|split; [|split]]].
  - constructor; cbn [set_ maxSize_].
    + exact Hsorted1.
    + intros k p Hp. rewrite Hlen.
      destruct (Hg p) as [Ho Hs]. rewrite <- Ho, <- Hs.
      pose proof Hp as Hp'. apply Hs1 in Hp' as [Hp' _].
      destruct (Helem k p Hp') as (H1 & _).
      destruct (Helem1 k p Hp) as (H2 & H3 & H4). auto.
    + assert (length s1 <= length (set_ ol))%nat
        by (unfold s1; apply filter_length_le).
      lia.
  - constructor; cbn [set_].
    + exact Hnd1.
    + intros k p Hp. rewrite (earlier_geom h) by exact Hg.
      rewrite (Hderef k p Hp).
      destruct (ov_with h iop (k, p)) eqn:Hov.
      * destruct (Hlater k p Hp Hov) as (_ & Hn & Hs).
        pose proof Hp as Hp'. apply Hs1 in Hp' as [Hp' _].
        pose proof (Hct k p Hp') as Hc.
        change (nOverlapped_ (dec (deref h p))) with (u32 (nOverlapped_ (deref h p) - 1)).
        rewrite u32_small by lia. lia.
      * pose proof Hp as Hp'. apply Hs1 in Hp' as [Hp' _].
        rewrite (Hct k p Hp').
        pose proof (filter_length_split
                      (fun e => (snd e <? p)%nat && ov_with h p e)
                      _ iop (set_ ol) Hnd Hin) as Hsplit.
        cbn [snd] in Hsplit.
        assert (Eind : (iop <? p)%nat && ov_with h p (offset_ (deref h iop), iop) = false).
        { apply andb_false_iff. right.
          unfold ov_with in *. cbn [snd] in *. rewrite isOverlapped_comm. exact Hov. }
        rewrite Eind in Hsplit. fold s1 in Hsplit.
        fold (earlier h (set_ ol) p) in Hsplit. fold (earlier h s1 p) in Hsplit.
        lia.
  - f_equal. f_equal. rewrite HW.
    clear -Hlater.
    assert (H : forall l, (forall e, In e l -> In e s1) ->
              List.filter (fun e => u32 (nOverlapped_ (deref h (snd e)) - 1) =? 0)
                (List.filter (ov_with h iop) l)
              = List.filter
                  (fun e => ov_with h iop e && (nOverlapped_ (deref h (snd e)) =? 1)) l).
    { induction l as [|[k p] l IH]; intros Hsub; [reflexivity|].
      cbn [List.filter].
      destruct (ov_with h iop (k, p)) eqn:Hov.
      - cbn [List.filter andb snd].
        destruct (Hlater k p (Hsub _ (or_introl eq_refl)) Hov) as (_ & Hn & _).
        rewrite u32_small by lia.
        replace (nOverlapped_ (deref h p) - 1 =? 0) with (nOverlapped_ (deref h p) =? 1)
          by (destruct (Z.eqb_spec (nOverlapped_ (deref h p)) 1);
              destruct (Z.eqb_spec (nOverlapped_ (deref h p) - 1) 0); lia).
        destruct (nOverlapped_ (deref h p) =? 1);
          [f_equal|]; apply IH; intros e He; apply Hsub; right; exact He.
      - cbn [andb]. apply IH. intros e He. apply Hsub. right. exact He. }
    apply H. auto.
  - exact Hderef.
  - intros k p Hp Hov. destruct (Hlater k p Hp Hov) as (H1 & H2 & _). auto.
Qed.


(** OverlappedData::ins keeps the counters of the overlap set right. For
    an IO created after all the IOs of the set, the set gains exactly the
    pair of that IO, [nOverlapped] of every IO of the new set is the number
    of the IOs of the set that were created before it and overlap it, the
    counter of no other IO changes, and the new IO has the counter 0 iff no
    IO of the set overlaps it. *)
Theorem ins_counts_earlier :
  forall h ol iop,
    ol_inv h ol ->
    counted h ol ->
    (iop < length h)%nat ->
    Forall (fun e => (snd e < iop)%nat) (set_ ol) ->
    0 <= offset_ (deref h iop) ->
    0 < size_ (deref h iop) ->
    offset_ (deref h iop) + size_ (deref h iop) < 2 ^ 63 ->
    Z.of_nat (length (set_ ol)) + 1 < 2 ^ 32 ->
    let h' := fst (ins h ol iop) in
    let ol' := snd (ins h ol iop) in
    ol_inv h' ol'
    /\ counted h' ol'
    /\ Permutation ((offset_ (deref h iop), iop) :: set_ ol) (set_ ol')
    /\ (nOverlapped_ (deref h' iop) = 0 <->
        forall k p, In (k, p) (set_ ol) ->
                    isOverlapped (deref h p) (deref h iop) = false)
    /\ (forall q, q <> iop -> nOverlapped_ (deref h' q) = nOverlapped_ (deref h q)).
Proof.
  intros h ol iop Hinv Hct Hiop Hnew Hoff Hsize Hend Hroom h' ol'.
  destruct (ins_counted h ol iop Hinv Hct Hiop Hnew Hoff Hsize Hend)
    as (Hperm & Hct' & Hcnt).
  split; [apply ins_keeps_ol_inv; assumption|].
  split; [exact Hct'|]. split; [exact Hperm|]. split.
  - unfold h'. rewrite Hcnt. split.
    + intros Hz k p Hin.
      destruct (isOverlapped (deref h p) (deref h iop)) eqn:E; [|reflexivity].
      exfalso.
      assert (Hx : In (k, p) (List.filter (ov_with h iop) (set_ ol)))
        by (apply filter_In; split; [exact Hin|exact E]).
      destruct (List.filter (ov_with h iop) (set_ ol)); [contradiction|].
      cbn [length] in Hz. lia.
    + intros Hno. rewrite filter_none; [reflexivity|].
      intros [k p] Hin. apply (Hno k p Hin).
  - intros q Hq. apply ins_other. exact Hq.
Qed.

Lemma counted_empty h : counted h (mkOverlappedData [] 0).
Proof. constructor; [constructor|intros k p []]. Qed.

Lemma three_ios_inv :
  let h := [newIo 0 1024 (mkAlignedArray 4096 []) 0;
            set_nOverlapped_ 1 (newIo 512 1024 (mkAlignedArray 8192 []) 1);
            newIo 1024 1024 (mkAlignedArray 12288 []) 2] in
  let ol := mkOverlappedData [(0, 0%nat); (512, 1%nat)] 1024 in
  ol_inv h ol /\ counted h ol.
Proof.
  intros h ol. split.
  - constructor.
    + repeat constructor; cbn; lia.
    + intros k p [[= <- <-]|[[= <- <-]|[]]]; vm_compute;
        repeat split; solve [reflexivity | intro; discriminate | lia].
    + vm_compute. reflexivity.
  - constructor.
    + cbn. repeat constructor; cbn; intuition lia.
    + intros k p [[= <- <-]|[[= <- <-]|[]]]; vm_compute; reflexivity.
Qed.

(** IO 2 of bytes 1024..2047 is inserted into the set of IO 0 (bytes
    0..1023) and IO 1 (bytes 512..1535, waiting for IO 0): it overlaps
    IO 1 only. *)
Lemma ins_counts_earlier_witness :
  let h := [newIo 0 1024 (mkAlignedArray 4096 []) 0;
            set_nOverlapped_ 1 (newIo 512 1024 (mkAlignedArray 8192 []) 1);
            newIo 1024 1024 (mkAlignedArray 12288 []) 2] in
  let ol := mkOverlappedData [(0, 0%nat); (512, 1%nat)] 1024 in
  let h' := fst (ins h ol 2%nat) in
  let ol' := snd (ins h ol 2%nat) in
  counted h' ol'
  /\ nOverlapped_ (deref h' 2%nat) = 1
  /\ nOverlapped_ (deref h' 2%nat) <> 0
  /\ nOverlapped_ (deref h' 1%nat) = nOverlapped_ (deref h 1%nat)
  /\ map snd (set_ ol') = [0%nat; 1%nat; 2%nat].
Proof.
  intros h ol h' ol'.
  destruct (ins_counts_earlier h ol 2%nat) as (_ & Hct & _ & Hz & Hother).
  - apply three_ios_inv.
  - apply three_ios_inv.
  - cbn. lia.
  - repeat constructor.
  - vm_compute. intro; discriminate.
  - vm_compute. reflexivity.
  - vm_compute. reflexivity.
  - vm_compute. reflexivity.
  - split; [exact Hct|]. split; [reflexivity|]. split.
    + intros H0. destruct Hz as [Hz _].
      specialize (Hz H0 512 1%nat ltac:(right; left; reflexivity)).
      vm_compute in Hz. discriminate.
    + split; [apply Hother; lia|reflexivity].
Defined.

(** OverlappedData::del of an IO that is in the set and waits for no other
    IO (the assertions of del). The set loses exactly the pair of the IO
    and the counters stay right; the counters of the IOs that overlap the
    deleted one, all created after it, go down by one and no other IO of
    the set changes; the IOs pushed to ioQ are, in the order of the set,
    those that overlap the deleted IO and whose counter was 1, which are
    exactly the overlapping IOs that have no earlier overlapping IO left in
    the set. *)
Theorem del_wakes :
  forall h ol iop ioQ,
    ol_inv h ol ->
    counted h ol ->
    In (offset_ (deref h iop), iop) (set_ ol) ->
    nOverlapped_ (deref h iop) = 0 ->
    offset_ (deref h iop) + size_ (deref h iop) < 2 ^ 63 ->
    let h' := fst (fst (del h ol iop ioQ)) in
    let ol' := snd (fst (del h ol iop ioQ)) in
    let ioQ' := snd (del h ol iop ioQ) in
    let woken :=
      map snd (List.filter
                 (fun e => ov_with h iop e && (nOverlapped_ (deref h (snd e)) =? 1))
                 (set_ ol')) in
    set_ ol' = List.filter (fun e => negb (snd e =? iop)%nat) (set_ ol)
    /\ ol_inv h' ol'
    /\ counted h' ol'
    /\ ioQ' = ioQ ++ woken
    /\ (forall p, In p woken <->
                  (exists k, In (k, p) (set_ ol') /\ ov_with h iop (k, p) = true)
                  /\ earlier h' (set_ ol') p = [])
    /\ (forall k p, In (k, p) (set_ ol') ->
                    deref h' p = if ov_with h iop (k, p) then dec (deref h p)
                                 else deref h p)
    /\ (forall k p, In (k, p) (set_ ol') -> ov_with h iop (k, p) = true ->
                    (iop < p)%nat /\ 1 <= nOverlapped_ (deref h p)).
Proof.
  intros h ol iop ioQ Hinv Hct Hin Hzero Hend h' ol' ioQ' woken.
  destruct (del_spec h ol iop ioQ Hinv Hct Hin Hzero Hend)
    as (Hset & Hinv' & Hct' & Hq & Hderef & Hlater).
  fold h' ol' ioQ' in Hset, Hinv', Hct', Hq, Hderef, Hlater.
  split; [exact Hset|]. split; [exact Hinv'|]. split; [exact Hct'|].
  split; [exact Hq|]. split; [|split; [exact Hderef|]].
  - intros p. unfold woken. rewrite in_map_iff. split.
    + intros ([k p'] & E & Hx). cbn [snd] in E. subst p'.
      apply filter_In in Hx as [Hx Hc]. cbn [snd] in Hc.
      apply andb_true_iff in Hc as [Hov Hone]. apply Z.eqb_eq in Hone.
      split; [exists k; auto|].
      pose proof (ct_count _ _ Hct' k p Hx) as Hn.
      rewrite (Hderef k p Hx), Hov in Hn.
      change (nOverlapped_ (dec (deref h p))) with (u32 (nOverlapped_ (deref h p) - 1)) in Hn.
      rewrite Hone in Hn. change (u32 (1 - 1)) with 0 in Hn.
      destruct (earlier h' (set_ ol') p); [reflexivity|cbn [length] in Hn; lia].
    + intros ((k & Hx & Hov) & He).
      exists (k, p). split; [reflexivity|].
      apply filter_In. split; [exact Hx|]. cbn [snd].
      apply andb_true_iff. split; [exact Hov|]. apply Z.eqb_eq.
      pose proof (ct_count _ _ Hct' k p Hx) as Hn.
      rewrite (Hderef k p Hx), Hov, He in Hn.
      change (nOverlapped_ (dec (deref h p))) with (u32 (nOverlapped_ (deref h p) - 1)) in Hn.
      destruct (Hlater k p Hx Hov) as (_ & Hb).
      rewrite u32_small in Hn by lia. cbn [length] in Hn. lia.
  - intros k p Hx Hov. destruct (Hlater k p Hx Hov) as (H1 & H2). split; [exact H1|lia].
Qed.

Lemma two_overlapping_inv :
  ol_inv [newIo 0 1024 (mkAlignedArray 4096 []) 0;
          set_nOverlapped_ 1 (newIo 512 1024 (mkAlignedArray 8192 []) 1)]
         (mkOverlappedData [(0, 0%nat); (512, 1%nat)] 1024)
  /\ counted [newIo 0 1024 (mkAlignedArray 4096 []) 0;
              set_nOverlapped_ 1 (newIo 512 1024 (mkAlignedArray 8192 []) 1)]
             (mkOverlappedData [(0, 0%nat); (512, 1%nat)] 1024).
Proof.
  split.
  - constructor.
    + repeat constructor; cbn; lia.
    + intros k p [[= <- <-]|[[= <- <-]|[]]]; vm_compute;
        repeat split; solve [reflexivity | intro; discriminate | lia].
    + vm_compute. reflexivity.
  - constructor.
    + cbn. repeat constructor; cbn; intuition lia.
    + intros k p [[= <- <-]|[[= <- <-]|[]]]; vm_compute; reflexivity.
Qed.

Lemma del_wakes_witness :
  snd (del [newIo 0 1024 (mkAlignedArray 4096 []) 0;
            set_nOverlapped_ 1 (newIo 512 1024 (mkAlignedArray 8192 []) 1)]
           (mkOverlappedData [(0, 0%nat); (512, 1%nat)] 1024) 0%nat [])
  = [1%nat].
Proof.
  destruct (del_wakes
              [newIo 0 1024 (mkAlignedArray 4096 []) 0;
               set_nOverlapped_ 1 (newIo 512 1024 (mkAlignedArray 8192 []) 1)]
              (mkOverlappedData [(0, 0%nat); (512, 1%nat)] 1024) 0%nat [])
    as (_ & _ & _ & Hq & _).
  - apply two_overlapping_inv.
  - apply two_overlapping_inv.
  - left. reflexivity.
  - reflexivity.
  - vm_compute. reflexivity.
  - rewrite Hq. reflexivity.
Defined.

End CountFacts.

Section ComposeFacts.

Import Converter ConvertedLog.

Variable WALB_DIFF_CMPR_MAX : Z.
Hypothesis cmpr_none_known : DiffBase.WALB_DIFF_CMPR_NONE < WALB_DIFF_CMPR_MAX.

Lemma concat_length_blocks pbs0 (l : list (list Byte.byte)) :
  Forall (fun b => Z.of_nat (length b) = pbs0) l ->
  Z.of_nat (length (concat l)) = Z.of_nat (length l) * pbs0.
Proof.
  induction 1 as [|b l Hb _ IH]; [reflexivity|].
  cbn [concat]. rewrite length_app. cbn [length]. lia.
Qed.

Lemma payload_length pbs0 rec blockS :
  0 <= LogBase.io_size rec ->
  blocks_ok pbs0 rec blockS ->
  Z.of_nat (length (payload rec blockS)) = LogBase.io_size rec * LOGICAL_BLOCK_SIZE.
Proof.
  intros Hsz [Hpbs Hpos Hall Hfit Hmem]. unfold payload.
  rewrite length_take. pose proof (concat_length_blocks pbs0 _ Hall) as Hl.
  unfold LogBase.nBlocks in Hfit. unfold LOGICAL_BLOCK_SIZE in *. lia.
Qed.

(** What convertLogToDiff makes of a record that is no padding, and what
    the receiver of diffs does with it. *)
Lemma converted_accepted pbs0 rec blockS mrec0 io0 :
  convertible pbs0 (rec, blockS) ->
  LogBase.isPadding rec = false ->
  exists mrec io,
    convertLogToDiff pbs0 rec blockS mrec0 io0 = Ok (true, mrec, io)
    /\ DiffBase.io_address mrec = LogBase.offset rec
    /\ DiffBase.io_blocks mrec = LogBase.io_size rec
    /\ DiffBase.isValid WALB_DIFF_CMPR_MAX mrec = true
    /\ Z.of_nat (length (DiffBase.data_ io)) = DiffBase.data_size mrec
    /\ WdiffRecv.recv_one WALB_DIFF_CMPR_MAX mrec (DiffBase.data_ io)
       = Ok (if DiffBase.isNormal mrec
             then WdiffRecv.CompressAndWriteDiff mrec (DiffBase.data_ io)
             else WdiffRecv.WriteDiff mrec []).
Proof.
  intros [Hsz Hok] Hpad. cbn [fst snd] in Hsz, Hok.
  unfold convertLogToDiff. rewrite Hpad.
  assert (Hu16 : u16 (LogBase.io_size rec) = LogBase.io_size rec).
  { unfold u16, wrap. apply Z.mod_small. lia. }
  rewrite Hu16.
  destruct (LogBase.isDiscard rec) eqn:Hdis.
  { eexists _, _. split; [reflexivity|]. repeat split. }
  destruct (Hok Hpad eq_refl) as [Hpbs Hpos Hall Hfit Hmem].
  pose proof (payload_length pbs0 rec blockS ltac:(lia) (Hok Hpad eq_refl)) as Hplen.
  assert (Hbytes : u64 (LogBase.ioSizeLb rec * LOGICAL_BLOCK_SIZE)
                   = LogBase.io_size rec * LOGICAL_BLOCK_SIZE).
  { unfold u64, wrap, LogBase.ioSizeLb, LOGICAL_BLOCK_SIZE. apply Z.mod_small. lia. }
  assert (Hbytes32 : u32 (LogBase.ioSizeLb rec * LOGICAL_BLOCK_SIZE)
                     = LogBase.io_size rec * LOGICAL_BLOCK_SIZE).
  { unfold u32, wrap, LogBase.ioSizeLb, LOGICAL_BLOCK_SIZE. apply Z.mod_small. lia. }
  unfold LogBase.calcIsAllZero, LogBase.checkPbs, LogBase.checkSizeLb.
  destruct (Z.eqb_spec (LogBase.lbs_pbs blockS) 0) as [E|_]; [lia|]. cbn [bind].
  rewrite Hbytes.
  assert (Hmem' : u64 (LogBase.nBlocks blockS * LogBase.lbs_pbs blockS)
                  = LogBase.nBlocks blockS * pbs0).
  { rewrite Hpbs. unfold u64, wrap. apply Z.mod_small. unfold LogBase.nBlocks in *. lia. }
  rewrite Hmem'.
  destruct (Z.ltb_spec (LogBase.nBlocks blockS * pbs0)
                       (LogBase.io_size rec * LOGICAL_BLOCK_SIZE)) as [E|_]; [lia|].
  cbn [bind].
  rewrite Hpbs.
  rewrite (calcIsAllZero_loop_spec pbs0 (LogBase.data_ blockS) Hpos Hall)
    by (unfold LogBase.nBlocks in Hfit; unfold LOGICAL_BLOCK_SIZE in *; lia).
  cbn [bind]. fold (payload rec blockS).
  destruct (forallb Util.is_zero_byte (payload rec blockS)) eqn:Hz.
  { eexists _, _. split; [reflexivity|]. repeat split. }
  rewrite Hbytes32.
  assert (Hnz : 0 < LogBase.io_size rec).
  { destruct (Z.eq_dec (LogBase.io_size rec) 0) as [E|E]; [|lia].
    unfold payload in Hz. rewrite E in Hz. simpl in Hz. discriminate. }
  assert (Hcap : LogBase.ioSizePb rec pbs0
                 = (LogBase.io_size rec * 512 + pbs0 - 1) / pbs0).
  { unfold LogBase.ioSizePb, capacity_pb, u32, wrap, LOGICAL_BLOCK_SIZE.
    apply Z.mod_small. split; [apply Z.div_pos; lia|].
    apply Z.div_lt_upper_bound; nia. }
  assert (Hcap1 : LogBase.io_size rec * 512 <= LogBase.ioSizePb rec pbs0 * pbs0).
  { rewrite Hcap.
    pose proof (Z.mul_div_le (LogBase.io_size rec * 512 + pbs0 - 1) pbs0 Hpos).
    pose proof (Z.mod_pos_bound (LogBase.io_size rec * 512 + pbs0 - 1) pbs0 Hpos).
    pose proof (Z.div_mod (LogBase.io_size rec * 512 + pbs0 - 1) pbs0). lia. }
  assert (Hcap2 : LogBase.ioSizePb rec pbs0 <= LogBase.nBlocks blockS).
  { rewrite Hcap. apply Z.lt_succ_r. apply Z.div_lt_upper_bound; [lia|].
    unfold LOGICAL_BLOCK_SIZE in Hfit. nia. }
  rewrite (copy_loop_spec blockS pbs0 Hpos ltac:(lia) Hall).
  - cbn [bind]. eexists _, _. split; [reflexivity|].
    rewrite take_0, drop_0. cbn [app]. fold (payload rec blockS).
    set (P := payload rec blockS) in *.
    set (n := LogBase.io_size rec) in *.
    assert (Hck : DiffBase.calcChecksum
                    (DiffBase.swap_data P
                       (DiffBase.set
                          (DiffBase.setIoBlocks n
                             (DiffBase.setIoAddress (LogBase.offset rec) DiffBase.init))
                          io0))
                  = Util.calcChecksum P 0).
    { unfold DiffBase.calcChecksum, DiffBase.empty. cbn.
      rewrite diff_set_normal_blocks.
      destruct (Z.eqb_spec n 0); [lia|]. reflexivity. }
    rewrite Hck.
    set (c := Util.calcChecksum P 0) in *.
    split; [reflexivity|]. split; [reflexivity|].
    assert (Hvalid : DiffBase.isValid WALB_DIFF_CMPR_MAX
                       (DiffBase.setChecksum c
                          (DiffBase.setDataSize (n * LOGICAL_BLOCK_SIZE)
                             (DiffBase.setDataOffset 0
                                (DiffBase.setCompressionType DiffBase.WALB_DIFF_CMPR_NONE
                                   (DiffBase.setIoBlocks n
                                      (DiffBase.setIoAddress (LogBase.offset rec)
                                         DiffBase.init)))))) = true).
    { match goal with |- ?lhs = true =>
        change lhs with (if WALB_DIFF_CMPR_MAX <=? 0 then false
                         else if n =? 0 then false else true) end.
      destruct (Z.leb_spec WALB_DIFF_CMPR_MAX 0) as [H|_];
        [unfold DiffBase.WALB_DIFF_CMPR_NONE in cmpr_none_known; lia|].
      destruct (Z.eqb_spec n 0); [lia|]. reflexivity. }
    split; [exact Hvalid|]. split; [exact Hplen|].
    set (R := DiffBase.setChecksum c _) in *.
    assert (Hds : DiffBase.data_size R = n * LOGICAL_BLOCK_SIZE) by reflexivity.
    assert (Hnorm : DiffBase.isNormal R = true) by reflexivity.
    assert (Hcs : DiffBase.checksum R = c) by reflexivity.
    assert (Hset : DiffBase.set R WdiffRecv.IoData_new
                   = DiffBase.mkIoData n DiffBase.WALB_DIFF_CMPR_NONE
                       (repeat Byte.x00 (Z.to_nat (n * LOGICAL_BLOCK_SIZE)))).
    { unfold DiffBase.set, DiffBase.resize. rewrite Hnorm, Hds.
      cbn [WdiffRecv.IoData_new DiffBase.data_ length].
      rewrite take_nil, Nat.sub_0_r. reflexivity. }
    unfold WdiffRecv.recv_one. rewrite Hvalid, Hnorm. cbn [negb].
    unfold DiffBase.dataSize. rewrite Hds, Hset, Hcs.
    cbn [DiffBase.swap_data DiffBase.data_].
    destruct (Z.eqb_spec (n * LOGICAL_BLOCK_SIZE) 0) as [E|_];
      [unfold LOGICAL_BLOCK_SIZE in E; lia|].
    assert (Hio : WdiffRecv.sock_read P (n * LOGICAL_BLOCK_SIZE)
                    (DiffBase.mkIoData n DiffBase.WALB_DIFF_CMPR_NONE
                       (repeat Byte.x00 (Z.to_nat (n * LOGICAL_BLOCK_SIZE))))
                  = DiffBase.mkIoData n DiffBase.WALB_DIFF_CMPR_NONE P).
    { unfold WdiffRecv.sock_read. cbn [DiffBase.ioBlocks_ DiffBase.compressionType_ DiffBase.data_].
      rewrite take_ge by lia.
      rewrite drop_ge by (rewrite repeat_length; lia).
      rewrite app_nil_r. reflexivity. }
    rewrite Hio.
    assert (Hiv : DiffSplit.iw_isValid
                    (DiffSplit.wrap_of
                       (DiffBase.mkIoData n DiffBase.WALB_DIFF_CMPR_NONE P)) = true).
    { unfold DiffSplit.iw_isValid, DiffSplit.wrap_of, DiffSplit.iw_empty,
        DiffSplit.iw_isCompressed.
      cbn [DiffSplit.iw_ioBlocks DiffSplit.iw_compressionType DiffSplit.iw_data
           DiffSplit.iw_size DiffBase.ioBlocks_ DiffBase.compressionType_ DiffBase.data_].
      destruct (Z.eqb_spec n 0); [lia|].
      rewrite Z.eqb_refl. cbn [negb].
      destruct (Z.eqb_spec (Z.of_nat (length P)) (n * LOGICAL_BLOCK_SIZE)); [reflexivity|lia]. }
    rewrite Hiv. cbn [negb].
    unfold DiffBase.calcChecksum, DiffBase.empty.
    cbn [DiffBase.ioBlocks_ DiffBase.data_].
    destruct (Z.eqb_spec n 0); [lia|]. fold c. rewrite Z.eqb_refl. reflexivity.
  - lia.
  - unfold LOGICAL_BLOCK_SIZE. lia.
  - rewrite repeat_length. unfold LOGICAL_BLOCK_SIZE. lia.
  - unfold LOGICAL_BLOCK_SIZE. lia.
  - unfold LogBase.nBlocks in Hcap2. lia.
Qed.

Lemma convert_padding pbs0 rec blockS mrec0 io0 :
  LogBase.isPadding rec = true ->
  convertLogToDiff pbs0 rec blockS mrec0 io0 = Ok (false, mrec0, io0).
Proof. intros H. unfold convertLogToDiff. rewrite H. reflexivity. Qed.

Lemma u64_add_l a b : u64 (u64 a + b) = u64 (a + b).
Proof. unfold u64, wrap. apply Z.add_mod_idemp_l. lia. Qed.

(** The loop of convertWlog over the records of a file. *)
Lemma convert_logs_spec pbs0 logs :
  Forall (convertible pbs0) logs ->
  forall written m,
    0 <= written < 2 ^ 64 ->
    exists added,
      convert_logs pbs0 logs written m
      = Ok (u64 (written + total_lb (non_padding logs)),
            mkMemoryData (md_uuid m) (md_added m ++ added))
      /\ map (fun d => (DiffBase.io_address (fst d), DiffBase.io_blocks (fst d))) added
         = map (fun l => (LogBase.offset (fst l), LogBase.io_size (fst l)))
               (non_padding logs)
      /\ Forall (fun d =>
                   DiffBase.isValid WALB_DIFF_CMPR_MAX (fst d) = true
                   /\ Z.of_nat (length (DiffBase.data_ (snd d)))
                      = DiffBase.data_size (fst d)
                   /\ WdiffRecv.recv_one WALB_DIFF_CMPR_MAX (fst d) (DiffBase.data_ (snd d))
                      = Ok (if DiffBase.isNormal (fst d)
                            then WdiffRecv.CompressAndWriteDiff (fst d) (DiffBase.data_ (snd d))
                            else WdiffRecv.WriteDiff (fst d) []))
                added.
Proof.
  induction 1 as [|[rec blockS] logs Hc _ IH]; intros written m Hw.
  - exists []. cbn [convert_logs non_padding List.filter total_lb map fold_right].
    rewrite Z.add_0_r, app_nil_r, u64_small by lia.
    destruct m; repeat split; constructor.
  - cbn [convert_logs non_padding List.filter fst].
    destruct (LogBase.isPadding rec) eqn:Hpad.
    + rewrite convert_padding by exact Hpad. cbn [bind negb].
      apply IH. exact Hw.
    + destruct (converted_accepted pbs0 rec blockS DiffBase.init
                  (DiffBase.mkIoData 0 DiffBase.WALB_DIFF_CMPR_NONE []) Hc Hpad)
        as (mrec & io & Hrun & Haddr & Hblk & Hvalid & Hlen & Hrecv).
      rewrite Hrun. cbn [bind negb].
      destruct (IH (u64 (written + DiffBase.io_blocks mrec)) (add mrec io m))
        as (added & Hrest & Hmap & Hall).
      { unfold u64, wrap. apply Z.mod_pos_bound. lia. }
      exists ((mrec, io) :: added). split; [|split].
      * fold (non_padding logs). rewrite Hrest.
        unfold total_lb. cbn [map fold_right fst]. fold (total_lb (non_padding logs)).
        rewrite u64_add_l, Hblk. unfold add. cbn [md_uuid md_added].
        rewrite <- app_assoc. cbn [app].
        do 3 f_equal. lia.
      * cbn [map fst]. rewrite Haddr, Hblk. f_equal. exact Hmap.
      * constructor; [|exact Hall]. cbn [fst snd]. auto.
Qed.

End ComposeFacts.

Section ComposeTheorems.

Import Converter ConvertedLog.

(** Converter to receiver. For a log record that is no padding and whose
    size fits a diff record, convertLogToDiff returns true with a diff
    record at the offset and of the size of the log record that
    Record::isValid accepts, with an IO of data_size bytes; the body of
    the receive loop of wdiff-recv, given this record and these bytes,
    raises none of its three errors and hands the record to the writer. *)
Theorem converted_diff_accepted :
  forall WALB_DIFF_CMPR_MAX pbs0 rec blockS mrec0 io0,
    DiffBase.WALB_DIFF_CMPR_NONE < WALB_DIFF_CMPR_MAX ->
    convertible pbs0 (rec, blockS) ->
    LogBase.isPadding rec = false ->
    exists mrec io,
      convertLogToDiff pbs0 rec blockS mrec0 io0 = Ok (true, mrec, io)
      /\ DiffBase.io_address mrec = LogBase.offset rec
      /\ DiffBase.io_blocks mrec = LogBase.io_size rec
      /\ DiffBase.isValid WALB_DIFF_CMPR_MAX mrec = true
      /\ Z.of_nat (length (DiffBase.data_ io)) = DiffBase.data_size mrec
      /\ WdiffRecv.recv_one WALB_DIFF_CMPR_MAX mrec (DiffBase.data_ io)
         = Ok (if DiffBase.isNormal mrec
               then WdiffRecv.CompressAndWriteDiff mrec (DiffBase.data_ io)
               else WdiffRecv.WriteDiff mrec []).
Proof.
  intros MAX pbs0 rec blockS mrec0 io0 Hmax Hc Hpad.
  exact (converted_accepted MAX Hmax pbs0 rec blockS mrec0 io0 Hc Hpad).
Qed.

Lemma two_block_write_convertible :
  convertible 512
    (LogBase.mkLogRecord 0 7 1 1 16 2,
     LogBase.mkLogBlockShared 512 [repeat Byte.x5a 512; repeat Byte.xa5 512]).
Proof.
  split; [vm_compute; split; congruence|].
  intros _ _. constructor.
  - reflexivity.
  - reflexivity.
  - repeat constructor.
  - vm_compute. congruence.
  - reflexivity.
Qed.

Lemma converted_diff_accepted_witness :
  exists mrec io,
    convertLogToDiff 512 (LogBase.mkLogRecord 0 7 1 1 16 2)
      (LogBase.mkLogBlockShared 512 [repeat Byte.x5a 512; repeat Byte.xa5 512])
      DiffBase.init (DiffBase.mkIoData 0 0 []) = Ok (true, mrec, io)
    /\ DiffBase.isValid 4 mrec = true
    /\ DiffBase.io_blocks mrec = 2.
Proof.
  destruct (converted_diff_accepted 4 512 (LogBase.mkLogRecord 0 7 1 1 16 2)
              (LogBase.mkLogBlockShared 512 [repeat Byte.x5a 512; repeat Byte.xa5 512])
              DiffBase.init (DiffBase.mkIoData 0 0 []))
    as (mrec & io & Hrun & _ & Hblk & Hvalid & _).
  - reflexivity.
  - exact two_block_write_convertible.
  - reflexivity.
  - exists mrec, io. split; [exact Hrun|]. split; [exact Hvalid|exact Hblk].
Defined.

(** The loop of convertWlog over the records of one wlog. When every
    record fits, the loop ends without an error; the in-memory diff gets
    one add per record that is no padding, in the order of the log, each
    at the offset and of the size of its log record and each a record that
    Record::isValid and the receiver accept; the UUID is not touched, and
    writtenBlocks grows by the logical blocks of these records (mod
    2^64). *)
Theorem convert_logs_adds :
  forall WALB_DIFF_CMPR_MAX pbs0 logs written m,
    DiffBase.WALB_DIFF_CMPR_NONE < WALB_DIFF_CMPR_MAX ->
    Forall (convertible pbs0) logs ->
    0 <= written < 2 ^ 64 ->
    exists added,
      convert_logs pbs0 logs written m
      = Ok (u64 (written + total_lb (non_padding logs)),
            mkMemoryData (md_uuid m) (md_added m ++ added))
      /\ map (fun d => (DiffBase.io_address (fst d), DiffBase.io_blocks (fst d))) added
         = map (fun l => (LogBase.offset (fst l), LogBase.io_size (fst l)))
               (non_padding logs)
      /\ Forall (fun d =>
                   DiffBase.isValid WALB_DIFF_CMPR_MAX (fst d) = true
                   /\ Z.of_nat (length (DiffBase.data_ (snd d)))
                      = DiffBase.data_size (fst d)
                   /\ WdiffRecv.recv_one WALB_DIFF_CMPR_MAX (fst d) (DiffBase.data_ (snd d))
                      = Ok (if DiffBase.isNormal (fst d)
                            then WdiffRecv.CompressAndWriteDiff (fst d) (DiffBase.data_ (snd d))
                            else WdiffRecv.WriteDiff (fst d) []))
                added.
Proof.
  intros MAX pbs0 logs written m Hmax Hall Hw.
  exact (convert_logs_spec MAX Hmax pbs0 logs Hall written m Hw).
Qed.

Lemma convert_logs_adds_witness :
  exists added,
    convert_logs 512
      [(LogBase.mkLogRecord 0 7 1 1 16 2,
        LogBase.mkLogBlockShared 512 [repeat Byte.x5a 512; repeat Byte.xa5 512]);
       (LogBase.mkLogRecord 0 9 3 3 0 1, LogBase.mkLogBlockShared 512 []);
       (LogBase.mkLogRecord 0 10 4 5 64 8, LogBase.mkLogBlockShared 512 [])]
      0 (mkMemoryData [] [])
    = Ok (10, mkMemoryData [] added)
    /\ map (fun d => (DiffBase.io_address (fst d), DiffBase.io_blocks (fst d))) added
       = [(16, 2); (64, 8)].
Proof.
  destruct (convert_logs_adds 4 512
              [(LogBase.mkLogRecord 0 7 1 1 16 2,
                LogBase.mkLogBlockShared 512 [repeat Byte.x5a 512; repeat Byte.xa5 512]);
               (LogBase.mkLogRecord 0 9 3 3 0 1, LogBase.mkLogBlockShared 512 []);
               (LogBase.mkLogRecord 0 10 4 5 64 8, LogBase.mkLogBlockShared 512 [])]
              0 (mkMemoryData [] []))
    as (added & Hrun & Hmap & _).
  - reflexivity.
  - constructor; [exact two_block_write_convertible|].
    constructor; [|constructor; [|constructor]].
    + split; [vm_compute; split; congruence|]. intros H. vm_compute in H. discriminate.
    + split; [vm_compute; split; congruence|]. intros _ H. vm_compute in H. discriminate.
  - lia.
  - exists added. split; [exact Hrun|exact Hmap].
Defined.

End ComposeTheorems.

Section ParseFacts.

Import Ascii WlogSend.

Variable atoi : string -> result Z.

Lemma find_app c h p :
  lacks c h -> find c (String.append h (String c p)) = Some (String.length h).
Proof.
  induction h as [|a h IH]; intros Hl; cbn [String.append find String.length].
  - rewrite Ascii.eqb_refl. reflexivity.
  - destruct Hl as [Hne Hl]. destruct (Ascii.eqb_spec a c) as [E|_]; [contradiction|].
    rewrite IH by exact Hl. reflexivity.
Qed.

Lemma substring_all s : String.substring 0 (String.length s) s = s.
Proof. induction s as [|a s IH]; [reflexivity|]. cbn. rewrite IH. reflexivity. Qed.

Lemma substring_prefix h x :
  String.substring 0 (String.length h) (String.append h x) = h.
Proof.
  induction h as [|a h IH]; cbn [String.append String.length String.substring].
  - destruct x; reflexivity.
  - rewrite IH. reflexivity.
Qed.

Lemma substr_from_suffix h x :
  substr_from (String.length h) (String.append h x) = x.
Proof.
  unfold substr_from. induction h as [|a h IH]; cbn [String.append String.length].
  - rewrite Nat.sub_0_r. apply substring_all.
  - cbn [String.substring Nat.sub]. exact IH.
Qed.

Lemma find_split c s n :
  find c s = Some n ->
  s = String.append (String.substring 0 n s) (String c (substr_from (n + 1) s))
  /\ lacks c (String.substring 0 n s).
Proof.
  revert n. induction s as [|a s IH]; intros n H; [discriminate|].
  cbn [find] in H. destruct (Ascii.eqb_spec a c) as [->|Hne].
  - injection H as <-. cbn. unfold substr_from. cbn.
    rewrite Nat.sub_0_r, substring_all. split; [reflexivity|exact I].
  - destruct (find c s) as [m|] eqn:E; [|discriminate].
    injection H as <-. destruct (IH m eq_refl) as [Hs Hl].
    cbn [String.substring String.append lacks].
    split; [|split; assumption].
    f_equal. unfold substr_from in *. cbn [Nat.add String.length Nat.sub String.substring].
    exact Hs.
Qed.

Lemma is_empty_iff s : is_empty s = true <-> s = EmptyString.
Proof. destruct s; cbn; split; congruence. Qed.

(** parseHostPortStr and the HOST:PORT format. A string made of a host
    without colon, a colon and a port part, both not empty, is parsed into
    that host and the number of that port part; every string that is
    parsed has this form, with the host up to its first colon; every other
    string gets the format error. *)
Theorem parseHostPortStr_format :
  (forall host portStr,
      host <> EmptyString -> portStr <> EmptyString -> lacks ":"%char host ->
      parseHostPortStr atoi (String.append host (String ":"%char portStr))
      = do port <- atoi portStr; Ok (host, port))
  /\ (forall s host port,
         parseHostPortStr atoi s = Ok (host, port) ->
         exists portStr,
           s = String.append host (String ":"%char portStr)
           /\ host <> EmptyString /\ portStr <> EmptyString
           /\ lacks ":"%char host
           /\ atoi portStr = Ok port)
  /\ (forall s,
         (forall host portStr,
             s = String.append host (String ":"%char portStr) ->
             lacks ":"%char host ->
             host = EmptyString \/ portStr = EmptyString) ->
         parseHostPortStr atoi s = throwError s).
Proof.
  split; [|split].
  - intros host portStr Hh Hp Hl. unfold parseHostPortStr.
    rewrite find_app by exact Hl. cbv zeta.
    rewrite substring_prefix.
    destruct (is_empty host) eqn:Eh; [apply is_empty_iff in Eh; contradiction|].
    replace (String.length host + 1)%nat
      with (String.length (String.append host (String ":"%char EmptyString))).
    2:{ clear. induction host as [|a h IH]; cbn in *; [reflexivity|]. rewrite IH. reflexivity. }
    replace (String.append host (String ":"%char portStr))
      with (String.append (String.append host (String ":"%char EmptyString)) portStr).
    2:{ clear. induction host as [|a h IH]; cbn in *; [reflexivity|]. rewrite IH. reflexivity. }
    rewrite substr_from_suffix.
    destruct (is_empty portStr) eqn:Ep; [apply is_empty_iff in Ep; contradiction|].
    reflexivity.
  - intros s host port H. unfold parseHostPortStr in H.
    destruct (find ":"%char s) as [n|] eqn:Ef; [|discriminate].
    cbv zeta in H. destruct (find_split _ _ _ Ef) as [Hs Hl].
    destruct (is_empty (String.substring 0 n s)) eqn:Eh; [discriminate|].
    destruct (is_empty (substr_from (n + 1) s)) eqn:Ep; [discriminate|].
    destruct (atoi (substr_from (n + 1) s)) as [p|e] eqn:Ea; [|discriminate].
    cbn [bind] in H. injection H as <- <-.
    exists (substr_from (n + 1) s).
    split; [exact Hs|]. split; [|split; [|split; [exact Hl|exact Ea]]].
    + intros E. apply is_empty_iff in E. congruence.
    + intros E. apply is_empty_iff in E. congruence.
  - intros s Hno. unfold parseHostPortStr.
    destruct (find ":"%char s) as [n|] eqn:Ef; [|reflexivity].
    cbv zeta. destruct (find_split _ _ _ Ef) as [Hs Hl].
    destruct (Hno _ _ Hs Hl) as [E|E]; rewrite E; [reflexivity|].
    destruct (is_empty (String.substring 0 n s)); reflexivity.
Qed.

End ParseFacts.

Section ParseWitness.

Import Ascii WlogSend.

Lemma parseHostPortStr_format_witness :
  parseHostPortStr (fun _ => Ok 5000) "proxy:5000"%string = Ok ("proxy"%string, 5000)
  /\ parseHostPortStr (fun _ => Ok 5000) ":5000"%string = throwError ":5000"%string.
Proof.
  destruct (parseHostPortStr_format (fun _ => Ok 5000)) as (Hgood & _ & Hbad).
  split.
  - apply (Hgood "proxy"%string "5000"%string).
    + discriminate.
    + discriminate.
    + cbn. repeat split; discriminate.
  - apply Hbad. intros host portStr E Hl. left.
    destruct host as [|a host]; [reflexivity|].
    cbn in E. injection E as E1 E2. destruct Hl as [Hne _]. congruence.
Defined.

End ParseWitness.

Section DrainFacts.

Import Redo RedoDrain.

Variable env : Env.

Lemma quiet_refl st : quiet st st.
Proof. split; [apply heap_rel_refl; exact same_geom_ok|repeat split; reflexivity]. Qed.

Lemma quiet_trans st1 st2 st3 : quiet st1 st2 -> quiet st2 st3 -> quiet st1 st3.
Proof.
  intros (H1 & A1 & B1 & C1 & D1) (H2 & A2 & B2 & C2 & D2).
  split; [eapply heap_rel_trans; [exact same_geom_ok|eassumption..]|].
  repeat split; congruence.
Qed.

Lemma quiet_inv st st' : quiet st st' -> queue_inv st -> queue_inv st'.
Proof.
  intros ([Hlen Hg] & Hq & Hol & Hw & Ho) [Hnd Hk Hp Hc].
  constructor; rewrite ?Hq, ?Hol, ?Hw, ?Ho, <- ?Hlen; try assumption.
  intros k p Hin. destruct (Hk k p Hin) as [H1 H2]. split; [exact H1|].
  destruct (Hg p) as [E _]. congruence.
Qed.

Lemma submit_loop_quiet :
  forall q st n st' n',
    submit_loop q st n = Ok (st', n') ->
    quiet st st'
    /\ submitIoQ_ st' = match q with [] => submitIoQ_ st | _ => [] end.
Proof.
  induction q as [|iop q IH]; intros st n st' n' H.
  - simpl in H. injection H as <- <-. split; [apply quiet_refl|reflexivity].
  - cbn [submit_loop] in H.
    destruct (isOverwritten_ (deref (heap (set_submitIoQ_ q st)) iop)) eqn:Eo.
    + apply IH in H as [Hq Hs]. split.
      * eapply quiet_trans; [|exact Hq].
        split; [apply heap_rel_refl; exact same_geom_ok|repeat split; reflexivity].
      * rewrite Hs. destruct q; reflexivity.
    + destruct (blocks_ (deref (heap (set_submitIoQ_ q st)) iop)) as [|b bs];
        [discriminate|].
      apply IH in H as [Hq Hs]. split.
      * eapply quiet_trans; [|exact Hq].
        split; [|repeat split; reflexivity].
        cbn [heap set_heap set_aio_ set_submitIoQ_ prepareWrite fst snd].
        apply heap_rel_upd; [exact same_geom_ok|]. split; reflexivity.
      * rewrite Hs. destruct q; reflexivity.
Qed.

Lemma submitIos_quiet st st' :
  submitIos st = Ok st' -> quiet st st' /\ submitIoQ_ st' = [].
Proof.
  unfold submitIos. destruct (submitIoQ_ st) as [|p q] eqn:E.
  - intros [= <-]. split; [apply quiet_refl|exact E].
  - intros H. apply bind_ok in H as ([st1 n1] & H1 & H2).
    apply submit_loop_quiet in H1 as [Hq Hs].
    destruct (0 <? n1); injection H2 as <-; [|split; assumption].
    split; [|exact Hs].
    eapply quiet_trans; [exact Hq|].
    split; [apply heap_rel_refl; exact same_geom_ok|repeat split; reflexivity].
Qed.

Lemma schedule_loop_quiet :
  forall ready st st', schedule_loop env ready st = Ok st' -> quiet st st'.
Proof.
  induction ready as [|iop ready IH]; intros st st' H.
  - simpl in H. injection H as <-. apply quiet_refl.
  - cbn [schedule_loop] in H.
    destruct (isOverwritten_ (deref (heap (set_readyIoQ_ ready st)) iop)).
    + apply IH in H. eapply quiet_trans; [|exact H].
      split; [apply heap_rel_refl; exact same_geom_ok|repeat split; reflexivity].
    + apply bind_ok in H as (st1 & H1 & H2). apply IH in H2.
      eapply quiet_trans; [|exact H2].
      match type of H1 with (if ?c then _ else _) = _ => destruct c end.
      * apply submitIos_quiet in H1 as [H1 _]. eapply quiet_trans; [|exact H1].
        split; [apply heap_rel_refl; exact same_geom_ok|repeat split; reflexivity].
      * injection H1 as <-.
        split; [apply heap_rel_refl; exact same_geom_ok|repeat split; reflexivity].
Qed.

Lemma fold_push_ready_keeps l :
  forall st,
    let st' := fold_left push_ready l st in
    heap st' = heap st /\ olData_ st' = olData_ st /\ submitIoQ_ st' = submitIoQ_ st
    /\ nWritten_ st' = nWritten_ st /\ nOverwritten_ st' = nOverwritten_ st
    /\ ioQ_ st' = ioQ_ st.
Proof.
  induction l as [|p l IH]; intros st; [cbn; auto 10|].
  cbn [fold_left]. cbv zeta.
  destruct (IH (push_ready st p)) as (-> & -> & -> & -> & -> & ->).
  unfold push_ready. destruct (isOverwritten_ _); cbn; auto 10.
Qed.

Lemma Permutation_filter_keep {A} (f : A -> bool) l l' :
  Permutation l l' -> Permutation (List.filter f l) (List.filter f l').
Proof.
  induction 1 as [|x l l' _ IH|x y l|l l' l'' _ IH1 _ IH2]; cbn.
  - constructor.
  - destruct (f x); [constructor|]; exact IH.
  - destruct (f x), (f y); try reflexivity. apply perm_swap.
  - etransitivity; eassumption.
Qed.

Lemma filter_all {A} (f : A -> bool) l :
  (forall x, In x l -> f x = true) -> List.filter f l = l.
Proof.
  induction l as [|x l IH]; intros H; [reflexivity|].
  cbn. rewrite (H x (or_introl eq_refl)). f_equal. apply IH.
  intros y Hy. apply H. right. exact Hy.
Qed.

Lemma map_snd_filter (f : IoPtr -> bool) (s : list (Z * IoPtr)) :
  map snd (List.filter (fun e => f (snd e)) s) = List.filter f (map snd s).
Proof.
  induction s as [|e s IH]; [reflexivity|].
  cbn. destruct (f (snd e)); cbn; rewrite IH; reflexivity.
Qed.

(** The pointers of the set without a pointer, against the rest of the
    queue that began with this pointer. *)
Lemma perm_remove iop q (s : list (Z * IoPtr)) :
  List.NoDup (map snd s) ->
  Permutation (map snd s) (iop :: q) ->
  Permutation (map snd (List.filter (fun e => negb (snd e =? iop)%nat) s)) q.
Proof.
  intros Hnd Hp.
  rewrite (map_snd_filter (fun p => negb (p =? iop)%nat)).
  pose proof (Permutation_filter_keep (fun p => negb (p =? iop)%nat) _ _ Hp) as H.
  cbn [List.filter] in H. rewrite Nat.eqb_refl in H. cbn [negb] in H.
  rewrite (filter_all _ q) in H; [exact H|].
  pose proof (Permutation_NoDup Hp Hnd) as Hnd'.
  inversion Hnd' as [|? ? Hnot _]; subst.
  intros x Hx. destruct (Nat.eqb_spec x iop) as [->|_]; [contradiction|reflexivity].
Qed.

(** waitForAnIoCompletion takes the front IO out of [ioQ_] and out of the
    overlap set, and counts it once. *)
Lemma waitForAnIoCompletion_inv st st' :
  waitForAnIoCompletion env st = Ok st' ->
  queue_inv st ->
  queue_inv st'
  /\ (submitIoQ_ st = [] -> submitIoQ_ st' = [])
  /\ nWritten_ st' + nOverwritten_ st' = nWritten_ st + nOverwritten_ st + 1.
Proof.
  unfold waitForAnIoCompletion. destruct (ioQ_ st) as [|iop q] eqn:Eq; [discriminate|].
  intros H Hinv. apply bind_ok in H as (st1 & H1 & H).
  apply bind_ok in H as (st2 & H2 & H).
  (* the IO is scheduled and submitted if need be *)
  assert (Q1 : quiet (set_ioQ_ q st) st1
               /\ (submitIoQ_ st = [] -> submitIoQ_ st1 = [])).
  { match type of H1 with (if ?c then _ else _) = _ => destruct c end.
    - apply bind_ok in H1 as (sta & Ha & Hb).
      apply schedule_loop_quiet in Ha. apply submitIos_quiet in Hb as [Hb Hs].
      split; [eapply quiet_trans; eassumption|intros _; exact Hs].
    - injection H1 as <-. split; [apply quiet_refl|intros E; exact E]. }
  destruct Q1 as [(Hh1 & Hq1 & Hol1 & Hw1 & Ho1) Hs1].
  cbn [ioQ_ olData_ nWritten_ nOverwritten_ heap set_ioQ_] in Hh1, Hq1, Hol1, Hw1, Ho1.
  (* it is counted *)
  assert (Q2 : heap_rel same_geom (heap st1) (heap st2)
               /\ ioQ_ st2 = q /\ olData_ st2 = olData_ st
               /\ submitIoQ_ st2 = submitIoQ_ st1
               /\ nWritten_ st2 + nOverwritten_ st2
                  = nWritten_ st + nOverwritten_ st + 1).
  { destruct (isSubmitted_ (deref (heap st1) iop)) eqn:Es.
    - apply bind_ok in H2 as (a & Ha & Hb). injection Hb as <-.
      cbn [heap set_heap set_aio_ set_nWritten_ ioQ_ olData_ submitIoQ_
           nWritten_ nOverwritten_].
      split; [apply heap_rel_upd; [exact same_geom_ok|split; reflexivity]|].
      repeat split; try assumption. lia.
    - injection H2 as <-.
      cbn [heap set_nOverwritten_ ioQ_ olData_ submitIoQ_ nWritten_ nOverwritten_].
      split; [apply heap_rel_refl; exact same_geom_ok|].
      repeat split; try assumption. lia. }
  destruct Q2 as (Hh2 & Hq2 & Hol2 & Hs2 & Hc2).
  (* it leaves the overlap set *)
  rewrite (del_parts (heap (set_nPendingBlocks_ _ st2))
                     (olData_ (set_nPendingBlocks_ _ st2)) iop []) in H.
  cbv zeta in H. cbn [heap olData_ set_nPendingBlocks_] in H.
  injection H as <-.
  match goal with |- context [fold_left push_ready ?l ?s] =>
    pose proof (fold_push_ready_keeps l s) as F; cbv zeta in F;
    destruct F as (F1 & F2 & F3 & F4 & F5 & F6) end.
  cbn [heap olData_ submitIoQ_ nWritten_ nOverwritten_ ioQ_
       set_olData_ set_heap set_nPendingBlocks_] in F1, F2, F3, F4, F5, F6.
  destruct Hinv as [Hnd Hk Hp Hc]. rewrite Eq in Hp, Hc.
  assert (Hg : heap_rel same_geom (heap st) (heap st2))
    by (eapply heap_rel_trans; [exact same_geom_ok|eassumption..]).
  destruct Hg as [Hlen Hg].
  assert (Hin : In (offset_ (deref (heap st2) iop), iop) (set_ (olData_ st))).
  { assert (Hi : In iop (map snd (set_ (olData_ st)))).
    { eapply Permutation_in; [apply Permutation_sym; exact Hp|left; reflexivity]. }
    apply in_map_iff in Hi as ([k p] & E & Hi). cbn [snd] in E. subst p.
    destruct (Hk k iop Hi) as [_ Hoff]. destruct (Hg iop) as [Eo _].
    rewrite <- Eo, Hoff. exact Hi. }
  rewrite Hol2 in *.
  rewrite (set_erase_filter _ _ _ Hnd Hin) in *.
  set (s1 := List.filter (fun e => negb (snd e =? iop)%nat) (set_ (olData_ st))) in *.
  match type of F1 with _ = fst (del_scan ?a ?b ?c ?d ?e) =>
    pose proof (del_scan_rel same_geom a b same_geom_ok c d e) as Hdg;
    pose proof (del_scan_length a b c d e) as Hdl end.
  split; [|split].
  - constructor; rewrite ?F1, ?F2, ?F4, ?F5, ?F6; cbn [set_ maxSize_].
    + apply NoDup_map_filter. exact Hnd.
    + intros k p Hx. unfold s1 in Hx. apply filter_In in Hx as [Hx _].
      destruct (Hk k p Hx) as [A B]. rewrite Hdl, <- Hlen. split; [exact A|].
      destruct (Hdg p) as [E1 _]. destruct (Hg p) as [E2 _]. congruence.
    + rewrite Hq2. apply perm_remove; assumption.
    + rewrite Hq2, Hdl, <- Hlen. cbn [length] in Hc. lia.
  - intros E. rewrite F3, Hs2. apply Hs1. exact E.
  - rewrite F4, F5. exact Hc2.
Qed.

Lemma wait_all_loop_inv :
  forall fuel st st',
    wait_all_loop env fuel st = Ok st' ->
    queue_inv st ->
    queue_inv st'
    /\ ioQ_ st' = [] /\ readyIoQ_ st' = []
    /\ (submitIoQ_ st = [] -> submitIoQ_ st' = []).
Proof.
  induction fuel as [|fuel IH]; intros st st' H Hinv.
  - cbn [wait_all_loop] in H.
    destruct (ioQ_ st) eqn:E1, (readyIoQ_ st) eqn:E2; try discriminate.
    injection H as <-. split; [exact Hinv|]. split; [exact E1|]. split; [exact E2|auto].
  - cbn [wait_all_loop] in H.
    assert (Hgo : (do st1 <- waitForAnIoCompletion env st; wait_all_loop env fuel st1)
                  = Ok st' ->
                  queue_inv st' /\ ioQ_ st' = [] /\ readyIoQ_ st' = []
                  /\ (submitIoQ_ st = [] -> submitIoQ_ st' = [])).
    { intros G. apply bind_ok in G as (st1 & G1 & G2).
      destruct (waitForAnIoCompletion_inv st st1 G1 Hinv) as (I1 & S1 & _).
      destruct (IH st1 st' G2 I1) as (I2 & A & B & S2).
      split; [exact I2|]. split; [exact A|]. split; [exact B|auto]. }
    destruct (ioQ_ st) eqn:E1, (readyIoQ_ st) eqn:E2; try (apply Hgo; exact H).
    injection H as <-. split; [exact Hinv|]. split; [exact E1|]. split; [exact E2|auto].
Qed.

Lemma wait_room_loop_inv nBlocks :
  forall fuel st st',
    wait_room_loop env fuel nBlocks st = Ok st' ->
    queue_inv st -> queue_inv st'.
Proof.
  induction fuel as [|fuel IH]; intros st st' H Hinv.
  - cbn [wait_room_loop] in H. destruct (ioQ_ st); [injection H as <-; exact Hinv|].
    destruct (queueSize_ env <? _); [discriminate|injection H as <-; exact Hinv].
  - cbn [wait_room_loop] in H. destruct (ioQ_ st) eqn:E; [injection H as <-; exact Hinv|].
    destruct (queueSize_ env <? _); [|injection H as <-; exact Hinv].
    apply bind_ok in H as (st1 & G1 & G2).
    destruct (waitForAnIoCompletion_inv st st1 G1 Hinv) as (I1 & _).
    apply (IH st1 st' G2 I1).
Qed.

(** The loop that enqueues the IOs of the staging queue: each becomes a new
    IO of the store, of [ioQ_] and of the overlap set. *)
Lemma enqueue_loop_inv :
  forall ioQ st, queue_inv st -> queue_inv (enqueue_loop ioQ st).
Proof.
  induction ioQ as [|io ioQ IH]; intros st Hinv; [exact Hinv|].
  cbn [enqueue_loop]. apply IH.
  set (iop := length (heap st)).
  set (st1 := set_heap (heap st ++ [io]) st).
  destruct (insertToOverlappedData_fields st1 iop)
    as (_ & _ & _ & _ & Eq & _ & _ & Ew & Eo). cbv zeta in Eq, Ew, Eo.
  pose proof (insertToOverlappedData_heap st1 iop) as Eh.
  assert (Eol : set_ (olData_ (insertToOverlappedData st1 iop))
                = set_emplace (offset_ io, iop) (set_ (olData_ st))).
  { unfold insertToOverlappedData, ins. cbn [olData_ set_olData_ set_heap set_ heap st1].
    unfold iop. rewrite deref_app_new. reflexivity. }
  set (st2 := insertToOverlappedData st1 iop) in *.
  cbn [heap olData_ st1 set_heap ioQ_ nWritten_ nOverwritten_] in Eh, Eq, Ew, Eo.
  destruct Hinv as [Hnd Hk Hp Hc].
  assert (Hfresh : forall e, In e (set_ (olData_ st)) -> snd e <> iop).
  { intros [k p] Hx. destruct (Hk k p Hx) as [A _]. cbn [snd]. unfold iop. lia. }
  pose proof (set_emplace_perm (offset_ io, iop) (set_ (olData_ st)) Hfresh) as Hperm.
  pose proof (ins_length (heap st ++ [io]) (olData_ st) iop) as Hlen.
  pose proof (fun q => ins_rel same_geom (heap st ++ [io]) (olData_ st) iop q same_geom_ok)
    as Hg.
  rewrite <- Eh in Hlen, Hg. rewrite length_app in Hlen. cbn [length] in Hlen.
  assert (Hinv2 : queue_inv (set_ioQ_ (ioQ_ st2 ++ [iop]) st2)).
  { constructor; cbn [olData_ heap ioQ_ nWritten_ nOverwritten_ set_ioQ_];
      rewrite ?Eol, ?Eq, ?Ew, ?Eo.
    - eapply Permutation_NoDup; [apply Permutation_map; exact Hperm|].
      cbn [map snd]. constructor; [|exact Hnd].
      intros Hx. apply in_map_iff in Hx as (e & E & Hx). apply (Hfresh e Hx E).
    - intros k p Hx. apply (Permutation_in _ (Permutation_sym Hperm)) in Hx.
      rewrite Hlen. destruct (Hg p) as [E _]. rewrite <- E.
      destruct Hx as [[= <- <-]|Hx].
      + split; [unfold iop; lia|]. unfold iop. rewrite deref_app_new. reflexivity.
      + destruct (Hk k p Hx) as [A B]. split; [lia|].
        rewrite deref_app_l by exact A. exact B.
    - etransitivity; [apply Permutation_map, Permutation_sym, Hperm|].
      cbn [map snd]. etransitivity; [apply perm_skip; exact Hp|].
      apply Permutation_cons_append.
    - rewrite length_app, Hlen. cbn [length]. lia. }
  destruct (nOverlapped_ (deref (heap st2) iop) =? 0); [|exact Hinv2].
  destruct Hinv2 as [A B C D]. constructor; assumption.
Qed.

Lemma prepareIos_inv ioQ nBlocks st st' :
  prepareIos env ioQ nBlocks st = Ok st' -> queue_inv st -> queue_inv st'.
Proof.
  unfold prepareIos. intros H Hinv. apply bind_ok in H as (st1 & H1 & H2).
  injection H2 as <-. apply enqueue_loop_inv.
  apply wait_room_loop_inv in H1; [|exact Hinv].
  destruct H1 as [A B C D]. constructor; assumption.
Qed.

Lemma redo_loop_inv rec blockS :
  forall cnt i tmpIoQ remaining off nBlocks st q n st',
    redo_loop env rec blockS cnt i tmpIoQ remaining off nBlocks st = Ok (q, n, st') ->
    queue_inv st -> queue_inv st'.
Proof.
  induction cnt as [|cnt IH]; intros i tmpIoQ remaining off nBlocks st q n st' H Hinv.
  - simpl in H. injection H as <- <- <-. exact Hinv.
  - cbn [redo_loop] in H. apply bind_ok in H as ([block st1] & H1 & H).
    cbv zeta in H. apply bind_ok in H as ([[q2 n2] st2] & H2 & H).
    apply IH in H; [exact H|].
    assert (I1 : queue_inv st1).
    { unfold take_block in H1. destruct (LogBase.isDiscard rec).
      - injection H1 as _ <-. destruct Hinv as [A B C D]. constructor; assumption.
      - destruct (blockS !! i); [|discriminate]. injection H1 as _ <-. exact Hinv. }
    unfold clip_or_add in H2.
    set (sta := set_seqgen _ st1) in H2.
    assert (Ia : queue_inv sta)
      by (destruct I1 as [A B C D]; constructor; assumption).
    assert (Hflush : forall q0 n0 stb,
               queue_inv stb ->
               flush_if_many env q0 n0 stb = Ok (q2, n2, st2) -> queue_inv st2).
    { intros q0 n0 stb Ib Hf. unfold flush_if_many in Hf.
      destruct (queueSize_ env / 2 <=? n0); [|injection Hf as _ _ <-; exact Ib].
      apply bind_ok in Hf as (stc & Hc & Hf). apply bind_ok in Hf as (std & Hd & Hf).
      injection Hf as _ _ <-.
      apply prepareIos_inv in Hc; [|exact Ib].
      apply schedule_loop_quiet in Hd. eapply quiet_inv; eassumption. }
    destruct (u64 _ <=? bd_deviceSize env).
    + eapply Hflush; [|exact H2].
      destruct (LogBase.isDiscard rec); [|exact Ia].
      destruct Ia as [A B C D]. constructor; assumption.
    + eapply Hflush; [|exact H2].
      destruct Ia as [A B C D]. constructor; assumption.
Qed.

Lemma redoPack_inv rec blockS st st' :
  redoPack env rec blockS st = Ok st' -> queue_inv st -> queue_inv st'.
Proof.
  unfold redoPack. intros H Hinv.
  destruct (LogBase.isPadding rec).
  { injection H as <-. destruct Hinv as [A B C D]. constructor; assumption. }
  destruct (_ && _).
  { unfold redoDiscard in H. apply bind_ok in H as (st1 & H1 & H).
    injection H as <-. unfold waitForAllPendingIos in H1.
    apply wait_all_loop_inv in H1 as ([A B C D] & _); [|exact Hinv].
    constructor; assumption. }
  destruct (_ && _).
  { injection H as <-. destruct Hinv as [A B C D]. constructor; assumption. }
  unfold redoNormalIo in H. apply bind_ok in H as ([[q n] st1] & H1 & H).
  apply bind_ok in H as (st2 & H2 & H).
  apply redo_loop_inv in H1; [|exact Hinv].
  apply prepareIos_inv in H2; [|exact H1].
  apply schedule_loop_quiet in H. eapply quiet_inv; eassumption.
Qed.

Lemma redo_records_inv :
  forall recs st st',
    redo_records env recs st = Ok st' -> queue_inv st -> queue_inv st'.
Proof.
  induction recs as [|[rec blockS] recs IH]; intros st st' H Hinv.
  - simpl in H. injection H as <-. exact Hinv.
  - cbn [redo_records] in H. apply bind_ok in H as (st1 & H1 & H2).
    apply (IH st1 st' H2). eapply redoPack_inv; eassumption.
Qed.

Lemma queue_inv_init : queue_inv applyer_init.
Proof.
  constructor; cbn; [constructor|intros k p []|constructor|reflexivity].
Qed.

Lemma drained_count st :
  queue_inv st -> ioQ_ st = [] ->
  set_ (olData_ st) = []
  /\ nWritten_ st + nOverwritten_ st = Z.of_nat (length (heap st)).
Proof.
  intros [Hnd Hk Hp Hc] E. rewrite E in Hp, Hc. split.
  - apply Permutation_sym, Permutation_nil in Hp.
    destruct (set_ (olData_ st)); [reflexivity|discriminate].
  - cbn [length] in Hc. lia.
Qed.

End DrainFacts.

Section DrainTheorems.

Import Redo RedoDrain.

(** waitForAllPendingIos drains the engine: when it returns, [ioQ_] and
    [readyIoQ_] are empty, the overlap set is empty (the assertion at its
    end), every IO that was pending has been counted once as written or as
    overwritten, and an empty submit queue is still empty. *)
Theorem waitForAllPendingIos_drains :
  forall env st st',
    queue_inv st ->
    waitForAllPendingIos env st = Ok st' ->
    ioQ_ st' = [] /\ readyIoQ_ st' = []
    /\ set_ (olData_ st') = []
    /\ length (heap st') = length (heap st)
    /\ nWritten_ st' + nOverwritten_ st'
       = nWritten_ st + nOverwritten_ st + Z.of_nat (length (ioQ_ st))
    /\ (submitIoQ_ st = [] -> submitIoQ_ st' = [])
    /\ queue_inv st'.
Proof.
  intros env st st' Hinv H. unfold waitForAllPendingIos in H.
  pose proof (waitForAllPendingIos_frame env same_geom same_geom_ok st st' H)
    as ([Hlen _] & _).
  destruct (wait_all_loop_inv env _ st st' H Hinv) as (I & A & B & S).
  destruct (drained_count st' I A) as [C D].
  split; [exact A|]. split; [exact B|]. split; [exact C|].
  split; [congruence|]. split; [|split; [exact S|exact I]].
  destruct Hinv as [_ _ _ Hc]. lia.
Qed.

Lemma waitForAllPendingIos_drains_witness :
  exists st st',
    redoPack (env_of 1048576 512 1024) (write_record 8 1)
             [mkAlignedArray 4096 (repeat Byte.x11 512)] applyer_init = Ok st
    /\ length (ioQ_ st) = 1%nat
    /\ waitForAllPendingIos (env_of 1048576 512 1024) st = Ok st'
    /\ set_ (olData_ st') = []
    /\ nWritten_ st' + nOverwritten_ st' = 1.
Proof.
  destruct (redoPack (env_of 1048576 512 1024) (write_record 8 1)
              [mkAlignedArray 4096 (repeat Byte.x11 512)] applyer_init)
    as [st|e] eqn:E1; [|exfalso; vm_compute in E1; discriminate].
  pose proof (redoPack_inv _ _ _ _ _ E1 queue_inv_init) as Hinv.
  assert (Hst : Ok st = Ok st) by reflexivity.
  rewrite <- E1 in Hst at 1. vm_compute in Hst. injection Hst as <-.
  match goal with |- exists st0 st', Ok ?s = Ok st0 /\ _ =>
    destruct (waitForAllPendingIos (env_of 1048576 512 1024) s)
      as [st'|e] eqn:E2; [|exfalso; vm_compute in E2; discriminate] end.
  eexists _, st'. split; [reflexivity|]. split; [reflexivity|].
  destruct (waitForAllPendingIos_drains _ _ _ Hinv E2) as (_ & _ & C & _ & D & _).
  split; [exact E2|]. split; [exact C|]. rewrite D. reflexivity.
Defined.

(** A run of readAndApply that returns leaves nothing behind: the three
    queues and the overlap set are empty, and every IO that was created is
    counted once, as written or as overwritten. *)
Theorem readAndApply_accounts :
  forall env recs st',
    readAndApply env recs applyer_init = Ok st' ->
    ioQ_ st' = [] /\ readyIoQ_ st' = [] /\ submitIoQ_ st' = []
    /\ set_ (olData_ st') = []
    /\ nWritten_ st' + nOverwritten_ st' = Z.of_nat (length (heap st')).
Proof.
  intros env recs st' H. unfold readAndApply in H.
  destruct (negb (canApply env)); [discriminate|].
  apply bind_ok in H as (st1 & H1 & H). apply bind_ok in H as (st2 & H2 & H).
  pose proof (redo_records_inv env recs _ _ H1 queue_inv_init) as I1.
  apply submitIos_quiet in H2 as [Q2 S2].
  pose proof (quiet_inv _ _ Q2 I1) as I2.
  unfold waitForAllPendingIos in H.
  destruct (wait_all_loop_inv env _ st2 st' H I2) as (I & A & B & S).
  destruct (drained_count st' I A) as [C D].
  split; [exact A|]. split; [exact B|]. split; [exact (S S2)|].
  split; [exact C|exact D].
Qed.

Lemma readAndApply_accounts_witness :
  exists st,
    readAndApply (env_of 1048576 4096 1024)
      [(write_record 0 8, [mkAlignedArray 4096 (repeat Byte.x11 4096)]);
       (write_record 0 8, [mkAlignedArray 8192 (repeat Byte.x22 4096)]);
       (write_record 64 8, [mkAlignedArray 12288 (repeat Byte.x33 4096)])]
      applyer_init = Ok st
    /\ nWritten_ st + nOverwritten_ st = 3
    /\ set_ (olData_ st) = [].
Proof.
  destruct (readAndApply (env_of 1048576 4096 1024)
              [(write_record 0 8, [mkAlignedArray 4096 (repeat Byte.x11 4096)]);
               (write_record 0 8, [mkAlignedArray 8192 (repeat Byte.x22 4096)]);
               (write_record 64 8, [mkAlignedArray 12288 (repeat Byte.x33 4096)])]
              applyer_init) as [st|e] eqn:E.
  - exists st. split; [reflexivity|].
    destruct (readAndApply_accounts _ _ _ E) as (_ & _ & _ & C & D).
    split; [|exact C]. rewrite D.
    assert (Hst : Ok st = Ok st) by reflexivity.
    rewrite <- E in Hst at 1. vm_compute in Hst. injection Hst as <-.
    reflexivity.
  - exfalso. vm_compute in E. discriminate.
Defined.

End DrainTheorems.

Section BytesFacts.

Import Redo RedoBytes.

Variable env : Env.
Hypothesis Henv : env_ok env.

Lemma io_sizes_app q1 q2 : io_sizes (q1 ++ q2) = io_sizes q1 + io_sizes q2.
Proof.
  unfold io_sizes. induction q1 as [|x q1 IH]; cbn in *; lia.
Qed.

Lemma io_sizes_rel h h' : heap_rel same_geom h h' -> io_sizes h = io_sizes h'.
Proof.
  intros [Hlen Hg]. unfold io_sizes. f_equal.
  apply list_eq. intros i. rewrite !list_lookup_fmap.
  specialize (Hg i). destruct Hg as [_ Hs]. unfold deref in Hs.
  destruct (h !! i) as [a|] eqn:Ea, (h' !! i) as [b|] eqn:Eb; cbn in *.
  - congruence.
  - apply lookup_lt_Some in Ea. apply lookup_ge_None in Eb. lia.
  - apply lookup_lt_Some in Eb. apply lookup_ge_None in Ea. lia.
  - reflexivity.
Qed.

(** IoQueue::add puts the bytes of the IO into the staging queue, in a new
    IO or in the last one. *)
Lemma IoQueue_add_sizes ioQ iop :
  Forall (in_dev env) ioQ -> in_dev env iop ->
  io_sizes (IoQueue_add ioQ iop) = io_sizes ioQ + size_ iop.
Proof.
  intros Hq Hio.
  destruct (IoQueue_add_cases ioQ iop) as [->|(front & back & back' & iop' & -> & Hm & ->)].
  - rewrite io_sizes_app. unfold io_sizes. cbn. lia.
  - apply Forall_app in Hq as [_ Hb]. inversion Hb as [|? ? Hback _]; subst.
    apply IoQueue_tryMerge_true in Hm as [_ Hm].
    apply tryMerge_true in Hm as (_ & -> & _).
    destruct Hback as (B1 & B2 & B3), Hio as (I1 & I2 & I3).
    pose proof (eo_size env Henv) as Hd.
    rewrite !io_sizes_app. unfold io_sizes. cbn [map fold_right].
    assert (E : size_ (set_blocks_ (blocks_ back ++ blocks_ iop)
                         (set_size_ (u64 (size_ back + size_ iop)) back))
                = size_ back + size_ iop).
    { assert (Hu : u64 (size_ back + size_ iop) = size_ back + size_ iop)
        by (apply u64_small; lia).
      destruct back; exact Hu. }
    rewrite E. lia.
Qed.

Lemma enqueue_loop_bytes :
  forall ioQ st,
    io_sizes (heap (enqueue_loop ioQ st)) = io_sizes (heap st) + io_sizes ioQ.
Proof.
  induction ioQ as [|io ioQ IH]; intros st; [unfold io_sizes; cbn; lia|].
  cbn [enqueue_loop]. rewrite IH.
  set (st1 := set_heap (heap st ++ [io]) st).
  assert (E : io_sizes (heap (insertToOverlappedData st1 (length (heap st))))
              = io_sizes (heap st) + size_ io).
  { rewrite insertToOverlappedData_heap.
    rewrite <- (io_sizes_rel _ _ (heap_rel_ins same_geom same_geom_ok _ _ _)).
    cbn [heap st1 set_heap]. rewrite io_sizes_app. unfold io_sizes. cbn. lia. }
  destruct (nOverlapped_ _ =? 0); cbn [heap set_ioQ_ set_readyIoQ_]; rewrite E;
    unfold io_sizes; cbn [map fold_right]; lia.
Qed.

Lemma prepareIos_bytes ioQ nBlocks st st' :
  prepareIos env ioQ nBlocks st = Ok st' ->
  io_sizes (heap st') = io_sizes (heap st) + io_sizes ioQ.
Proof.
  unfold prepareIos. intros H. apply bind_ok in H as (st1 & H1 & H2).
  apply (wait_room_loop_frame env same_geom same_geom_ok) in H1 as (F1 & _).
  injection H2 as <-. rewrite enqueue_loop_bytes.
  cbn [heap set_nPendingBlocks_]. rewrite (io_sizes_rel _ _ F1). reflexivity.
Qed.

Lemma flush_if_many_bytes tmpIoQ nBlocks st q n st' :
  flush_if_many env tmpIoQ nBlocks st = Ok (q, n, st') ->
  io_sizes (heap st') + io_sizes q = io_sizes (heap st) + io_sizes tmpIoQ.
Proof.
  unfold flush_if_many. intros H.
  destruct (queueSize_ env / 2 <=? nBlocks).
  - apply bind_ok in H as (st1 & H1 & H). apply bind_ok in H as (st2 & H2 & H).
    injection H as <- <- <-.
    apply prepareIos_bytes in H1.
    apply (scheduleIos_frame env same_geom same_geom_ok) in H2 as (F2 & _).
    rewrite <- (io_sizes_rel _ _ F2), H1. change (io_sizes []) with 0. lia.
  - injection H as <- <- <-. reflexivity.
Qed.

(** The loop "Create IOs": the store and the staging queue gain the bytes
    of the IOs that pass the clip test. *)
Lemma redo_loop_bytes rec blockS :
  forall cnt i tmpIoQ remaining off nBlocks st tmpIoQ' nBlocks' st',
    0 <= off -> 0 <= remaining -> off + remaining < 2 ^ 63 ->
    redo_loop env rec blockS cnt i tmpIoQ remaining off nBlocks st
    = Ok (tmpIoQ', nBlocks', st') ->
    range_inv env st -> Forall (in_dev env) tmpIoQ ->
    io_sizes (heap st') + io_sizes tmpIoQ'
    = io_sizes (heap st) + io_sizes tmpIoQ
      + ios_size (kept_ios env (split_ios (blockSize_ env) cnt off remaining)).
Proof.
  induction cnt as [|cnt IH];
    intros i tmpIoQ remaining off nBlocks st tmpIoQ' nBlocks' st' Ho Hr Hs H Hinv Hq.
  - simpl in H. injection H as <- <- <-. unfold ios_size. cbn. lia.
  - cbn [redo_loop] in H.
    apply bind_ok in H as ([block st1] & Hb & H). cbv zeta in H.
    apply bind_ok in H as ([[q2 n2] st2] & Hc & H).
    pose proof (eo_block env Henv) as Hbs.
    pose proof (eo_size env Henv) as Hds.
    set (size := Z.min (blockSize_ env) remaining) in *.
    assert (Hsz : 0 <= size <= remaining) by (unfold size; lia).
    pose proof (take_block_fields env _ _ _ _ _ _ Hb) as (Eh & Ea & Ec & Es).
    assert (Hinv1 : range_inv env (set_seqgen (u64 (seqgen st1 + 1)) st1)).
    { destruct Hinv as [G1 G2 G3]. constructor; cbn; rewrite ?Eh, ?Ea; assumption. }
    pose proof (clip_or_add_range env Henv rec (newIo off size block (seqgen st1))
                  tmpIoQ nBlocks _ Ho (proj1 Hsz) ltac:(cbn; lia) Hinv1 Hq) as Hca.
    assert (Hadd : io_sizes (heap (snd (clip_or_add env rec
                               (newIo off size block (seqgen st1)) tmpIoQ nBlocks
                               (set_seqgen (u64 (seqgen st1 + 1)) st1))))
                   + io_sizes (fst (fst (clip_or_add env rec
                               (newIo off size block (seqgen st1)) tmpIoQ nBlocks
                               (set_seqgen (u64 (seqgen st1 + 1)) st1))))
                   = io_sizes (heap st) + io_sizes tmpIoQ
                     + (if bd_deviceSize env <? off + size then 0 else size)).
    { unfold clip_or_add. cbn [offset_ size_ newIo].
      rewrite u64_small by lia.
      destruct (Z.leb_spec (off + size) (bd_deviceSize env)) as [Hle|Hgt].
      - destruct (Z.ltb_spec (bd_deviceSize env) (off + size)); [lia|].
        cbn [fst snd]. rewrite IoQueue_add_sizes; [|exact Hq|unfold in_dev; cbn; lia].
        destruct (LogBase.isDiscard rec); cbn [heap set_nDiscard_ set_seqgen size_ newIo];
          rewrite Eh; lia.
      - destruct (Z.ltb_spec (bd_deviceSize env) (off + size)); [|lia].
        cbn [fst snd heap set_nClipped_ set_seqgen]. rewrite Eh. lia. }
    destruct (clip_or_add env rec (newIo off size block (seqgen st1)) tmpIoQ nBlocks
                (set_seqgen (u64 (seqgen st1 + 1)) st1)) as [[q1 n1] sta].
    destruct Hca as (Ra & Qa & Ca). cbn [fst snd] in Hadd.
    pose proof (flush_if_many_bytes _ _ _ _ _ _ Hc) as Hfl.
    apply (flush_if_many_range env) in Hc as (Rb & Qb & Cb); [|exact Ra|exact Qa].
    rewrite s64_small in H by lia. rewrite u64_small in H by lia.
    apply IH in H; [|lia|lia|lia|exact Rb|exact Qb].
    rewrite H. cbn [split_ios]. fold size. unfold kept_ios. cbn [List.filter fst snd].
    fold (kept_ios env (split_ios (blockSize_ env) cnt (off + size) (remaining - size))).
    destruct (bd_deviceSize env <? off + size); cbn [negb];
      unfold ios_size; cbn [map fold_right snd];
      fold (ios_size (kept_ios env
                        (split_ios (blockSize_ env) cnt (off + size) (remaining - size))));
      lia.
Qed.

Lemma redoNormalIo_bytes_eq rec blockS st st' :
  rec_ok rec ->
  redoNormalIo env rec blockS st = Ok st' -> range_inv env st ->
  io_sizes (heap st')
  = io_sizes (heap st) + ios_size (kept_ios env (record_ios env rec)).
Proof.
  intros [O1 O2 O3 O4] H Hinv. unfold redoNormalIo in H.
  apply bind_ok in H as ([[q n] st1] & H1 & H).
  apply bind_ok in H as (st2 & H2 & H3).
  unfold LogBase.ioSizeLb in H1. unfold LOGICAL_BLOCK_SIZE in *.
  rewrite u32_small in H1 by lia. rewrite s64_small in H1 by lia.
  apply redo_loop_bytes in H1; [|lia|lia|lia|exact Hinv|constructor].
  apply prepareIos_bytes in H2.
  apply (scheduleIos_frame env same_geom same_geom_ok) in H3 as (F3 & _).
  rewrite <- (io_sizes_rel _ _ F3), H2.
  unfold record_ios, LOGICAL_BLOCK_SIZE.
  change (io_sizes []) with 0 in H1. lia.
Qed.

Lemma split_ios_size bs :
  0 < bs ->
  forall cnt off remaining,
    0 <= remaining ->
    ios_size (split_ios bs cnt off remaining) = Z.min remaining (Z.of_nat cnt * bs).
Proof.
  intros Hbs. induction cnt as [|cnt IH]; intros off remaining Hr.
  - unfold ios_size. cbn. lia.
  - cbn [split_ios]. unfold ios_size. cbn [map fold_right snd].
    fold (ios_size (split_ios bs cnt (off + Z.min bs remaining)
                      (remaining - Z.min bs remaining))).
    rewrite IH by lia. nia.
Qed.

Lemma split_ios_contiguous bs :
  forall cnt off remaining, contiguous off (split_ios bs cnt off remaining).
Proof.
  induction cnt as [|cnt IH]; intros off remaining; [exact I|].
  cbn [split_ios contiguous fst snd]. split; [reflexivity|apply IH].
Qed.

Lemma kept_all ios :
  Forall (fun os => fst os + snd os <= bd_deviceSize env) ios -> kept_ios env ios = ios.
Proof.
  induction 1 as [|os ios Hos _ IH]; [reflexivity|].
  unfold kept_ios in *. cbn [List.filter].
  destruct (Z.ltb_spec (bd_deviceSize env) (fst os + snd os)); [lia|].
  cbn [negb]. rewrite IH. reflexivity.
Qed.

Lemma split_ios_within bs :
  0 < bs ->
  forall cnt off remaining,
    0 <= remaining ->
    Forall (fun os => 0 <= snd os /\ fst os + snd os <= off + remaining)
           (split_ios bs cnt off remaining).
Proof.
  intros Hbs. induction cnt as [|cnt IH]; intros off remaining Hr; [constructor|].
  cbn [split_ios]. constructor; [cbn [fst snd]; lia|].
  eapply Forall_impl; [apply IH; lia|]. intros [o s]. cbn [fst snd]. lia.
Qed.

Lemma kept_ios_size ios :
  Forall (fun os => 0 <= snd os) ios ->
  0 <= ios_size (kept_ios env ios) <= ios_size ios.
Proof.
  induction 1 as [|os ios Hos _ IH]; [unfold ios_size; cbn; lia|].
  unfold kept_ios, ios_size in *. cbn [List.filter map fold_right].
  destruct (negb (bd_deviceSize env <? fst os + snd os)); cbn [map fold_right]; lia.
Qed.

Lemma clipped_none ios :
  Forall (fun os => fst os + snd os <= bd_deviceSize env) ios -> clipped_ios env ios = [].
Proof.
  induction 1 as [|os ios Hos _ IH]; [reflexivity|].
  unfold clipped_ios in *. cbn [List.filter].
  destruct (Z.ltb_spec (bd_deviceSize env) (fst os + snd os)); [lia|exact IH].
Qed.

End BytesFacts.

Section BytesTheorems.

Import Redo RedoBytes.

(** The bytes that redoNormalIo asks to write for a record, when the loop
    over the blocks ends with nothing of the record left, as the source
    asserts: that is when ioSizePb blocks of the device hold the record,
    as they do when the block size of the device is the physical block
    size of the log. The IOs that the call adds to the store have at most
    the bytes of the record, coalescing losing none; they have exactly the
    bytes of the record, and nothing is clipped, when the record lies on
    the device. *)
Theorem redoNormalIo_bytes :
  forall env rec blockS st st',
    env_ok env -> rec_ok rec -> range_inv env st ->
    LogBase.io_size rec * LOGICAL_BLOCK_SIZE
    <= LogBase.ioSizePb rec (wh_pbs env) * blockSize_ env ->
    redoNormalIo env rec blockS st = Ok st' ->
    io_sizes (heap st) <= io_sizes (heap st')
      <= io_sizes (heap st) + LogBase.io_size rec * LOGICAL_BLOCK_SIZE
    /\ ((LogBase.offset rec + LogBase.io_size rec) * LOGICAL_BLOCK_SIZE
        <= bd_deviceSize env ->
        io_sizes (heap st')
        = io_sizes (heap st) + LogBase.io_size rec * LOGICAL_BLOCK_SIZE
        /\ nClipped_ st' = nClipped_ st).
Proof.
  intros env rec blockS st st' Henv Hrec Hinv Hfit H.
  pose proof (eo_block env Henv) as Hbs.
  pose proof (redoNormalIo_bytes_eq env Henv rec blockS st st' Hrec H Hinv) as Hb.
  pose proof (redoNormalIo_range env Henv rec blockS st st' Hrec H Hinv) as [_ Hc].
  destruct Hrec as [O1 O2 O3 O4].
  assert (Hpb : 0 <= LogBase.ioSizePb rec (wh_pbs env)).
  { unfold LogBase.ioSizePb, capacity_pb, u32, wrap.
    apply Z.mod_pos_bound. lia. }
  assert (Hr : 0 <= LogBase.io_size rec * LOGICAL_BLOCK_SIZE)
    by (unfold LOGICAL_BLOCK_SIZE; lia).
  assert (Hsum : ios_size (record_ios env rec) = LogBase.io_size rec * LOGICAL_BLOCK_SIZE).
  { unfold record_ios. rewrite (split_ios_size _ Hbs) by exact Hr.
    rewrite Z2Nat.id by exact Hpb. lia. }
  pose proof (split_ios_within (blockSize_ env) Hbs
                (Z.to_nat (LogBase.ioSizePb rec (wh_pbs env)))
                (LogBase.offset rec * LOGICAL_BLOCK_SIZE)
                (LogBase.io_size rec * LOGICAL_BLOCK_SIZE) Hr) as Hw.
  fold (record_ios env rec) in Hw.
  split.
  - destruct (kept_ios_size env (record_ios env rec)) as [K1 K2].
    { eapply Forall_impl; [exact Hw|]. intros os [A _]. exact A. }
    rewrite Hb, <- Hsum. lia.
  - intros Hin.
    assert (Hall : Forall (fun os => fst os + snd os <= bd_deviceSize env)
                          (record_ios env rec)).
    { eapply Forall_impl; [exact Hw|]. intros os [_ A]. lia. }
    split.
    + rewrite Hb, (kept_all env _ Hall), Hsum. reflexivity.
    + rewrite Hc, (clipped_none env _ Hall). cbn. lia.
Qed.

(** A record of 8 LB at the start of a device whose blocks are those of the
    log: 4096 bytes in IOs of 512. *)
Lemma redoNormalIo_bytes_witness :
  exists st',
    redoNormalIo (env_of 1048576 512 1024) (write_record 0 8)
                 (map (fun i => mkAlignedArray (4096 + 1024 * Z.of_nat i) (repeat Byte.x11 512))
                      (seq 0 8))
                 applyer_init = Ok st'
    /\ io_sizes (heap st') = 4096
    /\ nClipped_ st' = 0.
Proof.
  set (E := env_of 1048576 512 1024).
  set (bl := map (fun i => mkAlignedArray (4096 + 1024 * Z.of_nat i) (repeat Byte.x11 512))
                 (seq 0 8)).
  destruct (redoNormalIo E (write_record 0 8) bl applyer_init) as [st'|e] eqn:E1;
    [|exfalso; vm_compute in E1; discriminate].
  exists st'. split; [reflexivity|].
  assert (He : env_ok E).
  { constructor; [reflexivity|split; [intro; discriminate|reflexivity]]. }
  assert (Hr : rec_ok (write_record 0 8)).
  { constructor; vm_compute; first [reflexivity | intro; discriminate]. }
  destruct (redoNormalIo_bytes E (write_record 0 8) bl applyer_init st' He Hr
              (range_inv_init E)) as [_ Hin].
  - vm_compute. intro; discriminate.
  - exact E1.
  - destruct Hin as [A B]; [vm_compute; intro; discriminate|].
    split; [exact A|exact B].
Defined.

End BytesTheorems.

Section ChecksumFacts.

Import LogBase LogChecksum.

Lemma le_words_nil n : Util.le_words n [] = [].
Proof. destruct n; reflexivity. Qed.

Lemma le_words_fuel :
  forall n m data,
    (length data <= 4 * n)%nat -> (length data <= 4 * m)%nat ->
    Util.le_words n data = Util.le_words m data.
Proof.
  induction n as [|n IH]; intros m data Hn Hm.
  - destruct data; [|cbn in Hn; lia]. destruct m; reflexivity.
  - destruct data as [|b0 r0]; [destruct m; reflexivity|].
    destruct m as [|m]; [cbn in Hm; lia|].
    cbn [Util.le_words].
    destruct r0 as [|b1 r1]; [rewrite !le_words_nil; reflexivity|].
    destruct r1 as [|b2 r2]; [rewrite !le_words_nil; reflexivity|].
    destruct r2 as [|b3 r3]; [rewrite !le_words_nil; reflexivity|].
    f_equal. apply IH; cbn [length] in *; lia.
Qed.

Lemma le_words_step n b0 b1 b2 b3 r :
  Util.le_words (S n) (b0 :: b1 :: b2 :: b3 :: r)
  = (Util.byte_val b0 + 2 ^ 8 * Util.byte_val b1 + 2 ^ 16 * Util.byte_val b2
     + 2 ^ 24 * Util.byte_val b3) :: Util.le_words n r.
Proof. reflexivity. Qed.

Lemma le_words_app4 :
  forall k a b,
    length a = (4 * k)%nat ->
    Util.le_words (length (a ++ b)) (a ++ b)
    = Util.le_words (length a) a ++ Util.le_words (length b) b.
Proof.
  induction k as [|k IH]; intros a b Hk.
  - destruct a; [reflexivity|cbn in Hk; lia].
  - destruct a as [|b0 [|b1 [|b2 [|b3 a]]]]; cbn [length] in Hk; try lia.
    cbn [app length]. rewrite !le_words_step. cbn [app]. f_equal.
    rewrite (le_words_fuel _ (length (a ++ b)) (a ++ b))
      by (rewrite ?length_app; lia).
    rewrite (le_words_fuel _ (length a) a) by lia.
    apply IH. lia.
Qed.

(** The sum of the words of a buffer may be taken part by part when the
    first part is a whole number of words. *)
Lemma checksumPartial_app a b csum :
  (Z.of_nat (length a)) mod 4 = 0 ->
  Util.checksumPartial (a ++ b) csum
  = Util.checksumPartial b (Util.checksumPartial a csum).
Proof.
  intros Hm. unfold Util.checksumPartial.
  rewrite (le_words_app4 (length a / 4) a b).
  - apply fold_left_app.
  - apply Nat2Z.inj. rewrite Nat2Z.inj_mul, Nat2Z.inj_div.
    change (Z.of_nat 4) with 4.
    pose proof (Z.div_mod (Z.of_nat (length a)) 4). lia.
Qed.

Lemma checksumPartial_nil csum : Util.checksumPartial [] csum = csum.
Proof. reflexivity. Qed.

Lemma calcChecksum_loop_spec pbs0 rest :
  0 < pbs0 -> pbs0 mod 4 = 0 ->
  Forall (fun b => Z.of_nat (length b) = pbs0) rest ->
  forall remaining csum,
    0 <= remaining <= Z.of_nat (length rest) * pbs0 ->
    calcChecksum_loop pbs0 rest remaining csum
    = Ok (Util.checksumPartial (take (Z.to_nat remaining) (concat rest)) csum).
Proof.
  intros Hp Hm Hall. induction Hall as [|blk rest Hb Hall IH]; intros remaining csum Hr.
  - simpl in *. assert (remaining = 0) by lia. subst. reflexivity.
  - cbn [calcChecksum_loop].
    destruct (Z.ltb_spec 0 remaining) as [Hpos|Hpos].
    + cbn [concat]. rewrite take_app.
      destruct (Z.le_gt_cases remaining pbs0) as [Hle|Hgt].
      * rewrite Z.min_r by lia.
        replace (Z.to_nat remaining - length blk)%nat with 0%nat by lia.
        rewrite take_0, app_nil_r.
        rewrite IH by (rewrite length_cons in Hr; lia).
        replace (remaining - remaining) with 0 by lia. reflexivity.
      * rewrite Z.min_l by lia.
        rewrite !take_ge by lia.
        rewrite IH by (rewrite length_cons in Hr; lia).
        rewrite checksumPartial_app by (rewrite Hb; exact Hm).
        do 3 f_equal. lia.
    + assert (remaining = 0) by lia. subst. reflexivity.
Qed.

Lemma calcChecksum_spec pbs0 rec blockS salt :
  Converter.blocks_ok pbs0 rec blockS ->
  pbs0 mod 4 = 0 ->
  0 <= io_size rec ->
  calcChecksum blockS (io_size rec) salt
  = Ok (Util.calcChecksum (Converter.payload rec blockS) salt).
Proof.
  intros [Hpbs Hpos Hall Hfit Hmem] Hm Hsz.
  unfold calcChecksum, checkPbs, checkSizeLb.
  destruct (Z.eqb_spec (lbs_pbs blockS) 0) as [E|_]; [lia|]. cbn [bind].
  assert (Hbytes : u64 (io_size rec * LOGICAL_BLOCK_SIZE)
                   = io_size rec * LOGICAL_BLOCK_SIZE).
  { apply u64_small. unfold LOGICAL_BLOCK_SIZE in *. unfold nBlocks in *. lia. }
  assert (Hmem' : u64 (nBlocks blockS * lbs_pbs blockS) = nBlocks blockS * pbs0).
  { rewrite Hpbs. apply u64_small. unfold nBlocks in *. lia. }
  rewrite Hbytes, Hmem'.
  destruct (Z.ltb_spec (nBlocks blockS * pbs0) (io_size rec * LOGICAL_BLOCK_SIZE));
    [lia|].
  cbn [bind]. rewrite Hpbs.
  rewrite (calcChecksum_loop_spec pbs0 (data_ blockS) Hpos Hm Hall)
    by (unfold nBlocks in Hfit; unfold LOGICAL_BLOCK_SIZE in *; lia).
  reflexivity.
Qed.

End ChecksumFacts.

Section ChecksumTheorems.

Import LogBase LogChecksum.

(** LogBlockShared::calcChecksum goes through the physical blocks of an IO
    and yet gives the checksum of its payload taken as one buffer, for
    blocks of a whole number of 32-bit words (with salt 0 this is the
    checksum that the converter stores in the diff record); so
    verifyLogChecksum accepts
    a record with data exactly when its checksum field is the salted
    checksum of the payload, and accepts every record without data or
    that is a padding. Without a block size or with too few blocks the
    checksum is refused with the error of the check. *)
Theorem calcChecksum_of_payload :
  forall pbs0 rec blockS salt,
    Converter.blocks_ok pbs0 rec blockS ->
    pbs0 mod 4 = 0 ->
    0 <= io_size rec ->
    calcChecksum blockS (io_size rec) salt
    = Ok (Util.calcChecksum (Converter.payload rec blockS) salt)
    /\ calcIoChecksumWithZeroSalt rec blockS
       = Ok (Util.calcChecksum (Converter.payload rec blockS) 0)
    /\ isLogChecksumValid rec blockS salt
       = negb (LogPack.hasDataForChecksum rec)
         || (Util.calcChecksum (Converter.payload rec blockS) salt =? checksum rec)
    /\ (LogPack.hasDataForChecksum rec = true ->
        checksum rec <> Util.calcChecksum (Converter.payload rec blockS) salt ->
        verifyLogChecksum rec blockS salt = Throw "verifyLogChecksum:invalid checksum")
    /\ (forall b n s, lbs_pbs b = 0 ->
                      calcChecksum b n s = Throw "LogBlockShared:pbs is zero")
    /\ (forall b n s, lbs_pbs b <> 0 ->
                      u64 (nBlocks b * lbs_pbs b) < u64 (n * LOGICAL_BLOCK_SIZE) ->
                      calcChecksum b n s
                      = Throw "LogBlockShared:checkSizeLb:ioSizeLb too large").
Proof.
  intros pbs0 rec blockS salt Hok Hm Hsz.
  pose proof (calcChecksum_spec pbs0 rec blockS salt Hok Hm Hsz) as Hc.
  split; [exact Hc|].
  split; [exact (calcChecksum_spec pbs0 rec blockS 0 Hok Hm Hsz)|].
  split; [|split; [|split]].
  - unfold isLogChecksumValid, verifyLogChecksum.
    destruct (LogPack.hasDataForChecksum rec); cbn [negb orb]; [|reflexivity].
    rewrite Hc. cbn [bind].
    destruct (Util.calcChecksum (Converter.payload rec blockS) salt =? checksum rec);
      reflexivity.
  - intros Hd Hne. unfold verifyLogChecksum. rewrite Hd, Hc. cbn [negb bind].
    destruct (Z.eqb_spec (Util.calcChecksum (Converter.payload rec blockS) salt)
                         (checksum rec)); [congruence|reflexivity].
  - intros b n s E. unfold calcChecksum, checkPbs. rewrite E. reflexivity.
  - intros b n s E Hlt. unfold calcChecksum, checkPbs, checkSizeLb.
    destruct (Z.eqb_spec (lbs_pbs b) 0); [contradiction|]. cbn [bind].
    destruct (Z.ltb_spec (u64 (nBlocks b * lbs_pbs b)) (u64 (n * LOGICAL_BLOCK_SIZE)));
      [reflexivity|lia].
Qed.

Lemma calcChecksum_of_payload_witness :
  calcChecksum (mkLogBlockShared 512 [repeat Byte.x01 512; repeat Byte.x02 512]) 2 7
  = Ok (Util.calcChecksum (repeat Byte.x01 512 ++ repeat Byte.x02 512) 7).
Proof.
  destruct (calcChecksum_of_payload 512 (mkLogRecord 0 0 0 1 0 2)
              (mkLogBlockShared 512 [repeat Byte.x01 512; repeat Byte.x02 512]) 7)
    as (H & _).
  - constructor.
    + reflexivity.
    + reflexivity.
    + repeat constructor.
    + vm_compute. congruence.
    + reflexivity.
  - reflexivity.
  - vm_compute. congruence.
  - exact H.
Defined.

End ChecksumTheorems.

Section SafetyFacts.

Import Redo RedoOverlap RedoSafety.

Variable env : Env.

Lemma same_core_geom a b : same_core a b -> same_geom a b.
Proof. intros (A & B & _). split; assumption. Qed.

Lemma core_refl h : heap_rel same_core h h.
Proof. split; [reflexivity|]. intros q. repeat split. Qed.

Lemma core_trans h1 h2 h3 :
  heap_rel same_core h1 h2 -> heap_rel same_core h2 h3 -> heap_rel same_core h1 h3.
Proof.
  intros [L1 H1] [L2 H2]. split; [congruence|].
  intros q. destruct (H1 q) as (A & B & C), (H2 q) as (A' & B' & C').
  repeat split; congruence.
Qed.

Lemma core_upd h p f :
  (forall io, same_core io (f io)) -> heap_rel same_core h (upd h p f).
Proof.
  intros Hf. split; [symmetry; apply length_upd|].
  intros q. apply (deref_upd_rel same_core h p f q); [|apply Hf].
  intros io. repeat split.
Qed.

Lemma ol_inv_core h h' ol : heap_rel same_core h h' -> ol_inv h ol -> ol_inv h' ol.
Proof.
  intros [Hlen Hg] [Hs He Hc]. constructor; [exact Hs| |exact Hc].
  intros k p Hin. destruct (He k p Hin) as (A & B & C & D).
  destruct (Hg p) as (E1 & E2 & _). rewrite <- Hlen, <- E1, <- E2. auto.
Qed.

Lemma counted_core h h' ol : heap_rel same_core h h' -> counted h ol -> counted h' ol.
Proof.
  intros [Hlen Hg] [Hnd Hct]. constructor; [exact Hnd|].
  intros k p Hin. rewrite (earlier_geom h h').
  - destruct (Hg p) as (_ & _ & E). rewrite <- E. apply (Hct k p Hin).
  - intros q. apply same_core_geom. apply Hg.
Qed.

Lemma ol_inv_app h io ol : ol_inv h ol -> ol_inv (h ++ [io]) ol.
Proof.
  intros [Hs He Hc]. constructor; [exact Hs| |exact Hc].
  intros k p Hin. destruct (He k p Hin) as (A & B & C & D).
  rewrite length_app, deref_app_l by exact A. cbn [length]. split; [lia|auto].
Qed.

Lemma counted_app h io ol : ol_inv h ol -> counted h ol -> counted (h ++ [io]) ol.
Proof.
  intros [Hs He Hc] [Hnd Hct]. constructor; [exact Hnd|].
  intros k p Hin. destruct (He k p Hin) as (A & _).
  rewrite deref_app_l by exact A. rewrite (Hct k p Hin). do 2 f_equal.
  unfold earlier. apply filter_ext_in. intros [k' p'] Hin'.
  destruct (He k' p' Hin') as (A' & _).
  unfold ov_with. cbn [snd]. rewrite !deref_app_l by assumption. reflexivity.
Qed.

(** The loop of del touches the IOs of the iterator only. *)
Lemma del_scan_other iop key1 p :
  forall it h ioQ,
    ~ In p (map snd it) ->
    deref (fst (del_scan iop key1 it h ioQ)) p = deref h p.
Proof.
  induction it as [|[k p0] it IH]; intros h ioQ Hp; [reflexivity|].
  cbn [map snd] in Hp. cbn [del_scan]. destruct (k <? key1); [|reflexivity].
  assert (Hne : p0 <> p) by (intros ->; apply Hp; left; reflexivity).
  assert (Hit : ~ In p (map snd it)) by (intros H; apply Hp; right; exact H).
  destruct (isOverlapped _ _); [|apply IH; exact Hit].
  destruct (nOverlapped_ _ =? 0); rewrite IH by exact Hit;
    apply deref_upd_ne; exact Hne.
Qed.

(** What del does to an IO: nothing, or its counter of at least 1 goes down
    by one, for an IO that stays in the set and overlaps the deleted one. *)
Lemma del_cases h ol iop ioQ p :
  ol_inv h ol ->
  counted h ol ->
  In (offset_ (deref h iop), iop) (set_ ol) ->
  nOverlapped_ (deref h iop) = 0 ->
  offset_ (deref h iop) + size_ (deref h iop) < 2 ^ 63 ->
  deref (fst (fst (del h ol iop ioQ))) p = deref h p
  \/ (deref (fst (fst (del h ol iop ioQ))) p = dec (deref h p)
      /\ 1 <= nOverlapped_ (deref h p) < 2 ^ 32
      /\ exists k, In (k, p) (set_ (snd (fst (del h ol iop ioQ))))
                   /\ ov_with h iop (k, p) = true).
Proof.
  intros Hinv Hct Hin Hz Hend.
  destruct (del_spec h ol iop ioQ Hinv Hct Hin Hz Hend)
    as (Hset & _ & _ & _ & Hderef & Hlater).
  destruct (in_dec Nat.eq_dec p (map snd (set_ (snd (fst (del h ol iop ioQ))))))
    as [Hp|Hp].
  - apply in_map_iff in Hp as ([k p'] & E & Hx). cbn [snd] in E. subst p'.
    rewrite (Hderef k p Hx). destruct (ov_with h iop (k, p)) eqn:Hov; [|left; reflexivity].
    right. split; [reflexivity|]. destruct (Hlater k p Hx Hov) as (_ & H1).
    split; [exact H1|]. exists k. split; [exact Hx|exact Hov].
  - left. rewrite del_parts. cbv zeta. cbn [fst snd].
    apply del_scan_other. intros Hx. apply Hp.
    rewrite del_parts. cbv zeta. cbn [fst snd set_].
    apply in_map_iff in Hx as (e & E & Hx). apply in_map_iff. exists e.
    split; [exact E|]. eapply lower_bound_sub. exact Hx.
Qed.

Lemma dec_fields io :
  isSubmitted_ (dec io) = isSubmitted_ io
  /\ offset_ (dec io) = offset_ io /\ size_ (dec io) = size_ io.
Proof. destruct io; repeat split. Qed.

(** The loop of submitIos. *)
Lemma submit_loop_sched :
  forall q st n st' n',
    submit_loop q st n = Ok (st', n') ->
    heap_rel same_core (heap st) (heap st')
    /\ ioQ_ st' = ioQ_ st /\ olData_ st' = olData_ st
    /\ readyIoQ_ st' = readyIoQ_ st
    /\ submitIoQ_ st' = match q with [] => submitIoQ_ st | _ => [] end
    /\ (forall p, isSubmitted_ (deref (heap st') p) = true ->
                  isSubmitted_ (deref (heap st) p) = true \/ In p q).
Proof.
  induction q as [|iop q IH]; intros st n st' n' H.
  - simpl in H. injection H as <- <-.
    split; [apply core_refl|]. repeat split; auto.
  - cbn [submit_loop] in H.
    destruct (isOverwritten_ (deref (heap (set_submitIoQ_ q st)) iop)) eqn:Eo.
    + apply IH in H as (H1 & H2 & H3 & H4 & H5 & H6).
      cbn [heap ioQ_ olData_ readyIoQ_ submitIoQ_ set_submitIoQ_] in *.
      split; [exact H1|]. split; [exact H2|]. split; [exact H3|]. split; [exact H4|].
      split; [rewrite H5; destruct q; reflexivity|].
      intros p Hp. destruct (H6 p Hp) as [A|A]; [left; exact A|right; right; exact A].
    + destruct (blocks_ (deref (heap (set_submitIoQ_ q st)) iop)) as [|b bs];
        [discriminate|].
      apply IH in H as (H1 & H2 & H3 & H4 & H5 & H6).
      cbn [heap ioQ_ olData_ readyIoQ_ submitIoQ_ set_submitIoQ_ set_heap set_aio_
           prepareWrite fst snd] in *.
      split.
      { eapply core_trans; [|exact H1]. apply core_upd. intros io. repeat split. }
      split; [exact H2|]. split; [exact H3|]. split; [exact H4|].
      split; [rewrite H5; destruct q; reflexivity|].
      intros p Hp. destruct (H6 p Hp) as [A|A]; [|right; right; exact A].
      destruct (Nat.eq_dec iop p) as [->|Hne]; [right; left; reflexivity|].
      left. rewrite deref_upd_ne in A by exact Hne. exact A.
Qed.

Lemma sched_refl st : sched st st.
Proof. split; [apply core_refl|]. repeat split; auto. Qed.

Lemma sched_trans st1 st2 st3 : sched st1 st2 -> sched st2 st3 -> sched st1 st3.
Proof.
  intros (H1 & A1 & B1 & C1 & D1) (H2 & A2 & B2 & C2 & D2).
  split; [eapply core_trans; eassumption|].
  split; [congruence|]. split; [congruence|]. split; [auto|].
  intros p Hp. destruct (D2 p Hp) as [E|E]; [apply D1; exact E|right; auto].
Qed.

Lemma submitIos_sched st st' : submitIos st = Ok st' -> sched st st'.
Proof.
  unfold submitIos. destruct (submitIoQ_ st) as [|p0 q] eqn:E.
  - intros [= <-]. apply sched_refl.
  - intros H. apply bind_ok in H as ([st1 n1] & H1 & H2).
    apply submit_loop_sched in H1 as (G1 & G2 & G3 & G4 & G5 & G6).
    assert (S1 : sched st st1).
    { split; [exact G1|]. split; [exact G2|]. split; [exact G3|]. split.
      - intros p Hp. rewrite G4, G5, app_nil_r in Hp. apply in_or_app. left. exact Hp.
      - intros p Hp. destruct (G6 p Hp) as [A|A]; [left; exact A|].
        right. apply in_or_app. right. rewrite E. exact A. }
    destruct (0 <? n1); injection H2 as <-; exact S1.
Qed.

Lemma insert_sorted_In h iop q p :
  In p (insert_sorted h iop q) -> p = iop \/ In p q.
Proof.
  destruct (insert_sorted_split h iop q) as (l1 & l2 & -> & -> & _).
  intros H. apply in_app_or in H as [H|[H|H]]; [right|left|right].
  - apply in_or_app. left. exact H.
  - symmetry. exact H.
  - apply in_or_app. right. exact H.
Qed.

Lemma schedule_loop_sched :
  forall ready st st',
    schedule_loop env ready st = Ok st' ->
    heap_rel same_core (heap st) (heap st')
    /\ ioQ_ st' = ioQ_ st /\ olData_ st' = olData_ st
    /\ (forall p, In p (readyIoQ_ st' ++ submitIoQ_ st') ->
                  In p (ready ++ readyIoQ_ st ++ submitIoQ_ st))
    /\ (forall p, isSubmitted_ (deref (heap st') p) = true ->
                  isSubmitted_ (deref (heap st) p) = true
                  \/ In p (ready ++ submitIoQ_ st)).
Proof.
  induction ready as [|iop ready IH]; intros st st' H.
  - simpl in H. injection H as <-. split; [apply core_refl|]. repeat split; auto.
  - cbn [schedule_loop] in H.
    destruct (isOverwritten_ (deref (heap (set_readyIoQ_ ready st)) iop)).
    + apply IH in H as (H1 & H2 & H3 & H4 & H5).
      cbn [heap ioQ_ olData_ readyIoQ_ submitIoQ_ set_readyIoQ_] in *.
      split; [exact H1|]. split; [exact H2|]. split; [exact H3|]. split.
      * intros p Hp. specialize (H4 p Hp).
        rewrite !in_app_iff in *. cbn [In]. tauto.
      * intros p Hp. destruct (H5 p Hp) as [A|A]; [left; exact A|].
        right. rewrite !in_app_iff in *. cbn [In]. tauto.
    + apply bind_ok in H as (st1 & H1 & H2).
      apply IH in H2 as (G1 & G2 & G3 & G4 & G5).
      set (st0 := set_submitIoQ_
                    (insert_sorted (heap (set_readyIoQ_ ready st)) iop
                                   (submitIoQ_ (set_readyIoQ_ ready st)))
                    (set_readyIoQ_ ready st)) in *.
      assert (S0 : sched st0 st1).
      { match type of H1 with (if ?c then _ else _) = _ => destruct c end.
        - apply submitIos_sched. exact H1.
        - injection H1 as <-. apply sched_refl. }
      destruct S0 as (F1 & F2 & F3 & F4 & F5).
      cbn [heap ioQ_ olData_ readyIoQ_ submitIoQ_ set_readyIoQ_ set_submitIoQ_ st0] in *.
      assert (Hins : forall p,
                 In p (ready ++ insert_sorted (heap st) iop (submitIoQ_ st)) ->
                 In p ((iop :: ready) ++ submitIoQ_ st)).
      { intros p Hp. apply in_app_or in Hp as [Hp|Hp].
        - apply in_or_app. left. right. exact Hp.
        - apply insert_sorted_In in Hp as [->|Hp];
            [left; reflexivity|apply in_or_app; right; exact Hp]. }
      split; [eapply core_trans; eassumption|].
      split; [congruence|]. split; [congruence|]. split.
      * intros p Hp. specialize (G4 p Hp).
        apply in_app_or in G4 as [G|G].
        -- apply in_or_app. left. right. exact G.
        -- specialize (Hins p (F4 p G)).
           rewrite !in_app_iff in *. cbn [In] in *. tauto.
      * intros p Hp. destruct (G5 p Hp) as [A|A].
        -- destruct (F5 p A) as [B|B]; [left; exact B|right; apply Hins; exact B].
        -- right. apply in_app_or in A as [A|A].
           ++ apply in_or_app. left. right. exact A.
           ++ apply Hins. apply F4. apply in_or_app. right. exact A.
Qed.

Lemma scheduleIos_sched st st' : scheduleIos env st = Ok st' -> sched st st'.
Proof.
  unfold scheduleIos. intros H.
  apply schedule_loop_sched in H as (H1 & H2 & H3 & H4 & H5).
  split; [exact H1|]. split; [exact H2|]. split; [exact H3|]. split.
  - intros p Hp. specialize (H4 p Hp). rewrite !in_app_iff in *. tauto.
  - exact H5.
Qed.

Lemma sched_safe st st' : sched st st' -> safe_inv st -> safe_inv st'.
Proof.
  intros (Hh & Hq & Hol & Hrs & Hsub) [I1 I2 I3 I4 I5 I6 I7].
  pose proof Hh as [Hlen Hg].
  constructor; rewrite ?Hq, ?Hol.
  - eapply ol_inv_core; eassumption.
  - eapply counted_core; eassumption.
  - exact I3.
  - exact I4.
  - intros p Hp. destruct (Hg p) as (E1 & E2 & _). rewrite <- E1, <- E2. apply I5. exact Hp.
  - intros p Hp. destruct (I6 p (Hrs p Hp)) as [A B].
    destruct (Hg p) as (_ & _ & E). rewrite <- Hlen, <- E. auto.
  - intros p Hp. destruct (Hg p) as (_ & _ & E). rewrite <- E.
    destruct (Hsub p Hp) as [A|A]; [apply I7; exact A|apply (I6 p A)].
Qed.

Lemma fold_push_ready_In l :
  forall st p,
    In p (readyIoQ_ (fold_left push_ready l st)) -> In p l \/ In p (readyIoQ_ st).
Proof.
  induction l as [|x l IH]; intros st p H; [right; exact H|].
  cbn [fold_left] in H. apply IH in H as [H|H]; [left; right; exact H|].
  unfold push_ready in H. destruct (isOverwritten_ _); [right; exact H|].
  cbn [readyIoQ_ set_readyIoQ_] in H. destruct H as [->|H]; [left; left; reflexivity|].
  right. exact H.
Qed.

(** The front of [ioQ_] is the oldest pending IO, which waits for no other
    IO: the assertion of del holds for it. *)
Lemma front_counter st iop q :
  safe_inv st -> ioQ_ st = iop :: q ->
  nOverlapped_ (deref (heap st) iop) = 0
  /\ In (offset_ (deref (heap st) iop), iop) (set_ (olData_ st)).
Proof.
  intros [I1 I2 I3 I4 I5 I6 I7] Eq. rewrite Eq in I3, I4.
  assert (Hi : In iop (map snd (set_ (olData_ st)))).
  { eapply Permutation_in; [apply Permutation_sym; exact I3|left; reflexivity]. }
  apply in_map_iff in Hi as ([k p] & E & Hi). cbn [snd] in E. subst p.
  destruct (oi_elem _ _ I1 k iop Hi) as (_ & Hoff & _).
  split; [|rewrite Hoff; exact Hi].
  rewrite (ct_count _ _ I2 k iop Hi).
  replace (earlier (heap st) (set_ (olData_ st)) iop) with (@nil (Z * IoPtr));
    [reflexivity|].
  symmetry. apply filter_none. intros [k' p'] Hin'. cbn [snd].
  assert (Hp' : In p' (iop :: q)).
  { eapply Permutation_in; [exact I3|]. apply in_map_iff. exists (k', p'). auto. }
  inversion I4 as [|? ? _ Hall]; subst. rewrite List.Forall_forall in Hall.
  destruct Hp' as [<-|Hp'].
  - rewrite Nat.ltb_irrefl. reflexivity.
  - specialize (Hall p' Hp'). destruct (Nat.ltb_spec p' iop); [lia|reflexivity].
Qed.

Lemma waitForAnIoCompletion_safe st st' :
  waitForAnIoCompletion env st = Ok st' -> safe_inv st -> safe_inv st'.
Proof.
  intros H Hinv. pose proof H as H0.
  unfold waitForAnIoCompletion in H.
  destruct (ioQ_ st) as [|iop q] eqn:Eq; [discriminate|].
  destruct (front_counter st iop q Hinv Eq) as [Hzero Hin].
  apply bind_ok in H as (st1 & H1 & H). apply bind_ok in H as (st2 & H2 & H).
  assert (S1 : sched (set_ioQ_ q st) st1).
  { match type of H1 with (if ?c then _ else _) = _ => destruct c end.
    - apply bind_ok in H1 as (sta & Ha & Hb).
      eapply sched_trans; [apply scheduleIos_sched; exact Ha|apply submitIos_sched; exact Hb].
    - injection H1 as <-. apply sched_refl. }
  destruct S1 as (Hh1 & Hq1 & Hol1 & Hrs1 & Hsub1).
  cbn [heap ioQ_ olData_ readyIoQ_ submitIoQ_ set_ioQ_] in Hh1, Hq1, Hol1, Hrs1, Hsub1.
  assert (S2 : heap_rel same_core (heap st1) (heap st2)
               /\ ioQ_ st2 = q /\ olData_ st2 = olData_ st
               /\ readyIoQ_ st2 = readyIoQ_ st1 /\ submitIoQ_ st2 = submitIoQ_ st1
               /\ (forall p, isSubmitted_ (deref (heap st2) p)
                             = isSubmitted_ (deref (heap st1) p))).
  { destruct (isSubmitted_ (deref (heap st1) iop)) eqn:Es.
    - apply bind_ok in H2 as (a & Ha & Hb). injection Hb as <-.
      cbn [heap set_heap set_aio_ set_nWritten_ ioQ_ olData_ readyIoQ_ submitIoQ_].
      split; [apply core_upd; intros io; repeat split|].
      repeat split; try assumption.
      intros p. apply (deref_upd_rel (fun a b => isSubmitted_ b = isSubmitted_ a));
        reflexivity.
    - injection H2 as <-.
      cbn [heap set_nOverwritten_ ioQ_ olData_ readyIoQ_ submitIoQ_].
      split; [apply core_refl|]. repeat split; assumption. }
  destruct S2 as (Hh2 & Hq2 & Hol2 & Hr2 & Hs2 & Hsub2).
  assert (Hh : heap_rel same_core (heap st) (heap st2))
    by (eapply core_trans; eassumption).
  destruct Hinv as [I1 I2 I3 I4 I5 I6 I7].
  pose proof (ol_inv_core _ _ _ Hh I1) as J1.
  pose proof (counted_core _ _ _ Hh I2) as J2.
  destruct Hh as [Hlen Hg].
  assert (Hzero2 : nOverlapped_ (deref (heap st2) iop) = 0)
    by (destruct (Hg iop) as (_ & _ & E); congruence).
  assert (Hin2 : In (offset_ (deref (heap st2) iop), iop) (set_ (olData_ st)))
    by (destruct (Hg iop) as (E & _); rewrite <- E; exact Hin).
  assert (Hend2 : offset_ (deref (heap st2) iop) + size_ (deref (heap st2) iop) < 2 ^ 63).
  { destruct (Hg iop) as (E1 & E2 & _). rewrite <- E1, <- E2. apply I5.
    rewrite Eq. left. reflexivity. }
  (* the deletion *)
  set (stp := set_nPendingBlocks_
                (u64 (nPendingBlocks_ st2
                      - bytesToPb env (size_ (deref (heap st2) iop)))) st2) in H.
  change (heap stp) with (heap st2) in H.
  change (olData_ stp) with (olData_ st2) in H. rewrite Hol2 in H.
  destruct (del_spec (heap st2) (olData_ st) iop [] J1 J2 Hin2 Hzero2 Hend2)
    as (Hset & K1 & K2 & Hwoken & Hderef & Hlater).
  pose proof (fun p => del_cases (heap st2) (olData_ st) iop [] p J1 J2 Hin2 Hzero2 Hend2)
    as Hcases.
  pose proof (del_length (heap st2) (olData_ st) iop []) as Hdlen.
  destruct (del (heap st2) (olData_ st) iop []) as [[h' ol'] woken] eqn:Ed.
  cbn [fst snd] in Hset, K1, K2, Hwoken, Hderef, Hlater, Hcases, Hdlen.
  injection H as <-.
  match goal with |- context [fold_left push_ready ?l ?s] =>
    pose proof (fold_push_ready_keeps l s) as F; cbv zeta in F;
    destruct F as (F1 & F2 & F3 & _ & _ & F6);
    pose proof (fold_push_ready_In l s) as Fin end.
  cbn [heap olData_ submitIoQ_ ioQ_ readyIoQ_ set_olData_ set_heap stp
       set_nPendingBlocks_] in F1, F2, F3, F6, Fin.
  (* an IO with the counter 0 keeps it *)
  assert (Hkeep : forall p, nOverlapped_ (deref (heap st) p) = 0 ->
                            nOverlapped_ (deref h' p) = 0).
  { intros p Hp. destruct (Hg p) as (_ & _ & E).
    destruct (Hcases p) as [->|(_ & Hge & _)]; [congruence|lia]. }
  assert (Hsame : forall p, isSubmitted_ (deref h' p) = isSubmitted_ (deref (heap st2) p)
                            /\ offset_ (deref h' p) = offset_ (deref (heap st2) p)
                            /\ size_ (deref h' p) = size_ (deref (heap st2) p)).
  { intros p. destruct (Hcases p) as [->|(-> & _)]; [auto|apply dec_fields]. }
  constructor; rewrite ?F1, ?F2, ?F3, ?F6.
  - exact K1.
  - exact K2.
  - rewrite Hq2, Hset. apply perm_remove; [apply (ct_nodup _ _ I2)|].
    rewrite <- Eq. exact I3.
  - rewrite Hq2. rewrite Eq in I4. inversion I4; assumption.
  - intros p Hp. rewrite Hq2 in Hp.
    destruct (Hsame p) as (_ & E1 & E2). destruct (Hg p) as (G1 & G2 & _).
    rewrite E1, E2, <- G1, <- G2. apply I5. rewrite Eq. right. exact Hp.
  - intros p Hp. rewrite Hdlen, <- Hlen. apply in_app_or in Hp as [Hp|Hp].
    + apply Fin in Hp as [Hp|Hp].
      * rewrite Hwoken in Hp. cbn [app] in Hp.
        apply in_map_iff in Hp as ([k p'] & E & Hx). cbn [snd] in E. subst p'.
        apply filter_In in Hx as [Hx Hc]. cbn [snd] in Hc.
        apply andb_true_iff in Hc as [Hov Hone]. apply Z.eqb_eq in Hone.
        assert (Hx0 : In (k, p) (set_ (olData_ st))).
        { rewrite Hset in Hx. apply filter_In in Hx as [Hx _]. exact Hx. }
        destruct (oi_elem _ _ I1 k p Hx0) as (A & _). split; [exact A|].
        rewrite (Hderef k p Hx), Hov.
        change (nOverlapped_ (dec (deref (heap st2) p)))
          with (u32 (nOverlapped_ (deref (heap st2) p) - 1)).
        rewrite Hone. reflexivity.
      * rewrite Hr2 in Hp.
        destruct (I6 p (Hrs1 p (in_or_app _ _ p (or_introl Hp)))) as [A B].
        split; [exact A|apply Hkeep; exact B].
    + rewrite Hs2 in Hp.
      destruct (I6 p (Hrs1 p (in_or_app _ _ p (or_intror Hp)))) as [A B].
      split; [exact A|apply Hkeep; exact B].
  - intros p Hp. destruct (Hsame p) as (E & _). rewrite E, Hsub2 in Hp.
    apply Hkeep. destruct (Hsub1 p Hp) as [A|A]; [apply I7; exact A|apply (I6 p A)].
Qed.

Lemma ins_submitted h ol iop q :
  isSubmitted_ (deref (fst (ins h ol iop)) q) = isSubmitted_ (deref h q).
Proof.
  unfold ins. cbn [fst]. rewrite same_submitted_ins_scan.
  apply (deref_upd_rel (fun a b => isSubmitted_ b = isSubmitted_ a)); [reflexivity|].
  destruct (deref h iop); reflexivity.
Qed.

Lemma sorted_snoc l x :
  StronglySorted lt l -> (forall y, In y l -> (y < x)%nat) ->
  StronglySorted lt (l ++ [x]).
Proof.
  induction l as [|a l IH]; intros Hs Hall; cbn [app].
  - constructor; constructor.
  - inversion Hs as [|? ? Hs' Ha]; subst.
    constructor; [apply IH; [exact Hs'|intros y Hy; apply Hall; right; exact Hy]|].
    apply List.Forall_forall. intros y Hy. apply in_app_or in Hy as [Hy|[<-|[]]].
    + rewrite List.Forall_forall in Ha. apply Ha. exact Hy.
    + apply Hall. left. reflexivity.
Qed.

Lemma nodup_bounded (l : list nat) n :
  List.NoDup l -> (forall p, In p l -> (p < n)%nat) -> (length l <= n)%nat.
Proof.
  intros Hnd Hb.
  assert (Hincl : incl l (seq 0 n)).
  { intros p Hp. apply in_seq. specialize (Hb p Hp). lia. }
  pose proof (NoDup_incl_length Hnd Hincl) as H.
  rewrite List.length_seq in H. exact H.
Qed.

Lemma enqueue_loop_length :
  forall ioQ st,
    length (heap (enqueue_loop ioQ st)) = (length (heap st) + length ioQ)%nat.
Proof.
  induction ioQ as [|io ioQ IH]; intros st; [cbn; lia|].
  cbn [enqueue_loop]. rewrite IH.
  match goal with |- context [heap (set_ioQ_ _ ?s)] =>
    assert (E : heap (set_ioQ_ (ioQ_ s ++ [length (heap st)]) s)
                = heap (insertToOverlappedData (set_heap (heap st ++ [io]) st)
                                               (length (heap st))))
      by (destruct (nOverlapped_ _ =? 0); reflexivity) end.
  rewrite E, insertToOverlappedData_heap, ins_length.
  cbn [heap set_heap]. rewrite length_app. cbn [length]. lia.
Qed.

(** The loop that enqueues the IOs of the staging queue. *)
Lemma enqueue_loop_safe :
  forall ioQ st,
    safe_inv st -> Forall good_io ioQ ->
    Z.of_nat (length (heap (enqueue_loop ioQ st))) < 2 ^ 32 ->
    safe_inv (enqueue_loop ioQ st).
Proof.
  induction ioQ as [|io ioQ IH]; intros st Hinv Hgood Hbound; [exact Hinv|].
  inversion Hgood as [|? ? (Hoff & Hsize & Hend & Hns) Hgood']; subst.
  pose proof (enqueue_loop_length (io :: ioQ) st) as Hfinal.
  cbn [length] in Hfinal.
  cbn [enqueue_loop] in *.
  set (iop := length (heap st)) in *.
  set (st1 := set_heap (heap st ++ [io]) st) in *.
  destruct (insertToOverlappedData_fields st1 iop)
    as (_ & _ & _ & _ & Eq & Er & Es & _ & _). cbv zeta in Eq, Er, Es.
  pose proof (insertToOverlappedData_heap st1 iop) as Eh.
  assert (Eol : olData_ (insertToOverlappedData st1 iop)
                = snd (ins (heap st ++ [io]) (olData_ st) iop)).
  { unfold insertToOverlappedData. cbn [heap olData_ st1 set_heap].
    destruct (ins _ _ _); reflexivity. }
  set (st2 := insertToOverlappedData st1 iop) in *.
  cbn [heap olData_ st1 set_heap ioQ_ readyIoQ_ submitIoQ_] in Eh, Eq, Er, Es.
  apply IH; [|exact Hgood'|exact Hbound].
  destruct Hinv as [I1 I2 I3 I4 I5 I6 I7].
  set (h1 := heap st ++ [io]) in *.
  pose proof (ol_inv_app _ io _ I1) as A1. fold h1 in A1.
  pose proof (counted_app _ io _ I1 I2) as A2. fold h1 in A2.
  assert (Hiop : (iop < length h1)%nat)
    by (unfold h1, iop; rewrite length_app; cbn [length]; lia).
  assert (Hd : deref h1 iop = io) by apply deref_app_new.
  assert (Hold : forall k p, In (k, p) (set_ (olData_ st)) -> (p < iop)%nat).
  { intros k p Hx. destruct (oi_elem _ _ I1 k p Hx) as (A & _). exact A. }
  assert (Hnew : Forall (fun e => (snd e < iop)%nat) (set_ (olData_ st))).
  { apply List.Forall_forall. intros [k p] Hx. cbn [snd]. eapply Hold. exact Hx. }
  assert (Hq : forall p, In p (ioQ_ st) -> (p < iop)%nat).
  { intros p Hp. apply (Permutation_in _ (Permutation_sym I3)) in Hp.
    apply in_map_iff in Hp as ([k p'] & E & Hx). cbn [snd] in E. subst p'.
    eapply Hold. exact Hx. }
  assert (Hroom : Z.of_nat (length (set_ (olData_ st))) + 1 < 2 ^ 32).
  { assert (Hle : (length (map snd (set_ (olData_ st))) <= iop)%nat).
    { apply nodup_bounded; [apply (ct_nodup _ _ I2)|].
      intros p Hp. apply in_map_iff in Hp as ([k p'] & E & Hx). cbn [snd] in E.
      subst p'. eapply Hold. exact Hx. }
    rewrite length_map in Hle. fold iop in Hfinal. lia. }
  destruct (ins_counted h1 (olData_ st) iop A1 A2 Hiop Hnew)
    as (Hperm & C2 & Hn); rewrite ?Hd; try assumption; try lia.
  assert (A3 : ol_inv (fst (ins h1 (olData_ st) iop)) (snd (ins h1 (olData_ st) iop))).
  { apply ins_keeps_ol_inv; rewrite ?Hd; try assumption; lia. }
  rewrite <- Eh, <- Eol in A3, C2. rewrite <- Eol in Hperm. rewrite Hd in Hperm.
  assert (Hlen : length (heap st2) = S iop).
  { rewrite Eh, ins_length. unfold h1, iop. rewrite length_app. cbn [length]. lia. }
  assert (Hoth : forall q, q <> iop ->
                           nOverlapped_ (deref (heap st2) q) = nOverlapped_ (deref h1 q)).
  { intros q Hne. rewrite Eh. apply ins_other. exact Hne. }
  assert (Hsubm : forall q, isSubmitted_ (deref (heap st2) q)
                            = isSubmitted_ (deref h1 q)).
  { intros q. rewrite Eh. apply ins_submitted. }
  assert (Hg : forall q, same_geom (deref h1 q) (deref (heap st2) q)).
  { intros q. rewrite Eh. apply ins_rel. apply same_geom_ok. }
  assert (Hkeep : forall p, (p < iop)%nat ->
                            nOverlapped_ (deref (heap st) p) = 0 ->
                            nOverlapped_ (deref (heap st2) p) = 0).
  { intros p Hp Hz. rewrite Hoth by lia. unfold h1. rewrite deref_app_l by exact Hp.
    exact Hz. }
  match goal with |- safe_inv (set_ioQ_ _ ?s) => set (st3 := s) end.
  assert (E3 : heap st3 = heap st2 /\ olData_ st3 = olData_ st2
               /\ ioQ_ st3 = ioQ_ st /\ submitIoQ_ st3 = submitIoQ_ st
               /\ (forall p, In p (readyIoQ_ st3) ->
                             In p (readyIoQ_ st)
                             \/ (p = iop /\ nOverlapped_ (deref (heap st2) iop) = 0))).
  { unfold st3. destruct (nOverlapped_ (deref (heap st2) iop) =? 0) eqn:Ez;
      cbn [heap olData_ ioQ_ readyIoQ_ submitIoQ_ set_readyIoQ_];
      rewrite ?Eq, ?Er, ?Es; repeat split; try reflexivity.
    - intros p Hp. apply in_app_or in Hp as [Hp|[<-|[]]]; [left; exact Hp|].
      right. split; [reflexivity|apply Z.eqb_eq; exact Ez].
    - intros p Hp. left. exact Hp. }
  destruct E3 as (E3h & E3o & E3q & E3s & E3r).
  constructor; cbn [heap olData_ ioQ_ readyIoQ_ submitIoQ_ set_ioQ_];
    rewrite ?E3h, ?E3o, ?E3q, ?E3s.
  - exact A3.
  - exact C2.
  - etransitivity; [apply Permutation_map, Permutation_sym, Hperm|].
    cbn [map snd]. etransitivity; [apply perm_skip; exact I3|].
    apply Permutation_cons_append.
  - apply sorted_snoc; assumption.
  - intros p Hp. destruct (Hg p) as [G1 G2]. rewrite <- G1, <- G2.
    apply in_app_or in Hp as [Hp|[<-|[]]].
    + unfold h1. rewrite deref_app_l by (apply Hq; exact Hp). apply I5. exact Hp.
    + rewrite Hd. exact Hend.
  - intros p Hp. rewrite Hlen.
    assert (Hcase : In p (readyIoQ_ st ++ submitIoQ_ st)
                    \/ (p = iop /\ nOverlapped_ (deref (heap st2) iop) = 0)).
    { apply in_app_or in Hp as [Hp|Hp].
      - destruct (E3r p Hp) as [A|A]; [left; apply in_or_app; left; exact A|right; exact A].
      - left. apply in_or_app. right. exact Hp. }
    destruct Hcase as [Hc|[-> Hz]].
    + destruct (I6 p Hc) as [A B]. fold iop in A. split; [lia|apply Hkeep; assumption].
    + split; [lia|exact Hz].
  - intros p Hp. rewrite Hsubm in Hp.
    destruct (Nat.lt_trichotomy p iop) as [Hlt|[->|Hgt]].
    + apply Hkeep; [exact Hlt|]. apply I7.
      unfold h1 in Hp. rewrite deref_app_l in Hp by exact Hlt. exact Hp.
    + rewrite Hd in Hp. congruence.
    + assert (Hl1 : length h1 = S iop)
        by (unfold h1, iop; rewrite length_app; cbn [length]; lia).
      rewrite deref_out in Hp by lia. discriminate.
Qed.

Lemma wait_room_loop_safe nBlocks :
  forall fuel st st',
    wait_room_loop env fuel nBlocks st = Ok st' ->
    safe_inv st -> safe_inv st'.
Proof.
  induction fuel as [|fuel IH]; intros st st' H Hinv.
  - cbn [wait_room_loop] in H. destruct (ioQ_ st); [injection H as <-; exact Hinv|].
    destruct (queueSize_ env <? _); [discriminate|injection H as <-; exact Hinv].
  - cbn [wait_room_loop] in H. destruct (ioQ_ st) eqn:E; [injection H as <-; exact Hinv|].
    destruct (queueSize_ env <? _); [|injection H as <-; exact Hinv].
    apply bind_ok in H as (st1 & G1 & G2).
    apply (IH st1 st' G2). eapply waitForAnIoCompletion_safe; eassumption.
Qed.

Lemma prepareIos_safe ioQ nBlocks st st' :
  prepareIos env ioQ nBlocks st = Ok st' ->
  Forall good_io ioQ ->
  Z.of_nat (length (heap st')) < 2 ^ 32 ->
  safe_inv st -> safe_inv st'.
Proof.
  unfold prepareIos. intros H Hgood Hbound Hinv. apply bind_ok in H as (st1 & H1 & H2).
  injection H2 as <-. apply enqueue_loop_safe; [|exact Hgood|exact Hbound].
  apply wait_room_loop_safe in H1; [|exact Hinv].
  destruct H1 as [A B C D E F G]. constructor; assumption.
Qed.

Lemma same_engine_safe st st' : same_engine st st' -> safe_inv st -> safe_inv st'.
Proof.
  intros (E1 & E2 & E3 & E4 & E5 & _) [I1 I2 I3 I4 I5 I6 I7].
  constructor; rewrite ?E1, ?E2, ?E3, ?E4, ?E5; assumption.
Qed.

Lemma engine_step_safe st st' : engine_step env st st' -> safe_inv st -> safe_inv st'.
Proof.
  intros [s s' H|s s' H|s s' H|s s' H|ioQ nBlocks s s' Hgood Hbound H] Hinv.
  - eapply same_engine_safe; eassumption.
  - eapply sched_safe; [apply submitIos_sched; exact H|exact Hinv].
  - eapply sched_safe; [apply scheduleIos_sched; exact H|exact Hinv].
  - eapply waitForAnIoCompletion_safe; eassumption.
  - eapply prepareIos_safe; eassumption.
Qed.

Lemma safe_inv_init : safe_inv applyer_init.
Proof.
  constructor; cbn.
  - constructor; cbn; [constructor|intros k p []|lia].
  - constructor; cbn; [constructor|intros k p []].
  - constructor.
  - constructor.
  - intros p [].
  - intros p [].
  - intros p. rewrite deref_out by (cbn; lia). discriminate.
Qed.

Lemma engine_run_safe st st' : engine_run env st st' -> safe_inv st -> safe_inv st'.
Proof.
  induction 1 as [s|s s1 s2 _ IH Hstep]; intros Hinv; [exact Hinv|].
  eapply engine_step_safe; [exact Hstep|apply IH; exact Hinv].
Qed.

(** What the invariant says about the IOs in flight. *)
Lemma safe_inv_in_flight st : safe_inv st -> in_flight_safe st.
Proof.
  intros [I1 I2 I3 I4 I5 I6 I7] p q Hp Hq Hlt Hsub.
  specialize (I7 q Hsub).
  apply (Permutation_in _ (Permutation_sym I3)) in Hp, Hq.
  apply in_map_iff in Hp as ([kp p'] & E & Hp). cbn [snd] in E. subst p'.
  apply in_map_iff in Hq as ([kq q'] & E & Hq). cbn [snd] in E. subst q'.
  rewrite (ct_count _ _ I2 kq q Hq) in I7.
  destruct (isOverlapped (deref (heap st) p) (deref (heap st) q)) eqn:Hov; [|reflexivity].
  exfalso.
  assert (Hin : In (kp, p) (earlier (heap st) (set_ (olData_ st)) q)).
  { unfold earlier. apply filter_In. split; [exact Hp|]. cbn [snd].
    apply andb_true_iff. split; [apply Nat.ltb_lt; exact Hlt|exact Hov]. }
  destruct (earlier (heap st) (set_ (olData_ st)) q); [destruct Hin|discriminate].
Qed.

End SafetyFacts.

Section EngineRuns.

Import Redo RedoOverlap RedoSafety.

Variable env : Env.
Hypothesis Henv : env_ok env.

Lemma engine_run_trans st1 st2 st3 :
  engine_run env st1 st2 -> engine_run env st2 st3 -> engine_run env st1 st3.
Proof.
  intros H1 H2. induction H2 as [s|s s1 s2 _ IH Hstep]; [exact H1|].
  eapply run_step; [apply IH; exact H1|exact Hstep].
Qed.

Lemma engine_run_one st st' : engine_step env st st' -> engine_run env st st'.
Proof. intros H. eapply run_step; [apply run_nil|exact H]. Qed.

Lemma engine_run_account st st' : same_engine st st' -> engine_run env st st'.
Proof. intros H. apply engine_run_one, step_account, H. Qed.

Lemma staged_good io : staged env io -> good_io io.
Proof.
  intros ((A & B & C) & D & E). pose proof (eo_size env Henv) as Hd.
  unfold good_io. split; [exact A|]. split; [exact D|]. split; [lia|exact E].
Qed.

Lemma staged_all_good q : Forall (staged env) q -> Forall good_io q.
Proof.
  intros Hq. apply List.Forall_forall. intros x Hx. apply staged_good.
  rewrite List.Forall_forall in Hq. apply Hq. exact Hx.
Qed.

Lemma IoQueue_add_staged ioQ iop :
  Forall (staged env) ioQ -> staged env iop ->
  Forall (staged env) (IoQueue_add ioQ iop).
Proof.
  intros Hq Hio.
  assert (Hdev : Forall (in_dev env) (IoQueue_add ioQ iop)).
  { apply (IoQueue_add_in_dev env Henv).
    - apply List.Forall_forall. intros x Hx.
      rewrite List.Forall_forall in Hq. apply (Hq x Hx).
    - apply Hio. }
  destruct (IoQueue_add_cases ioQ iop) as [E|(front & back & back' & iop' & -> & Hm & E)];
    rewrite E in *.
  - apply Forall_app. split; [exact Hq|]. constructor; [exact Hio|constructor].
  - apply Forall_app in Hq as [Hf Hb]. apply Forall_app in Hdev as [_ Hdev].
    apply Forall_app. split; [exact Hf|].
    inversion Hb as [|? ? Hback _]; subst. inversion Hdev as [|? ? Hd' _]; subst.
    constructor; [|constructor]. split; [exact Hd'|].
    apply IoQueue_tryMerge_true in Hm as [_ Hm].
    apply tryMerge_true in Hm as (_ & -> & _).
    destruct Hback as ((B1 & B2 & B3) & B4 & B5), Hio as ((J1 & J2 & J3) & J4 & J5).
    pose proof (eo_size env Henv) as Hd.
    destruct back; cbn in *. rewrite u64_small by lia. split; [lia|exact B5].
Qed.

Lemma clip_or_add_staged rec iop tmpIoQ nBlocks st :
  0 <= offset_ iop -> 0 < size_ iop -> offset_ iop + size_ iop < 2 ^ 63 ->
  isSubmitted_ iop = false ->
  Forall (staged env) tmpIoQ ->
  Forall (staged env) (fst (fst (clip_or_add env rec iop tmpIoQ nBlocks st)))
  /\ same_engine st (snd (clip_or_add env rec iop tmpIoQ nBlocks st)).
Proof.
  intros H1 H2 H3 H4 Hq. unfold clip_or_add.
  rewrite u64_small by lia.
  destruct (Z.leb_spec (offset_ iop + size_ iop) (bd_deviceSize env)) as [Hle|Hgt];
    cbn [fst snd].
  - split.
    + apply IoQueue_add_staged; [exact Hq|]. unfold staged, in_dev. repeat split; try lia.
      exact H4.
    + destruct (LogBase.isDiscard rec); repeat split.
  - split; [exact Hq|repeat split].
Qed.

Lemma flush_if_many_run tmpIoQ nBlocks st q n st' :
  flush_if_many env tmpIoQ nBlocks st = Ok (q, n, st') ->
  Forall (staged env) tmpIoQ ->
  Z.of_nat (length (heap st')) < 2 ^ 32 ->
  engine_run env st st' /\ Forall (staged env) q.
Proof.
  unfold flush_if_many. intros H Hq Hbound.
  destruct (queueSize_ env / 2 <=? nBlocks).
  - apply bind_ok in H as (st1 & H1 & H). apply bind_ok in H as (st2 & H2 & H).
    injection H as <- <- <-.
    pose proof (scheduleIos_frame env same_geom same_geom_ok _ _ H2) as ([Hlen _] & _).
    split; [|constructor].
    eapply run_step; [apply engine_run_one|apply step_scheduleIos; exact H2].
    eapply step_prepareIos; [apply staged_all_good; exact Hq| |exact H1].
    rewrite Hlen. exact Hbound.
  - injection H as <- <- <-. split; [apply run_nil|exact Hq].
Qed.

Lemma redo_loop_run rec blockS :
  forall cnt i tmpIoQ remaining off nBlocks st tmpIoQ' nBlocks' st',
    0 <= off -> off + remaining < 2 ^ 63 ->
    cnt = O \/ (Z.of_nat cnt - 1) * blockSize_ env < remaining ->
    redo_loop env rec blockS cnt i tmpIoQ remaining off nBlocks st
    = Ok (tmpIoQ', nBlocks', st') ->
    Forall (staged env) tmpIoQ ->
    Z.of_nat (length (heap st')) < 2 ^ 32 ->
    engine_run env st st' /\ Forall (staged env) tmpIoQ'.
Proof.
  induction cnt as [|cnt IH];
    intros i tmpIoQ remaining off nBlocks st tmpIoQ' nBlocks' st' Ho Hs Hc H Hq Hbound.
  - simpl in H. injection H as <- <- <-. split; [apply run_nil|exact Hq].
  - destruct Hc as [Hc|Hc]; [discriminate|].
    cbn [redo_loop] in H.
    apply bind_ok in H as ([block st1] & Hb & H). cbv zeta in H.
    apply bind_ok in H as ([[q2 n2] st2] & Hf & H).
    pose proof (eo_block env Henv) as Hbs.
    set (size := Z.min (blockSize_ env) remaining) in *.
    assert (Hrem : 0 < remaining) by nia.
    assert (Hsz : 0 < size <= remaining /\ size <= blockSize_ env) by (unfold size; lia).
    assert (E1 : same_engine st (set_seqgen (u64 (seqgen st1 + 1)) st1)).
    { unfold take_block in Hb. destruct (LogBase.isDiscard rec).
      - injection Hb as _ <-. repeat split.
      - destruct (blockS !! i); [|discriminate]. injection Hb as _ <-. repeat split. }
    pose proof (clip_or_add_staged rec (newIo off size block (seqgen st1)) tmpIoQ nBlocks
                  (set_seqgen (u64 (seqgen st1 + 1)) st1)
                  Ho (proj1 (proj1 Hsz)) ltac:(cbn; lia) eq_refl Hq) as [Qa Ea].
    destruct (clip_or_add env rec (newIo off size block (seqgen st1)) tmpIoQ nBlocks
                (set_seqgen (u64 (seqgen st1 + 1)) st1)) as [[q1 n1] sta].
    cbn [fst snd] in Qa, Ea.
    pose proof (redo_loop_heap env same_geom same_geom_ok _ _ _ _ _ _ _ _ _ _ _ _ H)
      as [Hle _].
    apply flush_if_many_run in Hf as [Rb Qb]; [|exact Qa|lia].
    rewrite s64_small in H by lia. rewrite u64_small in H by lia.
    apply IH in H as [Rc Qc]; [|lia|lia| |exact Qb|exact Hbound].
    + split; [|exact Qc].
      eapply engine_run_trans; [apply engine_run_account; exact E1|].
      eapply engine_run_trans; [apply engine_run_account; exact Ea|].
      eapply engine_run_trans; eassumption.
    + destruct cnt as [|cnt']; [left; reflexivity|right]. nia.
Qed.

(** The number of IOs of a record against its bytes. *)
Lemma ioSizePb_room rec :
  rec_ok rec -> canApply env = true ->
  Z.to_nat (LogBase.ioSizePb rec (wh_pbs env)) = O
  \/ (Z.of_nat (Z.to_nat (LogBase.ioSizePb rec (wh_pbs env))) - 1) * blockSize_ env
     < LogBase.io_size rec * LOGICAL_BLOCK_SIZE.
Proof.
  intros [O1 O2 O3 O4] Hcan. pose proof (eo_block env Henv) as Hbs.
  unfold canApply in Hcan. apply andb_true_iff in Hcan as [Hle _].
  apply Z.leb_le in Hle.
  unfold LogBase.ioSizePb, capacity_pb, LOGICAL_BLOCK_SIZE in *.
  set (R := LogBase.io_size rec * 512) in *.
  set (c := (R + wh_pbs env - 1) / wh_pbs env).
  assert (Hc0 : 0 <= c) by (apply Z.div_pos; lia).
  assert (Hcm : wh_pbs env * c <= R + wh_pbs env - 1)
    by (apply Z.mul_div_le; lia).
  assert (Hu : 0 <= u32 c <= c).
  { unfold u32. split; [apply Z.mod_pos_bound; lia|apply Z.mod_le; lia]. }
  destruct (Z.eq_dec (u32 c) 0) as [E|Hne]; [left; rewrite E; reflexivity|right].
  rewrite Z2Nat.id by lia. nia.
Qed.

Lemma redoNormalIo_run rec blockS st st' :
  rec_ok rec -> canApply env = true ->
  redoNormalIo env rec blockS st = Ok st' ->
  Z.of_nat (length (heap st')) < 2 ^ 32 ->
  engine_run env st st'.
Proof.
  intros Hrec Hcan H Hbound. pose proof (ioSizePb_room rec Hrec Hcan) as Hroom.
  destruct Hrec as [O1 O2 O3 O4]. unfold redoNormalIo in H.
  apply bind_ok in H as ([[q n] st1] & H1 & H).
  apply bind_ok in H as (st2 & H2 & H3).
  unfold LogBase.ioSizeLb in H1. unfold LOGICAL_BLOCK_SIZE in *.
  rewrite u32_small in H1 by lia. rewrite s64_small in H1 by lia.
  pose proof (scheduleIos_frame env same_geom same_geom_ok _ _ H3) as ([Hlen3 _] & _).
  pose proof (prepareIos_frame env same_geom same_geom_ok _ _ _ _ H2) as ([Hle2 _] & _).
  apply redo_loop_run in H1 as [R1 Q1]; [|lia|lia|exact Hroom|constructor|lia].
  eapply run_step; [|apply step_scheduleIos; exact H3].
  eapply run_step; [exact R1|].
  eapply step_prepareIos; [apply staged_all_good; exact Q1|lia|exact H2].
Qed.

Lemma wait_all_loop_run :
  forall fuel st st',
    wait_all_loop env fuel st = Ok st' -> engine_run env st st'.
Proof.
  induction fuel as [|fuel IH]; intros st st' H.
  - cbn [wait_all_loop] in H.
    destruct (ioQ_ st), (readyIoQ_ st); try discriminate. injection H as <-. apply run_nil.
  - cbn [wait_all_loop] in H.
    assert (Hgo : (do st1 <- waitForAnIoCompletion env st; wait_all_loop env fuel st1)
                  = Ok st' -> engine_run env st st').
    { intros G. apply bind_ok in G as (st1 & G1 & G2).
      eapply engine_run_trans; [|apply (IH st1 st' G2)].
      apply engine_run_one, step_waitForAnIoCompletion, G1. }
    destruct (ioQ_ st), (readyIoQ_ st); try (apply Hgo; exact H).
    injection H as <-. apply run_nil.
Qed.

Lemma redoPack_run rec blockS st st' :
  rec_ok rec -> canApply env = true ->
  redoPack env rec blockS st = Ok st' ->
  Z.of_nat (length (heap st')) < 2 ^ 32 ->
  engine_run env st st'.
Proof.
  intros Hrec Hcan H Hbound. unfold redoPack in H.
  destruct (LogBase.isPadding rec).
  { injection H as <-. apply engine_run_account. repeat split. }
  destruct (_ && _).
  { unfold redoDiscard in H. apply bind_ok in H as (st1 & H1 & H).
    injection H as <-. unfold waitForAllPendingIos in H1.
    apply wait_all_loop_run in H1.
    eapply engine_run_trans; [exact H1|]. apply engine_run_account. repeat split. }
  destruct (_ && _).
  { injection H as <-. apply engine_run_account. repeat split. }
  eapply redoNormalIo_run; eassumption.
Qed.

Lemma redo_records_run :
  forall recs st st',
    Forall (fun rb => rec_ok (fst rb)) recs -> canApply env = true ->
    redo_records env recs st = Ok st' ->
    Z.of_nat (length (heap st')) < 2 ^ 32 ->
    engine_run env st st'.
Proof.
  induction recs as [|[rec blockS] recs IH]; intros st st' Hrecs Hcan H Hbound.
  - simpl in H. injection H as <-. apply run_nil.
  - cbn [redo_records] in H. apply bind_ok in H as (st1 & H1 & H2).
    inversion Hrecs as [|? ? Hrec Hrecs']; subst. cbn [fst] in Hrec.
    pose proof (redo_records_heap env same_geom same_geom_ok _ _ _ H2) as [Hle _].
    eapply engine_run_trans; [|apply (IH st1 st' Hrecs' Hcan H2 Hbound)].
    eapply redoPack_run; [exact Hrec|exact Hcan|exact H1|lia].
Qed.

Lemma readAndApply_run recs st st' :
  Forall (fun rb => rec_ok (fst rb)) recs ->
  readAndApply env recs st = Ok st' ->
  Z.of_nat (length (heap st')) < 2 ^ 32 ->
  engine_run env st st'.
Proof.
  intros Hrecs H Hbound. unfold readAndApply in H.
  destruct (canApply env) eqn:Hcan; [|discriminate]. cbn [negb] in H.
  apply bind_ok in H as (st1 & H1 & H). apply bind_ok in H as (st2 & H2 & H3).
  pose proof (submitIos_frame same_geom same_geom_ok _ _ H2) as ([Hlen2 _] & _).
  pose proof (waitForAllPendingIos_frame env same_geom same_geom_ok _ _ H3)
    as ([Hlen3 _] & _).
  unfold waitForAllPendingIos in H3. apply wait_all_loop_run in H3.
  eapply engine_run_trans; [|exact H3].
  eapply run_step; [|apply step_submitIos; exact H2].
  apply (redo_records_run recs st st1 Hrecs Hcan H1). lia.
Qed.

End EngineRuns.

Section SafetyTheorems.

Import Redo RedoOverlap RedoSafety.

(** In every state that the engine reaches from its initial state by calls
    of submitIos, scheduleIos, waitForAnIoCompletion and prepareIos (with IOs
    of at least one byte that are not submitted, the store below 2^32 IOs),
    with any bookkeeping between them, an IO is in flight only when no
    older pending IO overlaps it; the counter of every pending IO is the
    number of older pending IOs that overlap it; and the pending queue is in
    the order of creation. *)
Theorem engine_keeps_overlap_order :
  forall env st,
    engine_run env applyer_init st ->
    in_flight_safe st
    /\ counted (heap st) (olData_ st)
    /\ Permutation (map snd (set_ (olData_ st))) (ioQ_ st)
    /\ StronglySorted lt (ioQ_ st).
Proof.
  intros env st Hrun.
  pose proof (engine_run_safe env _ _ Hrun safe_inv_init) as Hinv.
  split; [apply safe_inv_in_flight; exact Hinv|].
  destruct Hinv as [I1 I2 I3 I4 I5 I6 I7]. auto.
Qed.

(** The log records applied so far leave the engine in order. After
    redoPack has been run on any list of records whose byte ranges are off_t
    values, on a device that the log can be applied to, an IO is in flight
    only when no older pending IO overlaps it, the counter of every pending
    IO is the number of older pending IOs that overlap it, and the pending
    queue is in the order of creation. *)
Theorem redo_records_keep_overlap_order :
  forall env recs st,
    env_ok env -> canApply env = true ->
    Forall (fun rb => rec_ok (fst rb)) recs ->
    redo_records env recs applyer_init = Ok st ->
    Z.of_nat (length (heap st)) < 2 ^ 32 ->
    in_flight_safe st
    /\ counted (heap st) (olData_ st)
    /\ Permutation (map snd (set_ (olData_ st))) (ioQ_ st)
    /\ StronglySorted lt (ioQ_ st).
Proof.
  intros env recs st Henv Hcan Hrecs H Hbound.
  pose proof (redo_records_run env Henv recs _ _ Hrecs Hcan H Hbound) as Hrun.
  pose proof (engine_run_safe env _ _ Hrun safe_inv_init) as Hinv.
  split; [apply safe_inv_in_flight; exact Hinv|].
  destruct Hinv as [I1 I2 I3 I4 I5 I6 I7]. auto.
Qed.

End SafetyTheorems.

Section SafetyWitnesses.

Import Redo RedoOverlap RedoSafety.

Lemma engine_keeps_overlap_order_witness :
  exists st,
    engine_run (env_of 1048576 512 4) applyer_init st
    /\ ioQ_ st = [1%nat; 2%nat]
    /\ isSubmitted_ (deref (heap st) 1) = true
    /\ in_flight_safe st.
Proof.
  set (E := env_of 1048576 512 4).
  set (ios := [newIo 0 512 (mkAlignedArray 4096 (repeat Byte.x11 512)) 0;
               newIo 0 512 (mkAlignedArray 8192 (repeat Byte.x22 512)) 1;
               newIo 512 512 (mkAlignedArray 12288 (repeat Byte.x33 512)) 2]).
  assert (Hgood : Forall good_io ios).
  { repeat constructor; cbn; lia. }
  destruct (prepareIos E ios 3 applyer_init) as [s1|e] eqn:E1;
    [|exfalso; vm_compute in E1; discriminate].
  assert (H1 : Ok s1 = Ok s1) by reflexivity.
  rewrite <- E1 in H1 at 1. vm_compute in H1. injection H1 as <-.
  match type of E1 with _ = Ok ?s =>
    destruct (waitForAnIoCompletion E s) as [s2|e] eqn:E2;
      [|exfalso; vm_compute in E2; discriminate] end.
  assert (H2 : Ok s2 = Ok s2) by reflexivity.
  rewrite <- E2 in H2 at 1. vm_compute in H2. injection H2 as <-.
  match type of E2 with _ = Ok ?s =>
    destruct (scheduleIos E s) as [s3|e] eqn:E3;
      [|exfalso; vm_compute in E3; discriminate] end.
  assert (H3 : Ok s3 = Ok s3) by reflexivity.
  rewrite <- E3 in H3 at 1. vm_compute in H3. injection H3 as <-.
  match type of E3 with _ = Ok ?s =>
    destruct (submitIos s) as [s4|e] eqn:E4;
      [|exfalso; vm_compute in E4; discriminate] end.
  assert (H4 : Ok s4 = Ok s4) by reflexivity.
  rewrite <- E4 in H4 at 1. vm_compute in H4. injection H4 as <-.
  match type of E4 with _ = Ok ?s => exists s end.
  assert (Hrun : engine_run E applyer_init
                   ltac:(match type of E4 with _ = Ok ?s => exact s end)).
  { eapply run_step; [eapply run_step; [eapply run_step; [eapply run_step;
      [apply run_nil|]|]|]|].
    - eapply step_prepareIos; [exact Hgood| |exact E1]. vm_compute. reflexivity.
    - apply step_waitForAnIoCompletion. exact E2.
    - apply step_scheduleIos. exact E3.
    - apply step_submitIos. exact E4. }
  split; [exact Hrun|]. split; [reflexivity|]. split; [reflexivity|].
  apply (engine_keeps_overlap_order E _ Hrun).
Defined.

Lemma redo_records_keep_overlap_order_witness :
  exists st,
    redo_records (env_of 1048576 512 4)
      [(write_record 0 2, [mkAlignedArray 4096 (repeat Byte.x11 512);
                           mkAlignedArray 20480 (repeat Byte.x11 512)]);
       (write_record 1 2, [mkAlignedArray 8192 (repeat Byte.x22 512);
                           mkAlignedArray 16384 (repeat Byte.x22 512)]);
       (write_record 8 1, [mkAlignedArray 12288 (repeat Byte.x33 512)])]
      applyer_init = Ok st
    /\ ioQ_ st = [1%nat; 2%nat; 3%nat; 4%nat]
    /\ isSubmitted_ (deref (heap st) 3) = true
    /\ in_flight_safe st.
Proof.
  set (E := env_of 1048576 512 4).
  set (recs := [(write_record 0 2, [mkAlignedArray 4096 (repeat Byte.x11 512);
                                    mkAlignedArray 20480 (repeat Byte.x11 512)]);
                (write_record 1 2, [mkAlignedArray 8192 (repeat Byte.x22 512);
                                    mkAlignedArray 16384 (repeat Byte.x22 512)]);
                (write_record 8 1, [mkAlignedArray 12288 (repeat Byte.x33 512)])]).
  assert (He : env_ok E).
  { constructor; [reflexivity|split; [intro; discriminate|reflexivity]]. }
  assert (Hr : Forall (fun rb => rec_ok (fst rb)) recs).
  { repeat constructor; vm_compute; first [reflexivity | intro; discriminate]. }
  destruct (redo_records E recs applyer_init) as [st|e] eqn:E1;
    [|exfalso; vm_compute in E1; discriminate].
  exists st. split; [reflexivity|].
  assert (Hsafe : Z.of_nat (length (heap st)) < 2 ^ 32 -> in_flight_safe st).
  { intros Hb.
    apply (redo_records_keep_overlap_order E recs st He eq_refl Hr E1 Hb). }
  assert (H1 : Ok st = Ok st) by reflexivity.
  rewrite <- E1 in H1 at 1. vm_compute in H1. injection H1 as <-.
  split; [reflexivity|]. split; [reflexivity|].
  apply Hsafe. vm_compute. reflexivity.
Defined.

End SafetyWitnesses.

Section FlowFacts.

Import Redo RedoOverlap RedoSafety RedoFlow RedoDrain.

Variable env : Env.

Lemma stays_written_ok : io_rel_ok stays_written.
Proof.
  constructor; unfold stays_written, written, overwritten; intros;
    repeat match goal with
           | |- context [if ?c then _ else _] => destruct c eqn:?
           end; simpl in *; intuition congruence.
Qed.

Lemma flags_up_ok : io_rel_ok flags_up.
Proof.
  constructor; unfold flags_up, overwritten; intros;
    repeat match goal with
           | |- context [if ?c then _ else _] => destruct c eqn:?
           end; simpl in *; intuition congruence.
Qed.

Lemma flow_refl st : flow st st.
Proof.
  split; [apply (heap_rel_refl flags_up flags_up_ok)|]. split; [reflexivity|].
  intros p Hp. left. exact Hp.
Qed.

Lemma flow_trans st1 st2 st3 : flow st1 st2 -> flow st2 st3 -> flow st1 st3.
Proof.
  intros (H1 & O1 & K1) (H2 & O2 & K2).
  split; [eapply (heap_rel_trans flags_up flags_up_ok); eassumption|].
  split; [intros p; rewrite O2; apply O1|].
  intros p Hp. destruct (K1 p Hp) as [A|[A|A]].
  - destruct (K2 p A) as [B|[B|B]]; [left; exact B|right; left|right; right; exact B].
    rewrite <- O1. exact B.
  - right. left. exact A.
  - right. right. destruct H2 as [_ H2]. apply (proj1 (H2 p)). exact A.
Qed.

Lemma submit_loop_marks :
  forall q st n st' n',
    submit_loop q st n = Ok (st', n') ->
    (forall p, In p q -> (p < length (heap st))%nat) ->
    (forall p, isOverwritten_ (deref (heap st') p)
               = isOverwritten_ (deref (heap st) p))
    /\ (forall p, In p q ->
                  isOverwritten_ (deref (heap st) p) = true
                  \/ isSubmitted_ (deref (heap st') p) = true).
Proof.
  induction q as [|iop q IH]; intros st n st' n' H Hv.
  - simpl in H. injection H as <- <-. split; [reflexivity|intros p []].
  - cbn [submit_loop] in H.
    destruct (isOverwritten_ (deref (heap (set_submitIoQ_ q st)) iop)) eqn:Eo.
    + apply IH in H as [O K]; [|intros p Hp; apply Hv; right; exact Hp].
      cbn [heap set_submitIoQ_] in *.
      split; [exact O|]. intros p [<-|Hp]; [left; exact Eo|apply K; exact Hp].
    + destruct (blocks_ (deref (heap (set_submitIoQ_ q st)) iop)) as [|b bs];
        [discriminate|].
      pose proof H as H'.
      apply (submit_loop_frame flags_up flags_up_ok) in H' as [[_ Hup] _].
      apply IH in H as [O K].
      2:{ intros p Hp. cbn [heap set_heap]. rewrite length_upd. apply Hv. right. exact Hp. }
      cbn [heap ioQ_ set_submitIoQ_ set_heap set_aio_ prepareWrite fst snd] in *.
      assert (Ow : forall p f,
                 (forall io, isOverwritten_ (f io) = isOverwritten_ io) ->
                 isOverwritten_ (deref (upd (heap st) iop f) p)
                 = isOverwritten_ (deref (heap st) p)).
      { intros p f Hf.
        apply (deref_upd_rel (fun a b => isOverwritten_ b = isOverwritten_ a));
          [reflexivity|apply Hf]. }
      split.
      * intros p. rewrite O. apply Ow. intros io. destruct io; reflexivity.
      * intros p [<-|Hp].
        -- right. apply (proj1 (Hup iop)).
           rewrite deref_upd_eq by (apply Hv; left; reflexivity). reflexivity.
        -- destruct (K p Hp) as [A|A]; [left|right; exact A].
           rewrite Ow in A; [exact A|]. intros io. destruct io; reflexivity.
Qed.

Lemma submit_loop_flow q st n st' n' :
  submit_loop q st n = Ok (st', n') ->
  (forall p, In p q -> (p < length (heap st))%nat) ->
  heap_rel flags_up (heap st) (heap st')
  /\ (forall p, isOverwritten_ (deref (heap st') p)
                = isOverwritten_ (deref (heap st) p))
  /\ (forall p, In p q ->
                isOverwritten_ (deref (heap st) p) = true
                \/ isSubmitted_ (deref (heap st') p) = true).
Proof.
  intros H Hv.
  pose proof (submit_loop_frame flags_up flags_up_ok q st n st' n' H) as [Hup _].
  split; [exact Hup|]. eapply submit_loop_marks; eassumption.
Qed.

Lemma submitIos_flow st st' :
  submitIos st = Ok st' ->
  (forall p, In p (submitIoQ_ st) -> (p < length (heap st))%nat) ->
  flow st st' /\ submitIoQ_ st' = [] /\ readyIoQ_ st' = readyIoQ_ st.
Proof.
  intros H Hv. pose proof (submitIos_quiet _ _ H) as [_ Hs].
  unfold submitIos in H. destruct (submitIoQ_ st) as [|p0 q] eqn:E.
  - injection H as <-. split; [apply flow_refl|]. split; [exact E|reflexivity].
  - apply bind_ok in H as ([st1 n1] & H1 & H2).
    pose proof (submit_loop_sched _ _ _ _ _ H1) as (_ & _ & _ & G4 & _).
    apply submit_loop_flow in H1 as (F1 & F2 & F3); [|exact Hv].
    assert (S1 : flow st st1 /\ readyIoQ_ st1 = readyIoQ_ st).
    { split; [|exact G4]. split; [exact F1|]. split; [exact F2|].
      intros p Hp. apply in_app_or in Hp as [Hp|Hp].
      - left. apply in_or_app. left. rewrite G4. exact Hp.
      - right. rewrite E in Hp. apply F3. exact Hp. }
    destruct S1 as [S1 S2].
    destruct (0 <? n1); injection H2 as <-; (split; [exact S1|split; [exact Hs|exact S2]]).
Qed.

Lemma insert_sorted_has h iop q p :
  p = iop \/ In p q -> In p (insert_sorted h iop q).
Proof.
  destruct (insert_sorted_split h iop q) as (l1 & l2 & -> & -> & _).
  rewrite !in_app_iff. cbn [In]. intros [->|[H|H]]; auto.
Qed.

Lemma schedule_loop_flow :
  forall ready st st',
    schedule_loop env ready st = Ok st' ->
    (forall p, In p (ready ++ submitIoQ_ st) -> (p < length (heap st))%nat) ->
    heap_rel flags_up (heap st) (heap st')
    /\ (forall p, isOverwritten_ (deref (heap st') p)
                  = isOverwritten_ (deref (heap st) p))
    /\ readyIoQ_ st' = match ready with [] => readyIoQ_ st | _ => [] end
    /\ (forall p, In p (ready ++ submitIoQ_ st) ->
                  In p (submitIoQ_ st')
                  \/ isOverwritten_ (deref (heap st) p) = true
                  \/ isSubmitted_ (deref (heap st') p) = true).
Proof.
  induction ready as [|iop ready IH]; intros st st' H Hv.
  - simpl in H. injection H as <-.
    split; [apply (heap_rel_refl flags_up flags_up_ok)|]. split; [reflexivity|].
    split; [reflexivity|]. intros p Hp. left. exact Hp.
  - cbn [schedule_loop] in H.
    destruct (isOverwritten_ (deref (heap (set_readyIoQ_ ready st)) iop)) eqn:Eo.
    + apply IH in H as (H1 & H2 & H3 & H4).
      2:{ intros p Hp. apply Hv. cbn [app]. right. exact Hp. }
      cbn [heap readyIoQ_ submitIoQ_ set_readyIoQ_] in *.
      split; [exact H1|]. split; [exact H2|].
      split; [rewrite H3; destruct ready; reflexivity|].
      intros p [<-|Hp]; [right; left; exact Eo|apply H4; exact Hp].
    + apply bind_ok in H as (st1 & H1 & H2).
      set (st0 := set_submitIoQ_
                    (insert_sorted (heap (set_readyIoQ_ ready st)) iop
                                   (submitIoQ_ (set_readyIoQ_ ready st)))
                    (set_readyIoQ_ ready st)) in *.
      assert (Hv0 : forall p, In p (submitIoQ_ st0) -> (p < length (heap st))%nat).
      { intros p Hp. cbn [st0 submitIoQ_ set_submitIoQ_ set_readyIoQ_ heap] in Hp.
        apply insert_sorted_In in Hp as [->|Hp]; apply Hv.
        - left. reflexivity.
        - cbn [app]. right. apply in_or_app. right. exact Hp. }
      assert (S0 : flow st0 st1
                   /\ (forall p, In p (submitIoQ_ st1) -> In p (submitIoQ_ st0))
                   /\ length (heap st1) = length (heap st)
                   /\ readyIoQ_ st1 = ready).
      { match type of H1 with (if ?c then _ else _) = _ => destruct c end.
        - pose proof (submitIos_flow _ _ H1 Hv0) as (F & E & Er).
          pose proof (submitIos_frame same_geom same_geom_ok _ _ H1) as ([L _] & _).
          split; [exact F|]. split; [rewrite E; intros p []|].
          split; [rewrite <- L; reflexivity|exact Er].
        - injection H1 as <-. split; [apply flow_refl|]. split; [auto|].
          split; reflexivity. }
      destruct S0 as ((F1 & F2 & F3) & Fs & Fl & Fr).
      apply IH in H2 as (G1 & G2 & G3 & G4).
      2:{ intros p Hp. rewrite Fl. apply in_app_or in Hp as [Hp|Hp].
          - apply Hv. cbn [app]. right. apply in_or_app. left. exact Hp.
          - apply Hv0. apply Fs. exact Hp. }
      cbn [heap readyIoQ_ submitIoQ_ set_readyIoQ_ set_submitIoQ_ st0] in *.
      split; [eapply (heap_rel_trans flags_up flags_up_ok); eassumption|].
      split; [intros p; rewrite G2; apply F2|].
      split; [rewrite G3; destruct ready; [exact Fr|reflexivity]|].
      assert (Hsub : forall p, In p (insert_sorted (heap st) iop (submitIoQ_ st)) ->
                               In p (submitIoQ_ st')
                               \/ isOverwritten_ (deref (heap st) p) = true
                               \/ isSubmitted_ (deref (heap st') p) = true).
      { intros p Hp.
        destruct (F3 p (in_or_app _ _ p (or_intror Hp))) as [A|[A|A]].
        - apply in_app_or in A as [A|A].
          + rewrite Fr in A.
            destruct (G4 p (in_or_app _ _ p (or_introl A))) as [B|[B|B]];
              [left; exact B|right; left; rewrite <- F2; exact B|right; right; exact B].
          + destruct (G4 p (in_or_app _ _ p (or_intror A))) as [B|[B|B]];
              [left; exact B|right; left; rewrite <- F2; exact B|right; right; exact B].
        - right. left. exact A.
        - right. right. destruct G1 as [_ G1]. apply (proj1 (G1 p)). exact A. }
      intros p [<-|Hp].
      * apply Hsub. apply insert_sorted_has. left. reflexivity.
      * apply in_app_or in Hp as [Hp|Hp].
        -- destruct (G4 p (in_or_app _ _ p (or_introl Hp))) as [B|[B|B]];
             [left; exact B|right; left; rewrite <- F2; exact B|right; right; exact B].
        -- apply Hsub. apply insert_sorted_has. right. exact Hp.
Qed.

Lemma scheduleIos_flow st st' :
  scheduleIos env st = Ok st' ->
  (forall p, In p (readyIoQ_ st ++ submitIoQ_ st) -> (p < length (heap st))%nat) ->
  flow st st' /\ readyIoQ_ st' = [].
Proof.
  unfold scheduleIos. intros H Hv.
  apply schedule_loop_flow in H as (H1 & H2 & H3 & H4); [|exact Hv].
  split; [|rewrite H3; destruct (readyIoQ_ st); reflexivity].
  split; [exact H1|]. split; [exact H2|].
  intros p Hp. destruct (H4 p Hp) as [A|A]; [left|right; exact A].
  apply in_or_app. right. exact A.
Qed.

Lemma take_deref h d : (d <= length h)%nat -> take d h = map (deref h) (seq 0 d).
Proof.
  induction d as [|d IH]; intros Hd; [reflexivity|].
  rewrite List.seq_S, map_app. cbn [map Nat.add].
  destruct (h !! d) as [io|] eqn:E; [|apply lookup_ge_None in E; lia].
  assert (Hio : deref h d = io) by (unfold deref; rewrite E; reflexivity).
  rewrite (take_S_r _ _ _ E), IH by lia. rewrite Hio. reflexivity.
Qed.

Lemma filter_map_length {A} (f : Io -> bool) (g g' : A -> Io) l :
  (forall x, In x l -> f (g' x) = f (g x)) ->
  length (List.filter f (map g' l)) = length (List.filter f (map g l)).
Proof.
  induction l as [|x l IH]; intros H; [reflexivity|].
  pose proof (IH (fun y Hy => H y (or_intror Hy))) as IH'.
  cbn [map List.filter]. rewrite (H x (or_introl eq_refl)).
  destruct (f (g x)); cbn [length]; rewrite IH'; reflexivity.
Qed.

Lemma count_ext (f : Io -> bool) h h' d :
  (d <= length h)%nat -> (d <= length h')%nat ->
  (forall p, (p < d)%nat -> f (deref h' p) = f (deref h p)) ->
  length (List.filter f (take d h')) = length (List.filter f (take d h)).
Proof.
  intros H1 H2 H. rewrite !take_deref by assumption. apply filter_map_length.
  intros x Hx. apply in_seq in Hx. apply H. lia.
Qed.

Lemma count_snoc (f : Io -> bool) h d :
  (d < length h)%nat ->
  length (List.filter f (take (S d) h))
  = (length (List.filter f (take d h)) + if f (deref h d) then 1 else 0)%nat.
Proof.
  intros Hd. rewrite !take_deref by lia.
  rewrite List.seq_S, map_app, List.filter_app, length_app.
  cbn [map List.filter Nat.add]. destruct (f (deref h d)); reflexivity.
Qed.

(** The IOs that have left the engine keep their state. *)
Lemma done_stable_at h h' d :
  (forall p, (p < d)%nat -> written (deref h p) \/ dead (deref h p)) ->
  (forall p, (p < d)%nat -> stays_dead (deref h p) (deref h' p)) ->
  (forall p, (p < d)%nat -> stays_written (deref h p) (deref h' p)) ->
  forall p, (p < d)%nat ->
    isSubmitted_ (deref h' p) = isSubmitted_ (deref h p)
    /\ (written (deref h' p) \/ dead (deref h' p)).
Proof.
  intros Hd Hdead Hwr p Hp.
  destruct (Hd p Hp) as [W|D].
  - pose proof (Hwr p Hp W) as W'. split; [|left; exact W'].
    destruct W as [W _], W' as [W' _]. congruence.
  - pose proof (Hdead p Hp D) as D'. split; [|right; exact D'].
    destruct D as [_ D], D' as [_ D']. congruence.
Qed.

Lemma done_stable h h' d :
  (forall p, (p < d)%nat -> written (deref h p) \/ dead (deref h p)) ->
  heap_rel stays_dead h h' -> heap_rel stays_written h h' ->
  forall p, (p < d)%nat ->
    isSubmitted_ (deref h' p) = isSubmitted_ (deref h p)
    /\ (written (deref h' p) \/ dead (deref h' p)).
Proof.
  intros Hd [_ Hdead] [_ Hwr]. apply done_stable_at; [exact Hd| |]; intros p _; auto.
Qed.

Lemma counts_stable h h' d :
  (d <= length h)%nat -> (d <= length h')%nat ->
  (forall p, (p < d)%nat -> isSubmitted_ (deref h' p) = isSubmitted_ (deref h p)) ->
  n_submitted (take d h') = n_submitted (take d h)
  /\ n_unsubmitted (take d h') = n_unsubmitted (take d h).
Proof.
  intros H1 H2 H. unfold n_submitted, n_unsubmitted. split; f_equal.
  - apply count_ext; assumption.
  - apply count_ext; [assumption|assumption|].
    intros p Hp. rewrite (H p Hp). reflexivity.
Qed.

Lemma sched_keeps_flow st st' :
  sched st st' -> flow st st' ->
  nWritten_ st' = nWritten_ st -> nOverwritten_ st' = nOverwritten_ st ->
  heap_rel stays_dead (heap st) (heap st') ->
  heap_rel stays_written (heap st) (heap st') ->
  flow_inv st -> flow_inv st'.
Proof.
  intros Hs (Fup & Fow & Fk) Ew Eo Hdead Hwr [I1 I2 I3 I4 I5 I6 I7].
  pose proof Hs as (Hh & Hq & Hol & Hrs & Hsub).
  destruct Hh as [Hlen Hg].
  assert (Hd : nDone st' = nDone st) by (unfold nDone; rewrite Hq, Hlen; reflexivity).
  pose proof (done_stable _ _ _ I5 Hdead Hwr) as Hst.
  assert (Hle : (nDone st <= length (heap st))%nat) by (unfold nDone; lia).
  destruct (counts_stable (heap st) (heap st') (nDone st) Hle ltac:(lia)
              (fun p Hp => proj1 (Hst p Hp))) as [C1 C2].
  constructor; rewrite ?Hd, ?Hq.
  - eapply sched_safe; eassumption.
  - exact I2.
  - rewrite <- Hlen. exact I3.
  - intros p Hp Hn Ho Hsb.
    destruct (Hg p) as (_ & _ & En). destruct Fup as [_ Fup].
    destruct (Fup p) as [U1 U2].
    assert (Hin : In p (readyIoQ_ st ++ submitIoQ_ st)).
    { apply I4; [exact Hp|congruence| |].
      - rewrite <- Fow. exact Ho.
      - destruct (isSubmitted_ (deref (heap st) p)) eqn:E; [|reflexivity].
        rewrite U1 in Hsb by reflexivity. discriminate. }
    destruct (Fk p Hin) as [A|[A|A]]; [exact A| |congruence].
    rewrite Fow in Ho. congruence.
  - intros p Hp. apply (Hst p Hp).
  - rewrite Ew, I6. symmetry. exact C1.
  - rewrite Eo, I7. symmetry. exact C2.
Qed.

Lemma queue_valid st :
  safe_inv st ->
  forall p, In p (readyIoQ_ st ++ submitIoQ_ st) -> (p < length (heap st))%nat.
Proof. intros Hinv p Hp. apply (si_ready _ Hinv p Hp). Qed.

Lemma submitIos_keeps_flow st st' :
  submitIos st = Ok st' -> flow_inv st -> flow_inv st'.
Proof.
  intros H Hinv.
  pose proof (submitIos_quiet _ _ H) as ((_ & _ & _ & Ew & Eo) & _).
  pose proof (submitIos_frame stays_dead stays_dead_ok _ _ H) as [Hd _].
  pose proof (submitIos_frame stays_written stays_written_ok _ _ H) as [Hw _].
  eapply sched_keeps_flow; try eassumption.
  - apply submitIos_sched. exact H.
  - apply submitIos_flow; [exact H|].
    intros p Hp. apply (queue_valid st (fl_safe _ Hinv)). apply in_or_app. right. exact Hp.
Qed.

Lemma scheduleIos_keeps_flow st st' :
  scheduleIos env st = Ok st' -> flow_inv st -> flow_inv st'.
Proof.
  intros H Hinv.
  pose proof (schedule_loop_quiet env _ _ _ H) as (_ & _ & _ & Ew & Eo).
  pose proof (scheduleIos_frame env stays_dead stays_dead_ok _ _ H) as [Hd _].
  pose proof (scheduleIos_frame env stays_written stays_written_ok _ _ H) as [Hw _].
  eapply sched_keeps_flow; try eassumption.
  - apply (scheduleIos_sched env). exact H.
  - apply scheduleIos_flow; [exact H|]. apply queue_valid. apply (fl_safe _ Hinv).
Qed.

Lemma fold_push_ready_mem l :
  forall st p,
    (In p l /\ isOverwritten_ (deref (heap st) p) = false) \/ In p (readyIoQ_ st) ->
    In p (readyIoQ_ (fold_left push_ready l st)).
Proof.
  induction l as [|x l IH]; intros st p H.
  - destruct H as [[[] _]|H]. exact H.
  - cbn [fold_left]. apply IH.
    assert (Hh : heap (push_ready st x) = heap st)
      by (unfold push_ready; destruct (isOverwritten_ (deref (heap st) x)); reflexivity).
    rewrite Hh.
    destruct H as [[[->|Hp] Ho]|H].
    + right. unfold push_ready. rewrite Ho. left. reflexivity.
    + left. split; assumption.
    + right. unfold push_ready.
      destruct (isOverwritten_ (deref (heap st) x)); [exact H|right; exact H].
Qed.

Lemma dec_flags io :
  isSubmitted_ (dec io) = isSubmitted_ io
  /\ isOverwritten_ (dec io) = isOverwritten_ io
  /\ isCompleted_ (dec io) = isCompleted_ io.
Proof. destruct io; repeat split. Qed.

Lemma waitForAnIoCompletion_flow st st' :
  waitForAnIoCompletion env st = Ok st' -> flow_inv st -> flow_inv st'.
Proof.
  intros H Hinv.
  pose proof (waitForAnIoCompletion_safe env st st' H (fl_safe _ Hinv)) as Hsafe'.
  pose proof (waitForAnIoCompletion_frame env stays_dead stays_dead_ok _ _ H) as [Hdead _].
  pose proof (waitForAnIoCompletion_frame env stays_written stays_written_ok _ _ H)
    as [Hwr _].
  pose proof (waitForAnIoCompletion_frame env same_geom same_geom_ok _ _ H)
    as [[Hlen' _] _].
  destruct Hinv as [Hsafe Hpend Hroom Hqd Hdone Hnw Hno].
  unfold waitForAnIoCompletion in H.
  remember (nDone st) as d eqn:Ed.
  unfold nDone in Ed.
  destruct (ioQ_ st) as [|iop q] eqn:Eq; [discriminate|].
  destruct (front_counter st iop q Hsafe Eq) as [Hzero Hin].
  cbn [length seq] in Hpend, Hroom, Ed. injection Hpend as Eiop Eqs.
  assert (Hvalid : (iop < length (heap st))%nat) by lia.
  apply bind_ok in H as (st1 & H1 & H). apply bind_ok in H as (st2 & H2 & H).
  pose proof (queue_valid st Hsafe) as Hv0.
  assert (B : sched (set_ioQ_ q st) st1 /\ flow (set_ioQ_ q st) st1
              /\ nWritten_ st1 = nWritten_ st /\ nOverwritten_ st1 = nOverwritten_ st
              /\ (isSubmitted_ (deref (heap st) iop) = false ->
                  isOverwritten_ (deref (heap st) iop) = false ->
                  readyIoQ_ st1 = [] /\ submitIoQ_ st1 = [])).
  { cbn [heap set_ioQ_] in H1.
    destruct (isSubmitted_ (deref (heap st) iop)) eqn:Es,
             (isOverwritten_ (deref (heap st) iop)) eqn:Eo; cbn [negb andb] in H1;
      try (injection H1 as <-; split; [apply sched_refl|];
           split; [apply flow_refl|]; split; [reflexivity|];
           split; [reflexivity|intros; discriminate]).
    apply bind_ok in H1 as (sta & Ha & Hb).
    pose proof (scheduleIos_sched env _ _ Ha) as Sa.
    pose proof (submitIos_sched _ _ Hb) as Sb.
    pose proof (scheduleIos_flow _ _ Ha Hv0) as [Fa Ra].
    assert (Hva : forall p, In p (submitIoQ_ sta) -> (p < length (heap sta))%nat).
    { intros p Hp. destruct Sa as ([L _] & _ & _ & Sub & _). rewrite <- L.
      apply Hv0. apply Sub. apply in_or_app. right. exact Hp. }
    pose proof (submitIos_flow _ _ Hb Hva) as (Fb & Sb0 & Rb).
    pose proof (schedule_loop_quiet env _ _ _ Ha) as (_ & _ & _ & Ew1 & Eo1).
    pose proof (submitIos_quiet _ _ Hb) as ((_ & _ & _ & Ew2 & Eo2) & _).
    cbn [nWritten_ nOverwritten_ set_ioQ_] in Ew1, Eo1.
    split; [eapply sched_trans; eassumption|].
    split; [eapply flow_trans; eassumption|].
    split; [congruence|]. split; [congruence|].
    intros _ _. split; [rewrite Rb; exact Ra|exact Sb0]. }
  destruct B as (S1 & F1 & Ew1 & Eo1 & Hempty).
  destruct S1 as (Hh1 & Hq1 & Hol1 & Hrs1 & Hsub1).
  destruct F1 as ([_ Fup1] & Fow1 & Fk1).
  cbn [heap ioQ_ olData_ readyIoQ_ submitIoQ_ set_ioQ_] in Hh1, Hq1, Hol1, Hrs1, Hsub1,
    Fup1, Fow1, Fk1.
  assert (S2 : heap_rel same_core (heap st1) (heap st2)
               /\ ioQ_ st2 = q /\ olData_ st2 = olData_ st
               /\ readyIoQ_ st2 = readyIoQ_ st1 /\ submitIoQ_ st2 = submitIoQ_ st1
               /\ (forall p, isSubmitted_ (deref (heap st2) p)
                             = isSubmitted_ (deref (heap st1) p))
               /\ (forall p, isOverwritten_ (deref (heap st2) p)
                             = isOverwritten_ (deref (heap st1) p))
               /\ (if isSubmitted_ (deref (heap st1) iop)
                   then nWritten_ st2 = nWritten_ st + 1
                        /\ nOverwritten_ st2 = nOverwritten_ st
                        /\ isCompleted_ (deref (heap st2) iop) = true
                   else nWritten_ st2 = nWritten_ st
                        /\ nOverwritten_ st2 = nOverwritten_ st + 1)).
  { destruct (isSubmitted_ (deref (heap st1) iop)) eqn:Es.
    - apply bind_ok in H2 as (a & Ha & Hb). injection Hb as <-.
      cbn [heap set_heap set_aio_ set_nWritten_ ioQ_ olData_ readyIoQ_ submitIoQ_
           nWritten_ nOverwritten_].
      split; [apply core_upd; intros io; repeat split|].
      split; [exact Hq1|]. split; [exact Hol1|]. split; [reflexivity|].
      split; [reflexivity|]. split.
      { intros p. apply (deref_upd_rel (fun a b => isSubmitted_ b = isSubmitted_ a));
          reflexivity. }
      split.
      { intros p. apply (deref_upd_rel (fun a b => isOverwritten_ b = isOverwritten_ a));
          reflexivity. }
      split; [congruence|]. split; [congruence|].
      rewrite deref_upd_eq; [reflexivity|]. destruct Hh1 as [L _]. cbn [heap] in L.
      rewrite <- L. exact Hvalid.
    - injection H2 as <-.
      cbn [heap set_nOverwritten_ ioQ_ olData_ readyIoQ_ submitIoQ_
           nWritten_ nOverwritten_].
      split; [apply core_refl|]. split; [exact Hq1|]. split; [exact Hol1|].
      split; [reflexivity|]. split; [reflexivity|]. split; [reflexivity|].
      split; [reflexivity|]. split; congruence. }
  destruct S2 as (Hh2 & Hq2 & Hol2 & Hr2 & Hs2 & Hsub2 & How2 & Hcnt).
  assert (Hh : heap_rel same_core (heap st) (heap st2))
    by (eapply core_trans; eassumption).
  pose proof (ol_inv_core _ _ _ Hh (si_ol _ Hsafe)) as J1.
  pose proof (counted_core _ _ _ Hh (si_counted _ Hsafe)) as J2.
  destruct Hh as [Hlen Hg].
  assert (Hzero2 : nOverlapped_ (deref (heap st2) iop) = 0)
    by (destruct (Hg iop) as (_ & _ & E); congruence).
  assert (Hin2 : In (offset_ (deref (heap st2) iop), iop) (set_ (olData_ st)))
    by (destruct (Hg iop) as (E & _); rewrite <- E; exact Hin).
  assert (Hend2 : offset_ (deref (heap st2) iop) + size_ (deref (heap st2) iop) < 2 ^ 63).
  { destruct (Hg iop) as (E1 & E2 & _). rewrite <- E1, <- E2. apply (si_geom _ Hsafe).
    rewrite Eq. left. reflexivity. }
  set (stp := set_nPendingBlocks_
                (u64 (nPendingBlocks_ st2
                      - bytesToPb env (size_ (deref (heap st2) iop)))) st2) in H.
  change (heap stp) with (heap st2) in H.
  change (olData_ stp) with (olData_ st2) in H. rewrite Hol2 in H.
  destruct (del_spec (heap st2) (olData_ st) iop [] J1 J2 Hin2 Hzero2 Hend2)
    as (_ & _ & _ & Hwoken & _ & _).
  pose proof (fun p => del_cases (heap st2) (olData_ st) iop [] p J1 J2 Hin2 Hzero2 Hend2)
    as Hcases.
  pose proof (del_length (heap st2) (olData_ st) iop []) as Hdlen.
  destruct (del (heap st2) (olData_ st) iop []) as [[h' ol'] woken] eqn:Edel.
  cbn [fst snd] in Hwoken, Hcases, Hdlen.
  injection H as <-.
  match goal with |- context [fold_left push_ready ?l ?s] =>
    pose proof (fold_push_ready_keeps l s) as F; cbv zeta in F;
    destruct F as (F1 & F2 & F3 & F4 & F5 & F6);
    pose proof (fold_push_ready_mem l s) as Fmem end.
  cbn [heap olData_ submitIoQ_ ioQ_ readyIoQ_ nWritten_ nOverwritten_ set_olData_
       set_heap stp set_nPendingBlocks_] in F1, F2, F3, F4, F5, F6, Fmem.
  assert (Hflags : forall p, isSubmitted_ (deref h' p) = isSubmitted_ (deref (heap st1) p)
                             /\ isOverwritten_ (deref h' p)
                                = isOverwritten_ (deref (heap st) p)
                             /\ isCompleted_ (deref h' p)
                                = isCompleted_ (deref (heap st2) p)).
  { intros p. rewrite <- Fow1, <- How2, <- Hsub2.
    destruct (Hcases p) as [->|(-> & _)]; [auto|apply dec_flags]. }
  assert (Hd' : nDone (fold_left push_ready woken
                         (set_olData_ ol' (set_heap h' stp))) = S d).
  { unfold nDone. rewrite F1, F6. cbn [ioQ_ set_olData_ set_heap stp set_nPendingBlocks_].
    rewrite Hq2, Hdlen, <- Hlen. lia. }
  pose proof (done_stable _ _ _ Hdone Hdead Hwr) as Hst.
  rewrite F1 in Hst.
  assert (Hiop : written (deref h' iop) \/ dead (deref h' iop)).
  { destruct (Hflags iop) as (A & B & C).
    destruct (isSubmitted_ (deref (heap st1) iop)) eqn:Es.
    - left. destruct Hcnt as (_ & _ & Hc). split; congruence.
    - right. split; [|exact A]. rewrite B.
      destruct (isOverwritten_ (deref (heap st) iop)) eqn:Eo; [reflexivity|exfalso].
      assert (Es0 : isSubmitted_ (deref (heap st) iop) = false).
      { destruct (isSubmitted_ (deref (heap st) iop)) eqn:E; [|reflexivity].
        rewrite (proj1 (Fup1 iop) E) in Es. discriminate. }
      destruct (Hempty Es0 eq_refl) as [R0 S0].
      assert (Hq0 : In iop (readyIoQ_ st ++ submitIoQ_ st)).
      { apply Hqd; [left; reflexivity|exact Hzero|exact Eo|exact Es0]. }
      destruct (Fk1 iop Hq0) as [X|[X|X]]; [|congruence|congruence].
      rewrite R0, S0 in X. destruct X. }
  assert (Hle : (d <= length (heap st))%nat) by lia.
  assert (Hle' : (d <= length h')%nat) by (rewrite Hdlen, <- Hlen; lia).
  destruct (counts_stable (heap st) h' d Hle Hle' (fun p Hp => proj1 (Hst p Hp)))
    as [C1 C2].
  constructor; rewrite ?Hd', ?F1, ?F3, ?F4, ?F5, ?F6;
    cbn [ioQ_ submitIoQ_ nWritten_ nOverwritten_ set_olData_ set_heap stp
         set_nPendingBlocks_]; rewrite ?Hq2.
  - exact Hsafe'.
  - exact Eqs.
  - rewrite Hdlen, <- Hlen. lia.
  - intros p Hp Hn Ho Hsb. destruct (Hflags p) as (A & B & _).
    assert (Es0 : isSubmitted_ (deref (heap st) p) = false).
    { destruct (isSubmitted_ (deref (heap st) p)) eqn:E; [|reflexivity].
      rewrite A, (proj1 (Fup1 p) E) in Hsb. discriminate. }
    destruct (Hcases p) as [E|(E & Hn1 & k & Hx & Hov)].
    + assert (Hq0 : In p (readyIoQ_ st ++ submitIoQ_ st)).
      { apply Hqd; [right; exact Hp| |congruence|exact Es0].
        destruct (Hg p) as (_ & _ & En). rewrite En, <- E. exact Hn. }
      destruct (Fk1 p Hq0) as [X|[X|X]]; [|congruence|congruence].
      apply in_app_or in X as [X|X]; apply in_or_app.
      * left. apply Fmem. right. rewrite Hr2. exact X.
      * right. rewrite Hs2. exact X.
    + apply in_or_app. left. apply Fmem. left. split; [|exact Ho].
      rewrite Hwoken. cbn [app]. apply in_map_iff. exists (k, p).
      split; [reflexivity|]. apply filter_In. split; [exact Hx|].
      rewrite Hov. cbn [andb snd]. apply Z.eqb_eq.
      rewrite E in Hn.
      change (nOverlapped_ (dec (deref (heap st2) p)))
        with (u32 (nOverlapped_ (deref (heap st2) p) - 1)) in Hn.
      rewrite u32_small in Hn by lia. lia.
  - intros p Hp. destruct (Nat.eq_dec p d) as [->|Hne].
    + rewrite <- Eiop. exact Hiop.
    + apply Hst. lia.
  - unfold n_submitted in *. rewrite count_snoc by lia. rewrite Nat2Z.inj_add, C1, <- Hnw.
    rewrite <- Eiop. destruct (Hflags iop) as (A & _). rewrite A.
    destruct (isSubmitted_ (deref (heap st1) iop)); destruct Hcnt as (Hc & _); lia.
  - unfold n_unsubmitted in *. rewrite count_snoc by lia. rewrite Nat2Z.inj_add, C2, <- Hno.
    rewrite <- Eiop. destruct (Hflags iop) as (A & _). rewrite A.
    destruct (isSubmitted_ (deref (heap st1) iop)); cbn [negb];
      destruct Hcnt as (_ & Hc); try destruct Hc as (Hc & _); lia.
Qed.

Lemma same_engine_flow st st' : same_engine st st' -> flow_inv st -> flow_inv st'.
Proof.
  intros Hs [I1 I2 I3 I4 I5 I6 I7].
  pose proof (same_engine_safe _ _ Hs I1) as Hsafe.
  destruct Hs as (E1 & E2 & E3 & E4 & E5 & E6 & E7 & _).
  assert (Hd : nDone st' = nDone st) by (unfold nDone; rewrite E1, E3; reflexivity).
  constructor; rewrite ?Hd, ?E1, ?E3, ?E4, ?E5, ?E6, ?E7; assumption.
Qed.

(** One IO of the staging queue enters the engine. *)
Lemma enqueue_one_flow io st :
  flow_inv st -> good_io io ->
  Z.of_nat (length (heap (enqueue_loop [io] st))) < 2 ^ 32 ->
  flow_inv (enqueue_loop [io] st).
Proof.
  intros Hinv Hgood Hbound.
  assert (Hgood1 : Forall good_io [io]) by (constructor; [exact Hgood|constructor]).
  pose proof (enqueue_loop_safe [io] st (fl_safe _ Hinv) Hgood1 Hbound) as Hsafe'.
  destruct Hinv as [Hsafe Hpend Hroom Hqd Hdone Hnw Hno].
  cbn [enqueue_loop] in *.
  set (iop := length (heap st)) in *.
  set (st1 := set_heap (heap st ++ [io]) st) in *.
  destruct (insertToOverlappedData_fields st1 iop)
    as (_ & _ & _ & _ & Eq & Er & Es & Ew & Eo). cbv zeta in Eq, Er, Es, Ew, Eo.
  pose proof (insertToOverlappedData_heap st1 iop) as Eh.
  set (st2 := insertToOverlappedData st1 iop) in *.
  cbn [heap olData_ st1 set_heap ioQ_ readyIoQ_ submitIoQ_ nWritten_ nOverwritten_]
    in Eh, Eq, Er, Es, Ew, Eo.
  set (h1 := heap st ++ [io]) in *.
  assert (Hlen : length (heap st2) = S iop).
  { rewrite Eh, ins_length. unfold h1, iop. rewrite length_app. cbn [length]. lia. }
  assert (Hold : forall p, (p < iop)%nat -> deref h1 p = deref (heap st) p).
  { intros p Hp. unfold h1. apply deref_app_l. exact Hp. }
  assert (Hrel : forall R, io_rel_ok R ->
                           forall p, (p < iop)%nat ->
                                     R (deref (heap st) p) (deref (heap st2) p)).
  { intros R HR p Hp. rewrite <- (Hold p Hp), Eh. apply ins_rel. exact HR. }
  assert (Hsubm : forall p, (p < iop)%nat ->
                            isSubmitted_ (deref (heap st2) p)
                            = isSubmitted_ (deref (heap st) p)).
  { intros p Hp. rewrite Eh, ins_submitted. f_equal. apply Hold. exact Hp. }
  assert (Hn : forall p, (p < iop)%nat ->
                         nOverlapped_ (deref (heap st2) p)
                         = nOverlapped_ (deref (heap st) p)).
  { intros p Hp. rewrite Eh, ins_other by lia. f_equal. apply Hold. exact Hp. }
  match goal with |- flow_inv (set_ioQ_ _ ?s) => set (st3 := s) in * end.
  assert (E3 : heap st3 = heap st2 /\ ioQ_ st3 = ioQ_ st
               /\ submitIoQ_ st3 = submitIoQ_ st
               /\ nWritten_ st3 = nWritten_ st /\ nOverwritten_ st3 = nOverwritten_ st
               /\ (forall p, In p (readyIoQ_ st) -> In p (readyIoQ_ st3))
               /\ (nOverlapped_ (deref (heap st2) iop) = 0 -> In iop (readyIoQ_ st3))).
  { unfold st3. destruct (nOverlapped_ (deref (heap st2) iop) =? 0) eqn:Ez;
      cbn [heap ioQ_ readyIoQ_ submitIoQ_ nWritten_ nOverwritten_ set_readyIoQ_];
      rewrite ?Eq, ?Er, ?Es, ?Ew, ?Eo; repeat split; try reflexivity.
    - intros p Hp. apply in_or_app. left. exact Hp.
    - intros _. apply in_or_app. right. left. reflexivity.
    - intros p Hp. exact Hp.
    - intros Hz. rewrite Hz in Ez. discriminate. }
  destruct E3 as (E3h & E3q & E3s & E3w & E3o & E3r & E3n).
  assert (Hdn : (nDone st + length (ioQ_ st))%nat = iop) by (unfold nDone, iop; lia).
  assert (Hd' : nDone (set_ioQ_ (ioQ_ st3 ++ [iop]) st3) = nDone st).
  { unfold nDone. cbn [heap ioQ_ set_ioQ_]. rewrite E3h, E3q, Hlen, length_app.
    cbn [length]. unfold iop. lia. }
  assert (Hst : forall p, (p < nDone st)%nat ->
                  isSubmitted_ (deref (heap st2) p) = isSubmitted_ (deref (heap st) p)
                  /\ (written (deref (heap st2) p) \/ dead (deref (heap st2) p))).
  { apply done_stable_at; [exact Hdone| |]; intros p Hp.
    - apply (Hrel stays_dead stays_dead_ok). lia.
    - apply (Hrel stays_written stays_written_ok). lia. }
  destruct (counts_stable (heap st) (heap st2) (nDone st)
              ltac:(unfold nDone; lia) ltac:(rewrite Hlen; lia)
              (fun p Hp => proj1 (Hst p Hp))) as [C1 C2].
  constructor; rewrite ?Hd'; cbn [heap ioQ_ readyIoQ_ submitIoQ_ nWritten_ nOverwritten_
                                  set_ioQ_]; rewrite ?E3h, ?E3q, ?E3s, ?E3w, ?E3o.
  - rewrite <- E3q. exact Hsafe'.
  - rewrite length_app. cbn [length].
    replace (length (ioQ_ st) + 1)%nat with (S (length (ioQ_ st))) by lia.
    rewrite List.seq_S, Hdn, <- Hpend. reflexivity.
  - rewrite length_app, Hlen. cbn [length]. fold iop in Hroom. lia.
  - intros p Hp Hz Ho Hsb. apply in_app_or in Hp as [Hp|[<-|[]]].
    + assert (Hlt : (p < iop)%nat).
      { rewrite Hpend in Hp. apply in_seq in Hp. lia. }
      assert (Hq0 : In p (readyIoQ_ st ++ submitIoQ_ st)).
      { apply Hqd; [exact Hp|rewrite <- Hn by exact Hlt; exact Hz| |
                    rewrite <- Hsubm by exact Hlt; exact Hsb].
        destruct (isOverwritten_ (deref (heap st) p)) eqn:E; [|reflexivity].
        rewrite (proj2 (Hrel flags_up flags_up_ok p Hlt) E) in Ho. discriminate. }
      apply in_app_or in Hq0 as [X|X]; apply in_or_app; [left; apply E3r; exact X|].
      right. exact X.
    + apply in_or_app. left. apply E3n. exact Hz.
  - intros p Hp. apply (Hst p Hp).
  - rewrite Hnw. symmetry. exact C1.
  - rewrite Hno. symmetry. exact C2.
Qed.

Lemma enqueue_loop_flow :
  forall ioQ st,
    flow_inv st -> Forall good_io ioQ ->
    Z.of_nat (length (heap (enqueue_loop ioQ st))) < 2 ^ 32 ->
    flow_inv (enqueue_loop ioQ st).
Proof.
  induction ioQ as [|io ioQ IH]; intros st Hinv Hgood Hbound; [exact Hinv|].
  inversion Hgood as [|? ? Hio Hgood']; subst.
  change (enqueue_loop (io :: ioQ) st) with (enqueue_loop ioQ (enqueue_loop [io] st))
    in *.
  apply IH; [|exact Hgood'|exact Hbound].
  apply enqueue_one_flow; [exact Hinv|exact Hio|].
  rewrite enqueue_loop_length in Hbound. lia.
Qed.

Lemma wait_room_loop_flow nBlocks :
  forall fuel st st',
    wait_room_loop env fuel nBlocks st = Ok st' ->
    flow_inv st -> flow_inv st'.
Proof.
  induction fuel as [|fuel IH]; intros st st' H Hinv.
  - cbn [wait_room_loop] in H. destruct (ioQ_ st); [injection H as <-; exact Hinv|].
    destruct (queueSize_ env <? _); [discriminate|injection H as <-; exact Hinv].
  - cbn [wait_room_loop] in H. destruct (ioQ_ st) eqn:E; [injection H as <-; exact Hinv|].
    destruct (queueSize_ env <? _); [|injection H as <-; exact Hinv].
    apply bind_ok in H as (st1 & G1 & G2).
    apply (IH st1 st' G2). eapply waitForAnIoCompletion_flow; eassumption.
Qed.

Lemma prepareIos_flow ioQ nBlocks st st' :
  prepareIos env ioQ nBlocks st = Ok st' ->
  Forall good_io ioQ ->
  Z.of_nat (length (heap st')) < 2 ^ 32 ->
  flow_inv st -> flow_inv st'.
Proof.
  unfold prepareIos. intros H Hgood Hbound Hinv. apply bind_ok in H as (st1 & H1 & H2).
  injection H2 as <-. apply enqueue_loop_flow; [|exact Hgood|exact Hbound].
  apply wait_room_loop_flow in H1; [|exact Hinv].
  eapply same_engine_flow; [|exact H1]. repeat split.
Qed.

Lemma engine_step_flow st st' : engine_step env st st' -> flow_inv st -> flow_inv st'.
Proof.
  intros [s s' H|s s' H|s s' H|s s' H|ioQ nBlocks s s' Hgood Hbound H] Hinv.
  - eapply same_engine_flow; eassumption.
  - eapply submitIos_keeps_flow; eassumption.
  - eapply scheduleIos_keeps_flow; eassumption.
  - eapply waitForAnIoCompletion_flow; eassumption.
  - eapply prepareIos_flow; eassumption.
Qed.

Lemma engine_run_flow st st' : engine_run env st st' -> flow_inv st -> flow_inv st'.
Proof.
  induction 1 as [s|s s1 s2 _ IH Hstep]; intros Hinv; [exact Hinv|].
  eapply engine_step_flow; [exact Hstep|apply IH; exact Hinv].
Qed.

Lemma flow_inv_init : flow_inv applyer_init.
Proof.
  constructor; cbn.
  - apply safe_inv_init.
  - reflexivity.
  - lia.
  - intros p [].
  - intros p Hp. lia.
  - reflexivity.
  - reflexivity.
Qed.

Lemma wait_all_loop_done :
  forall fuel st st', wait_all_loop env fuel st = Ok st' -> ioQ_ st' = [].
Proof.
  induction fuel as [|fuel IH]; intros st st' H.
  - cbn [wait_all_loop] in H.
    destruct (ioQ_ st) eqn:E1, (readyIoQ_ st) eqn:E2; try discriminate.
    injection H as <-. exact E1.
  - cbn [wait_all_loop] in H.
    assert (Hgo : (do st1 <- waitForAnIoCompletion env st; wait_all_loop env fuel st1)
                  = Ok st' -> ioQ_ st' = []).
    { intros G. apply bind_ok in G as (st1 & _ & G2). apply (IH st1 st' G2). }
    destruct (ioQ_ st) eqn:E1, (readyIoQ_ st) eqn:E2; try (apply Hgo; exact H).
    injection H as <-. exact E1.
Qed.

(** When the pending queue is empty, every IO of the store has left the
    engine. *)
Lemma flow_inv_drained st :
  flow_inv st -> ioQ_ st = [] ->
  Forall (fun io => written io \/ dead io) (heap st)
  /\ nWritten_ st = n_submitted (heap st)
  /\ nOverwritten_ st = n_unsubmitted (heap st).
Proof.
  intros [I1 I2 I3 I4 I5 I6 I7] E.
  assert (Hd : nDone st = length (heap st)) by (unfold nDone; rewrite E; cbn; lia).
  rewrite Hd in I5, I6, I7. rewrite take_ge in I6, I7 by lia.
  split; [|split; assumption].
  apply Forall_deref. exact I5.
Qed.

End FlowFacts.

Section FlowTheorems.

Import Redo RedoOverlap RedoSafety RedoFlow.


End FlowTheorems.

Section FlowWitness.

Import Redo RedoOverlap RedoSafety RedoFlow.


End FlowWitness.

Section WriteFacts.

Import Redo RedoOverlap RedoSafety RedoFlow RedoWrites RedoDrain.

Variable env : Env.

Lemma keeps_target_ok : io_rel_ok keeps_target.
Proof.
  constructor; unfold keeps_target, io_target, io_bytes, overwritten; intros;
    repeat match goal with
           | |- context [if ?c then _ else _] => destruct c eqn:?
           end; simpl in *; intuition congruence.
Qed.

(** Marking an unsubmitted IO of the store as submitted adds it to the
    submitted IOs. *)
Lemma submitted_upd (f : Io -> Io) :
  (forall io, isSubmitted_ (f io) = true /\ io_target (f io) = io_target io) ->
  forall h p,
    (p < length h)%nat -> isSubmitted_ (deref h p) = false ->
    Permutation (map io_target (submitted_ios (upd h p f)))
                (io_target (deref h p) :: map io_target (submitted_ios h)).
Proof.
  intros Hf. induction h as [|x h IH]; intros p Hp Hs; [cbn in Hp; lia|].
  destruct p as [|p].
  - change (deref (x :: h) 0) with x in *. change (upd (x :: h) 0 f) with (f x :: h).
    unfold submitted_ios. cbn [List.filter]. destruct (Hf x) as [A B].
    rewrite A, Hs. cbn [map]. rewrite B. reflexivity.
  - change (deref (x :: h) (S p)) with (deref h p) in *.
    change (upd (x :: h) (S p) f) with (x :: upd h p f).
    cbn [length] in Hp. specialize (IH p ltac:(lia) Hs).
    unfold submitted_ios in *. cbn [List.filter].
    destruct (isSubmitted_ x); cbn [map]; [|exact IH].
    etransitivity; [apply perm_skip; exact IH|apply perm_swap].
Qed.

(** The submitted IOs of two stores with the same IOs submitted, which
    write the same. *)
Lemma submitted_ext_on (l : list nat) h h' :
  (forall p, In p l -> isSubmitted_ (deref h' p) = isSubmitted_ (deref h p)) ->
  (forall p, In p l -> keeps_target (deref h p) (deref h' p)) ->
  map io_target (List.filter isSubmitted_ (map (deref h') l))
  = map io_target (List.filter isSubmitted_ (map (deref h) l)).
Proof.
  induction l as [|x l IH]; intros Hs Hk; [reflexivity|].
  pose proof (IH (fun p Hp => Hs p (or_intror Hp))
                 (fun p Hp => Hk p (or_intror Hp))) as IH'.
  cbn [map List.filter]. rewrite (Hs x (or_introl eq_refl)).
  destruct (isSubmitted_ (deref h x)) eqn:E; [|exact IH'].
  cbn [map]. rewrite IH'. f_equal.
  apply (Hk x (or_introl eq_refl)). exact E.
Qed.

Lemma submitted_ext h h' :
  length h = length h' ->
  (forall p, isSubmitted_ (deref h' p) = isSubmitted_ (deref h p)) ->
  (forall p, keeps_target (deref h p) (deref h' p)) ->
  map io_target (submitted_ios h') = map io_target (submitted_ios h).
Proof.
  intros Hlen Hs Hk. unfold submitted_ios.
  rewrite <- (take_ge h (length h)) at 1 by lia.
  rewrite <- (take_ge h' (length h)) by lia.
  rewrite !take_deref by lia. apply submitted_ext_on; auto.
Qed.

Lemma submitted_app h io :
  isSubmitted_ io = false -> submitted_ios (h ++ [io]) = submitted_ios h.
Proof.
  intros Hs. unfold submitted_ios. rewrite List.filter_app. cbn [List.filter].
  rewrite Hs. apply app_nil_r.
Qed.

(** The loop of submitIos hands one write to the device for each IO that
    it marks as submitted. *)
Lemma submit_loop_issues :
  forall q st n st' n',
    submit_loop q st n = Ok (st', n') ->
    List.NoDup q ->
    (forall p, In p q ->
               (p < length (heap st))%nat /\ isSubmitted_ (deref (heap st) p) = false) ->
    0 <= n ->
    aio_prepared (aio_ st) = [] \/ 0 < n ->
    Permutation (map w_target (writes (aio_ st)))
                (map io_target (submitted_ios (heap st))) ->
    Permutation (map w_target (writes (aio_ st')))
                (map io_target (submitted_ios (heap st')))
    /\ aio_issued (aio_ st') = aio_issued (aio_ st)
    /\ 0 <= n'
    /\ (aio_prepared (aio_ st') = [] \/ 0 < n')
    /\ (forall p, ~ In p q ->
                  isSubmitted_ (deref (heap st') p) = isSubmitted_ (deref (heap st) p)).
Proof.
  induction q as [|iop q IH]; intros st n st' n' H Hnd Hq Hn Hp W.
  - simpl in H. injection H as <- <-. auto.
  - cbn [submit_loop] in H. inversion Hnd as [|? ? Hnot Hnd']; subst.
    destruct (isOverwritten_ (deref (heap (set_submitIoQ_ q st)) iop)) eqn:Eo.
    + apply IH in H as (A & B & C & D & E); try assumption.
      2:{ intros p Hx. apply Hq. right. exact Hx. }
      cbn [heap aio_ set_submitIoQ_] in *.
      split; [exact A|]. split; [exact B|]. split; [exact C|]. split; [exact D|].
      intros p Hx. apply E. intros Hy. apply Hx. right. exact Hy.
    + destruct (blocks_ (deref (heap (set_submitIoQ_ q st)) iop)) as [|b bs];
        [discriminate|].
      destruct (Hq iop (or_introl eq_refl)) as [Hv Hs].
      apply IH in H as (A & B & C & D & E); try assumption.
      * cbn [heap aio_ set_submitIoQ_ set_heap set_aio_ prepareWrite fst snd
             aio_issued aio_prepared] in *.
        split; [exact A|]. split; [exact B|]. split; [exact C|]. split; [exact D|].
        intros p Hx. rewrite E by (intros Hy; apply Hx; right; exact Hy).
        apply f_equal. apply deref_upd_ne. intros ->. apply Hx. left. reflexivity.
      * intros p Hx. cbn [heap set_heap set_aio_ set_submitIoQ_].
        rewrite length_upd. destruct (Hq p (or_intror Hx)) as [A B].
        split; [exact A|]. rewrite deref_upd_ne; [exact B|].
        intros ->. apply Hnot. exact Hx.
      * lia.
      * right. lia.
      * cbn [heap aio_ set_submitIoQ_ set_heap set_aio_ prepareWrite fst snd].
        unfold writes in *. cbn [aio_issued aio_prepared].
        rewrite app_assoc, map_app. cbn [map].
        etransitivity;
          [|apply Permutation_sym;
            apply (submitted_upd (fun io => markSubmitted (set_aioKey_ _ io)));
            [intros io; destruct io; split; reflexivity|exact Hv|exact Hs]].
        etransitivity; [apply Permutation_sym, Permutation_cons_append|].
        apply perm_skip. exact W.
Qed.

Lemma nodup_app_inv {A} (l k : list A) :
  List.NoDup (l ++ k) ->
  List.NoDup l /\ List.NoDup k /\ forall x, In x l -> ~ In x k.
Proof.
  induction l as [|a l IH]; intros H.
  - split; [constructor|]. split; [exact H|intros x []].
  - cbn [app] in H. inversion H as [|? ? Hnot Hnd]; subst.
    destruct (IH Hnd) as (A1 & A2 & A3).
    split; [constructor; [|exact A1]|].
    + intros Hin. apply Hnot. apply in_or_app. left. exact Hin.
    + split; [exact A2|]. intros x [<-|Hx] Hk.
      * apply Hnot. apply in_or_app. right. exact Hk.
      * exact (A3 x Hx Hk).
Qed.

Lemma insert_sorted_perm h iop q : Permutation (iop :: q) (insert_sorted h iop q).
Proof.
  destruct (insert_sorted_split h iop q) as (l1 & l2 & -> & -> & _).
  apply Permutation_middle.
Qed.

Lemma submitIos_writes st st' :
  submitIos st = Ok st' -> write_inv st ->
  write_inv st' /\ readyIoQ_ st' = readyIoQ_ st.
Proof.
  intros H [V F N P W].
  pose proof (submitIos_frame same_geom same_geom_ok _ _ H) as ([Hlen _] & _).
  destruct (nodup_app_inv _ _ N) as (N1 & N2 & N3).
  unfold submitIos in H. destruct (submitIoQ_ st) as [|p0 q] eqn:E.
  - injection H as <-. split; [|reflexivity]. constructor; rewrite ?E; assumption.
  - apply bind_ok in H as ([st1 n1] & H1 & H2).
    pose proof (submit_loop_sched _ _ _ _ _ H1) as ([L1 _] & _ & _ & G4 & G5 & _).
    apply submit_loop_issues in H1 as (A & B & C & D & Ef).
    + assert (Hst' : heap st' = heap st1 /\ readyIoQ_ st' = readyIoQ_ st
                     /\ submitIoQ_ st' = []
                     /\ aio_prepared (aio_ st') = []
                     /\ aio_issued (aio_ st') = writes (aio_ st1)).
      { destruct (Z.ltb_spec 0 n1); injection H2 as <-;
          cbn [heap readyIoQ_ submitIoQ_ aio_ set_aio_ submit aio_prepared aio_issued];
          (split; [reflexivity|]); (split; [exact G4|]); (split; [exact G5|]).
        - split; reflexivity.
        - destruct D as [D|D]; [|lia]. split; [exact D|].
          unfold writes. rewrite D, app_nil_r. reflexivity. }
      destruct Hst' as (E1 & E2 & E3 & E4 & E5).
      split; [|exact E2].
      constructor; rewrite ?E1, ?E2, ?E3, ?E4, ?E5, ?app_nil_r.
      * intros p Hp. rewrite <- L1. apply V. apply in_or_app. left. exact Hp.
      * intros p Hp. rewrite Ef by (apply N3; exact Hp).
        apply F. apply in_or_app. left. exact Hp.
      * exact N1.
      * reflexivity.
      * exact A.
    + exact N2.
    + intros p Hp. split; [apply V|apply F]; apply in_or_app; right; exact Hp.
    + lia.
    + left. exact P.
    + unfold writes. rewrite P, app_nil_r. exact W.
Qed.

Lemma schedule_loop_writes :
  forall ready st st',
    schedule_loop env ready st = Ok st' -> readyIoQ_ st = ready ->
    write_inv st -> write_inv st'.
Proof.
  induction ready as [|iop ready IH]; intros st st' H Hr Hinv.
  - simpl in H. injection H as <-. exact Hinv.
  - cbn [schedule_loop] in H.
    destruct Hinv as [V F N P W]. rewrite Hr in V, F, N.
    destruct (isOverwritten_ (deref (heap (set_readyIoQ_ ready st)) iop)).
    + apply IH in H; [exact H|reflexivity|].
      cbn [app] in N. inversion N; subst.
      constructor; cbn [heap readyIoQ_ submitIoQ_ aio_ set_readyIoQ_]; try assumption.
      * intros p Hp. apply V. right. exact Hp.
      * intros p Hp. apply F. right. exact Hp.
    + apply bind_ok in H as (st1 & H1 & H2).
      set (s1 := set_submitIoQ_
                    (insert_sorted (heap (set_readyIoQ_ ready st)) iop
                                   (submitIoQ_ (set_readyIoQ_ ready st)))
                    (set_readyIoQ_ ready st)) in *.
      assert (Hperm : Permutation ((iop :: ready) ++ submitIoQ_ st)
                                  (readyIoQ_ s1 ++ submitIoQ_ s1)).
      { cbn [s1 readyIoQ_ submitIoQ_ set_submitIoQ_ set_readyIoQ_ heap app].
        etransitivity; [apply Permutation_middle|].
        apply Permutation_app_head. apply insert_sorted_perm. }
      assert (I1 : write_inv s1).
      { constructor; try assumption.
        - intros p Hp. apply (Permutation_in _ (Permutation_sym Hperm)) in Hp.
          apply V. exact Hp.
        - intros p Hp. apply (Permutation_in _ (Permutation_sym Hperm)) in Hp.
          apply F. exact Hp.
        - eapply Permutation_NoDup; [exact Hperm|exact N]. }
      assert (I2 : write_inv st1 /\ readyIoQ_ st1 = ready).
      { match type of H1 with (if ?c then _ else _) = _ => destruct c end.
        - apply submitIos_writes in H1 as [A B]; [|exact I1]. split; [exact A|exact B].
        - injection H1 as <-. split; [exact I1|reflexivity]. }
      destruct I2 as [I2 R2]. apply (IH st1 st' H2 R2 I2).
Qed.

Lemma scheduleIos_writes st st' :
  scheduleIos env st = Ok st' -> write_inv st -> write_inv st'.
Proof. unfold scheduleIos. intros H. eapply schedule_loop_writes; [exact H|reflexivity]. Qed.

Lemma fold_push_ready_nodup l :
  forall st k,
    List.NoDup l ->
    (forall p, In p l -> ~ In p (readyIoQ_ st ++ k)) ->
    List.NoDup (readyIoQ_ st ++ k) ->
    List.NoDup (readyIoQ_ (fold_left push_ready l st) ++ k).
Proof.
  induction l as [|x l IH]; intros st k Hnd Hout N; [exact N|].
  cbn [fold_left]. inversion Hnd as [|? ? Hnot Hnd']; subst.
  apply IH; [exact Hnd'| |].
  - intros p Hp Hin. unfold push_ready in Hin.
    destruct (isOverwritten_ (deref (heap st) x)).
    + apply (Hout p (or_intror Hp)). exact Hin.
    + cbn [readyIoQ_ set_readyIoQ_ app] in Hin. destruct Hin as [<-|Hin].
      * apply Hnot. exact Hp.
      * apply (Hout p (or_intror Hp)). exact Hin.
  - unfold push_ready. destruct (isOverwritten_ (deref (heap st) x)); [exact N|].
    cbn [readyIoQ_ set_readyIoQ_ app]. constructor; [|exact N].
    apply Hout. left. reflexivity.
Qed.

Lemma waitForAnIoCompletion_writes st st' :
  waitForAnIoCompletion env st = Ok st' ->
  safe_inv st -> write_inv st -> write_inv st'.
Proof.
  intros H Hsafe Hw.
  unfold waitForAnIoCompletion in H.
  destruct (ioQ_ st) as [|iop q] eqn:Eq; [discriminate|].
  destruct (front_counter st iop q Hsafe Eq) as [Hzero Hin].
  apply bind_ok in H as (st1 & H1 & H). apply bind_ok in H as (st2 & H2 & H).
  assert (W0 : write_inv (set_ioQ_ q st)) by (destruct Hw; constructor; assumption).
  assert (B : sched (set_ioQ_ q st) st1 /\ write_inv st1).
  { match type of H1 with (if ?c then _ else _) = _ => destruct c end.
    - apply bind_ok in H1 as (sta & Ha & Hb).
      split; [eapply sched_trans;
              [apply (scheduleIos_sched env); exact Ha|apply submitIos_sched; exact Hb]|].
      apply scheduleIos_writes in Ha; [|exact W0].
      apply submitIos_writes in Hb as [Hb _]; [exact Hb|exact Ha].
    - injection H1 as <-. split; [apply sched_refl|exact W0]. }
  destruct B as (S1 & [V1 F1 N1 P1 W1]).
  destruct S1 as (Hh1 & Hq1 & Hol1 & Hrs1 & Hsub1).
  cbn [heap ioQ_ olData_ readyIoQ_ submitIoQ_ set_ioQ_] in Hh1, Hq1, Hol1, Hrs1, Hsub1.
  assert (S2 : heap_rel same_core (heap st1) (heap st2)
               /\ olData_ st2 = olData_ st
               /\ readyIoQ_ st2 = readyIoQ_ st1 /\ submitIoQ_ st2 = submitIoQ_ st1
               /\ (forall p, isSubmitted_ (deref (heap st2) p)
                             = isSubmitted_ (deref (heap st1) p))
               /\ (forall p, keeps_target (deref (heap st1) p) (deref (heap st2) p))
               /\ aio_prepared (aio_ st2) = aio_prepared (aio_ st1)
               /\ aio_issued (aio_ st2) = aio_issued (aio_ st1)).
  { destruct (isSubmitted_ (deref (heap st1) iop)) eqn:Es.
    - apply bind_ok in H2 as (a & Ha & Hb). injection Hb as <-.
      cbn [heap set_heap set_aio_ set_nWritten_ ioQ_ olData_ readyIoQ_ submitIoQ_ aio_].
      split; [apply core_upd; intros io; repeat split|].
      split; [exact Hol1|]. split; [reflexivity|]. split; [reflexivity|]. split.
      { intros p. apply (deref_upd_rel (fun a b => isSubmitted_ b = isSubmitted_ a));
          reflexivity. }
      split.
      { intros p. apply (deref_upd_rel keeps_target);
          [intros io Hs; auto|intros Hs; split; [exact Hs|reflexivity]]. }
      unfold waitFor in Ha.
      match type of Ha with (if ?c then _ else _) = _ => destruct c end;
        [|discriminate].
      injection Ha as <-. split; reflexivity.
    - injection H2 as <-.
      cbn [heap set_nOverwritten_ ioQ_ olData_ readyIoQ_ submitIoQ_ aio_].
      split; [apply core_refl|]. split; [exact Hol1|].
      split; [reflexivity|]. split; [reflexivity|]. split; [reflexivity|].
      split; [intros p Hs; auto|split; reflexivity]. }
  destruct S2 as (Hh2 & Hol2 & Hr2 & Hs2 & Hsub2 & Hkeep2 & Hp2 & Hi2).
  assert (Hh : heap_rel same_core (heap st) (heap st2))
    by (eapply core_trans; eassumption).
  pose proof (ol_inv_core _ _ _ Hh (si_ol _ Hsafe)) as J1.
  pose proof (counted_core _ _ _ Hh (si_counted _ Hsafe)) as J2.
  destruct Hh as [Hlen Hg].
  assert (Hzero2 : nOverlapped_ (deref (heap st2) iop) = 0)
    by (destruct (Hg iop) as (_ & _ & E); congruence).
  assert (Hin2 : In (offset_ (deref (heap st2) iop), iop) (set_ (olData_ st)))
    by (destruct (Hg iop) as (E & _); rewrite <- E; exact Hin).
  assert (Hend2 : offset_ (deref (heap st2) iop) + size_ (deref (heap st2) iop) < 2 ^ 63).
  { destruct (Hg iop) as (E1 & E2 & _). rewrite <- E1, <- E2. apply (si_geom _ Hsafe).
    rewrite Eq. left. reflexivity. }
  set (stp := set_nPendingBlocks_
                (u64 (nPendingBlocks_ st2
                      - bytesToPb env (size_ (deref (heap st2) iop)))) st2) in H.
  change (heap stp) with (heap st2) in H.
  change (olData_ stp) with (olData_ st2) in H. rewrite Hol2 in H.
  destruct (del_spec (heap st2) (olData_ st) iop [] J1 J2 Hin2 Hzero2 Hend2)
    as (_ & K1 & K2 & Hwoken & _ & _).
  pose proof (fun p => del_cases (heap st2) (olData_ st) iop [] p J1 J2 Hin2 Hzero2 Hend2)
    as Hcases.
  pose proof (del_length (heap st2) (olData_ st) iop []) as Hdlen.
  destruct (del (heap st2) (olData_ st) iop []) as [[h' ol'] woken] eqn:Edel.
  cbn [fst snd] in K1, K2, Hwoken, Hcases, Hdlen.
  injection H as <-.
  match goal with |- context [fold_left push_ready ?l ?s] =>
    pose proof (fold_push_ready_keeps l s) as F; cbv zeta in F;
    destruct F as (E1 & _ & E3 & _ & _ & _);
    pose proof (fold_push_ready_In l s) as Fin;
    pose proof (fold_push_ready_nodup l s (submitIoQ_ s)) as Fnd;
    assert (Eaio : aio_ (fold_left push_ready l s) = aio_ s)
  end.
  { clear. induction woken as [|x l IH] using rev_ind; [reflexivity|].
    rewrite fold_left_app. cbn [fold_left]. unfold push_ready at 1.
    destruct (isOverwritten_ _); exact IH. }
  cbn [heap olData_ submitIoQ_ ioQ_ readyIoQ_ aio_ set_olData_ set_heap stp
       set_nPendingBlocks_] in E1, E3, Fin, Fnd, Eaio.
  (* the queues of the state before the deletion hold IOs that wait for none *)
  assert (Hq0 : forall p, In p (readyIoQ_ st2 ++ submitIoQ_ st2) ->
                          nOverlapped_ (deref (heap st2) p) = 0).
  { intros p Hp. rewrite Hr2, Hs2 in Hp. destruct (Hg p) as (_ & _ & E).
    rewrite <- E. apply (si_ready _ Hsafe p (Hrs1 p Hp)). }
  (* a woken IO waited for one, and is not submitted *)
  assert (Hwk : forall p, In p woken ->
                          (p < length (heap st2))%nat
                          /\ nOverlapped_ (deref (heap st2) p) = 1
                          /\ isSubmitted_ (deref (heap st2) p) = false).
  { intros p Hp. rewrite Hwoken in Hp. cbn [app] in Hp.
    apply in_map_iff in Hp as ([k p'] & E & Hx). cbn [snd] in E. subst p'.
    apply filter_In in Hx as [Hx Hc]. cbn [snd] in Hc.
    apply andb_true_iff in Hc as [_ Hone]. apply Z.eqb_eq in Hone.
    destruct (oi_elem _ _ K1 k p Hx) as (A & _). rewrite Hdlen in A.
    split; [exact A|]. split; [exact Hone|].
    destruct (isSubmitted_ (deref (heap st2) p)) eqn:Es; [exfalso|reflexivity].
    rewrite Hsub2 in Es. destruct (Hg p) as (_ & _ & E). rewrite <- E in Hone.
    destruct (Hsub1 p Es) as [X|X].
    - rewrite (si_submitted _ Hsafe p X) in Hone. discriminate.
    - rewrite (proj2 (si_ready _ Hsafe p X)) in Hone. discriminate. }
  assert (Hflags : forall p, isSubmitted_ (deref h' p) = isSubmitted_ (deref (heap st2) p)
                             /\ io_target (deref h' p) = io_target (deref (heap st2) p)).
  { intros p. destruct (Hcases p) as [->|(-> & _)]; [auto|].
    destruct (deref (heap st2) p); split; reflexivity. }
  constructor; rewrite ?E1, ?E3, ?Eaio;
    cbn [heap submitIoQ_ aio_ set_olData_ set_heap stp set_nPendingBlocks_].
  - intros p Hp. rewrite Hdlen. apply in_app_or in Hp as [Hp|Hp].
    + apply Fin in Hp as [Hp|Hp]; [apply (Hwk p Hp)|].
      destruct Hh2 as [L _]. rewrite <- L. apply V1. apply in_or_app. left.
      rewrite <- Hr2. exact Hp.
    + destruct Hh2 as [L _]. rewrite <- L. apply V1. apply in_or_app. right.
      rewrite <- Hs2. exact Hp.
  - intros p Hp. rewrite (proj1 (Hflags p)). apply in_app_or in Hp as [Hp|Hp].
    + apply Fin in Hp as [Hp|Hp]; [apply (Hwk p Hp)|].
      rewrite Hsub2. apply F1. apply in_or_app. left. rewrite <- Hr2. exact Hp.
    + rewrite Hsub2. apply F1. apply in_or_app. right. rewrite <- Hs2. exact Hp.
  - apply Fnd.
    + rewrite Hwoken. cbn [app]. apply NoDup_map_filter. apply (ct_nodup _ _ K2).
    + intros p Hp Hx. destruct (Hwk p Hp) as (_ & Hone & _).
      rewrite (Hq0 p Hx) in Hone. discriminate.
    + rewrite Hr2, Hs2. exact N1.
  - rewrite Hp2. exact P1.
  - rewrite Hi2. etransitivity; [exact W1|].
    apply Permutation_sym. apply Permutation_refl'.
    etransitivity.
    + apply (submitted_ext (heap st2) h'); [symmetry; exact Hdlen| |].
      * intros p. apply (proj1 (Hflags p)).
      * intros p Hs. rewrite (proj1 (Hflags p)). split; [exact Hs|apply (Hflags p)].
    + destruct Hh2 as [L _]. apply (submitted_ext (heap st1) (heap st2) L Hsub2 Hkeep2).
Qed.

(** One IO of the staging queue enters the engine. *)
Lemma enqueue_one_writes io st :
  safe_inv st -> write_inv st -> good_io io ->
  write_inv (enqueue_loop [io] st).
Proof.
  intros Hsafe [V F N P W] (_ & _ & _ & Hns).
  cbn [enqueue_loop].
  set (iop := length (heap st)) in *.
  set (st1 := set_heap (heap st ++ [io]) st) in *.
  destruct (insertToOverlappedData_fields st1 iop)
    as (_ & _ & _ & Ea & _ & Er & Es & _ & _). cbv zeta in Ea, Er, Es.
  pose proof (insertToOverlappedData_heap st1 iop) as Eh.
  set (st2 := insertToOverlappedData st1 iop) in *.
  cbn [heap olData_ st1 set_heap aio_ readyIoQ_ submitIoQ_] in Eh, Ea, Er, Es.
  set (h1 := heap st ++ [io]) in *.
  assert (Hlen : length (heap st2) = S iop).
  { rewrite Eh, ins_length. unfold h1, iop. rewrite length_app. cbn [length]. lia. }
  assert (Hl1 : length h1 = length (heap st2)) by (rewrite Eh, ins_length; reflexivity).
  assert (Hsubm : forall p, isSubmitted_ (deref (heap st2) p) = isSubmitted_ (deref h1 p)).
  { intros p. rewrite Eh. apply ins_submitted. }
  assert (Hkeep : forall p, keeps_target (deref h1 p) (deref (heap st2) p)).
  { intros p. rewrite Eh. apply ins_rel. apply keeps_target_ok. }
  assert (Hnew : isSubmitted_ (deref (heap st2) iop) = false).
  { rewrite Hsubm. unfold h1, iop. rewrite deref_app_new. exact Hns. }
  assert (Hold : forall p, In p (readyIoQ_ st ++ submitIoQ_ st) ->
                           (p < iop)%nat /\ isSubmitted_ (deref (heap st2) p) = false).
  { intros p Hp. pose proof (V p Hp) as Hv. split; [exact Hv|].
    rewrite Hsubm. unfold h1. rewrite deref_app_l by exact Hv. apply F. exact Hp. }
  match goal with |- write_inv (set_ioQ_ _ ?s) => set (st3 := s) end.
  assert (E3 : heap st3 = heap st2 /\ aio_ st3 = aio_ st
               /\ submitIoQ_ st3 = submitIoQ_ st
               /\ (readyIoQ_ st3 = readyIoQ_ st \/ readyIoQ_ st3 = readyIoQ_ st ++ [iop])).
  { unfold st3. destruct (nOverlapped_ (deref (heap st2) iop) =? 0);
      cbn [heap aio_ readyIoQ_ submitIoQ_ set_readyIoQ_];
      rewrite ?Ea, ?Er, ?Es; auto. }
  destruct E3 as (E3h & E3a & E3s & E3r).
  assert (Hperm : Permutation (readyIoQ_ st3 ++ submitIoQ_ st3)
                              (readyIoQ_ st ++ submitIoQ_ st)
                  \/ Permutation (readyIoQ_ st3 ++ submitIoQ_ st3)
                                 (iop :: readyIoQ_ st ++ submitIoQ_ st)).
  { rewrite E3s. destruct E3r as [->| ->]; [left; reflexivity|right].
    rewrite <- app_assoc. cbn [app]. apply Permutation_sym, Permutation_middle. }
  constructor; cbn [heap aio_ readyIoQ_ submitIoQ_ set_ioQ_]; rewrite ?E3h, ?E3a.
  - intros p Hp. rewrite Hlen.
    destruct Hperm as [Hperm|Hperm]; apply (Permutation_in _ Hperm) in Hp.
    + destruct (Hold p Hp). lia.
    + destruct Hp as [<-|Hp]; [lia|]. destruct (Hold p Hp). lia.
  - intros p Hp.
    destruct Hperm as [Hperm|Hperm]; apply (Permutation_in _ Hperm) in Hp.
    + apply (Hold p Hp).
    + destruct Hp as [<-|Hp]; [exact Hnew|apply (Hold p Hp)].
  - destruct Hperm as [Hperm|Hperm];
      (eapply Permutation_NoDup; [apply Permutation_sym; exact Hperm|]); [exact N|].
    constructor; [|exact N]. intros Hx. destruct (Hold iop Hx). lia.
  - exact P.
  - etransitivity; [exact W|]. apply Permutation_sym. apply Permutation_refl'.
    change (map io_target (submitted_ios (heap st2))
            = map io_target (submitted_ios (heap st))).
    rewrite (submitted_ext h1 (heap st2) Hl1 Hsubm Hkeep).
    unfold h1. rewrite submitted_app by exact Hns. reflexivity.
Qed.

Lemma enqueue_loop_writes :
  forall ioQ st,
    safe_inv st -> write_inv st -> Forall good_io ioQ ->
    Z.of_nat (length (heap (enqueue_loop ioQ st))) < 2 ^ 32 ->
    write_inv (enqueue_loop ioQ st).
Proof.
  induction ioQ as [|io ioQ IH]; intros st Hsafe Hw Hgood Hbound; [exact Hw|].
  inversion Hgood as [|? ? Hio Hgood']; subst.
  change (enqueue_loop (io :: ioQ) st) with (enqueue_loop ioQ (enqueue_loop [io] st))
    in *.
  apply IH; [| |exact Hgood'|exact Hbound].
  - apply enqueue_loop_safe; [exact Hsafe|constructor; [exact Hio|constructor]|].
    rewrite !enqueue_loop_length in Hbound. rewrite enqueue_loop_length.
    cbn [length] in *. lia.
  - apply enqueue_one_writes; assumption.
Qed.

Lemma wait_room_loop_writes nBlocks :
  forall fuel st st',
    wait_room_loop env fuel nBlocks st = Ok st' ->
    safe_inv st -> write_inv st -> write_inv st'.
Proof.
  induction fuel as [|fuel IH]; intros st st' H Hsafe Hw.
  - cbn [wait_room_loop] in H. destruct (ioQ_ st); [injection H as <-; exact Hw|].
    destruct (queueSize_ env <? _); [discriminate|injection H as <-; exact Hw].
  - cbn [wait_room_loop] in H. destruct (ioQ_ st) eqn:E; [injection H as <-; exact Hw|].
    destruct (queueSize_ env <? _); [|injection H as <-; exact Hw].
    apply bind_ok in H as (st1 & G1 & G2).
    apply (IH st1 st' G2).
    + eapply (waitForAnIoCompletion_safe env); eassumption.
    + eapply waitForAnIoCompletion_writes; eassumption.
Qed.

Lemma same_engine_writes st st' : same_engine st st' -> write_inv st -> write_inv st'.
Proof.
  intros (E1 & _ & _ & E4 & E5 & _ & _ & E8) [V F N P W].
  constructor; rewrite ?E1, ?E4, ?E5, ?E8; assumption.
Qed.

Lemma prepareIos_writes ioQ nBlocks st st' :
  prepareIos env ioQ nBlocks st = Ok st' ->
  Forall good_io ioQ ->
  Z.of_nat (length (heap st')) < 2 ^ 32 ->
  safe_inv st -> write_inv st -> write_inv st'.
Proof.
  unfold prepareIos. intros H Hgood Hbound Hsafe Hw.
  apply bind_ok in H as (st1 & H1 & H2). injection H2 as <-.
  pose proof (wait_room_loop_safe env _ _ _ _ H1 Hsafe) as Hsafe1.
  pose proof (wait_room_loop_writes _ _ _ _ H1 Hsafe Hw) as Hw1.
  apply enqueue_loop_writes; [| |exact Hgood|exact Hbound].
  - eapply same_engine_safe; [|exact Hsafe1]. repeat split.
  - eapply same_engine_writes; [|exact Hw1]. repeat split.
Qed.

Lemma engine_step_writes st st' :
  engine_step env st st' -> safe_inv st -> write_inv st -> write_inv st'.
Proof.
  intros [s s' H|s s' H|s s' H|s s' H|ioQ nBlocks s s' Hgood Hbound H] Hsafe Hw.
  - eapply same_engine_writes; eassumption.
  - eapply submitIos_writes; eassumption.
  - eapply scheduleIos_writes; eassumption.
  - eapply waitForAnIoCompletion_writes; eassumption.
  - eapply prepareIos_writes; eassumption.
Qed.

Lemma engine_run_writes st st' :
  engine_run env st st' -> safe_inv st -> write_inv st -> write_inv st'.
Proof.
  induction 1 as [s|s s1 s2 Hrun IH Hstep]; intros Hsafe Hw; [exact Hw|].
  eapply engine_step_writes; [exact Hstep| |apply IH; assumption].
  eapply (engine_run_safe env); eassumption.
Qed.

Lemma write_inv_init : write_inv applyer_init.
Proof.
  constructor; cbn.
  - intros p [].
  - intros p [].
  - constructor.
  - reflexivity.
  - constructor.
Qed.

End WriteFacts.

Section WriteTheorems.

Import Redo RedoOverlap RedoSafety RedoFlow RedoWrites.

(** The device gets one write for each written IO. When readAndApply
    returns, no write is left prepared, and the writes issued to the device
    are, up to their order, the submitted IOs of the run, each once, with
    the offset, the size and the bytes of its IO; their number is
    nWritten_. *)
Theorem readAndApply_issues_written_ios :
  forall env recs st,
    env_ok env ->
    Forall (fun rb => rec_ok (fst rb)) recs ->
    readAndApply env recs applyer_init = Ok st ->
    Z.of_nat (length (heap st)) < 2 ^ 32 ->
    aio_prepared (aio_ st) = []
    /\ Permutation (map w_target (aio_issued (aio_ st)))
                   (map io_target (submitted_ios (heap st)))
    /\ Z.of_nat (length (aio_issued (aio_ st))) = nWritten_ st.
Proof.
  intros env recs st Henv Hrecs H Hbound.
  pose proof (readAndApply_run env Henv recs _ _ Hrecs H Hbound) as Hrun.
  pose proof (engine_run_flow env _ _ Hrun flow_inv_init) as Hflow.
  pose proof (engine_run_writes env _ _ Hrun safe_inv_init write_inv_init)
    as [_ _ _ P W].
  split; [exact P|]. split; [exact W|].
  assert (Hq : ioQ_ st = []).
  { unfold readAndApply in H. destruct (negb (canApply env)); [discriminate|].
    apply bind_ok in H as (st1 & _ & H). apply bind_ok in H as (st2 & _ & H).
    unfold waitForAllPendingIos in H. eapply wait_all_loop_done. exact H. }
  destruct (flow_inv_drained st Hflow Hq) as (_ & Hn & _).
  rewrite Hn. unfold n_submitted. f_equal.
  apply Permutation_length in W. rewrite !length_map in W. exact W.
Qed.

End WriteTheorems.

Section WriteWitness.

Import Redo RedoOverlap RedoSafety RedoFlow RedoWrites.

Lemma readAndApply_issues_written_ios_witness :
  exists st,
    readAndApply (env_of 1048576 512 4)
      [(write_record 0 2, [mkAlignedArray 4096 (repeat Byte.x11 512);
                           mkAlignedArray 20480 (repeat Byte.x11 512)]);
       (write_record 1 2, [mkAlignedArray 8192 (repeat Byte.x22 512);
                           mkAlignedArray 16384 (repeat Byte.x22 512)]);
       (write_record 8 1, [mkAlignedArray 12288 (repeat Byte.x33 512)])]
      applyer_init = Ok st
    /\ length (heap st) = 5%nat
    /\ map w_offset (aio_issued (aio_ st)) = [0; 1024; 4096; 512]
    /\ Permutation (map w_target (aio_issued (aio_ st)))
                   (map io_target (submitted_ios (heap st)))
    /\ nWritten_ st = 4.
Proof.
  set (E := env_of 1048576 512 4).
  set (recs := [(write_record 0 2, [mkAlignedArray 4096 (repeat Byte.x11 512);
                                    mkAlignedArray 20480 (repeat Byte.x11 512)]);
                (write_record 1 2, [mkAlignedArray 8192 (repeat Byte.x22 512);
                                    mkAlignedArray 16384 (repeat Byte.x22 512)]);
                (write_record 8 1, [mkAlignedArray 12288 (repeat Byte.x33 512)])]).
  assert (He : env_ok E).
  { constructor; [reflexivity|split; [intro; discriminate|reflexivity]]. }
  assert (Hr : Forall (fun rb => rec_ok (fst rb)) recs).
  { repeat constructor; vm_compute; first [reflexivity | intro; discriminate]. }
  destruct (readAndApply E recs applyer_init) as [st|e] eqn:E1;
    [|exfalso; vm_compute in E1; discriminate].
  exists st. split; [reflexivity|].
  assert (Hall : Z.of_nat (length (heap st)) < 2 ^ 32 ->
                 Permutation (map w_target (aio_issued (aio_ st)))
                             (map io_target (submitted_ios (heap st)))
                 /\ Z.of_nat (length (aio_issued (aio_ st))) = nWritten_ st).
  { intros Hb.
    destruct (readAndApply_issues_written_ios E recs st He Hr E1 Hb) as (_ & A & B).
    split; assumption. }
  assert (H1 : Ok st = Ok st) by reflexivity.
  rewrite <- E1 in H1 at 1. vm_compute in H1. injection H1 as <-.
  destruct Hall as (A & B); [vm_compute; reflexivity|].
  split; [reflexivity|]. split; [reflexivity|]. split; [exact A|].
  rewrite <- B. reflexivity.
Defined.

End WriteWitness.

Section OrderFacts.

Import Redo RedoOverlap RedoSafety RedoFlow RedoWrites RedoOrder RedoDrain.

Variable env : Env.

Lemma log_order_geom h h' p q :
  same_geom (deref h p) (deref h' p) -> same_geom (deref h q) (deref h' q) ->
  log_order h p q -> log_order h' p q.
Proof.
  intros Gp Gq H Hov. apply H.
  rewrite <- (isOverlapped_geom _ _ _ _ Gp Gq). exact Hov.
Qed.

Lemma in_log_order_geom h h' ps :
  (forall p, In p ps -> same_geom (deref h p) (deref h' p)) ->
  in_log_order h ps -> in_log_order h' ps.
Proof.
  induction ps as [|p ps IH]; intros Hg H; [exact I|].
  destruct H as [H1 H2]. split.
  - intros q Hq. apply (log_order_geom h h'); [apply Hg; left; reflexivity| |auto].
    apply Hg. right. exact Hq.
  - apply IH; [|exact H2]. intros x Hx. apply Hg. right. exact Hx.
Qed.

Lemma in_log_order_snoc h ps x :
  in_log_order h ps -> (forall p, In p ps -> log_order h p x) ->
  in_log_order h (ps ++ [x]).
Proof.
  induction ps as [|p ps IH]; intros H Hx.
  - split; [intros q []|exact I].
  - destruct H as [H1 H2]. cbn [app]. split.
    + intros q Hq. apply in_app_or in Hq as [Hq|[<-|[]]]; [apply H1; exact Hq|].
      apply Hx. left. reflexivity.
    + apply IH; [exact H2|]. intros q Hq. apply Hx. right. exact Hq.
Qed.

(** A change of the store that keeps the submitted IOs and what they write
    keeps the account of the writes. *)
Lemma issue_core_ext st st' ps :
  writes (aio_ st') = writes (aio_ st) ->
  (forall p, isSubmitted_ (deref (heap st') p) = isSubmitted_ (deref (heap st) p)) ->
  (forall p, In p ps -> keeps_target (deref (heap st) p) (deref (heap st') p)) ->
  (forall p, In p ps -> same_geom (deref (heap st) p) (deref (heap st') p)) ->
  issue_core st ps -> issue_core st' ps.
Proof.
  intros Hw Hs Hk Hg [C1 C2 C3 C4]. constructor.
  - rewrite Hw, C1. apply map_ext_in. intros p Hp. symmetry.
    apply (Hk p Hp). apply C2. exact Hp.
  - intros p. rewrite Hs. apply C2.
  - exact C3.
  - eapply in_log_order_geom; eassumption.
Qed.

Lemma nodup_snoc {A} (l : list A) x :
  List.NoDup l -> ~ In x l -> List.NoDup (l ++ [x]).
Proof.
  intros Hnd Hx. eapply Permutation_NoDup; [apply Permutation_cons_append|].
  constructor; assumption.
Qed.

Lemma queued_in_order_incl h ps Q Q' :
  (forall x, In x Q' -> In x Q) ->
  queued_in_order h ps Q -> queued_in_order h ps Q'.
Proof.
  intros Hincl H x Hx Ho. destruct (H x (Hincl x Hx) Ho) as [A B].
  split; [exact A|]. intros y Hy. apply B. apply Hincl. exact Hy.
Qed.

Lemma queued_in_order_geom h h' ps Q :
  (forall p, same_geom (deref h p) (deref h' p)) ->
  (forall p, isOverwritten_ (deref h' p) = isOverwritten_ (deref h p)) ->
  queued_in_order h ps Q -> queued_in_order h' ps Q.
Proof.
  intros Hg Ho H x Hx Hl. rewrite Ho in Hl. destruct (H x Hx Hl) as [A B]. split.
  - intros p Hp. apply (log_order_geom h h'); [apply Hg|apply Hg|]. apply A. exact Hp.
  - intros y Hy Hly Hne. rewrite Ho in Hly.
    rewrite (isOverlapped_geom _ _ _ _ (Hg y) (Hg x)). apply B; assumption.
Qed.

(** An IO of the queue that is not overwritten moves to the submitted
    IOs. *)
Lemma queued_in_order_step h ps iop q :
  List.NoDup (iop :: q) ->
  isOverwritten_ (deref h iop) = false ->
  queued_in_order h ps (iop :: q) ->
  queued_in_order h (ps ++ [iop]) q.
Proof.
  intros Hnd Hl H x Hx Ho. inversion Hnd as [|? ? Hnot _]; subst.
  destruct (H x (or_intror Hx) Ho) as [A B]. split.
  - intros p Hp. apply in_app_or in Hp as [Hp|[<-|[]]]; [apply A; exact Hp|].
    intros Hov. rewrite B in Hov; [discriminate|left; reflexivity|exact Hl|].
    intros ->. apply Hnot. exact Hx.
  - intros y Hy. apply B. right. exact Hy.
Qed.

Lemma submit_loop_order :
  forall q st n st' n' ps,
    submit_loop q st n = Ok (st', n') ->
    List.NoDup q ->
    (forall p, In p q ->
               (p < length (heap st))%nat /\ isSubmitted_ (deref (heap st) p) = false) ->
    issue_core st ps ->
    queued_in_order (heap st) ps q ->
    exists ps',
      issue_core st' ps'
      /\ (forall p, In p ps' ->
                    In p ps \/ (In p q /\ isOverwritten_ (deref (heap st) p) = false)).
Proof.
  induction q as [|iop q IH]; intros st n st' n' ps H Hnd Hq Hc Ho.
  - simpl in H. injection H as <- <-. exists ps. split; [exact Hc|auto].
  - cbn [submit_loop] in H. pose proof Hnd as Hnd0.
    inversion Hnd as [|? ? Hnot Hnd']; subst.
    destruct (isOverwritten_ (deref (heap (set_submitIoQ_ q st)) iop)) eqn:Eo.
    + apply (IH _ _ _ _ ps) in H as (ps' & A & B); try assumption.
      * exists ps'. split; [exact A|]. intros p Hp.
        destruct (B p Hp) as [X|[X Y]]; [left; exact X|right].
        split; [right; exact X|exact Y].
      * intros p Hx. apply Hq. right. exact Hx.
      * destruct Hc; constructor; assumption.
      * eapply queued_in_order_incl; [|exact Ho]. intros x Hx. right. exact Hx.
    + destruct (blocks_ (deref (heap (set_submitIoQ_ q st)) iop)) as [|b bs];
        [discriminate|].
      destruct (Hq iop (or_introl eq_refl)) as [Hv Hs].
      cbn [heap aio_ set_submitIoQ_ set_heap set_aio_ prepareWrite fst snd] in Eo, H.
      set (f := fun io : Io =>
                  markSubmitted (set_aioKey_ (u32 (aio_nextKey (aio_ st))) io)) in *.
      assert (Hg : forall p, same_geom (deref (heap st) p) (deref (upd (heap st) iop f) p)).
      { intros p. apply (deref_upd_rel same_geom); [intros io; split; reflexivity|].
        split; reflexivity. }
      assert (How : forall p, isOverwritten_ (deref (upd (heap st) iop f) p)
                              = isOverwritten_ (deref (heap st) p)).
      { intros p. apply (deref_upd_rel (fun a b => isOverwritten_ b = isOverwritten_ a));
          [reflexivity|]. unfold f. destruct (deref (heap st) iop); reflexivity. }
      destruct Hc as [C1 C2 C3 C4].
      assert (Hnew : ~ In iop ps).
      { intros Hin. apply C2 in Hin. congruence. }
      apply (IH _ _ _ _ (ps ++ [iop])) in H as (ps' & A & B); try assumption.
      * exists ps'. split; [exact A|]. intros p Hp.
        destruct (B p Hp) as [X|[X Y]].
        -- apply in_app_or in X as [X|[<-|[]]]; [left; exact X|right].
           split; [left; reflexivity|exact Eo].
        -- right. split; [right; exact X|].
           cbn [heap set_heap] in Y. rewrite <- (How p). exact Y.
      * intros p Hx. cbn [heap set_heap].
        rewrite length_upd. destruct (Hq p (or_intror Hx)) as [X Y].
        split; [exact X|]. rewrite deref_upd_ne; [exact Y|].
        intros ->. apply Hnot. exact Hx.
      * constructor; cbn [heap aio_ set_heap set_aio_ set_submitIoQ_].
        -- unfold writes in *. cbn [aio_issued aio_prepared].
           rewrite app_assoc, !map_app. rewrite <- map_app, C1. cbn [map]. f_equal.
           ++ apply map_ext_in. intros p Hp. rewrite deref_upd_ne; [reflexivity|].
              intros ->. apply Hnew. exact Hp.
           ++ rewrite deref_upd_eq by exact Hv. unfold f.
              destruct (deref (heap st) iop); reflexivity.
        -- intros p. rewrite in_app_iff. cbn [In].
           destruct (Nat.eq_dec iop p) as [<-|Hne].
           ++ rewrite deref_upd_eq by exact Hv. unfold f.
              split; [intros _; destruct (deref (heap st) iop); reflexivity|auto].
           ++ rewrite deref_upd_ne by exact Hne. rewrite <- C2.
              split; [intros [X|[X|[]]]; [exact X|contradiction]|auto].
        -- apply nodup_snoc; assumption.
        -- apply (in_log_order_geom (heap st)); [intros p _; apply Hg|].
           apply in_log_order_snoc; [exact C4|].
           apply (Ho iop (or_introl eq_refl) Eo).
      * cbn [heap set_heap].
        apply (queued_in_order_geom (heap st)); [exact Hg|exact How|].
        apply queued_in_order_step; assumption.
Qed.

Lemma submitIos_order st st' ps :
  submitIos st = Ok st' -> write_inv st ->
  issue_core st ps ->
  queued_in_order (heap st) ps (readyIoQ_ st ++ submitIoQ_ st) ->
  exists ps',
    issue_core st' ps'
    /\ queued_in_order (heap st') ps' (readyIoQ_ st' ++ submitIoQ_ st').
Proof.
  intros H Hw Hc Ho. pose proof Hw as [V F N P W].
  pose proof (submitIos_frame same_geom same_geom_ok _ _ H) as ([_ Hg] & _).
  pose proof (submitIos_writes _ _ H Hw) as [_ Hr].
  assert (Hvs : forall p, In p (submitIoQ_ st) -> (p < length (heap st))%nat).
  { intros p Hp. apply V. apply in_or_app. right. exact Hp. }
  pose proof (submitIos_flow _ _ H Hvs) as ((_ & How & _) & Hs' & _).
  destruct (nodup_app_inv _ _ N) as (N1 & N2 & N3).
  unfold submitIos in H. destruct (submitIoQ_ st) as [|p0 q] eqn:E.
  - injection H as <-. exists ps. split; [exact Hc|]. rewrite E. exact Ho.
  - apply bind_ok in H as ([st1 n1] & H1 & H2).
    apply (submit_loop_order _ _ _ _ _ ps) in H1 as (ps' & A & B); try assumption.
    + exists ps'. split.
      * assert (Hst' : heap st' = heap st1 /\ writes (aio_ st') = writes (aio_ st1)).
        { destruct (0 <? n1); injection H2 as <-; split; try reflexivity.
          unfold writes. cbn [aio_ set_aio_ submit aio_issued aio_prepared].
          apply app_nil_r. }
        destruct Hst' as [E1 E2]. destruct A as [C1 C2 C3 C4].
        constructor; rewrite ?E1, ?E2; assumption.
      * rewrite Hs', app_nil_r, Hr. intros x Hx Hl. rewrite How in Hl.
        destruct (Ho x (in_or_app _ _ x (or_introl Hx)) Hl) as [X Y]. split.
        -- intros p Hp. apply (log_order_geom (heap st)); [apply Hg|apply Hg|].
           destruct (B p Hp) as [Z|[Z Z']]; [apply X; exact Z|].
           intros Hov. rewrite Y in Hov; [discriminate| |exact Z'|].
           ++ apply in_or_app. right. exact Z.
           ++ intros ->. apply (N3 x Hx). exact Z.
        -- intros y Hy Hly Hne. rewrite How in Hly.
           rewrite (isOverlapped_geom _ _ _ _ (Hg y) (Hg x)).
           apply Y; [apply in_or_app; left; exact Hy|exact Hly|exact Hne].
    + intros p Hp. split; [apply V|apply F]; apply in_or_app; right; exact Hp.
    + eapply queued_in_order_incl; [|exact Ho]. intros x Hx.
      apply in_or_app. right. exact Hx.
Qed.

Lemma schedule_loop_order :
  forall ready st st' ps,
    schedule_loop env ready st = Ok st' -> readyIoQ_ st = ready ->
    write_inv st ->
    issue_core st ps ->
    queued_in_order (heap st) ps (ready ++ submitIoQ_ st) ->
    exists ps',
      issue_core st' ps'
      /\ queued_in_order (heap st') ps' (readyIoQ_ st' ++ submitIoQ_ st').
Proof.
  induction ready as [|iop ready IH]; intros st st' ps H Hr Hinv Hc Ho.
  - simpl in H. injection H as <-. exists ps. split; [exact Hc|]. rewrite Hr. exact Ho.
  - cbn [schedule_loop] in H.
    pose proof Hinv as [V F N P W]. rewrite Hr in V, F, N.
    destruct (isOverwritten_ (deref (heap (set_readyIoQ_ ready st)) iop)).
    + apply (IH _ _ ps) in H; [exact H|reflexivity| | |].
      * cbn [app] in N. inversion N; subst.
        constructor; cbn [heap readyIoQ_ submitIoQ_ aio_ set_readyIoQ_]; try assumption.
        -- intros p Hp. apply V. right. exact Hp.
        -- intros p Hp. apply F. right. exact Hp.
      * destruct Hc; constructor; assumption.
      * eapply queued_in_order_incl; [|exact Ho]. intros x Hx. right. exact Hx.
    + apply bind_ok in H as (st1 & H1 & H2).
      set (s1 := set_submitIoQ_
                    (insert_sorted (heap (set_readyIoQ_ ready st)) iop
                                   (submitIoQ_ (set_readyIoQ_ ready st)))
                    (set_readyIoQ_ ready st)) in *.
      assert (Hperm : Permutation ((iop :: ready) ++ submitIoQ_ st)
                                  (readyIoQ_ s1 ++ submitIoQ_ s1)).
      { cbn [s1 readyIoQ_ submitIoQ_ set_submitIoQ_ set_readyIoQ_ heap app].
        etransitivity; [apply Permutation_middle|].
        apply Permutation_app_head. apply insert_sorted_perm. }
      assert (I1 : write_inv s1).
      { constructor; try assumption.
        - intros p Hp. apply (Permutation_in _ (Permutation_sym Hperm)) in Hp.
          apply V. exact Hp.
        - intros p Hp. apply (Permutation_in _ (Permutation_sym Hperm)) in Hp.
          apply F. exact Hp.
        - eapply Permutation_NoDup; [exact Hperm|exact N]. }
      assert (C1 : issue_core s1 ps) by (destruct Hc; constructor; assumption).
      assert (O1 : queued_in_order (heap s1) ps (readyIoQ_ s1 ++ submitIoQ_ s1)).
      { eapply queued_in_order_incl; [|exact Ho]. intros x Hx.
        apply (Permutation_in _ (Permutation_sym Hperm)). exact Hx. }
      assert (I2 : exists ps1,
                 write_inv st1 /\ readyIoQ_ st1 = ready /\ issue_core st1 ps1
                 /\ queued_in_order (heap st1) ps1 (readyIoQ_ st1 ++ submitIoQ_ st1)).
      { match type of H1 with (if ?c then _ else _) = _ => destruct c end.
        - destruct (submitIos_order _ _ _ H1 I1 C1 O1) as (ps1 & A & B).
          apply submitIos_writes in H1 as [X Y]; [|exact I1].
          exists ps1. auto.
        - injection H1 as <-. exists ps. auto. }
      destruct I2 as (ps1 & I2 & R2 & C2 & O2).
      apply (IH st1 st' ps1 H2 R2 I2 C2). rewrite <- R2. exact O2.
Qed.

Lemma scheduleIos_order st st' ps :
  scheduleIos env st = Ok st' -> write_inv st ->
  issue_core st ps ->
  queued_in_order (heap st) ps (readyIoQ_ st ++ submitIoQ_ st) ->
  exists ps',
    issue_core st' ps'
    /\ queued_in_order (heap st') ps' (readyIoQ_ st' ++ submitIoQ_ st').
Proof.
  unfold scheduleIos. intros H. eapply schedule_loop_order; [exact H|reflexivity].
Qed.

Lemma submitted_valid h p :
  isSubmitted_ (deref h p) = true -> (p < length h)%nat.
Proof.
  intros H. destruct (Nat.lt_ge_cases p (length h)) as [Hlt|Hge]; [exact Hlt|].
  rewrite deref_out in H by exact Hge. discriminate.
Qed.

(** An IO that waits for no other IO overlaps no older pending IO. *)
Lemma no_overlap_zero st a b :
  safe_inv st ->
  In a (ioQ_ st) -> In b (ioQ_ st) -> (a < b)%nat ->
  nOverlapped_ (deref (heap st) b) = 0 ->
  isOverlapped (deref (heap st) a) (deref (heap st) b) = false.
Proof.
  intros [I1 I2 I3 I4 I5 I6 I7] Ha Hb Hlt Hz.
  apply (Permutation_in _ (Permutation_sym I3)) in Ha, Hb.
  apply in_map_iff in Ha as ([ka a'] & E & Ha). cbn [snd] in E. subst a'.
  apply in_map_iff in Hb as ([kb b'] & E & Hb). cbn [snd] in E. subst b'.
  rewrite (ct_count _ _ I2 kb b Hb) in Hz.
  destruct (isOverlapped (deref (heap st) a) (deref (heap st) b)) eqn:Hov; [|reflexivity].
  exfalso.
  assert (Hin : In (ka, a) (earlier (heap st) (set_ (olData_ st)) b)).
  { unfold earlier. apply filter_In. split; [exact Ha|]. cbn [snd].
    apply andb_true_iff. split; [apply Nat.ltb_lt; exact Hlt|exact Hov]. }
  destruct (earlier (heap st) (set_ (olData_ st)) b); [destruct Hin|discriminate].
Qed.

Lemma queued_pending_of st : flow_inv st -> write_inv st -> queued_pending st.
Proof.
  intros Hf Hw p Hp.
  pose proof (wi_valid _ Hw p Hp) as Hv. pose proof (wi_fresh _ Hw p Hp) as Hs.
  pose proof (fl_room _ Hf) as Hroom.
  destruct (Nat.lt_ge_cases p (nDone st)) as [Hlt|Hge].
  - right. destruct (fl_done _ Hf p Hlt) as [[W _]|[D _]]; [congruence|exact D].
  - left. rewrite (fl_pending _ Hf). apply in_seq. unfold nDone in *. lia.
Qed.

Lemma order_hyps st ps :
  flow_inv st -> write_inv st -> issue_core st ps ->
  queued_in_order (heap st) ps (readyIoQ_ st ++ submitIoQ_ st).
Proof.
  intros Hf Hw Hc x Hx Hl.
  pose proof (fl_safe _ Hf) as Hsafe.
  pose proof (queued_pending_of st Hf Hw) as Hqp.
  pose proof (fl_room _ Hf) as Hroom.
  assert (Hpend : forall y, In y (readyIoQ_ st ++ submitIoQ_ st) ->
                            isOverwritten_ (deref (heap st) y) = false ->
                            In y (ioQ_ st)).
  { intros y Hy Hly. destruct (Hqp y Hy) as [A|A]; [exact A|congruence]. }
  pose proof (Hpend x Hx Hl) as Hxq.
  destruct (si_ready _ Hsafe x Hx) as [Hxv Hxn].
  split.
  - intros p Hp Hov. apply (ic_sub _ _ Hc) in Hp.
    destruct (Nat.lt_trichotomy p x) as [Hlt|[->|Hgt]]; [exact Hlt| |].
    + rewrite (wi_fresh _ Hw x Hx) in Hp. discriminate.
    + exfalso.
      assert (Hpq : In p (ioQ_ st)).
      { pose proof (submitted_valid _ _ Hp) as Hpv.
        rewrite (fl_pending _ Hf) in Hxq |- *. apply in_seq in Hxq. apply in_seq.
        unfold nDone in *. lia. }
      pose proof (safe_inv_in_flight st Hsafe x p Hxq Hpq Hgt Hp) as Hno.
      rewrite isOverlapped_comm in Hov. congruence.
  - intros y Hy Hly Hne.
    pose proof (Hpend y Hy Hly) as Hyq.
    destruct (si_ready _ Hsafe y Hy) as [_ Hyn].
    destruct (Nat.lt_trichotomy y x) as [Hlt|[->|Hgt]]; [|contradiction|].
    + apply (no_overlap_zero st y x Hsafe Hyq Hxq Hlt Hxn).
    + rewrite isOverlapped_comm. apply (no_overlap_zero st x y Hsafe Hxq Hyq Hgt Hyn).
Qed.

(** waitForAnIoCompletion in its two parts: the submission of what is
    queued when the IO is not submitted, and the rest, which hands no write
    to the device and leaves the submitted IOs as they are. *)
Lemma waitForAnIoCompletion_rest st st' :
  waitForAnIoCompletion env st = Ok st' -> safe_inv st ->
  exists iop q st1,
    ioQ_ st = iop :: q
    /\ ((exists sa, scheduleIos env (set_ioQ_ q st) = Ok sa /\ submitIos sa = Ok st1)
        \/ st1 = set_ioQ_ q st)
    /\ writes (aio_ st') = writes (aio_ st1)
    /\ (forall p, isSubmitted_ (deref (heap st') p) = isSubmitted_ (deref (heap st1) p))
    /\ (forall p, keeps_target (deref (heap st1) p) (deref (heap st') p))
    /\ (forall p, same_geom (deref (heap st1) p) (deref (heap st') p)).
Proof.
  intros H Hsafe.
  unfold waitForAnIoCompletion in H.
  destruct (ioQ_ st) as [|iop q] eqn:Eq; [discriminate|].
  destruct (front_counter st iop q Hsafe Eq) as [Hzero Hin].
  apply bind_ok in H as (st1 & H1 & H). apply bind_ok in H as (st2 & H2 & H).
  exists iop, q, st1. split; [reflexivity|].
  assert (B : ((exists sa, scheduleIos env (set_ioQ_ q st) = Ok sa /\ submitIos sa = Ok st1)
               \/ st1 = set_ioQ_ q st)
              /\ sched (set_ioQ_ q st) st1).
  { match type of H1 with (if ?c then _ else _) = _ => destruct c end.
    - apply bind_ok in H1 as (sta & Ha & Hb).
      split; [left; exists sta; auto|].
      eapply sched_trans;
        [apply (scheduleIos_sched env); exact Ha|apply submitIos_sched; exact Hb].
    - injection H1 as <-. split; [right; reflexivity|apply sched_refl]. }
  destruct B as (B & S1). split; [exact B|].
  destruct S1 as (Hh1 & Hq1 & Hol1 & Hrs1 & Hsub1).
  cbn [heap ioQ_ olData_ readyIoQ_ submitIoQ_ set_ioQ_] in Hh1, Hq1, Hol1, Hrs1, Hsub1.
  assert (S2 : heap_rel same_core (heap st1) (heap st2)
               /\ olData_ st2 = olData_ st
               /\ (forall p, isSubmitted_ (deref (heap st2) p)
                             = isSubmitted_ (deref (heap st1) p))
               /\ (forall p, keeps_target (deref (heap st1) p) (deref (heap st2) p))
               /\ writes (aio_ st2) = writes (aio_ st1)).
  { destruct (isSubmitted_ (deref (heap st1) iop)) eqn:Es.
    - apply bind_ok in H2 as (a & Ha & Hb). injection Hb as <-.
      cbn [heap set_heap set_aio_ set_nWritten_ olData_ aio_].
      split; [apply core_upd; intros io; repeat split|].
      split; [exact Hol1|]. split.
      { intros p. apply (deref_upd_rel (fun a b => isSubmitted_ b = isSubmitted_ a));
          reflexivity. }
      split.
      { intros p. apply (deref_upd_rel keeps_target);
          [intros io Hs; auto|intros Hs; split; [exact Hs|reflexivity]]. }
      unfold waitFor in Ha.
      match type of Ha with (if ?c then _ else _) = _ => destruct c end;
        [|discriminate].
      injection Ha as <-. reflexivity.
    - injection H2 as <-.
      cbn [heap set_nOverwritten_ olData_ aio_].
      split; [apply core_refl|]. split; [exact Hol1|].
      split; [reflexivity|]. split; [intros p Hs; auto|reflexivity]. }
  destruct S2 as (Hh2 & Hol2 & Hsub2 & Hkeep2 & Hw2).
  assert (Hh : heap_rel same_core (heap st) (heap st2))
    by (eapply core_trans; eassumption).
  pose proof (ol_inv_core _ _ _ Hh (si_ol _ Hsafe)) as J1.
  pose proof (counted_core _ _ _ Hh (si_counted _ Hsafe)) as J2.
  destruct Hh as [Hlen Hg].
  assert (Hzero2 : nOverlapped_ (deref (heap st2) iop) = 0)
    by (destruct (Hg iop) as (_ & _ & E); congruence).
  assert (Hin2 : In (offset_ (deref (heap st2) iop), iop) (set_ (olData_ st)))
    by (destruct (Hg iop) as (E & _); rewrite <- E; exact Hin).
  assert (Hend2 : offset_ (deref (heap st2) iop) + size_ (deref (heap st2) iop) < 2 ^ 63).
  { destruct (Hg iop) as (E1 & E2 & _). rewrite <- E1, <- E2. apply (si_geom _ Hsafe).
    rewrite Eq. left. reflexivity. }
  set (stp := set_nPendingBlocks_
                (u64 (nPendingBlocks_ st2
                      - bytesToPb env (size_ (deref (heap st2) iop)))) st2) in H.
  change (heap stp) with (heap st2) in H.
  change (olData_ stp) with (olData_ st2) in H. rewrite Hol2 in H.
  pose proof (fun p => del_cases (heap st2) (olData_ st) iop [] p J1 J2 Hin2 Hzero2 Hend2)
    as Hcases.
  destruct (del (heap st2) (olData_ st) iop []) as [[h' ol'] woken] eqn:Edel.
  cbn [fst snd] in Hcases.
  injection H as <-.
  match goal with |- context [fold_left push_ready ?l ?s] =>
    pose proof (fold_push_ready_keeps l s) as F; cbv zeta in F;
    destruct F as (E1 & _);
    assert (Eaio : aio_ (fold_left push_ready l s) = aio_ s)
  end.
  { clear. induction woken as [|x l IH] using rev_ind; [reflexivity|].
    rewrite fold_left_app. cbn [fold_left]. unfold push_ready at 1.
    destruct (isOverwritten_ _); exact IH. }
  cbn [heap aio_ set_olData_ set_heap stp set_nPendingBlocks_] in E1, Eaio.
  rewrite E1, Eaio.
  assert (Hflags : forall p, isSubmitted_ (deref h' p) = isSubmitted_ (deref (heap st2) p)
                             /\ io_target (deref h' p) = io_target (deref (heap st2) p)
                             /\ same_geom (deref (heap st2) p) (deref h' p)).
  { intros p. destruct (Hcases p) as [->|(-> & _)]; [repeat split|].
    destruct (deref (heap st2) p); repeat split. }
  split; [exact Hw2|]. split; [|split].
  - intros p. rewrite (proj1 (Hflags p)). apply Hsub2.
  - intros p Hs. destruct (Hkeep2 p Hs) as [A A']. destruct (Hflags p) as (C & D & _).
    split; congruence.
  - intros p. destruct Hh2 as [_ Hc]. destruct (Hc p) as (A1 & A2 & _).
    destruct (Hflags p) as (_ & _ & [G1 G2]). split; congruence.
Qed.

Lemma waitForAnIoCompletion_order st st' ps :
  waitForAnIoCompletion env st = Ok st' ->
  flow_inv st -> write_inv st -> issue_core st ps ->
  exists ps', issue_core st' ps'.
Proof.
  intros H Hf Hw Hc.
  pose proof (order_hyps st ps Hf Hw Hc) as Ho.
  destruct (waitForAnIoCompletion_rest st st' H (fl_safe _ Hf))
    as (iop & q & st1 & Eq & B & Ew & Es & Ek & Eg).
  assert (W0 : write_inv (set_ioQ_ q st)) by (destruct Hw; constructor; assumption).
  assert (C0 : issue_core (set_ioQ_ q st) ps) by (destruct Hc; constructor; assumption).
  assert (C1 : exists ps1, issue_core st1 ps1).
  { destruct B as [(sa & Ha & Hb)| ->]; [|exists ps; exact C0].
    destruct (scheduleIos_order _ _ _ Ha W0 C0 Ho) as (psa & Ca & Oa).
    apply scheduleIos_writes in Ha; [|exact W0].
    destruct (submitIos_order _ _ _ Hb Ha Ca Oa) as (ps1 & C1 & _).
    exists ps1. exact C1. }
  destruct C1 as (ps1 & C1). exists ps1.
  apply (issue_core_ext st1 st' ps1 Ew Es); [| |exact C1]; intros p _; auto.
Qed.

Lemma enqueue_one_order io st ps :
  good_io io -> issue_core st ps -> issue_core (enqueue_loop [io] st) ps.
Proof.
  intros (_ & _ & _ & Hns) Hc.
  cbn [enqueue_loop].
  set (iop := length (heap st)) in *.
  set (st1 := set_heap (heap st ++ [io]) st) in *.
  destruct (insertToOverlappedData_fields st1 iop) as (_ & _ & _ & Ea & _). cbv zeta in Ea.
  pose proof (insertToOverlappedData_heap st1 iop) as Eh.
  set (st2 := insertToOverlappedData st1 iop) in *.
  cbn [heap olData_ st1 set_heap aio_] in Eh, Ea.
  set (h1 := heap st ++ [io]) in *.
  match goal with |- issue_core (set_ioQ_ _ ?s) _ => set (st3 := s) end.
  assert (E3 : heap st3 = heap st2 /\ aio_ st3 = aio_ st).
  { unfold st3. destruct (nOverlapped_ (deref (heap st2) iop) =? 0);
      cbn [heap aio_ set_readyIoQ_]; rewrite ?Ea; auto. }
  destruct E3 as (E3h & E3a).
  assert (Hvalid : forall p, In p ps -> (p < iop)%nat).
  { intros p Hp. apply (submitted_valid (heap st)). apply (ic_sub _ _ Hc). exact Hp. }
  apply (issue_core_ext st); cbn [heap aio_ set_ioQ_]; rewrite ?E3h, ?E3a, ?Eh;
    [reflexivity| | | |exact Hc].
  - intros p. rewrite ins_submitted.
    destruct (Nat.lt_trichotomy p iop) as [Hlt|[->|Hgt]].
    + unfold h1. rewrite deref_app_l by exact Hlt. reflexivity.
    + unfold h1, iop. rewrite deref_app_new, deref_out by lia. exact Hns.
    + rewrite !deref_out; [reflexivity|unfold iop in Hgt; lia|].
      unfold h1. rewrite length_app. cbn [length]. unfold iop in Hgt. lia.
  - intros p Hp. rewrite <- (deref_app_l (heap st) io p (Hvalid p Hp)).
    apply ins_rel. apply keeps_target_ok.
  - intros p Hp. rewrite <- (deref_app_l (heap st) io p (Hvalid p Hp)).
    apply ins_rel. apply same_geom_ok.
Qed.

Lemma enqueue_loop_order :
  forall ioQ st ps,
    Forall good_io ioQ -> issue_core st ps -> issue_core (enqueue_loop ioQ st) ps.
Proof.
  induction ioQ as [|io ioQ IH]; intros st ps Hgood Hc; [exact Hc|].
  inversion Hgood as [|? ? Hio Hgood']; subst.
  change (enqueue_loop (io :: ioQ) st) with (enqueue_loop ioQ (enqueue_loop [io] st)).
  apply IH; [exact Hgood'|]. apply enqueue_one_order; assumption.
Qed.

Lemma wait_room_loop_order nBlocks :
  forall fuel st st' ps,
    wait_room_loop env fuel nBlocks st = Ok st' ->
    flow_inv st -> write_inv st -> issue_core st ps ->
    exists ps', issue_core st' ps'.
Proof.
  induction fuel as [|fuel IH]; intros st st' ps H Hf Hw Hc.
  - cbn [wait_room_loop] in H. destruct (ioQ_ st); [injection H as <-; eauto|].
    destruct (queueSize_ env <? _); [discriminate|injection H as <-; eauto].
  - cbn [wait_room_loop] in H. destruct (ioQ_ st) eqn:E; [injection H as <-; eauto|].
    destruct (queueSize_ env <? _); [|injection H as <-; eauto].
    apply bind_ok in H as (st1 & G1 & G2).
    destruct (waitForAnIoCompletion_order _ _ _ G1 Hf Hw Hc) as (ps1 & C1).
    apply (IH st1 st' ps1 G2); [| |exact C1].
    + eapply (waitForAnIoCompletion_flow env); eassumption.
    + eapply (waitForAnIoCompletion_writes env); [exact G1|apply (fl_safe _ Hf)|exact Hw].
Qed.

Lemma prepareIos_order ioQ nBlocks st st' ps :
  prepareIos env ioQ nBlocks st = Ok st' ->
  Forall good_io ioQ ->
  flow_inv st -> write_inv st -> issue_core st ps ->
  exists ps', issue_core st' ps'.
Proof.
  unfold prepareIos. intros H Hgood Hf Hw Hc.
  apply bind_ok in H as (st1 & H1 & H2). injection H2 as <-.
  destruct (wait_room_loop_order _ _ _ _ _ H1 Hf Hw Hc) as (ps1 & C1).
  exists ps1. apply enqueue_loop_order; [exact Hgood|].
  destruct C1; constructor; assumption.
Qed.

Lemma engine_step_order st st' ps :
  engine_step env st st' ->
  flow_inv st -> write_inv st -> issue_core st ps ->
  exists ps', issue_core st' ps'.
Proof.
  intros [s s' H|s s' H|s s' H|s s' H|ioQ nBlocks s s' Hgood Hbound H] Hf Hw Hc.
  - exists ps. destruct H as (E1 & _ & _ & _ & _ & _ & _ & E8).
    destruct Hc as [C1 C2 C3 C4]. constructor; rewrite ?E1, ?E8; assumption.
  - destruct (submitIos_order _ _ _ H Hw Hc (order_hyps _ _ Hf Hw Hc)) as (ps' & C & _).
    exists ps'. exact C.
  - destruct (scheduleIos_order _ _ _ H Hw Hc (order_hyps _ _ Hf Hw Hc)) as (ps' & C & _).
    exists ps'. exact C.
  - eapply waitForAnIoCompletion_order; eassumption.
  - eapply prepareIos_order; eassumption.
Qed.

Lemma engine_run_order st st' ps :
  engine_run env st st' ->
  flow_inv st -> write_inv st -> issue_core st ps ->
  exists ps', issue_core st' ps'.
Proof.
  induction 1 as [s|s s1 s2 Hrun IH Hstep]; intros Hf Hw Hc; [eauto|].
  destruct (IH Hf Hw Hc) as (ps1 & C1).
  eapply engine_step_order; [exact Hstep| | |exact C1].
  - eapply (engine_run_flow env); eassumption.
  - eapply (engine_run_writes env); [exact Hrun|apply (fl_safe _ Hf)|exact Hw].
Qed.

Lemma issue_core_init : issue_core applyer_init [].
Proof.
  constructor; cbn.
  - reflexivity.
  - intros p. rewrite deref_out by (cbn; lia). cbn. split; [intros []|discriminate].
  - constructor.
  - exact I.
Qed.

Lemma in_log_order_split h ps :
  in_log_order h ps ->
  forall l1 p l2 q l3, ps = l1 ++ p :: l2 ++ q :: l3 -> log_order h p q.
Proof.
  intros H l1. revert ps H.
  induction l1 as [|a l1 IH]; intros ps H p l2 q l3 ->.
  - destruct H as [H _]. apply H. apply in_or_app. right. left. reflexivity.
  - destruct H as [_ H]. eapply IH; [exact H|reflexivity].
Qed.

End OrderFacts.

Section OrderTheorems.

Import Redo RedoOverlap RedoSafety RedoFlow RedoWrites RedoOrder.

(** Overlapping writes reach the device in the order of the log. When
    readAndApply returns, the writes issued to the device are, in the order
    of their issue, the writes of the submitted IOs, each once; and of two
    of them that overlap, the one that was created first was issued
    first. *)
Theorem readAndApply_issues_in_log_order :
  forall env recs st,
    env_ok env ->
    Forall (fun rb => rec_ok (fst rb)) recs ->
    readAndApply env recs applyer_init = Ok st ->
    Z.of_nat (length (heap st)) < 2 ^ 32 ->
    exists ps,
      map w_target (aio_issued (aio_ st))
      = map (fun p => io_target (deref (heap st) p)) ps
      /\ List.NoDup ps
      /\ (forall p, In p ps <-> isSubmitted_ (deref (heap st) p) = true)
      /\ (forall l1 p l2 q l3,
             ps = l1 ++ p :: l2 ++ q :: l3 ->
             isOverlapped (deref (heap st) p) (deref (heap st) q) = true ->
             (p < q)%nat).
Proof.
  intros env recs st Henv Hrecs H Hbound.
  pose proof (readAndApply_run env Henv recs _ _ Hrecs H Hbound) as Hrun.
  pose proof (engine_run_writes env _ _ Hrun safe_inv_init write_inv_init) as Hw.
  destruct (engine_run_order env _ _ [] Hrun flow_inv_init write_inv_init issue_core_init)
    as (ps & [C1 C2 C3 C4]).
  exists ps. unfold writes in C1. rewrite (wi_prepared _ Hw), app_nil_r in C1.
  split; [exact C1|]. split; [exact C3|]. split; [exact C2|].
  intros l1 p l2 q l3 E. apply (in_log_order_split _ _ C4 l1 p l2 q l3 E).
Qed.

End OrderTheorems.

Section OrderWitness.

Import Redo RedoOverlap RedoSafety RedoFlow RedoWrites RedoOrder.

Lemma readAndApply_issues_in_log_order_witness :
  exists st,
    readAndApply (env_of 1048576 512 2)
      [(write_record 0 2, [mkAlignedArray 4096 (repeat Byte.x11 512);
                           mkAlignedArray 20480 (repeat Byte.x11 512)]);
       (write_record 1 2, [mkAlignedArray 8192 (repeat Byte.x22 512);
                           mkAlignedArray 16384 (repeat Byte.x22 512)]);
       (write_record 8 1, [mkAlignedArray 12288 (repeat Byte.x33 512)])]
      applyer_init = Ok st
    /\ map w_offset (aio_issued (aio_ st)) = [0; 512; 512; 1024; 4096]
    /\ map w_buf (aio_issued (aio_ st)) = [4096; 20480; 8192; 16384; 12288]
    /\ exists ps,
        map w_target (aio_issued (aio_ st))
        = map (fun p => io_target (deref (heap st) p)) ps
        /\ List.NoDup ps
        /\ (forall l1 p l2 q l3,
               ps = l1 ++ p :: l2 ++ q :: l3 ->
               isOverlapped (deref (heap st) p) (deref (heap st) q) = true ->
               (p < q)%nat).
Proof.
  set (E := env_of 1048576 512 2).
  set (recs := [(write_record 0 2, [mkAlignedArray 4096 (repeat Byte.x11 512);
                                    mkAlignedArray 20480 (repeat Byte.x11 512)]);
                (write_record 1 2, [mkAlignedArray 8192 (repeat Byte.x22 512);
                                    mkAlignedArray 16384 (repeat Byte.x22 512)]);
                (write_record 8 1, [mkAlignedArray 12288 (repeat Byte.x33 512)])]).
  assert (He : env_ok E).
  { constructor; [reflexivity|split; [intro; discriminate|reflexivity]]. }
  assert (Hr : Forall (fun rb => rec_ok (fst rb)) recs).
  { repeat constructor; vm_compute; first [reflexivity | intro; discriminate]. }
  destruct (readAndApply E recs applyer_init) as [st|e] eqn:E1;
    [|exfalso; vm_compute in E1; discriminate].
  exists st. split; [reflexivity|].
  assert (Hall : Z.of_nat (length (heap st)) < 2 ^ 32 ->
                 exists ps,
                   map w_target (aio_issued (aio_ st))
                   = map (fun p => io_target (deref (heap st) p)) ps
                   /\ List.NoDup ps
                   /\ (forall l1 p l2 q l3,
                          ps = l1 ++ p :: l2 ++ q :: l3 ->
                          isOverlapped (deref (heap st) p) (deref (heap st) q) = true ->
                          (p < q)%nat)).
  { intros Hb.
    destruct (readAndApply_issues_in_log_order E recs st He Hr E1 Hb)
      as (ps & A & B & _ & D).
    exists ps. split; [exact A|]. split; [exact B|exact D]. }
  assert (H1 : Ok st = Ok st) by reflexivity.
  rewrite <- E1 in H1 at 1. vm_compute in H1. injection H1 as <-.
  split; [reflexivity|]. split; [reflexivity|].
  apply Hall. vm_compute. reflexivity.
Defined.

End OrderWitness.

(** ** Redo: IOs overwritten before their submission *)

Section Elision.

Import Redo RedoOverlap RedoSafety RedoFlow RedoWrites.




End Elision.
